(** * UV islands: border extraction, border extension and the islands mask

    A shallow embedding of [blender::bke::uv_islands] (the part of
    [gpencil_new_proposal_test.cc] that starts with [#include "BKE_uv_islands.hh"]).

    - Pointers into the append-only stores of an island ([UVVertex *],
      [UVEdge *], [UVPrimitive *]) are indices into lists; a dangling index
      or a null pointer that the program dereferences is undefined
      behaviour and is the result [None].
    - [float] is an abstract scalar type with the operations the code uses;
      [==] on floats is equality of the scalar type.
    - Loops whose termination is not structural carry fuel. *)

From Stdlib Require Import ZArith QArith Qabs Lia.
From stdpp Require Import base tactics option numbers list.

Open Scope nat_scope.

(** ** Scalars *)

(** The [float] operations and the functions of [BLI_math] that the code
    calls.  They are kept abstract: the development only relies on their
    types, and on order properties that are stated where they are used. *)
Class FloatOps (F : Type) := {
  F_eq_dec :: EqDecision F;
  f0 : F;                             (* 0.0f *)
  f1 : F;                             (* 1.0f *)
  f2 : F;                             (* 2.0f *)
  fhalf : F;                          (* 0.5f *)
  fadd : F → F → F;
  fsub : F → F → F;
  fmul : F → F → F;
  fdiv : F → F → F;
  fltb : F → F → bool;                (* a < b *)
  fleb : F → F → bool;                (* a <= b *)
  f_of_int : Z → F;                   (* int to float *)
  f_to_ushort : F → Z;                (* float to ushort *)
  M_PI : F;
  FLT_MAX : F;                        (* std::numeric_limits<float>::max() *)
  max_ff : F → F → F;
  min_ff : F → F → F;
  angle_signed_v2v2 : F * F → F * F → F;
  len_v2v2 : F * F → F * F → F;
  normalize_v2 : F * F → F * F;
  rotate_v2 : F → F * F → F * F;      (* float3x3::from_rotation(a) * v *)
}.

Section Scalars.
Context {F : Type} {O : FloatOps F}.

Definition float2 : Type := F * F.

Definition sub_v2 (a b : float2) : float2 := (fsub a.1 b.1, fsub a.2 b.2).
Definition add_v2 (a b : float2) : float2 := (fadd a.1 b.1, fadd a.2 b.2).
Definition mul_v2_fl (a : float2) (s : F) : float2 := (fmul a.1 s, fmul a.2 s).

Definition fgeb (a b : F) : bool := fleb b a.

End Scalars.

Arguments float2 F : clear implicits.

(** ** UVIslandsMask *)

Module Mask.

(** The [0xffff] sentinel of an unclaimed mask cell. *)
Definition unclaimed : Z := 0xffff.

(** [UVIslandsMask::Tile].  The resolutions are [ushort2]; the loops index
    the mask with [int]s, which never overflow for a [ushort] resolution
    shifted right by two. *)
Record Tile (F : Type) := mkTile {
  udim_offset : float2 F;
  tile_resolution : nat * nat;
  mask_resolution : nat * nat;
  mask : list Z;
}.
Arguments mkTile {F}.
Arguments udim_offset {F}.
Arguments tile_resolution {F}.
Arguments mask_resolution {F}.
Arguments mask {F}.

Definition set_mask {F} (t : Tile F) (m : list Z) : Tile F :=
  mkTile (udim_offset t) (tile_resolution t) (mask_resolution t) m.

Definition mask_resolution_from_tile_resolution (r : nat * nat) : nat * nat :=
  (Nat.max (Nat.shiftr r.1 2) 256, Nat.max (Nat.shiftr r.2 2) 256).

(** [Tile::Tile]: the mask is filled with [0xffff]. *)
Definition new_tile {F} (offset : float2 F) (res : nat * nat) : Tile F :=
  let mres := mask_resolution_from_tile_resolution res in
  mkTile offset res mres (replicate (mres.1 * mres.2) unclaimed).

(** One cell of the double loop of [dilate_x]: [prev] is the copy
    [prev_mask] taken on entry, [st] is the mask being written and the
    [changed] flag. *)
Definition dilate_x_cell (w : nat) (prev : list Z) (st : list Z * bool)
    (y x : nat) : list Z * bool :=
  let offset := y * w + x in
  if bool_decide (prev !!! offset ≠ unclaimed) then st
  else if bool_decide (x ≠ 0) && bool_decide (prev !!! (offset - 1) ≠ unclaimed)
  then (<[offset := prev !!! (offset - 1)]> st.1, true)
  else if bool_decide (x < w - 1) && bool_decide (prev !!! (offset + 1) ≠ unclaimed)
  then (<[offset := prev !!! (offset + 1)]> st.1, true)
  else st.

Definition dilate_y_cell (w h : nat) (prev : list Z) (st : list Z * bool)
    (y x : nat) : list Z * bool :=
  let offset := y * w + x in
  if bool_decide (prev !!! offset ≠ unclaimed) then st
  else if bool_decide (y ≠ 0) && bool_decide (prev !!! (offset - w) ≠ unclaimed)
  then (<[offset := prev !!! (offset - w)]> st.1, true)
  else if bool_decide (y < h - 1) && bool_decide (prev !!! (offset + w) ≠ unclaimed)
  then (<[offset := prev !!! (offset + w)]> st.1, true)
  else st.

(** [for y in 0..h: for x in 0..w: body]. *)
Definition grid_loop {S} (w h : nat) (body : S → nat → nat → S) (s : S) : S :=
  foldl (λ s y, foldl (λ s x, body s y x) s (seq 0 w)) s (seq 0 h).

Definition dilate_x {F} (t : Tile F) : Tile F * bool :=
  let prev := mask t in
  let '(w, h) := mask_resolution t in
  let r := grid_loop w h (dilate_x_cell w prev) (mask t, false) in
  (set_mask t r.1, r.2).

Definition dilate_y {F} (t : Tile F) : Tile F * bool :=
  let prev := mask t in
  let '(w, h) := mask_resolution t in
  let r := grid_loop w h (dilate_y_cell w h prev) (mask t, false) in
  (set_mask t r.1, r.2).

(** [dilate_tile]: [todo] counts the iterations that are left, that is
    [max_iterations - index]. *)
Fixpoint dilate_tile_loop {F} (todo : nat) (t : Tile F) : Tile F :=
  match todo with
  | 0 => t
  | S todo' =>
      let '(t1, changed_x) := dilate_x t in
      let '(t2, changed_y) := dilate_y t1 in
      if changed_x || changed_y then dilate_tile_loop todo' t2 else t2
  end.

(** [max_iterations] is an [int]; a negative bound runs no iteration. *)
Definition dilate_tile {F} (t : Tile F) (max_iterations : Z) : Tile F :=
  dilate_tile_loop (Z.to_nat max_iterations) t.

(** [UVIslandsMask] is the vector of its tiles. *)
Definition dilate {F} (tiles : list (Tile F)) (max_iterations : Z) : list (Tile F) :=
  (λ t, dilate_tile t max_iterations) <$> tiles.

Section WithFloat.
Context {F : Type} {O : FloatOps F}.

(** [IN_RANGE(a, b, c)] of [BLI_utildefines.h], which is not among the
    sources.  Modelled from the spec: [IN_RANGE] is not part of the sources;
    tile membership is a strict open interval, the value lies strictly
    between the two bounds. *)
Definition IN_RANGE (a b c : F) : bool :=
  if fltb b c then fltb b a && fltb a c else fltb c a && fltb a b.

Definition contains (t : Tile F) (uv : float2 F) : bool :=
  let tile_uv := sub_v2 uv (udim_offset t) in
  IN_RANGE tile_uv.1 f0 f1 && IN_RANGE tile_uv.2 f0 f1.

Definition get_pixel_size_in_uv_space (t : Tile F) : F :=
  min_ff (fdiv f1 (f_of_int (Z.of_nat (tile_resolution t).1)))
         (fdiv f1 (f_of_int (Z.of_nat (tile_resolution t).2))).

(** [Tile::is_masked]; the island index is a [uint16_t]. *)
Definition is_masked (t : Tile F) (island_index : Z) (uv : float2 F) : bool :=
  let local_uv := sub_v2 uv (udim_offset t) in
  if fltb local_uv.1 f0 || fltb local_uv.2 f0
     || fgeb local_uv.1 f1 || fgeb local_uv.2 f1
  then false
  else
    let rx := f_of_int (Z.of_nat (mask_resolution t).1) in
    let ry := f_of_int (Z.of_nat (mask_resolution t).2) in
    let px := f_to_ushort (fmul local_uv.1 rx) in
    let py := f_to_ushort (fmul local_uv.2 ry) in
    let offset := Z.to_nat (py * Z.of_nat (mask_resolution t).1 + px) in
    bool_decide (mask t !!! offset = island_index).

(** [UVIslandsMask::find_tile]: the first tile that contains [uv]. *)
Definition find_tile (tiles : list (Tile F)) (uv : float2 F) : option (Tile F) :=
  list_find (λ t, contains t uv = true) tiles ≫= λ r, Some r.2.


End WithFloat.

(** *** Vocabulary of the statements about dilation *)

(** Both dilation passes write, into the cell of offset [y * w + x], a value
    that only depends on the copy [prev]. *)
Definition write_step (w : nat) (upd : nat → nat → option Z)
    (st : list Z * bool) (c : nat * nat) : list Z * bool :=
  match upd c.1 c.2 with
  | Some v => (<[c.1 * w + c.2 := v]> st.1, true)
  | None => st
  end.

Definition upd_x (w : nat) (prev : list Z) (y x : nat) : option Z :=
  let offset := y * w + x in
  if bool_decide (prev !!! offset ≠ unclaimed) then None
  else if bool_decide (x ≠ 0) && bool_decide (prev !!! (offset - 1) ≠ unclaimed)
  then Some (prev !!! (offset - 1))
  else if bool_decide (x < w - 1) && bool_decide (prev !!! (offset + 1) ≠ unclaimed)
  then Some (prev !!! (offset + 1))
  else None.

Definition upd_y (w h : nat) (prev : list Z) (y x : nat) : option Z :=
  let offset := y * w + x in
  if bool_decide (prev !!! offset ≠ unclaimed) then None
  else if bool_decide (y ≠ 0) && bool_decide (prev !!! (offset - w) ≠ unclaimed)
  then Some (prev !!! (offset - w))
  else if bool_decide (y < h - 1) && bool_decide (prev !!! (offset + w) ≠ unclaimed)
  then Some (prev !!! (offset + w))
  else None.

Definition cells (w h : nat) : list (nat * nat) :=
  y ← seq 0 h; (λ x, (y, x)) <$> seq 0 w.

Section Claims.
Context {F : Type}.
Implicit Types t : Tile F.

(** The tile has the cell [(x, y)] claimed by [K] and every other cell
    unclaimed. *)
Definition single_claim t (x y : nat) (K : Z) : Prop :=
  let '(w, h) := mask_resolution t in
  x < w ∧ y < h ∧ length (mask t) = w * h ∧ K ≠ unclaimed ∧
  ∀ x' y', x' < w → y' < h →
    mask t !!! (y' * w + x') = if decide (x' = x ∧ y' = y) then K else unclaimed.

(** [(x', y')] is one of the four direct neighbours of [(x, y)]. *)
Definition neighbour4 (x y x' y' : nat) : Prop :=
  (x' = x ∧ (y' = y + 1 ∨ y' + 1 = y)) ∨ (y' = y ∧ (x' = x + 1 ∨ x' + 1 = x)).

(** A fixture: the freshly built tile with one cell stamped. *)
Definition stamped (offset : float2 F) (res : nat * nat) (x y : nat) (K : Z) : Tile F :=
  let t := new_tile offset res in
  set_mask t (<[y * (mask_resolution t).1 + x := K]> (mask t)).

End Claims.

End Mask.


(** ** Results of fallible code *)

(** [UB]: the program dereferences a null or dangling pointer, or indexes a
    vector out of range.  [Diverge]: a loop does not terminate (or the fuel
    of a fuelled loop ran out). *)
Inductive res (A : Type) : Type :=
  | Ret (a : A)
  | UB
  | Diverge.
Arguments Ret {A}.
Arguments UB {A}.
Arguments Diverge {A}.

#[global] Instance res_ret : MRet res := λ A a, Ret a.
#[global] Instance res_bind : MBind res := λ A B f m,
  match m with
  | Ret a => f a
  | UB => UB
  | Diverge => Diverge
  end.

(** Dereference of a pointer that is an index into a store. *)
Definition deref {A} (store : list A) (p : nat) : res A :=
  match store !! p with
  | Some a => Ret a
  | None => UB
  end.

(** Dereference of a pointer that may be null. *)
Definition nonnull {A} (p : option A) : res A :=
  match p with
  | Some a => Ret a
  | None => UB
  end.

(** Index of a vector by an [int64_t]. *)
Definition at_index {A} (v : list A) (i : Z) : res A :=
  if bool_decide (0 ≤ i)%Z then deref v (Z.to_nat i) else UB.

(** [for x in xs: body] in the [res] monad. *)
Fixpoint foldM {A S} (body : S → A → res S) (s : S) (xs : list A) : res S :=
  match xs with
  | [] => Ret s
  | x :: xs' => s' ← body s x; foldM body s' xs'
  end.

(** [Vector::append_non_duplicates]. *)
Definition append_non_duplicates (l : list nat) (x : nat) : list nat :=
  if bool_decide (x ∈ l) then l else l ++ [x].

(** ** The mesh adjacency view

    [MeshVertex], [MeshEdge], [MeshUVVert], [MeshPrimitive] and [MeshData] of
    [BKE_uv_islands.hh]; a pointer to one of them is its index in
    [MeshData]. *)

Module MeshVertex.
Record t := mk {
  v : Z;
  edges : list nat;              (* MeshEdge * *)
}.
End MeshVertex.

Module MeshEdge.
Record t := mk {
  vert1 : nat;                   (* MeshVertex * *)
  vert2 : nat;
  primitives : list nat;         (* MeshPrimitive * *)
}.
End MeshEdge.

Module MeshUVVert.
Record t (F : Type) := mk {
  vertex : nat;                  (* MeshVertex * *)
  uv : float2 F;
}.
Arguments mk {F}.
Arguments vertex {F}.
Arguments uv {F}.
End MeshUVVert.

Module MeshPrimitive.
Record t (F : Type) := mk {
  index : Z;
  edges : list nat;              (* MeshEdge *, three of them *)
  vertices : list (MeshUVVert.t F);   (* three of them *)
  uv_island_id : Z;
}.
Arguments mk {F}.
Arguments index {F}.
Arguments edges {F}.
Arguments vertices {F}.
Arguments uv_island_id {F}.
End MeshPrimitive.

Module MeshData.
Record t (F : Type) := mk {
  vertices : list MeshVertex.t;
  edges : list MeshEdge.t;
  primitives : list (MeshPrimitive.t F);
  uv_island_len : Z;
}.
Arguments mk {F}.
Arguments vertices {F}.
Arguments edges {F}.
Arguments primitives {F}.
Arguments uv_island_len {F}.
End MeshData.

(** ** The UV topology store *)

Module UVVertex.
Record t (F : Type) := mk {
  vertex : nat;                  (* MeshVertex * *)
  uv : float2 F;
  uv_edges : list nat;           (* UVEdge * *)
  is_border : bool;              (* flags.is_border *)
  is_extended : bool;            (* flags.is_extended *)
}.
Arguments mk {F}.
Arguments vertex {F}.
Arguments uv {F}.
Arguments uv_edges {F}.
Arguments is_border {F}.
Arguments is_extended {F}.
End UVVertex.

Module UVEdge.
Record t := mk {
  vertices : nat * nat;          (* std::array<UVVertex *, 2> *)
  uv_primitives : list nat;      (* UVPrimitive * *)
}.
End UVEdge.

Module UVPrimitive.
Record t := mk {
  primitive : nat;               (* MeshPrimitive * *)
  edges : list nat;              (* UVEdge * *)
}.
End UVPrimitive.

Module UVBorderEdge.
Record t := mk {
  edge : nat;                    (* UVEdge * *)
  tag : bool;
  uv_primitive : nat;            (* UVPrimitive * *)
  reverse_order : bool;
  index : Z;
  prev_index : Z;
  next_index : Z;
  border_index : Z;
}.
End UVBorderEdge.

Module UVBorder.
Record t := mk {
  edges : list UVBorderEdge.t;
}.
End UVBorder.

(** [first] and [second] point to border edges that live in the edge vector
    of a border of the island: a pointer is the position of the border in
    [UVIsland::borders] and the slot in [UVBorder::edges]. *)
Module UVBorderCorner.
Record t (F : Type) := mk {
  first : nat * nat;
  second : nat * nat;
  angle : F;
}.
Arguments mk {F}.
Arguments first {F}.
Arguments second {F}.
Arguments angle {F}.
End UVBorderCorner.

Module UVIsland.
Record t (F : Type) := mk {
  uv_vertices : list (UVVertex.t F);
  uv_edges : list UVEdge.t;
  uv_primitives : list UVPrimitive.t;
  borders : list UVBorder.t;
}.
Arguments mk {F}.
Arguments uv_vertices {F}.
Arguments uv_edges {F}.
Arguments uv_primitives {F}.
Arguments borders {F}.
End UVIsland.

(** ** Border edges, borders and their extraction *)

Section Islands.
Context {F : Type} {O : FloatOps F}.

Implicit Types isl : UVIsland.t F.
Implicit Types be : UVBorderEdge.t.
Implicit Types b : UVBorder.t.

(** Field updates. *)
Definition set_tag be (x : bool) : UVBorderEdge.t :=
  UVBorderEdge.mk (UVBorderEdge.edge be) x (UVBorderEdge.uv_primitive be)
    (UVBorderEdge.reverse_order be) (UVBorderEdge.index be)
    (UVBorderEdge.prev_index be) (UVBorderEdge.next_index be)
    (UVBorderEdge.border_index be).
Definition set_reverse_order be (x : bool) : UVBorderEdge.t :=
  UVBorderEdge.mk (UVBorderEdge.edge be) (UVBorderEdge.tag be)
    (UVBorderEdge.uv_primitive be) x (UVBorderEdge.index be)
    (UVBorderEdge.prev_index be) (UVBorderEdge.next_index be)
    (UVBorderEdge.border_index be).
Definition set_edge be (x : nat) : UVBorderEdge.t :=
  UVBorderEdge.mk x (UVBorderEdge.tag be) (UVBorderEdge.uv_primitive be)
    (UVBorderEdge.reverse_order be) (UVBorderEdge.index be)
    (UVBorderEdge.prev_index be) (UVBorderEdge.next_index be)
    (UVBorderEdge.border_index be).
Definition set_uv_primitive be (x : nat) : UVBorderEdge.t :=
  UVBorderEdge.mk (UVBorderEdge.edge be) (UVBorderEdge.tag be) x
    (UVBorderEdge.reverse_order be) (UVBorderEdge.index be)
    (UVBorderEdge.prev_index be) (UVBorderEdge.next_index be)
    (UVBorderEdge.border_index be).
Definition set_indexes be (index prev next border_index : Z) : UVBorderEdge.t :=
  UVBorderEdge.mk (UVBorderEdge.edge be) (UVBorderEdge.tag be)
    (UVBorderEdge.uv_primitive be) (UVBorderEdge.reverse_order be)
    index prev next border_index.

Definition set_uv_vertices isl (x : list (UVVertex.t F)) : UVIsland.t F :=
  UVIsland.mk x (UVIsland.uv_edges isl) (UVIsland.uv_primitives isl) (UVIsland.borders isl).
Definition set_uv_edges isl (x : list UVEdge.t) : UVIsland.t F :=
  UVIsland.mk (UVIsland.uv_vertices isl) x (UVIsland.uv_primitives isl) (UVIsland.borders isl).
Definition set_uv_primitives isl (x : list UVPrimitive.t) : UVIsland.t F :=
  UVIsland.mk (UVIsland.uv_vertices isl) (UVIsland.uv_edges isl) x (UVIsland.borders isl).
Definition set_borders isl (x : list UVBorder.t) : UVIsland.t F :=
  UVIsland.mk (UVIsland.uv_vertices isl) (UVIsland.uv_edges isl) (UVIsland.uv_primitives isl) x.

(** Modelled from the spec: the constructor [UVBorderEdge(edge, uv_primitive)]
    of [BKE_uv_islands.hh] is not part of the sources; a border edge is a
    [UVEdge *], an orientation flag and an owning [UVPrimitive *] with its
    links into the cycle; a fresh one is untagged, not reversed, and its
    links are unset (-1). *)
Definition UVBorderEdge_new (edge uv_primitive : nat) : UVBorderEdge.t :=
  UVBorderEdge.mk edge false uv_primitive false (-1) (-1) (-1) (-1).

(** [v->uv] for a [UVVertex *]. *)
Definition uv_of isl (v : nat) : res (float2 F) :=
  x ← deref (UVIsland.uv_vertices isl) v; Ret (UVVertex.uv x).

(** Modelled from the spec: [UVBorderEdge::get_uv_vertex(index)] is not part
    of the sources; it is the vertex of the edge at [index] (0: start, 1:
    end), taken from the other end when [reverse_order] is set. *)
Definition UVBorderEdge_get_uv_vertex isl be (index : nat) : res nat :=
  e ← deref (UVIsland.uv_edges isl) (UVBorderEdge.edge be);
  let actual_index := if UVBorderEdge.reverse_order be then 1 - index else index in
  Ret (if bool_decide (actual_index = 0) then (UVEdge.vertices e).1
       else (UVEdge.vertices e).2).

(** [border_edge.get_uv_vertex(index)->uv]. *)
Definition border_edge_uv isl be (index : nat) : res (float2 F) :=
  v ← UVBorderEdge_get_uv_vertex isl be index; uv_of isl v.

(** Modelled from the spec: [UVPrimitive::get_other_uv_vertex(v1, v2)] is not
    part of the sources; it is the first vertex, over the edges of the
    primitive and the two vertices of each, that is neither [v1] nor [v2]
    (null when there is none). *)
Definition UVPrimitive_get_other_uv_vertex isl (p : UVPrimitive.t) (v1 v2 : nat)
    : res (option nat) :=
  foldM (λ (found : option nat) (ei : nat),
           match found with
           | Some _ => Ret found
           | None =>
               e ← deref (UVIsland.uv_edges isl) ei;
               let '(a, c) := UVEdge.vertices e in
               if bool_decide (a ≠ v1 ∧ a ≠ v2) then Ret (Some a)
               else if bool_decide (c ≠ v1 ∧ c ≠ v2) then Ret (Some c)
               else Ret None
           end) None (UVPrimitive.edges p).

(** Modelled from the spec: [UVBorderEdge::get_other_uv_vertex()] is not part
    of the sources; it is the vertex of the owning primitive that is not on
    the edge. *)
Definition UVBorderEdge_get_other_uv_vertex isl be : res (option nat) :=
  p ← deref (UVIsland.uv_primitives isl) (UVBorderEdge.uv_primitive be);
  e ← deref (UVIsland.uv_edges isl) (UVBorderEdge.edge be);
  UVPrimitive_get_other_uv_vertex isl p (UVEdge.vertices e).1 (UVEdge.vertices e).2.

(** Modelled from the spec: [UVBorderEdge::length()] is not part of the
    sources; it is the UV distance between the two vertices of the edge. *)
Definition UVBorderEdge_length isl be : res F :=
  e ← deref (UVIsland.uv_edges isl) (UVBorderEdge.edge be);
  uv0 ← uv_of isl (UVEdge.vertices e).1;
  uv1 ← uv_of isl (UVEdge.vertices e).2;
  Ret (len_v2v2 uv0 uv1).

(** Modelled from the spec: [UVEdge::is_border_edge()] is not part of the
    sources; an edge used by exactly one primitive is a border edge. *)
Definition UVEdge_is_border_edge (e : UVEdge.t) : bool :=
  bool_decide (length (UVEdge.uv_primitives e) = 1).

(** [UVBorder::update_indexes].  The operands of [%] are not negative. *)
Definition UVBorder_update_indexes b (border_index : Z) : UVBorder.t :=
  let size := Z.of_nat (length (UVBorder.edges b)) in
  UVBorder.mk
    (imap (λ (i : nat) be,
             set_indexes be (Z.of_nat i)
               ((Z.of_nat i - 1 + size) mod size)
               ((Z.of_nat i + 1) mod size)
               border_index)
          (UVBorder.edges b)).

(** The [for] loop inside the [while] loop of [extract_from_edges]: the
    first untagged edge with a vertex at [current_uv] is oriented, tagged
    and returned with the edges as they are after its update and with the
    new [current_uv]; [None] when the loop ends without a [break]. *)
Fixpoint extract_scan isl (current_uv : float2 F) (edges : list UVBorderEdge.t)
    : res (option (list UVBorderEdge.t * UVBorderEdge.t * float2 F)) :=
  match edges with
  | [] => Ret None
  | be :: rest =>
      let skip :=
        r ← extract_scan isl current_uv rest;
        Ret (match r with
             | Some (rest', be', uv') => Some (be :: rest', be', uv')
             | None => None
             end) in
      if UVBorderEdge.tag be then skip
      else
        e ← deref (UVIsland.uv_edges isl) (UVBorderEdge.edge be);
        uv0 ← uv_of isl (UVEdge.vertices e).1;
        if bool_decide (uv0 = current_uv) then
          let be' := set_tag (set_reverse_order be false) true in
          uv' ← border_edge_uv isl be' 1;
          Ret (Some (be' :: rest, be', uv'))
        else
          uv1 ← uv_of isl (UVEdge.vertices e).2;
          if bool_decide (uv1 = current_uv) then
            let be' := set_tag (set_reverse_order be true) true in
            uv' ← border_edge_uv isl be' 1;
            Ret (Some (be' :: rest, be', uv'))
          else skip
  end.

(** [while (current_uv != first_uv)].  An iteration whose [for] loop finds no
    edge changes nothing, so the loop spins for ever: [Diverge].  Every other
    iteration tags one more edge, so the fuel [length edges] that
    [extract_from_edges] passes never runs out before that. *)
Fixpoint extract_walk (fuel : nat) isl (first_uv current_uv : float2 F)
    (edges border : list UVBorderEdge.t)
    : res (list UVBorderEdge.t * list UVBorderEdge.t) :=
  if bool_decide (current_uv = first_uv) then Ret (border, edges)
  else
    match fuel with
    | 0 => Diverge
    | S fuel' =>
        r ← extract_scan isl current_uv edges;
        match r with
        | None => Diverge
        | Some (edges', be', uv') =>
            extract_walk fuel' isl first_uv uv' edges' (border ++ [be'])
        end
    end.

(** [UVBorder::extract_from_edges]: the result and the candidate edges with
    their tags and orientations as the call leaves them. *)
Definition UVBorder_extract_from_edges isl (edges : list UVBorderEdge.t)
    : res (option UVBorder.t * list UVBorderEdge.t) :=
  match list_find (λ be, UVBorderEdge.tag be = false) edges with
  | None => Ret (None, edges)
  | Some (i, starting_border_edge) =>
      let edges1 := <[i := set_tag starting_border_edge true]> edges in
      first_uv ← border_edge_uv isl starting_border_edge 0;
      current_uv ← border_edge_uv isl starting_border_edge 1;
      r ← extract_walk (length edges) isl first_uv current_uv edges1
            [starting_border_edge];
      Ret (Some (UVBorder.mk r.1), r.2)
  end.

(** Modelled from the spec: [cross_poly_v2] of [BLI_math] is not part of the
    sources; it is the signed area of the polygon by the trapezium rule,
    negative for a counter-clockwise polygon (the code names [ccw] the test
    that it is below zero). *)
Definition cross_poly_v2 (verts : list (float2 F)) : F :=
  match verts !! (length verts - 1) with
  | None => f0
  | Some co_last =>
      (foldl (λ '(cross, co_prev) co_curr,
                (fadd cross (fmul (fsub co_curr.1 co_prev.1)
                                  (fadd co_curr.2 co_prev.2)), co_curr))
             (f0, co_last) verts).1
  end.

(** [UVBorder::is_ccw]. *)
Definition UVBorder_is_ccw isl b : res bool :=
  edge ← nonnull (head (UVBorder.edges b));
  uv_vertex1 ← UVBorderEdge_get_uv_vertex isl edge 0;
  uv_vertex2 ← UVBorderEdge_get_uv_vertex isl edge 1;
  uv_vertex3 ← UVBorderEdge_get_other_uv_vertex isl edge ≫= nonnull;
  p0 ← uv_of isl uv_vertex1;
  p1 ← uv_of isl uv_vertex2;
  p2 ← uv_of isl uv_vertex3;
  Ret (fltb (cross_poly_v2 [p0; p1; p2]) f0).

(** [UVBorder::flip]. *)
Definition UVBorder_flip b : res UVBorder.t :=
  first ← nonnull (head (UVBorder.edges b));
  let border_index := UVBorderEdge.border_index first in
  let flipped :=
    (λ be, set_reverse_order be (negb (UVBorderEdge.reverse_order be)))
      <$> UVBorder.edges b in
  Ret (UVBorder_update_indexes (UVBorder.mk (reverse flipped)) border_index).

(** [UVBorder::outside_angle]. *)
Definition UVBorder_outside_angle isl b (edge : UVBorderEdge.t) : res F :=
  prev ← at_index (UVBorder.edges b) (UVBorderEdge.prev_index edge);
  p1 ← border_edge_uv isl prev 1;
  p0 ← border_edge_uv isl prev 0;
  e1 ← border_edge_uv isl edge 1;
  e0 ← border_edge_uv isl edge 0;
  Ret (fsub M_PI (angle_signed_v2v2 (sub_v2 p1 p0) (sub_v2 e1 e0))).

(** The border edges that [UVIsland::extract_borders] collects. *)
Definition border_edges_of_island isl : res (list UVBorderEdge.t) :=
  foldM (λ (acc : list UVBorderEdge.t) (ip : nat * UVPrimitive.t),
           foldM (λ (acc : list UVBorderEdge.t) (ei : nat),
                    e ← deref (UVIsland.uv_edges isl) ei;
                    Ret (if UVEdge_is_border_edge e
                         then acc ++ [UVBorderEdge_new ei ip.1] else acc))
                 acc (UVPrimitive.edges ip.2))
        [] (imap pair (UVIsland.uv_primitives isl)).

(** The [while (true)] loop of [UVIsland::extract_borders]. *)
Fixpoint extract_borders_loop (fuel : nat) isl (edges : list UVBorderEdge.t)
    (borders : list UVBorder.t) : res (list UVBorder.t) :=
  match fuel with
  | 0 => Diverge
  | S fuel' =>
      r ← UVBorder_extract_from_edges isl edges;
      match r.1 with
      | None => Ret borders
      | Some border =>
          ccw ← UVBorder_is_ccw isl border;
          border' ← (if (ccw : bool) then Ret border else UVBorder_flip border);
          extract_borders_loop fuel' isl r.2 (borders ++ [border'])
      end
  end.

(** [UVIsland::extract_borders].  Every extracted border tags at least one
    edge, so the loop runs at most [length edges + 1] times. *)
Definition UVIsland_extract_borders isl : res (UVIsland.t F) :=
  edges ← border_edges_of_island isl;
  borders ← extract_borders_loop (S (length edges)) isl edges (UVIsland.borders isl);
  Ret (set_borders isl borders).

(** [sharpest_border_corner] on one border; [bpos] is the position of
    the border in the island, for the pointers of the corner. *)
Definition sharpest_border_corner_in isl (bpos : nat) b
    : res (option (UVBorderCorner.t F) * F) :=
  foldM (λ (st : option (UVBorderCorner.t F) * F) (slot : nat * UVBorderEdge.t),
           let '(result, r_angle) := st in
           let '(pos, edge) := slot in
           uv_vertex ← UVBorderEdge_get_uv_vertex isl edge 0;
           vert ← deref (UVIsland.uv_vertices isl) uv_vertex;
           if negb (UVVertex.is_border vert) || UVVertex.is_extended vert
           then Ret (result, r_angle)
           else
             new_angle ← UVBorder_outside_angle isl b edge;
             if fltb new_angle r_angle
             then Ret (Some (UVBorderCorner.mk
                               (bpos, Z.to_nat (UVBorderEdge.prev_index edge))
                               (bpos, pos) new_angle), new_angle)
             else Ret (result, r_angle))
        (None, FLT_MAX) (imap pair (UVBorder.edges b)).

(** [sharpest_border_corner] on the island. *)
Definition sharpest_border_corner isl : res (option (UVBorderCorner.t F)) :=
  r ← foldM (λ (st : option (UVBorderCorner.t F) * F) (slot : nat * UVBorder.t),
               let '(result, sharpest_angle) := st in
               new ← sharpest_border_corner_in isl slot.1 slot.2;
               if fltb new.2 sharpest_angle
               then Ret (new.1, new.2)
               else Ret (result, sharpest_angle))
            (None, FLT_MAX) (imap pair (UVIsland.borders isl));
  Ret r.1.

(** *** Vocabulary of the statements about the corner selection *)

(** The corners that the selection considers on one border, in the order of
    the iteration: one for every border edge that starts at a vertex flagged
    [is_border] and not [is_extended], with its outside angle. *)
Definition candidate_corners_in isl (bpos : nat) b : res (list (UVBorderCorner.t F)) :=
  foldM (λ (acc : list (UVBorderCorner.t F)) (slot : nat * UVBorderEdge.t),
           uv_vertex ← UVBorderEdge_get_uv_vertex isl slot.2 0;
           vert ← deref (UVIsland.uv_vertices isl) uv_vertex;
           if UVVertex.is_border vert && negb (UVVertex.is_extended vert)
           then
             angle ← UVBorder_outside_angle isl b slot.2;
             Ret (acc ++ [UVBorderCorner.mk
                            (bpos, Z.to_nat (UVBorderEdge.prev_index slot.2))
                            (bpos, slot.1) angle])
           else Ret acc)
        [] (imap pair (UVBorder.edges b)).

(** The corners that the selection considers on the island, border after
    border. *)
Definition candidate_corners isl : res (list (UVBorderCorner.t F)) :=
  foldM (λ (acc : list (UVBorderCorner.t F)) (slot : nat * UVBorder.t),
           cs ← candidate_corners_in isl slot.1 slot.2; Ret (acc ++ cs))
        [] (imap pair (UVIsland.borders isl)).

(** The corner [c] is one that the selection considers: its second edge is
    a border edge of the island that starts at a vertex flagged [is_border]
    and not [is_extended], its first edge is the previous edge of that
    border, and its angle is pi minus the signed angle between the UV
    directions of the two edges. *)
Definition considered isl (c : UVBorderCorner.t F) : Prop :=
  ∃ b edge prev v x p0 p1 e0 e1,
    UVIsland.borders isl !! (UVBorderCorner.second c).1 = Some b
    ∧ UVBorder.edges b !! (UVBorderCorner.second c).2 = Some edge
    ∧ UVBorderCorner.first c
      = ((UVBorderCorner.second c).1, Z.to_nat (UVBorderEdge.prev_index edge))
    ∧ at_index (UVBorder.edges b) (UVBorderEdge.prev_index edge) = Ret prev
    ∧ UVBorderEdge_get_uv_vertex isl edge 0 = Ret v
    ∧ UVIsland.uv_vertices isl !! v = Some x
    ∧ UVVertex.is_border x = true ∧ UVVertex.is_extended x = false
    ∧ border_edge_uv isl prev 0 = Ret p0 ∧ border_edge_uv isl prev 1 = Ret p1
    ∧ border_edge_uv isl edge 0 = Ret e0 ∧ border_edge_uv isl edge 1 = Ret e1
    ∧ UVBorderCorner.angle c
      = fsub M_PI (angle_signed_v2v2 (sub_v2 p1 p0) (sub_v2 e1 e0)).

(** The border edge at the slot [pos] of the border [bpos] starts at a
    vertex that may be extended. *)
Definition extendable_slot isl (bpos pos : nat) : Prop :=
  ∃ b edge v x,
    UVIsland.borders isl !! bpos = Some b
    ∧ UVBorder.edges b !! pos = Some edge
    ∧ UVBorderEdge_get_uv_vertex isl edge 0 = Ret v
    ∧ UVIsland.uv_vertices isl !! v = Some x
    ∧ UVVertex.is_border x = true ∧ UVVertex.is_extended x = false.

(** The running minimum over a list of corners. *)
Definition pick_sharpest (cs : list (UVBorderCorner.t F))
    (st : option (UVBorderCorner.t F) * F) : option (UVBorderCorner.t F) * F :=
  foldl (λ st c, if fltb (UVBorderCorner.angle c) st.2
                 then (Some c, UVBorderCorner.angle c) else st) st cs.

(** [c], at position [i] of [cs], is the first of the corners of [cs] with
    the smallest angle: no corner has a smaller angle, and the corners
    before it have a larger one. *)
Definition first_minimum (cs : list (UVBorderCorner.t F)) (i : nat)
    (c : UVBorderCorner.t F) : Prop :=
  cs !! i = Some c
  ∧ (∀ j c', cs !! j = Some c' →
       fltb (UVBorderCorner.angle c') (UVBorderCorner.angle c) = false)
  ∧ (∀ j c', cs !! j = Some c' → j < i →
       fltb (UVBorderCorner.angle c) (UVBorderCorner.angle c') = true).

(** *** Vocabulary of the statements about border extraction *)

(** The cyclic closure of a border: the end of every edge is at the UV
    coordinate where the next edge, cyclically, starts. *)
Definition closed_border isl b : Prop :=
  ∀ i be be',
    UVBorder.edges b !! i = Some be →
    UVBorder.edges b !! ((i + 1) mod length (UVBorder.edges b)) = Some be' →
    ∃ uv, border_edge_uv isl be 1 = Ret uv ∧ border_edge_uv isl be' 0 = Ret uv.

(** The edges [bs] form a chain from the UV [first_uv] to the UV
    [current_uv]. *)
Definition chain isl (first_uv current_uv : float2 F) (bs : list UVBorderEdge.t) : Prop :=
  (∃ be0, head bs = Some be0 ∧ border_edge_uv isl be0 0 = Ret first_uv)
  ∧ (∃ bel, last bs = Some bel ∧ border_edge_uv isl bel 1 = Ret current_uv)
  ∧ ∀ i be be', bs !! i = Some be → bs !! S i = Some be' →
      ∃ uv, border_edge_uv isl be 1 = Ret uv ∧ border_edge_uv isl be' 0 = Ret uv.

(** The border [b] is the border [e] flipped: the edges in reverse order,
    each with its [reverse_order] toggled. *)
Definition flipped (e b : UVBorder.t) : Prop :=
  length (UVBorder.edges b) = length (UVBorder.edges e)
  ∧ ∀ i be', UVBorder.edges b !! i = Some be' →
      ∃ be, UVBorder.edges e !! (length (UVBorder.edges e) - 1 - i) = Some be
            ∧ UVBorderEdge.edge be' = UVBorderEdge.edge be
            ∧ UVBorderEdge.uv_primitive be' = UVBorderEdge.uv_primitive be
            ∧ UVBorderEdge.reverse_order be' = negb (UVBorderEdge.reverse_order be).

(** [is_ccw] tests the triangle at the first edge of the border: the start
    and the end of the edge and the vertex of its primitive that is not on
    the edge. *)
Definition first_corner_ccw isl (e : UVBorder.t) (ccw : bool) : Prop :=
  ∃ first v3 p0 p1 p2,
    head (UVBorder.edges e) = Some first
    ∧ border_edge_uv isl first 0 = Ret p0
    ∧ border_edge_uv isl first 1 = Ret p1
    ∧ UVBorderEdge_get_other_uv_vertex isl first = Ret (Some v3)
    ∧ uv_of isl v3 = Ret p2
    ∧ ccw = fltb (cross_poly_v2 [p0; p1; p2]) f0.

(** The border [b] is what [extract_borders] makes of an extracted border
    [e]: [e] itself when [is_ccw] holds for it, and its flip otherwise. *)
Definition normalized isl b : Prop :=
  ∃ edges edges' e,
    UVBorder_extract_from_edges isl edges = Ret (Some e, edges')
    ∧ ((UVBorder_is_ccw isl e = Ret true ∧ b = e)
       ∨ (UVBorder_is_ccw isl e = Ret false ∧ UVBorder_flip e = Ret b)).

(** The UV coordinates of the two vertices of the edge of a border edge. *)
Definition ends isl be : res (float2 F * float2 F) :=
  e ← deref (UVIsland.uv_edges isl) (UVBorderEdge.edge be);
  uv0 ← uv_of isl (UVEdge.vertices e).1;
  uv1 ← uv_of isl (UVEdge.vertices e).2;
  Ret (uv0, uv1).

(** How many ends of untagged candidate edges lie at the UV coordinate [p]. *)
Definition ends_at (p : float2 F) (r : res (float2 F * float2 F)) : nat :=
  match r with
  | Ret (uv0, uv1) =>
      (if bool_decide (uv0 = p) then 1 else 0) + (if bool_decide (uv1 = p) then 1 else 0)
  | _ => 0
  end.

Fixpoint degree isl (p : float2 F) (edges : list UVBorderEdge.t) : nat :=
  match edges with
  | [] => 0
  | be :: rest =>
      (if UVBorderEdge.tag be then 0 else ends_at p (ends isl be)) + degree isl p rest
  end.

(** The untagged candidate edges can be walked as closed cycles: their
    vertices exist, and every UV coordinate is the end of an even number of
    them. *)
Definition balanced isl (edges : list UVBorderEdge.t) : Prop :=
  (∀ be, be ∈ edges → UVBorderEdge.tag be = false → ∃ ab, ends isl be = Ret ab)
  ∧ ∀ p, Nat.even (degree isl p edges) = true.

(** A candidate edge in one of its orientations, tagged. *)
Definition oriented (c : UVBorderEdge.t) (r : bool) : UVBorderEdge.t :=
  set_tag (set_reverse_order c r) true.

(** The border edge [be] of a border is the candidate [c], taken in one of
    its two orientations. *)
Definition same_edge (be c : UVBorderEdge.t) : Prop :=
  UVBorderEdge.edge be = UVBorderEdge.edge c
  ∧ UVBorderEdge.uv_primitive be = UVBorderEdge.uv_primitive c.

(** The candidate edges that are still untagged. *)
Definition untagged (edges : list UVBorderEdge.t) : list UVBorderEdge.t :=
  filter (λ be, UVBorderEdge.tag be = false) edges.

(** The candidates [edges'] after a walk that consumed the border edges
    [bs] of the candidates [edges]: every edge of [bs] is a candidate that
    was untagged and is tagged now, and the candidates that are still
    untagged are as they were. *)
Definition consumed (edges edges' bs : list UVBorderEdge.t) : Prop :=
  (∀ j c', edges' !! j = Some c' → UVBorderEdge.tag c' = false → edges !! j = Some c')
  ∧ ∀ be, be ∈ bs →
      ∃ j c c', edges !! j = Some c ∧ UVBorderEdge.tag c = false
                ∧ edges' !! j = Some c' ∧ UVBorderEdge.tag c' = true
                ∧ same_edge be c ∧ same_edge c' c.

(** Twice the signed area of a border by the shoelace formula, over the UV
    coordinates where its edges start; positive for a counter-clockwise
    cycle. *)
Definition shoelace2 isl b : res F :=
  uvs ← foldM (λ (acc : list (float2 F)) be,
                 uv ← border_edge_uv isl be 0; Ret (acc ++ [uv]))
              [] (UVBorder.edges b);
  Ret (foldl (λ (sum : F) (i : nat),
                match uvs !! i, uvs !! ((i + 1) mod length uvs) with
                | Some p, Some q =>
                    fadd sum (fsub (fmul p.1 q.2) (fmul q.1 p.2))
                | _, _ => sum
                end)
             f0 (seq 0 (length uvs))).

End Islands.

(** ** The topology store and the vertex fan *)

Module InnerEdge.
(** [uvs] holds [None] where the array is still uninitialised. *)
Record t (F : Type) := mk {
  primitive : nat;               (* MeshPrimitive * *)
  uvs : list (option (float2 F));
  vert_order : nat * nat * nat;
  found : bool;                  (* flags.found *)
}.
Arguments mk {F}.
Arguments primitive {F}.
Arguments uvs {F}.
Arguments vert_order {F}.
Arguments found {F}.
End InnerEdge.

Module Fan.
Record t (F : Type) := mk {
  inner_edges : list (InnerEdge.t F);
  full : bool;                   (* flags.full *)
}.
Arguments mk {F}.
Arguments inner_edges {F}.
Arguments full {F}.
End Fan.

Section Store.
Context {F : Type} {O : FloatOps F}.
Variable mesh : MeshData.t F.

Implicit Types isl : UVIsland.t F.
Implicit Types be : UVBorderEdge.t.

Definition set_vertex_uv_edges (x : UVVertex.t F) (es : list nat) : UVVertex.t F :=
  UVVertex.mk (UVVertex.vertex x) (UVVertex.uv x) es
    (UVVertex.is_border x) (UVVertex.is_extended x).
Definition set_vertex_flags (x : UVVertex.t F) (border extended : bool) : UVVertex.t F :=
  UVVertex.mk (UVVertex.vertex x) (UVVertex.uv x) (UVVertex.uv_edges x) border extended.

(** The constructors [UVVertex()] with its fields assigned, and
    [UVVertex(const MeshUVVert &)]: the flags of a new vertex are unset. *)
Definition UVVertex_new (vertex : nat) (uv : float2 F) : UVVertex.t F :=
  UVVertex.mk vertex uv [] false false.

(** [get_uv_vert]: [BLI_assert_unreachable] is empty in a release build, the
    function then returns [vertices[0]]. *)
Definition get_uv_vert (prim : MeshPrimitive.t F) (vert : nat) : res (MeshUVVert.t F) :=
  match list_find (λ x, MeshUVVert.vertex x = vert) (MeshPrimitive.vertices prim) with
  | Some r => Ret r.2
  | None => deref (MeshPrimitive.vertices prim) 0
  end.

(** [has_vertex]; a primitive has three vertices. *)
Definition has_vertex (prim : MeshPrimitive.t F) (mesh_vertex : nat) : bool :=
  bool_decide (Exists (λ x, MeshUVVert.vertex x = mesh_vertex)
                      (take 3 (MeshPrimitive.vertices prim))).

(** Modelled from the spec: [MeshPrimitive::get_other_uv_vertex(v1, v2)] is
    not part of the sources; it is the first vertex of the triangle that is
    neither [v1] nor [v2] (null when there is none). *)
Definition MeshPrimitive_get_other_uv_vertex (prim : MeshPrimitive.t F)
    (v1 v2 : nat) : option (MeshUVVert.t F) :=
  snd <$> list_find (λ x, MeshUVVert.vertex x ≠ v1 ∧ MeshUVVert.vertex x ≠ v2)
                    (MeshPrimitive.vertices prim).

(** Modelled from the spec: [UVIsland::lookup_or_create(const UVVertex &)] is
    not part of the sources; equality of UV vertices is (mesh vertex, UV
    value), and a vertex that is not found is appended, without edges. *)
Definition UVIsland_lookup_or_create_vertex isl (template : UVVertex.t F)
    : UVIsland.t F * nat :=
  match list_find (λ x, UVVertex.vertex x = UVVertex.vertex template
                        ∧ UVVertex.uv x = UVVertex.uv template)
                  (UVIsland.uv_vertices isl) with
  | Some r => (isl, r.1)
  | None =>
      (set_uv_vertices isl
         (UVIsland.uv_vertices isl ++ [set_vertex_uv_edges template []]),
       length (UVIsland.uv_vertices isl))
  end.

(** Modelled from the spec: [UVIsland::lookup_or_create(const UVEdge &)] is
    not part of the sources; equality of UV edges is the unordered pair of
    the end point pointers, and an edge that is not found is appended,
    without primitives. *)
Definition UVIsland_lookup_or_create_edge isl (vertices : nat * nat)
    : UVIsland.t F * nat :=
  match list_find (λ e, UVEdge.vertices e = vertices
                        ∨ UVEdge.vertices e = (vertices.2, vertices.1))
                  (UVIsland.uv_edges isl) with
  | Some r => (isl, r.1)
  | None =>
      (set_uv_edges isl (UVIsland.uv_edges isl ++ [UVEdge.mk vertices []]),
       length (UVIsland.uv_edges isl))
  end.

(** [vertex->uv_edges.append_non_duplicates(edge)]. *)
Definition register_edge_with_vertex isl (v ei : nat) : res (UVIsland.t F) :=
  x ← deref (UVIsland.uv_vertices isl) v;
  Ret (set_uv_vertices isl
         (<[v := set_vertex_uv_edges x (append_non_duplicates (UVVertex.uv_edges x) ei)]>
            (UVIsland.uv_vertices isl))).

(** Modelled from the spec: [UVEdge::append_to_uv_vertices()] is not part of
    the sources; it registers the edge with its two vertices. *)
Definition UVEdge_append_to_uv_vertices isl (ei : nat) : res (UVIsland.t F) :=
  e ← deref (UVIsland.uv_edges isl) ei;
  isl1 ← register_edge_with_vertex isl (UVEdge.vertices e).1 ei;
  register_edge_with_vertex isl1 (UVEdge.vertices e).2 ei.

(** Modelled from the spec: [UVPrimitive::append_to_uv_edges()] is not part
    of the sources; it registers the primitive with each of its edges.  The
    callers run it on their local copy of the primitive, which they store
    in the island afterwards; [this] is the pointer to the stored copy. *)
Definition UVPrimitive_append_to_uv_edges isl (p : UVPrimitive.t) (this : nat)
    : res (UVIsland.t F) :=
  foldM (λ (isl : UVIsland.t F) (ei : nat),
           e ← deref (UVIsland.uv_edges isl) ei;
           Ret (set_uv_edges isl
                  (<[ei := UVEdge.mk (UVEdge.vertices e)
                             (append_non_duplicates (UVEdge.uv_primitives e) this)]>
                     (UVIsland.uv_edges isl))))
        isl (UVPrimitive.edges p).

(** Modelled from the spec: [UVPrimitive::append_to_uv_vertices()] is not
    part of the sources; it registers each edge of the primitive with the
    vertices of the edge. *)
Definition UVPrimitive_append_to_uv_vertices isl (p : UVPrimitive.t)
    : res (UVIsland.t F) :=
  foldM UVEdge_append_to_uv_vertices isl (UVPrimitive.edges p).

(** Modelled from the spec: [UVPrimitive::get_uv_edge(uv1, uv2)] is not part
    of the sources; it is the first edge of the primitive between the two UV
    coordinates, in either order (null when there is none). *)
Definition UVPrimitive_get_uv_edge_uv isl (p : UVPrimitive.t) (uv1 uv2 : float2 F)
    : res (option nat) :=
  foldM (λ (found : option nat) (ei : nat),
           match found with
           | Some _ => Ret found
           | None =>
               e ← deref (UVIsland.uv_edges isl) ei;
               e1 ← uv_of isl (UVEdge.vertices e).1;
               e2 ← uv_of isl (UVEdge.vertices e).2;
               Ret (if bool_decide ((e1 = uv1 ∧ e2 = uv2) ∨ (e1 = uv2 ∧ e2 = uv1))
                    then Some ei else None)
           end) None (UVPrimitive.edges p).

(** [v->vertex] for a [UVVertex *]. *)
Definition mesh_vertex_of isl (v : nat) : res nat :=
  x ← deref (UVIsland.uv_vertices isl) v; Ret (UVVertex.vertex x).

(** Modelled from the spec: [UVPrimitive::get_uv_edge(v1, v2)] on mesh
    vertices is not part of the sources; it is the first edge of the
    primitive between the two mesh vertices, in either order (null when
    there is none). *)
Definition UVPrimitive_get_uv_edge_mesh isl (p : UVPrimitive.t) (v1 v2 : nat)
    : res (option nat) :=
  foldM (λ (found : option nat) (ei : nat),
           match found with
           | Some _ => Ret found
           | None =>
               e ← deref (UVIsland.uv_edges isl) ei;
               e1 ← mesh_vertex_of isl (UVEdge.vertices e).1;
               e2 ← mesh_vertex_of isl (UVEdge.vertices e).2;
               Ret (if bool_decide ((e1 = v1 ∧ e2 = v2) ∨ (e1 = v2 ∧ e2 = v1))
                    then Some ei else None)
           end) None (UVPrimitive.edges p).

(** Modelled from the spec: [UVEdge::get_other_uv_vertex(vertex)] is not part
    of the sources; it is the vertex of the edge that is not at the mesh
    vertex. *)
Definition UVEdge_get_other_uv_vertex isl (e : UVEdge.t) (vertex : nat) : res nat :=
  v0 ← mesh_vertex_of isl (UVEdge.vertices e).1;
  Ret (if bool_decide (v0 = vertex) then (UVEdge.vertices e).2 else (UVEdge.vertices e).1).

(** Modelled from the spec: [UVEdge::has_same_vertices(const MeshEdge &)] is
    not part of the sources; the two vertices of the UV edge are at the two
    mesh vertices of the mesh edge, in either order. *)
Definition UVEdge_has_same_vertices isl (e : UVEdge.t) (edge : MeshEdge.t) : res bool :=
  v0 ← mesh_vertex_of isl (UVEdge.vertices e).1;
  v1 ← mesh_vertex_of isl (UVEdge.vertices e).2;
  Ret (bool_decide ((v0 = MeshEdge.vert1 edge ∧ v1 = MeshEdge.vert2 edge)
                    ∨ (v0 = MeshEdge.vert2 edge ∧ v1 = MeshEdge.vert1 edge))).

(** [add_primitive]. *)
Definition add_primitive isl (primitive : nat) : res (UVIsland.t F) :=
  prim ← deref (MeshData.primitives mesh) primitive;
  let uv_primitive_ptr := length (UVIsland.uv_primitives isl) in
  let isl0 := set_uv_primitives isl
                (UVIsland.uv_primitives isl ++ [UVPrimitive.mk primitive []]) in
  foldM (λ (isl : UVIsland.t F) (edge : nat),
           me ← deref (MeshData.edges mesh) edge;
           v1 ← get_uv_vert prim (MeshEdge.vert1 me);
           v2 ← get_uv_vert prim (MeshEdge.vert2 me);
           let '(isl1, p1) := UVIsland_lookup_or_create_vertex isl
                                (UVVertex_new (MeshUVVert.vertex v1) (MeshUVVert.uv v1)) in
           let '(isl2, p2) := UVIsland_lookup_or_create_vertex isl1
                                (UVVertex_new (MeshUVVert.vertex v2) (MeshUVVert.uv v2)) in
           let '(isl3, uv_edge) := UVIsland_lookup_or_create_edge isl2 (p1, p2) in
           up ← deref (UVIsland.uv_primitives isl3) uv_primitive_ptr;
           let isl4 := set_uv_primitives isl3
                         (<[uv_primitive_ptr :=
                              UVPrimitive.mk (UVPrimitive.primitive up)
                                (UVPrimitive.edges up ++ [uv_edge])]>
                            (UVIsland.uv_primitives isl3)) in
           isl5 ← UVEdge_append_to_uv_vertices isl4 uv_edge;
           e ← deref (UVIsland.uv_edges isl5) uv_edge;
           Ret (set_uv_edges isl5
                  (<[uv_edge := UVEdge.mk (UVEdge.vertices e)
                                  (UVEdge.uv_primitives e ++ [uv_primitive_ptr])]>
                     (UVIsland.uv_edges isl5))))
        isl0 (MeshPrimitive.edges prim).

(** The island that [UVIslands::UVIslands] builds for [uv_island_id]. *)
Definition UVIsland_of_mesh (uv_island_id : Z) : res (UVIsland.t F) :=
  foldM (λ (isl : UVIsland.t F) (ip : nat * MeshPrimitive.t F),
           if bool_decide (MeshPrimitive.uv_island_id ip.2 = uv_island_id)
           then add_primitive isl ip.1 else Ret isl)
        (UVIsland.mk [] [] [] []) (imap pair (MeshData.primitives mesh)).

(** *** Fan *)

(** The constructor [InnerEdge(primitive, vertex)]. *)
Definition InnerEdge_new (primitive vertex : nat) : res (InnerEdge.t F) :=
  prim ← deref (MeshData.primitives mesh) primitive;
  v1 ← deref (MeshPrimitive.vertices prim) 1;
  if bool_decide (MeshUVVert.vertex v1 = vertex)
  then Ret (InnerEdge.mk primitive [None; None; None] (1, 2, 0) false)
  else
    v2 ← deref (MeshPrimitive.vertices prim) 2;
    if bool_decide (MeshUVVert.vertex v2 = vertex)
    then Ret (InnerEdge.mk primitive [None; None; None] (2, 0, 1) false)
    else Ret (InnerEdge.mk primitive [None; None; None] (0, 1, 2) false).

(** The inner [for] loop of the constructor of [Fan]: the first edge of
    [other] that is not [current_edge] and touches [vertex]. *)
Fixpoint fan_next_edge (vertex current_edge : nat) (edges : list nat) : res (option nat) :=
  match edges with
  | [] => Ret None
  | edge :: rest =>
      if bool_decide (edge = current_edge) then fan_next_edge vertex current_edge rest
      else
        me ← deref (MeshData.edges mesh) edge;
        if bool_decide (MeshEdge.vert1 me ≠ vertex ∧ MeshEdge.vert2 me ≠ vertex)
        then fan_next_edge vertex current_edge rest
        else Ret (Some edge)
  end.

(** The outer [for] loop: the first primitive on [current_edge], other than
    [previous_primitive], that has such an edge. *)
Fixpoint fan_next (vertex current_edge previous_primitive : nat) (primitives : list nat)
    : res (option (nat * nat)) :=
  match primitives with
  | [] => Ret None
  | other :: rest =>
      if bool_decide (other = previous_primitive)
      then fan_next vertex current_edge previous_primitive rest
      else
        prim ← deref (MeshData.primitives mesh) other;
        r ← fan_next_edge vertex current_edge (MeshPrimitive.edges prim);
        match r with
        | Some edge => Ret (Some (other, edge))
        | None => fan_next vertex current_edge previous_primitive rest
        end
  end.

(** The [while (true)] loop of the constructor of [Fan]. *)
Fixpoint fan_loop (fuel : nat) (vertex stop_primitive current_edge previous_primitive : nat)
    (inner_edges : list (InnerEdge.t F)) : res (Fan.t F) :=
  match fuel with
  | 0 => Diverge
  | S fuel' =>
      ce ← deref (MeshData.edges mesh) current_edge;
      r ← fan_next vertex current_edge previous_primitive (MeshEdge.primitives ce);
      match r with
      | None => Ret (Fan.mk inner_edges false)
      | Some (other, edge) =>
          ie ← InnerEdge_new other vertex;
          if bool_decide (stop_primitive = other)
          then Ret (Fan.mk (inner_edges ++ [ie]) true)
          else fan_loop fuel' vertex stop_primitive edge other (inner_edges ++ [ie])
      end
  end.

(** The constructor [Fan(vertex)]. *)
Definition Fan_new (fuel : nat) (vertex : nat) : res (Fan.t F) :=
  mv ← deref (MeshData.vertices mesh) vertex;
  current_edge ← deref (MeshVertex.edges mv) 0;
  ce ← deref (MeshData.edges mesh) current_edge;
  stop_primitive ← deref (MeshEdge.primitives ce) 0;
  fan_loop fuel vertex stop_primitive current_edge stop_primitive [].

Definition Fan_count_num_to_add (fan : Fan.t F) : nat :=
  length (filter (λ fan_edge, InnerEdge.found fan_edge = false) (Fan.inner_edges fan)).

Definition vert_order_at (o : nat * nat * nat) (i : nat) : nat :=
  match i with 0 => o.1.1 | 1 => o.1.2 | _ => o.2 end.

(** [fan_edge.primitive->vertices[fan_edge.vert_order[i]].vertex]. *)
Definition inner_edge_vertex (fan_edge : InnerEdge.t F) (i : nat) : res nat :=
  prim ← deref (MeshData.primitives mesh) (InnerEdge.primitive fan_edge);
  x ← deref (MeshPrimitive.vertices prim) (vert_order_at (InnerEdge.vert_order fan_edge) i);
  Ret (MeshUVVert.vertex x).

Definition set_found (fan_edge : InnerEdge.t F) (x : bool) : InnerEdge.t F :=
  InnerEdge.mk (InnerEdge.primitive fan_edge) (InnerEdge.uvs fan_edge)
    (InnerEdge.vert_order fan_edge) x.
Definition set_uvs (fan_edge : InnerEdge.t F) (x : list (option (float2 F))) : InnerEdge.t F :=
  InnerEdge.mk (InnerEdge.primitive fan_edge) x
    (InnerEdge.vert_order fan_edge) (InnerEdge.found fan_edge).

(** The inner loop of [mark_already_added_segments]. *)
Fixpoint segment_is_added isl (v0 v1 : nat) (uv_edges : list nat) : res bool :=
  match uv_edges with
  | [] => Ret false
  | ei :: rest =>
      edge ← deref (UVIsland.uv_edges isl) ei;
      e0 ← mesh_vertex_of isl (UVEdge.vertices edge).1;
      e1 ← mesh_vertex_of isl (UVEdge.vertices edge).2;
      if bool_decide ((e0 = v0 ∧ e1 = v1) ∨ (e0 = v1 ∧ e1 = v0)) then Ret true
      else segment_is_added isl v0 v1 rest
  end.

(** [Fan::mark_already_added_segments]. *)
Definition Fan_mark_already_added_segments isl (fan : Fan.t F) (uv_vertex : UVVertex.t F)
    : res (Fan.t F) :=
  inner ← foldM (λ (acc : list (InnerEdge.t F)) (fan_edge : InnerEdge.t F),
                   v0 ← inner_edge_vertex fan_edge 0;
                   v1 ← inner_edge_vertex fan_edge 1;
                   found ← segment_is_added isl v0 v1 (UVVertex.uv_edges uv_vertex);
                   Ret (acc ++ [set_found fan_edge found]))
                [] (Fan.inner_edges fan);
  Ret (Fan.mk inner (Fan.full fan)).

(** [vertex->v] for a [MeshVertex *]. *)
Definition mesh_v (vertex : nat) : res Z :=
  mv ← deref (MeshData.vertices mesh) vertex; Ret (MeshVertex.v mv).

(** The inner loop of [Fan::init_uv_coordinates]: the UV of the vertex at the
    other end of the first edge that leads to [other_v]. *)
Fixpoint init_uv_find isl (uv_vertex : UVVertex.t F) (other_v : Z) (uv_edges : list nat)
    : res (option (float2 F)) :=
  match uv_edges with
  | [] => Ret None
  | ei :: rest =>
      edge ← deref (UVIsland.uv_edges isl) ei;
      other_uv_vertex ← UVEdge_get_other_uv_vertex isl edge (UVVertex.vertex uv_vertex);
      ov ← deref (UVIsland.uv_vertices isl) other_uv_vertex;
      other_edge_v ← mesh_v (UVVertex.vertex ov);
      if bool_decide (other_v = other_edge_v) then Ret (Some (UVVertex.uv ov))
      else init_uv_find isl uv_vertex other_v rest
  end.

(** [Fan::init_uv_coordinates]. *)
Definition Fan_init_uv_coordinates isl (fan : Fan.t F) (uv_vertex : UVVertex.t F)
    : res (Fan.t F) :=
  inner ← foldM (λ (acc : list (InnerEdge.t F)) (fan_edge : InnerEdge.t F),
                   v0 ← inner_edge_vertex fan_edge 0;
                   other_v0 ← mesh_v v0;
                   own_v ← mesh_v (UVVertex.vertex uv_vertex);
                   other_v ← (if bool_decide (other_v0 = own_v)
                              then v1 ← inner_edge_vertex fan_edge 1; mesh_v v1
                              else Ret other_v0);
                   r ← init_uv_find isl uv_vertex other_v (UVVertex.uv_edges uv_vertex);
                   Ret (acc ++ [match r with
                                | Some uv1 =>
                                    set_uvs fan_edge
                                      (<[1 := Some uv1]>
                                         (<[0 := Some (UVVertex.uv uv_vertex)]>
                                            (InnerEdge.uvs fan_edge)))
                                | None => fan_edge
                                end]))
                [] (Fan.inner_edges fan);
  first ← nonnull (head inner);
  last ← deref inner (length inner - 1);
  let inner1 := <[length inner - 1 :=
                    set_uvs last (<[2 := mjoin (InnerEdge.uvs first !! 1)]> (InnerEdge.uvs last))]>
                  inner in
  let inner2 :=
    foldl (λ (acc : list (InnerEdge.t F)) (i : nat),
             match acc !! i, acc !! (i + 1) with
             | Some a, Some c =>
                 <[i := set_uvs a (<[2 := mjoin (InnerEdge.uvs c !! 1)]> (InnerEdge.uvs a))]> acc
             | _, _ => acc
             end)
          inner1 (seq 0 (length inner1 - 1)) in
  Ret (Fan.mk inner2 (Fan.full fan)).

End Store.

(** ** The island extender *)

(** How the [while (true)] loop of [UVIsland::extend_border] ends. *)
Inductive outcome (A : Type) : Type :=
  | Halted (a : A)               (* the loop reached its [break] *)
  | IterationUB                  (* an iteration has undefined behaviour *)
  | IterationDiverges            (* a loop inside an iteration does not end *)
  | TooManyIterations.           (* the iterations allowed were not enough *)
Arguments Halted {A}.
Arguments IterationUB {A}.
Arguments IterationDiverges {A}.
Arguments TooManyIterations {A}.

Section Extend.
Context {F : Type} {O : FloatOps F}.
Variable mesh : MeshData.t F.

Implicit Types isl : UVIsland.t F.
Implicit Types be : UVBorderEdge.t.
Implicit Types corner : UVBorderCorner.t F.

(** Dereference of a pointer to a border edge of the island. *)
Definition corner_edge isl (p : nat * nat) : res UVBorderEdge.t :=
  b ← deref (UVIsland.borders isl) p.1; deref (UVBorder.edges b) p.2.

(** Assignment through a pointer to a border edge of the island. *)
Definition set_corner_edge isl (p : nat * nat) be : res (UVIsland.t F) :=
  b ← deref (UVIsland.borders isl) p.1;
  _ ← deref (UVBorder.edges b) p.2;
  Ret (set_borders isl
         (<[p.1 := UVBorder.mk (<[p.2 := be]> (UVBorder.edges b))]> (UVIsland.borders isl))).

(** [add_uv_primitive_shared_uv_edge]. *)
Definition add_uv_primitive_shared_uv_edge isl (connected_vert_1 connected_vert_2 : nat)
    (uv_unconnected : float2 F) (mesh_primitive : nat) : res (UVIsland.t F) :=
  prim ← deref (MeshData.primitives mesh) mesh_primitive;
  cv1 ← deref (UVIsland.uv_vertices isl) connected_vert_1;
  cv2 ← deref (UVIsland.uv_vertices isl) connected_vert_2;
  other_vert ← nonnull (MeshPrimitive_get_other_uv_vertex prim
                          (UVVertex.vertex cv1) (UVVertex.vertex cv2));
  let '(isl1, vert_ptr) :=
    UVIsland_lookup_or_create_vertex isl
      (UVVertex_new (MeshUVVert.vertex other_vert) uv_unconnected) in
  mesh_vert_1 ← get_uv_vert prim (UVVertex.vertex cv1);
  let '(isl2, vert_1_ptr) :=
    UVIsland_lookup_or_create_vertex isl1
      (UVVertex_new (MeshUVVert.vertex mesh_vert_1) (UVVertex.uv cv1)) in
  mesh_vert_2 ← get_uv_vert prim (UVVertex.vertex cv2);
  let '(isl3, vert_2_ptr) :=
    UVIsland_lookup_or_create_vertex isl2
      (UVVertex_new (MeshUVVert.vertex mesh_vert_2) (UVVertex.uv cv2)) in
  let '(isl4, e1) := UVIsland_lookup_or_create_edge isl3 (vert_1_ptr, vert_2_ptr) in
  let '(isl5, e2) := UVIsland_lookup_or_create_edge isl4 (vert_2_ptr, vert_ptr) in
  let '(isl6, e3) := UVIsland_lookup_or_create_edge isl5 (vert_ptr, vert_1_ptr) in
  let prim1 := UVPrimitive.mk mesh_primitive [e1; e2; e3] in
  isl7 ← UVPrimitive_append_to_uv_edges isl6 prim1 (length (UVIsland.uv_primitives isl6));
  isl8 ← UVPrimitive_append_to_uv_vertices isl7 prim1;
  Ret (set_uv_primitives isl8 (UVIsland.uv_primitives isl8 ++ [prim1])).

(** [find_fill_border(v1, v2, v3)]: the loop over the primitives of one
    edge. *)
Fixpoint find_fill_in (v1 v2 v3 : nat) (primitives : list nat) : res (option nat) :=
  match primitives with
  | [] => Ret None
  | primitive :: rest =>
      prim ← deref (MeshData.primitives mesh) primitive;
      if has_vertex prim v1 && has_vertex prim v2 && has_vertex prim v3
      then Ret (Some primitive)
      else find_fill_in v1 v2 v3 rest
  end.

Fixpoint find_fill_over (v1 v2 v3 : nat) (edges : list nat) : res (option nat) :=
  match edges with
  | [] => Ret None
  | edge :: rest =>
      me ← deref (MeshData.edges mesh) edge;
      r ← find_fill_in v1 v2 v3 (MeshEdge.primitives me);
      match r with
      | Some primitive => Ret (Some primitive)
      | None => find_fill_over v1 v2 v3 rest
      end
  end.

(** [find_fill_border(const MeshVertex &, const MeshVertex &, const
    MeshVertex &)]. *)
Definition find_fill_border_verts (v1 v2 v3 : nat) : res (option nat) :=
  mv ← deref (MeshData.vertices mesh) v1;
  find_fill_over v1 v2 v3 (MeshVertex.edges mv).

(** [find_fill_border(UVBorderCorner &)]: the loop over the primitives of a
    mesh edge that has the vertices of [corner.first->edge]. *)
Fixpoint find_fill_corner_in (me : MeshEdge.t) (target : nat) (primitives : list nat)
    : res (option nat) :=
  match primitives with
  | [] => Ret None
  | primitive :: rest =>
      prim ← deref (MeshData.primitives mesh) primitive;
      other_vert ← nonnull (MeshPrimitive_get_other_uv_vertex prim
                              (MeshEdge.vert1 me) (MeshEdge.vert2 me));
      if bool_decide (MeshUVVert.vertex other_vert = target) then Ret (Some primitive)
      else find_fill_corner_in me target rest
  end.

Fixpoint find_fill_corner_over isl (first second : UVBorderEdge.t) (edges : list nat)
    : res (option nat) :=
  match edges with
  | [] => Ret None
  | edge :: rest =>
      me ← deref (MeshData.edges mesh) edge;
      fe ← deref (UVIsland.uv_edges isl) (UVBorderEdge.edge first);
      same ← UVEdge_has_same_vertices isl fe me;
      if (same : bool) then
        (* the target is read again for every primitive; the loop is not
           entered for an edge without primitives *)
        match MeshEdge.primitives me with
        | [] => find_fill_corner_over isl first second rest
        | _ =>
            v ← UVBorderEdge_get_uv_vertex isl second 1;
            target ← mesh_vertex_of isl v;
            r ← find_fill_corner_in me target (MeshEdge.primitives me);
            match r with
            | Some primitive => Ret (Some primitive)
            | None => find_fill_corner_over isl first second rest
            end
        end
      else find_fill_corner_over isl first second rest
  end.

Definition find_fill_border_corner isl corner : res (option nat) :=
  first ← corner_edge isl (UVBorderCorner.first corner);
  second ← corner_edge isl (UVBorderCorner.second corner);
  a ← UVBorderEdge_get_uv_vertex isl first 1;
  c ← UVBorderEdge_get_uv_vertex isl second 0;
  if bool_decide (a ≠ c) then Ret None
  else
    a0 ← UVBorderEdge_get_uv_vertex isl first 0;
    c1 ← UVBorderEdge_get_uv_vertex isl second 1;
    if bool_decide (a0 = c1) then Ret None
    else
      shared_vert ← UVBorderEdge_get_uv_vertex isl second 0;
      sv ← mesh_vertex_of isl shared_vert;
      mv ← deref (MeshData.vertices mesh) sv;
      find_fill_corner_over isl first second (MeshVertex.edges mv).

(** [add_uv_primitive_fill]. *)
Definition add_uv_primitive_fill isl (uv_vertex1 uv_vertex2 uv_vertex3 : nat)
    (fill_primitive : nat) : res (UVIsland.t F) :=
  let '(isl1, e1) := UVIsland_lookup_or_create_edge isl (uv_vertex1, uv_vertex2) in
  let '(isl2, e2) := UVIsland_lookup_or_create_edge isl1 (uv_vertex2, uv_vertex3) in
  let '(isl3, e3) := UVIsland_lookup_or_create_edge isl2 (uv_vertex3, uv_vertex1) in
  let uv_primitive := UVPrimitive.mk fill_primitive [e1; e2; e3] in
  isl4 ← UVPrimitive_append_to_uv_edges isl3 uv_primitive
           (length (UVIsland.uv_primitives isl3));
  isl5 ← UVPrimitive_append_to_uv_vertices isl4 uv_primitive;
  Ret (set_uv_primitives isl5 (UVIsland.uv_primitives isl5 ++ [uv_primitive])).

(** [UVBorderCorner::uv]. *)
Definition UVBorderCorner_uv isl corner (factor min_uv_distance : F) : res (float2 F) :=
  first ← corner_edge isl (UVBorderCorner.first corner);
  second ← corner_edge isl (UVBorderCorner.second corner);
  origin ← border_edge_uv isl first 1;
  let angle_between := fmul (UVBorderCorner.angle corner) factor in
  second_length ← UVBorderEdge_length isl second;
  first_length ← UVBorderEdge_length isl first;
  let desired_len :=
    max_ff (fadd (fmul second_length factor) (fmul first_length (fsub f1 factor)))
           min_uv_distance in
  start ← border_edge_uv isl first 0;
  let v := normalize_v2 (sub_v2 start origin) in
  let rotated := rotate_v2 angle_between v in
  Ret (add_v2 (mul_v2_fl rotated desired_len) origin).

(** Modelled from the spec: [UVBorder::remove(index)] is not part of the
    sources; it removes the edge at [index] and, as after every structural
    change of a border, recomputes the links with [update_indexes], for the
    border index that the edges record. *)
Definition UVBorder_remove (b : UVBorder.t) (index : Z) : res UVBorder.t :=
  first ← nonnull (head (UVBorder.edges b));
  _ ← at_index (UVBorder.edges b) index;
  Ret (UVBorder_update_indexes
         (UVBorder.mk (delete (Z.to_nat index) (UVBorder.edges b)))
         (UVBorderEdge.border_index first)).

(** [Vector::insert(index, span)]. *)
Definition vector_insert {A} (v : list A) (index : Z) (xs : list A) : res (list A) :=
  if bool_decide (0 ≤ index ≤ Z.of_nat (length v))%Z
  then Ret (take (Z.to_nat index) v ++ xs ++ drop (Z.to_nat index) v)
  else UB.

(** The state of the loop over [num_to_add] in [extend_at_vert]. *)
Record fill_state := mk_fill_state {
  fs_island : UVIsland.t F;
  fs_fan : list (InnerEdge.t F);
  fs_current_edge : nat;
  fs_new_border_edges : list UVBorderEdge.t;
}.

(** One triangle of the fill: the three vertices are looked up or created,
    the primitive is added, and the caller gets the new island, the new
    primitive and the mesh vertex opposite the current edge. *)
Definition add_fill_triangle isl (uv_vertex : UVVertex.t F) (shared_edge_vertex : nat)
    (old_uv : float2 F) (fill_primitive : nat) (third_uv : float2 F)
    : res (UVIsland.t F * nat * nat) :=
  fp ← deref (MeshData.primitives mesh) fill_primitive;
  opv ← nonnull (MeshPrimitive_get_other_uv_vertex fp
                   (UVVertex.vertex uv_vertex) shared_edge_vertex);
  let other_prim_vertex := MeshUVVert.vertex opv in
  let '(isl1, vertex_1_ptr) :=
    UVIsland_lookup_or_create_vertex isl
      (UVVertex_new (UVVertex.vertex uv_vertex) (UVVertex.uv uv_vertex)) in
  let '(isl2, vertex_2_ptr) :=
    UVIsland_lookup_or_create_vertex isl1 (UVVertex_new shared_edge_vertex old_uv) in
  let '(isl3, vertex_3_ptr) :=
    UVIsland_lookup_or_create_vertex isl2 (UVVertex_new other_prim_vertex third_uv) in
  isl4 ← add_uv_primitive_fill isl3 vertex_1_ptr vertex_2_ptr vertex_3_ptr fill_primitive;
  Ret (isl4, length (UVIsland.uv_primitives isl4) - 1, other_prim_vertex).

(** The loop over the segments of the fan, for one [i]: the first segment
    that is not found yet and for which a fill primitive exists gets its
    triangle; [None] when the loop ends without a [break]. *)
Fixpoint fill_segment (st : fill_state) (uv_vertex : UVVertex.t F)
    (shared_edge_vertex : nat) (old_uv new_uv : float2 F)
    (pos : nat) (segments : list (InnerEdge.t F)) : res (option fill_state) :=
  match segments with
  | [] => Ret None
  | segment :: rest =>
      if InnerEdge.found segment
      then fill_segment st uv_vertex shared_edge_vertex old_uv new_uv (S pos) rest
      else
        v ← inner_edge_vertex mesh segment 1;
        fill ← find_fill_border_verts (UVVertex.vertex uv_vertex) shared_edge_vertex v;
        match fill with
        | None => fill_segment st uv_vertex shared_edge_vertex old_uv new_uv (S pos) rest
        | Some fill_primitive =>
            r ← add_fill_triangle (fs_island st) uv_vertex shared_edge_vertex old_uv
                  fill_primitive new_uv;
            let '(isl1, new_prim, other_prim_vertex) := r in
            np ← deref (UVIsland.uv_primitives isl1) new_prim;
            current_edge ← UVPrimitive_get_uv_edge_mesh isl1 np
                             (UVVertex.vertex uv_vertex) other_prim_vertex ≫= nonnull;
            border_edge ← UVPrimitive_get_uv_edge_mesh isl1 np
                            shared_edge_vertex other_prim_vertex ≫= nonnull;
            Ret (Some (mk_fill_state isl1
                         (<[pos := set_found segment true]> (fs_fan st))
                         current_edge
                         (fs_new_border_edges st ++ [UVBorderEdge_new border_edge new_prim])))
        end
  end.

(** [(i + 1.0f) / (num_to_add + 1.0f)]. *)
Definition fill_factor (i num_to_add : nat) : F :=
  fdiv (fadd (f_of_int (Z.of_nat i)) f1) (fadd (f_of_int (Z.of_nat num_to_add)) f1).

(** The body of [for (int i = 0; i < num_to_add; i++)], with the state
    after the segment that it fills; [None] when it fills none. *)
Definition fill_attempt corner (uv_vertex : UVVertex.t F) (min_uv_distance : F)
    (num_to_add : nat) (st : fill_state) (i : nat) : res (option fill_state) :=
  let isl := fs_island st in
  ce ← deref (UVIsland.uv_edges isl) (fs_current_edge st);
  other ← UVEdge_get_other_uv_vertex isl ce (UVVertex.vertex uv_vertex);
  ov ← deref (UVIsland.uv_vertices isl) other;
  let old_uv := UVVertex.uv ov in
  let shared_edge_vertex := UVVertex.vertex ov in
  let factor := fill_factor i num_to_add in
  new_uv ← UVBorderCorner_uv isl corner factor min_uv_distance;
  fill_segment st uv_vertex shared_edge_vertex old_uv new_uv 0 (fs_fan st).

(** The body of [for (int i = 0; i < num_to_add; i++)]. *)
Definition fill_iteration corner (uv_vertex : UVVertex.t F) (min_uv_distance : F)
    (num_to_add : nat) (st : fill_state) (i : nat) : res fill_state :=
  r ← fill_attempt corner uv_vertex min_uv_distance num_to_add st i;
  Ret (default st r).

(** The block [Add final segment] of [extend_at_vert]. *)
Definition fill_final corner (uv_vertex : UVVertex.t F) (st : fill_state) : res fill_state :=
  let isl := fs_island st in
  ce ← deref (UVIsland.uv_edges isl) (fs_current_edge st);
  other ← UVEdge_get_other_uv_vertex isl ce (UVVertex.vertex uv_vertex);
  ov ← deref (UVIsland.uv_vertices isl) other;
  let old_uv := UVVertex.uv ov in
  let shared_edge_vertex := UVVertex.vertex ov in
  second ← corner_edge isl (UVBorderCorner.second corner);
  far ← UVBorderEdge_get_uv_vertex isl second 1;
  fv ← deref (UVIsland.uv_vertices isl) far;
  fill_primitive ← find_fill_border_verts (UVVertex.vertex uv_vertex) shared_edge_vertex
                     (UVVertex.vertex fv) ≫= nonnull;
  r ← add_fill_triangle isl uv_vertex shared_edge_vertex old_uv fill_primitive
        (UVVertex.uv fv);
  let '(isl1, new_prim, other_prim_vertex) := r in
  np ← deref (UVIsland.uv_primitives isl1) new_prim;
  border_edge ← UVPrimitive_get_uv_edge_mesh isl1 np
                  shared_edge_vertex other_prim_vertex ≫= nonnull;
  Ret (mk_fill_state isl1 (fs_fan st) (fs_current_edge st)
         (fs_new_border_edges st ++ [UVBorderEdge_new border_edge new_prim])).

(** The memory that a pointer into the edge vector of a border reads after
    [Vector::remove] ran on [old]: a slot below the new size holds the edge
    that moved there, the slot after it still holds what it held. *)
Definition slot_after_remove (old new : list UVBorderEdge.t) (slot : nat)
    : res UVBorderEdge.t :=
  match new !! slot with
  | Some be => Ret be
  | None => deref old slot
  end.

(** The end of the [else] branch of [extend_at_vert]: the two edges of the
    corner leave the border and the new border edges take their place. *)
Definition splice_border isl corner (border_index : Z)
    (new_border_edges : list UVBorderEdge.t) : res (UVIsland.t F) :=
  let bi := Z.to_nat border_index in
  first ← corner_edge isl (UVBorderCorner.first corner);
  let border_insert := UVBorderEdge.index first in
  border ← deref (UVIsland.borders isl) bi;
  border1 ← UVBorder_remove border border_insert;
  second ← (if bool_decide ((UVBorderCorner.second corner).1 = bi)
            then slot_after_remove (UVBorder.edges border) (UVBorder.edges border1)
                   (UVBorderCorner.second corner).2
            else corner_edge isl (UVBorderCorner.second corner));
  let border_next := UVBorderEdge.index second in
  let border_insert' := if bool_decide (border_next < border_insert)%Z
                        then (border_insert - 1)%Z else border_insert in
  let border_next' := if bool_decide (border_next < border_insert)%Z
                      then border_next else (border_next - 1)%Z in
  border2 ← UVBorder_remove border1 border_next';
  edges ← vector_insert (UVBorder.edges border2) border_insert' new_border_edges;
  Ret (set_borders isl
         (<[bi := UVBorder_update_indexes (UVBorder.mk edges) border_index]>
            (UVIsland.borders isl))).

(** The branch [num_to_add == 0] of [extend_at_vert]. *)
Definition extend_at_vert_split isl corner (min_uv_distance : F) : res (UVIsland.t F) :=
  first ← corner_edge isl (UVBorderCorner.first corner);
  second ← corner_edge isl (UVBorderCorner.second corner);
  sp ← deref (UVIsland.uv_primitives isl) (UVBorderEdge.uv_primitive second);
  fp ← deref (UVIsland.uv_primitives isl) (UVBorderEdge.uv_primitive first);
  fill_primitive ← find_fill_border_corner isl corner;
  let fill_primitive_1 := default (UVPrimitive.primitive sp) fill_primitive in
  let fill_primitive_2 := default (UVPrimitive.primitive fp) fill_primitive in
  center_uv ← UVBorderCorner_uv isl corner fhalf min_uv_distance;
  a1 ← UVBorderEdge_get_uv_vertex isl first 1;
  a0 ← UVBorderEdge_get_uv_vertex isl first 0;
  isl1 ← add_uv_primitive_shared_uv_edge isl a1 a0 center_uv fill_primitive_1;
  let new_prim_1 := length (UVIsland.uv_primitives isl1) - 1 in
  second ← corner_edge isl1 (UVBorderCorner.second corner);
  c0 ← UVBorderEdge_get_uv_vertex isl1 second 0;
  c1 ← UVBorderEdge_get_uv_vertex isl1 second 1;
  isl2 ← add_uv_primitive_shared_uv_edge isl1 c0 c1 center_uv fill_primitive_2;
  let new_prim_2 := length (UVIsland.uv_primitives isl2) - 1 in
  (* corner.first *)
  border_edge ← corner_edge isl2 (UVBorderCorner.first corner);
  np1 ← deref (UVIsland.uv_primitives isl2) new_prim_1;
  start_uv ← border_edge_uv isl2 border_edge 0;
  edge ← UVPrimitive_get_uv_edge_uv isl2 np1 start_uv center_uv ≫= nonnull;
  e ← deref (UVIsland.uv_edges isl2) edge;
  uv0 ← uv_of isl2 (UVEdge.vertices e).1;
  isl3 ← set_corner_edge isl2 (UVBorderCorner.first corner)
           (set_reverse_order (set_edge (set_uv_primitive border_edge new_prim_1) edge)
              (bool_decide (uv0 = center_uv)));
  (* corner.second *)
  border_edge ← corner_edge isl3 (UVBorderCorner.second corner);
  np2 ← deref (UVIsland.uv_primitives isl3) new_prim_2;
  end_uv ← border_edge_uv isl3 border_edge 1;
  edge ← UVPrimitive_get_uv_edge_uv isl3 np2 end_uv center_uv ≫= nonnull;
  e ← deref (UVIsland.uv_edges isl3) edge;
  uv1 ← uv_of isl3 (UVEdge.vertices e).2;
  set_corner_edge isl3 (UVBorderCorner.second corner)
    (set_reverse_order (set_edge (set_uv_primitive border_edge new_prim_2) edge)
       (bool_decide (uv1 = center_uv))).

(** The branch [num_to_add > 0] of [extend_at_vert]. *)
Definition extend_at_vert_fill isl corner (min_uv_distance : F) (border_index : Z)
    (uv_vertex : UVVertex.t F) (fan : Fan.t F) (num_to_add : nat) : res (UVIsland.t F) :=
  first ← corner_edge isl (UVBorderCorner.first corner);
  let st0 := mk_fill_state isl (Fan.inner_edges fan) (UVBorderEdge.edge first) [] in
  st1 ← foldM (fill_iteration corner uv_vertex min_uv_distance num_to_add)
          st0 (seq 0 num_to_add);
  st2 ← fill_final corner uv_vertex st1;
  splice_border (fs_island st2) corner border_index (fs_new_border_edges st2).

(** [extend_at_vert]; [fan_fuel] bounds the loop of the constructor of
    [Fan]. *)
Definition extend_at_vert (fan_fuel : nat) isl corner (min_uv_distance : F)
    : res (UVIsland.t F) :=
  first ← corner_edge isl (UVBorderCorner.first corner);
  let border_index := UVBorderEdge.border_index first in
  _ ← at_index (UVIsland.borders isl) border_index;
  second ← corner_edge isl (UVBorderCorner.second corner);
  uv_vertex_ptr ← UVBorderEdge_get_uv_vertex isl second 0;
  uv_vertex ← deref (UVIsland.uv_vertices isl) uv_vertex_ptr;
  fan ← Fan_new mesh fan_fuel (UVVertex.vertex uv_vertex);
  if negb (Fan.full fan) then Ret isl
  else
    fan1 ← Fan_init_uv_coordinates mesh isl fan uv_vertex;
    fan2 ← Fan_mark_already_added_segments mesh isl fan1 uv_vertex;
    let num_to_add := Fan_count_num_to_add fan2 in
    if bool_decide (num_to_add = 0)
    then extend_at_vert_split isl corner min_uv_distance
    else extend_at_vert_fill isl corner min_uv_distance border_index uv_vertex fan2 num_to_add.

(** [reset_extendability_flags]. *)
Definition reset_extendability_flags isl : res (UVIsland.t F) :=
  let cleared := (λ x, set_vertex_flags x false false) <$> UVIsland.uv_vertices isl in
  let mark (vs : list (UVVertex.t F)) (v : nat) : res (list (UVVertex.t F)) :=
    x ← deref vs v;
    Ret (<[v := set_vertex_flags x true (UVVertex.is_extended x)]> vs) in
  vs ← foldM (λ (vs : list (UVVertex.t F)) (border : UVBorder.t),
                foldM (λ (vs : list (UVVertex.t F)) (border_edge : UVBorderEdge.t),
                         e ← deref (UVIsland.uv_edges isl) (UVBorderEdge.edge border_edge);
                         vs1 ← mark vs (UVEdge.vertices e).1;
                         mark vs1 (UVEdge.vertices e).2)
                      vs (UVBorder.edges border))
             cleared (UVIsland.borders isl);
  Ret (set_uv_vertices isl vs).

(** [uv_vertex->flags.is_extended = true]. *)
Definition mark_extended isl (uv_vertex : nat) : res (UVIsland.t F) :=
  x ← deref (UVIsland.uv_vertices isl) uv_vertex;
  Ret (set_uv_vertices isl
         (<[uv_vertex := set_vertex_flags x (UVVertex.is_border x) true]>
            (UVIsland.uv_vertices isl))).

(** One iteration of the [while (true)] loop of [UVIsland::extend_border]:
    [None] is the [break]. *)
Definition extend_border_iteration (fan_fuel : nat) (tiles : list (Mask.Tile F))
    (island_index : Z) isl : res (option (UVIsland.t F)) :=
  extension_corner ← sharpest_border_corner isl;
  match extension_corner with
  | None => Ret None
  | Some corner =>
      second ← corner_edge isl (UVBorderCorner.second corner);
      uv_vertex ← UVBorderEdge_get_uv_vertex isl second 0;
      uv ← uv_of isl uv_vertex;
      isl1 ← match Mask.find_tile tiles uv with
             | Some tile =>
                 if Mask.is_masked tile island_index uv
                 then extend_at_vert fan_fuel isl corner
                        (fmul (Mask.get_pixel_size_in_uv_space tile) f2)
                 else Ret isl
             | None => Ret isl
             end;
      isl2 ← mark_extended isl1 uv_vertex;
      Ret (Some isl2)
  end.

(** The corner that an iteration selects, with its shared vertex
    [extension_corner->second->get_uv_vertex(0)] and the UV of that vertex. *)
Definition selected_vertex isl : res (option (UVBorderCorner.t F * nat * float2 F)) :=
  extension_corner ← sharpest_border_corner isl;
  match extension_corner with
  | None => Ret None
  | Some corner =>
      second ← corner_edge isl (UVBorderCorner.second corner);
      uv_vertex ← UVBorderEdge_get_uv_vertex isl second 0;
      uv ← uv_of isl uv_vertex;
      Ret (Some (corner, uv_vertex, uv))
  end.

(** The island with nothing changed but the flag [is_extended] of the
    vertex [v], which is set. *)
Definition with_extended isl (v : nat) (x : UVVertex.t F) : UVIsland.t F :=
  set_uv_vertices isl
    (<[v := set_vertex_flags x (UVVertex.is_border x) true]> (UVIsland.uv_vertices isl)).

(** An iteration on the vertex [x] of UV [uv] skips the extension: no tile
    contains the UV, the tile does not mask it for the island, or the fan of
    the vertex is not full. *)
Definition skips (fan_fuel : nat) (tiles : list (Mask.Tile F)) (island_index : Z)
    isl corner (x : UVVertex.t F) (uv : float2 F) : Prop :=
  Mask.find_tile tiles uv = None
  ∨ (∃ tile, Mask.find_tile tiles uv = Some tile
             ∧ Mask.is_masked tile island_index uv = false)
  ∨ (∃ first b fan,
       corner_edge isl (UVBorderCorner.first corner) = Ret first
       ∧ at_index (UVIsland.borders isl) (UVBorderEdge.border_index first) = Ret b
       ∧ Fan_new mesh fan_fuel (UVVertex.vertex x) = Ret fan
       ∧ Fan.full fan = false).

Fixpoint extend_border_loop (iterations fan_fuel : nat) (tiles : list (Mask.Tile F))
    (island_index : Z) isl : outcome (UVIsland.t F) :=
  match iterations with
  | 0 => TooManyIterations
  | S iterations' =>
      match extend_border_iteration fan_fuel tiles island_index isl with
      | Ret None => Halted isl
      | Ret (Some isl') => extend_border_loop iterations' fan_fuel tiles island_index isl'
      | UB => IterationUB
      | Diverge => IterationDiverges
      end
  end.

(** The prologue of [UVIsland::extend_border]. *)
Definition extend_border_init isl : res (UVIsland.t F) :=
  isl1 ← reset_extendability_flags isl;
  Ret (set_borders isl1
         (imap (λ (i : nat) border, UVBorder_update_indexes border (Z.of_nat i))
               (UVIsland.borders isl1))).

(** [UVIsland::extend_border]; [iterations] bounds the iterations of its
    loop. *)
Definition UVIsland_extend_border (iterations fan_fuel : nat) (tiles : list (Mask.Tile F))
    (island_index : Z) isl : outcome (UVIsland.t F) :=
  match extend_border_init isl with
  | Ret isl1 => extend_border_loop iterations fan_fuel tiles island_index isl1
  | UB => IterationUB
  | Diverge => IterationDiverges
  end.

(** *** Vocabulary of the statements about the extension pass *)





(** The number that [extend_at_vert] reads from [count_num_to_add()] at the
    corner, when the fan around the vertex of the corner is full; [None]
    when it is not. *)
Definition corner_num_to_add (fan_fuel : nat) isl corner : res (option nat) :=
  second ← corner_edge isl (UVBorderCorner.second corner);
  uv_vertex_ptr ← UVBorderEdge_get_uv_vertex isl second 0;
  uv_vertex ← deref (UVIsland.uv_vertices isl) uv_vertex_ptr;
  fan ← Fan_new mesh fan_fuel (UVVertex.vertex uv_vertex);
  if negb (Fan.full fan) then Ret None
  else
    fan1 ← Fan_init_uv_coordinates mesh isl fan uv_vertex;
    fan2 ← Fan_mark_already_added_segments mesh isl fan1 uv_vertex;
    Ret (Some (Fan_count_num_to_add fan2)).

(** Which iterations of the loop over [num_to_add] fill a segment of the
    fan. *)
Fixpoint fill_trace corner (uv_vertex : UVVertex.t F) (min_uv_distance : F)
    (num_to_add : nat) (st : fill_state) (iterations : list nat) : res (list bool) :=
  match iterations with
  | [] => Ret []
  | i :: rest =>
      r ← fill_attempt corner uv_vertex min_uv_distance num_to_add st i;
      t ← fill_trace corner uv_vertex min_uv_distance num_to_add (default st r) rest;
      Ret (bool_decide (is_Some r) :: t)
  end.

(** The same for the loop that [extend_at_vert] runs at the corner; no
    iteration when the fan is not full. *)
Definition fill_trace_at (fan_fuel : nat) isl corner (min_uv_distance : F)
    : res (list bool) :=
  first ← corner_edge isl (UVBorderCorner.first corner);
  second ← corner_edge isl (UVBorderCorner.second corner);
  uv_vertex_ptr ← UVBorderEdge_get_uv_vertex isl second 0;
  uv_vertex ← deref (UVIsland.uv_vertices isl) uv_vertex_ptr;
  fan ← Fan_new mesh fan_fuel (UVVertex.vertex uv_vertex);
  if negb (Fan.full fan) then Ret []
  else
    fan1 ← Fan_init_uv_coordinates mesh isl fan uv_vertex;
    fan2 ← Fan_mark_already_added_segments mesh isl fan1 uv_vertex;
    let num_to_add := Fan_count_num_to_add fan2 in
    fill_trace corner uv_vertex min_uv_distance num_to_add
      (mk_fill_state isl (Fan.inner_edges fan2) (UVBorderEdge.edge first) [])
      (seq 0 num_to_add).

(** The island [isl'] is the island [isl] with more vertices, edges and
    primitives: the borders are the same, and the vertices and the edges of
    [isl] are where they were, at the same mesh vertex and UV coordinate and
    between the same vertices. *)
Definition grows isl isl' : Prop :=
  UVIsland.borders isl' = UVIsland.borders isl
  ∧ (∀ v x, UVIsland.uv_vertices isl !! v = Some x →
       ∃ x', UVIsland.uv_vertices isl' !! v = Some x'
             ∧ UVVertex.uv x' = UVVertex.uv x
             ∧ UVVertex.vertex x' = UVVertex.vertex x)
  ∧ (∀ i e, UVIsland.uv_edges isl !! i = Some e →
       ∃ e', UVIsland.uv_edges isl' !! i = Some e'
             ∧ UVEdge.vertices e' = UVEdge.vertices e)
  ∧ ∃ new, UVIsland.uv_primitives isl' = UVIsland.uv_primitives isl ++ new.


(** The border edge [new] is the border edge [old] rebound to an edge of the
    primitive [p], stored at [prim_index], that ends at [center]: the links
    of [old] into its border are kept. *)
Definition rebound isl (old new : UVBorderEdge.t) (prim_index : nat)
    (p : UVPrimitive.t) (center : float2 F) : Prop :=
  ∃ edge reverse e a b,
    new = set_reverse_order (set_edge (set_uv_primitive old prim_index) edge) reverse
    ∧ UVIsland.uv_primitives isl !! prim_index = Some p
    ∧ edge ∈ UVPrimitive.edges p
    ∧ UVIsland.uv_edges isl !! edge = Some e
    ∧ uv_of isl (UVEdge.vertices e).1 = Ret a
    ∧ uv_of isl (UVEdge.vertices e).2 = Ret b
    ∧ (a = center ∨ b = center).

(** The UV vertices of the primitive [p]: the end points of its edges. *)
Definition primitive_vertices isl (p : UVPrimitive.t) : list nat :=
  edge ← UVPrimitive.edges p;
  match UVIsland.uv_edges isl !! edge with
  | Some e => [(UVEdge.vertices e).1; (UVEdge.vertices e).2]
  | None => []
  end.

(** The number of edges of each border of the island. *)
Definition border_lengths isl : list nat :=
  (λ b, length (UVBorder.edges b)) <$> UVIsland.borders isl.

Definition same_flags (x x' : UVVertex.t F) : Prop :=
  UVVertex.is_border x' = UVVertex.is_border x
  ∧ UVVertex.is_extended x' = UVVertex.is_extended x.

(** The vertex store grew from [vs] to [vs']: the vertices of [vs] kept
    their flags, and the new vertices are not flagged [is_border]. *)
Definition flags_ext (vs vs' : list (UVVertex.t F)) : Prop :=
  ∃ old new, vs' = old ++ new
             ∧ Forall2 same_flags vs old
             ∧ Forall (λ x, UVVertex.is_border x = false) new.

End Extend.

(** ** A scalar instance for the examples

    Exact rational arithmetic, every value kept in lowest terms so that
    equality of values is equality of fractions.  The functions that have no
    rational value are replaced by rational stand-ins: the square root by a
    truncated one, the signed angle by the diamond angle scaled to
    [(-pi, pi]], the rotation by the exact rotation whose half-angle tangent
    is half the angle.  The examples do not depend on their values. *)
Module QFloat.

Definition Q_eq_dec : EqDecision Q.
Proof. intros [a b] [c d]. unfold Decision. decide equality; [apply Pos.eq_dec|apply Z.eq_dec]. Defined.

Definition q (n : Z) (d : positive) : Q := Qred (Qmake n d).
Definition add (a b : Q) : Q := Qred (Qplus a b).
Definition sub (a b : Q) : Q := Qred (Qminus a b).
Definition mul (a b : Q) : Q := Qred (Qmult a b).
Definition div (a b : Q) : Q := Qred (Qdiv a b).
Definition ltb (a b : Q) : bool := negb (Qle_bool b a).
Definition leb (a b : Q) : bool := Qle_bool a b.
Definition abs (a : Q) : Q := Qred (Qabs a).
Definition pi : Q := q 355 113.

Definition sqrt (a : Q) : Q :=
  q (Z.sqrt (Qnum a * 1000000 / Z.pos (Qden a))) 1000.

Definition len (a b : Q * Q) : Q :=
  let dx := sub a.1 b.1 in let dy := sub a.2 b.2 in
  sqrt (add (mul dx dx) (mul dy dy)).

Definition normalize (v : Q * Q) : Q * Q :=
  let l := len v (q 0 1, q 0 1) in
  if Q_eq_dec l (q 0 1) then (q 0 1, q 0 1) else (div v.1 l, div v.2 l).

Definition angle_signed (v1 v2 : Q * Q) : Q :=
  let perp_dot := sub (mul v1.2 v2.1) (mul v1.1 v2.2) in
  let dot := add (mul v1.1 v2.1) (mul v1.2 v2.2) in
  let d := add (abs perp_dot) (abs dot) in
  if Q_eq_dec d (q 0 1) then q 0 1
  else
    let turn := mul (sub (q 1 1) (div dot d)) (div pi (q 2 1)) in
    if ltb perp_dot (q 0 1) then sub (q 0 1) turn else turn.

Definition rotate (a : Q) (v : Q * Q) : Q * Q :=
  let t := div a (q 2 1) in
  let n := add (q 1 1) (mul t t) in
  let c := div (sub (q 1 1) (mul t t)) n in
  let s := div (mul (q 2 1) t) n in
  (sub (mul c v.1) (mul s v.2), add (mul s v.1) (mul c v.2)).

#[global] Instance ops : FloatOps Q := {|
  F_eq_dec := Q_eq_dec;
  f0 := q 0 1;
  f1 := q 1 1;
  f2 := q 2 1;
  fhalf := q 1 2;
  fadd := add;
  fsub := sub;
  fmul := mul;
  fdiv := div;
  fltb := ltb;
  fleb := leb;
  f_of_int := λ z, q z 1;
  f_to_ushort := λ a, (Qnum a / Z.pos (Qden a))%Z;
  M_PI := pi;
  FLT_MAX := q 340282346638528859811704183484516925440 1;
  max_ff := λ a b, if ltb b a then a else b;
  min_ff := λ a b, if ltb a b then a else b;
  angle_signed_v2v2 := angle_signed;
  len_v2v2 := len;
  normalize_v2 := normalize;
  rotate_v2 := rotate;
|}.

End QFloat.

(** ** Fixtures of the examples *)

Module Examples.
Import QFloat.

(** One triangle. *)
Definition tri : MeshData.t Q :=
  MeshData.mk
    [MeshVertex.mk 0 [0; 2];
     MeshVertex.mk 1 [0; 1];
     MeshVertex.mk 2 [1; 2]]
    [MeshEdge.mk 0 1 [0];
     MeshEdge.mk 1 2 [0];
     MeshEdge.mk 0 2 [0]]
    [MeshPrimitive.mk 0 [0; 1; 2]
       [MeshUVVert.mk 0 (q 0 1, q 0 1);
        MeshUVVert.mk 1 (q 1 1, q 0 1);
        MeshUVVert.mk 2 (q 0 1, q 1 1)] 0]
    1.

(** A square ring: the square of side 3 without the square of side 1 in its
    middle, in eight counter-clockwise triangles. *)
Definition annulus : MeshData.t Q :=
  MeshData.mk
    [MeshVertex.mk 0 [0; 2; 4; 13];
     MeshVertex.mk 1 [0; 1; 5; 7];
     MeshVertex.mk 2 [5; 6; 9; 11];
     MeshVertex.mk 3 [9; 10; 13; 14];
     MeshVertex.mk 4 [3; 4; 14; 15];
     MeshVertex.mk 5 [1; 2; 3; 8];
     MeshVertex.mk 6 [6; 7; 8; 12];
     MeshVertex.mk 7 [10; 11; 12; 15]]
    [MeshEdge.mk 0 1 [0];
     MeshEdge.mk 1 5 [0; 3];
     MeshEdge.mk 0 5 [0; 1];
     MeshEdge.mk 4 5 [1];
     MeshEdge.mk 0 4 [1; 6];
     MeshEdge.mk 1 2 [2];
     MeshEdge.mk 2 6 [2; 5];
     MeshEdge.mk 1 6 [2; 3];
     MeshEdge.mk 5 6 [3];
     MeshEdge.mk 2 3 [4];
     MeshEdge.mk 3 7 [4; 7];
     MeshEdge.mk 2 7 [4; 5];
     MeshEdge.mk 6 7 [5];
     MeshEdge.mk 0 3 [6];
     MeshEdge.mk 3 4 [6; 7];
     MeshEdge.mk 4 7 [7]]
    [MeshPrimitive.mk 0 [0; 1; 2]
       [MeshUVVert.mk 0 (q 0 1, q 0 1);
        MeshUVVert.mk 1 (q 3 1, q 0 1);
        MeshUVVert.mk 5 (q 2 1, q 1 1)] 0;
     MeshPrimitive.mk 1 [2; 3; 4]
       [MeshUVVert.mk 0 (q 0 1, q 0 1);
        MeshUVVert.mk 5 (q 2 1, q 1 1);
        MeshUVVert.mk 4 (q 1 1, q 1 1)] 0;
     MeshPrimitive.mk 2 [5; 6; 7]
       [MeshUVVert.mk 1 (q 3 1, q 0 1);
        MeshUVVert.mk 2 (q 3 1, q 3 1);
        MeshUVVert.mk 6 (q 2 1, q 2 1)] 0;
     MeshPrimitive.mk 3 [7; 8; 1]
       [MeshUVVert.mk 1 (q 3 1, q 0 1);
        MeshUVVert.mk 6 (q 2 1, q 2 1);
        MeshUVVert.mk 5 (q 2 1, q 1 1)] 0;
     MeshPrimitive.mk 4 [9; 10; 11]
       [MeshUVVert.mk 2 (q 3 1, q 3 1);
        MeshUVVert.mk 3 (q 0 1, q 3 1);
        MeshUVVert.mk 7 (q 1 1, q 2 1)] 0;
     MeshPrimitive.mk 5 [11; 12; 6]
       [MeshUVVert.mk 2 (q 3 1, q 3 1);
        MeshUVVert.mk 7 (q 1 1, q 2 1);
        MeshUVVert.mk 6 (q 2 1, q 2 1)] 0;
     MeshPrimitive.mk 6 [13; 4; 14]
       [MeshUVVert.mk 3 (q 0 1, q 3 1);
        MeshUVVert.mk 0 (q 0 1, q 0 1);
        MeshUVVert.mk 4 (q 1 1, q 1 1)] 0;
     MeshPrimitive.mk 7 [14; 15; 10]
       [MeshUVVert.mk 3 (q 0 1, q 3 1);
        MeshUVVert.mk 4 (q 1 1, q 1 1);
        MeshUVVert.mk 7 (q 1 1, q 2 1)] 0]
    1.

(** A closed fan of four triangles around the vertex 0, cut open in UV space
    along the edge from 0 to 1: the last triangle has the vertex 1 at
    another UV coordinate. *)
Definition cone : MeshData.t Q :=
  MeshData.mk
    [MeshVertex.mk 0 [0; 2; 4; 6];
     MeshVertex.mk 1 [0; 1; 7];
     MeshVertex.mk 2 [1; 2; 3];
     MeshVertex.mk 3 [3; 4; 5];
     MeshVertex.mk 4 [5; 6; 7]]
    [MeshEdge.mk 0 1 [0; 3];
     MeshEdge.mk 1 2 [0];
     MeshEdge.mk 0 2 [0; 1];
     MeshEdge.mk 2 3 [1];
     MeshEdge.mk 0 3 [1; 2];
     MeshEdge.mk 3 4 [2];
     MeshEdge.mk 0 4 [2; 3];
     MeshEdge.mk 1 4 [3]]
    [MeshPrimitive.mk 0 [0; 1; 2]
       [MeshUVVert.mk 0 (q 0 1, q 0 1);
        MeshUVVert.mk 1 (q 1 1, q 0 1);
        MeshUVVert.mk 2 (q 0 1, q 1 1)] 0;
     MeshPrimitive.mk 1 [2; 3; 4]
       [MeshUVVert.mk 0 (q 0 1, q 0 1);
        MeshUVVert.mk 2 (q 0 1, q 1 1);
        MeshUVVert.mk 3 (q (-1) 1, q 0 1)] 0;
     MeshPrimitive.mk 2 [4; 5; 6]
       [MeshUVVert.mk 0 (q 0 1, q 0 1);
        MeshUVVert.mk 3 (q (-1) 1, q 0 1);
        MeshUVVert.mk 4 (q 0 1, q (-1) 1)] 0;
     MeshPrimitive.mk 3 [6; 7; 0]
       [MeshUVVert.mk 0 (q 0 1, q 0 1);
        MeshUVVert.mk 4 (q 0 1, q (-1) 1);
        MeshUVVert.mk 1 (q 1 1, q (-1) 2)] 0]
    1.

(** The same fan in two islands: the island 0 has the first two triangles. *)
Definition partial : MeshData.t Q :=
  MeshData.mk
    [MeshVertex.mk 0 [0; 2; 4; 6];
     MeshVertex.mk 1 [0; 1; 7];
     MeshVertex.mk 2 [1; 2; 3];
     MeshVertex.mk 3 [3; 4; 5];
     MeshVertex.mk 4 [5; 6; 7]]
    [MeshEdge.mk 0 1 [0; 3];
     MeshEdge.mk 1 2 [0];
     MeshEdge.mk 0 2 [0; 1];
     MeshEdge.mk 2 3 [1];
     MeshEdge.mk 0 3 [1; 2];
     MeshEdge.mk 3 4 [2];
     MeshEdge.mk 0 4 [2; 3];
     MeshEdge.mk 1 4 [3]]
    [MeshPrimitive.mk 0 [0; 1; 2]
       [MeshUVVert.mk 0 (q 0 1, q 0 1);
        MeshUVVert.mk 1 (q 1 1, q 0 1);
        MeshUVVert.mk 2 (q 0 1, q 1 1)] 0;
     MeshPrimitive.mk 1 [2; 3; 4]
       [MeshUVVert.mk 0 (q 0 1, q 0 1);
        MeshUVVert.mk 2 (q 0 1, q 1 1);
        MeshUVVert.mk 3 (q (-1) 1, q 0 1)] 0;
     MeshPrimitive.mk 2 [4; 5; 6]
       [MeshUVVert.mk 0 (q 0 1, q 0 1);
        MeshUVVert.mk 3 (q (-1) 1, q 0 1);
        MeshUVVert.mk 4 (q 0 1, q (-1) 1)] 1;
     MeshPrimitive.mk 3 [6; 7; 0]
       [MeshUVVert.mk 0 (q 0 1, q 0 1);
        MeshUVVert.mk 4 (q 0 1, q (-1) 1);
        MeshUVVert.mk 1 (q 1 1, q 0 1)] 1]
    2.

Definition no_island : UVIsland.t Q := UVIsland.mk [] [] [] [].

(** The island 0 of a mesh as [UVIslands::UVIslands] builds it. *)
Definition island_of (mesh : MeshData.t Q) : UVIsland.t Q :=
  match UVIsland_of_mesh mesh 0 with
  | Ret isl => isl
  | _ => no_island
  end.

(** The island with its borders extracted. *)
Definition with_borders (isl : UVIsland.t Q) : UVIsland.t Q :=
  match UVIsland_extract_borders isl with
  | Ret isl' => isl'
  | _ => no_island
  end.

(** The island as the loop of [extend_border] finds it. *)
Definition prepared (isl : UVIsland.t Q) : UVIsland.t Q :=
  match extend_border_init isl with
  | Ret isl' => isl'
  | _ => no_island
  end.

Definition tri_island : UVIsland.t Q := Eval vm_compute in island_of tri.
Definition tri_bordered : UVIsland.t Q := Eval vm_compute in with_borders tri_island.
Definition tri_prepared : UVIsland.t Q := Eval vm_compute in prepared tri_bordered.

(** The three border edges of the triangle, as [extract_borders] collects
    them, and the first of them alone. *)
Definition tri_candidates : list UVBorderEdge.t :=
  [UVBorderEdge_new 0 0; UVBorderEdge_new 1 0; UVBorderEdge_new 2 0].
Definition open_candidates : list UVBorderEdge.t := [UVBorderEdge_new 0 0].

Definition annulus_island : UVIsland.t Q := Eval vm_compute in island_of annulus.
Definition annulus_bordered : UVIsland.t Q := Eval vm_compute in with_borders annulus_island.

Definition cone_island : UVIsland.t Q :=
  Eval vm_compute in prepared (with_borders (island_of cone)).
Definition partial_island : UVIsland.t Q :=
  Eval vm_compute in prepared (with_borders (island_of partial)).

(** The corner at the vertex 0 of the two fans: its first edge is the last
    edge of the border, its second edge is the first. *)
Definition cone_corner : UVBorderCorner.t Q := UVBorderCorner.mk (0, 5) (0, 0) (q 355 678).
Definition partial_corner : UVBorderCorner.t Q := UVBorderCorner.mk (0, 3) (0, 0) (q 355 113).

(** The corners that the selection considers on the cone. *)
Definition cone_candidates : list (UVBorderCorner.t Q) :=
  Eval vm_compute in
    match candidate_corners cone_island with
    | Ret cs => cs
    | _ => []
    end.

(** The cone after [extend_at_vert] ran at its sharpest corner. *)
Definition cone_extended : UVIsland.t Q :=
  Eval vm_compute in
    match extend_at_vert cone 100 cone_island cone_corner (q 1 100) with
    | Ret isl => isl
    | _ => no_island
    end.


(** The mask of one tile, the unit square at the origin. *)
Definition unit_tiles : list (Mask.Tile Q) := [Mask.new_tile (q 0 1, q 0 1) (1024, 1024)].

End Examples.

(** * The mask lookup, the stores, the rasteriser and the fan *)

(** ** The islands mask: its shape, the lookup over all tiles *)

Module MaskOps.
Import Mask.

Section Shape.
Context {F : Type}.
Implicit Types t : Tile F.

(** The mask of the tile has one cell for every pixel of the mask
    resolution, as [Tile::Tile] allocates it. *)
Definition well_formed t : Prop :=
  length (mask t) = (mask_resolution t).1 * (mask_resolution t).2.

(** The tile [t'] is the tile [t] with more cells claimed: the offset and
    the resolutions are the same, the mask has the same size, and a cell
    that an island claimed in [t] is claimed by the same island in [t']. *)
Definition keeps_claims t t' : Prop :=
  udim_offset t' = udim_offset t
  ∧ tile_resolution t' = tile_resolution t
  ∧ mask_resolution t' = mask_resolution t
  ∧ length (mask t') = length (mask t)
  ∧ ∀ o v, mask t !! o = Some v → v ≠ unclaimed → mask t' !! o = Some v.

End Shape.

Section Lookup.
Context {F : Type} {O : FloatOps F}.

(** [UVIslandsMask::is_masked]. *)
Definition mask_is_masked (tiles : list (Tile F)) (island_index : Z) (uv : float2 F) : bool :=
  match find_tile tiles uv with
  | None => false
  | Some tile => is_masked tile island_index uv
  end.

End Lookup.

End MaskOps.

(** ** The islands of a mesh *)

Section Stores.
Context {F : Type} {O : FloatOps F}.

Implicit Types isl : UVIsland.t F.

(** The island [isl'] has the vertices and the edges of [isl] where they
    were: a vertex at the same mesh vertex and UV coordinate, an edge
    between the same vertices and still used by the primitives that used
    it. *)
Definition keeps_store isl isl' : Prop :=
  (∀ v x, UVIsland.uv_vertices isl !! v = Some x →
     ∃ x', UVIsland.uv_vertices isl' !! v = Some x'
           ∧ UVVertex.uv x' = UVVertex.uv x
           ∧ UVVertex.vertex x' = UVVertex.vertex x)
  ∧ (∀ i e, UVIsland.uv_edges isl !! i = Some e →
       ∃ e', UVIsland.uv_edges isl' !! i = Some e'
             ∧ UVEdge.vertices e' = UVEdge.vertices e
             ∧ ∀ p, p ∈ UVEdge.uv_primitives e → p ∈ UVEdge.uv_primitives e').

(** The island [isl'] is the island [isl] with more in it: what [isl] stores
    is kept, its primitives are the first primitives of [isl'], unchanged
    and in their order, and there are as many borders as before. *)
Definition only_adds isl isl' : Prop :=
  keeps_store isl isl'
  ∧ (∃ new, UVIsland.uv_primitives isl' = UVIsland.uv_primitives isl ++ new)
  ∧ length (UVIsland.borders isl') = length (UVIsland.borders isl).

(** No pointer of the stores dangles: the two vertices of every UV edge
    are stored, the UV primitives of every UV edge are among the first [n],
    and the UV edges of every UV vertex and of every UV primitive are
    stored. *)
Definition stores_linked (n : nat) isl : Prop :=
  Forall (λ e, (UVEdge.vertices e).1 < length (UVIsland.uv_vertices isl)
               ∧ (UVEdge.vertices e).2 < length (UVIsland.uv_vertices isl)
               ∧ Forall (λ p, p < n) (UVEdge.uv_primitives e))
         (UVIsland.uv_edges isl)
  ∧ Forall (λ x, Forall (λ ei, ei < length (UVIsland.uv_edges isl)) (UVVertex.uv_edges x))
           (UVIsland.uv_vertices isl)
  ∧ Forall (λ prim, Forall (λ ei, ei < length (UVIsland.uv_edges isl))
                           (UVPrimitive.edges prim))
           (UVIsland.uv_primitives isl).

(** The UV edge and the UV primitive of every border edge are stored. *)
Definition borders_linked isl : Prop :=
  Forall (λ border,
            Forall (λ be, UVBorderEdge.edge be < length (UVIsland.uv_edges isl)
                          ∧ UVBorderEdge.uv_primitive be
                            < length (UVIsland.uv_primitives isl))
                   (UVBorder.edges border))
         (UVIsland.borders isl).

(** No pointer of the island dangles. *)
Definition no_dangling isl : Prop :=
  stores_linked (length (UVIsland.uv_primitives isl)) isl ∧ borders_linked isl.

(** The UV edge [ei] of the island joins the UV vertices of the two ends of
    the mesh edge [me], as the mesh primitive [prim] places them, and is
    used by the UV primitive [this]. *)
Definition edge_of_primitive (mesh : MeshData.t F) isl (prim : MeshPrimitive.t F)
    (this : nat) (mei ei : nat) : Prop :=
  ∃ me e va vb xa xb,
    MeshData.edges mesh !! mei = Some me
    ∧ get_uv_vert prim (MeshEdge.vert1 me) = Ret va
    ∧ get_uv_vert prim (MeshEdge.vert2 me) = Ret vb
    ∧ UVIsland.uv_edges isl !! ei = Some e
    ∧ ((UVIsland.uv_vertices isl !! (UVEdge.vertices e).1 = Some xa
        ∧ UVIsland.uv_vertices isl !! (UVEdge.vertices e).2 = Some xb)
       ∨ (UVIsland.uv_vertices isl !! (UVEdge.vertices e).2 = Some xa
          ∧ UVIsland.uv_vertices isl !! (UVEdge.vertices e).1 = Some xb))
    ∧ UVVertex.vertex xa = MeshUVVert.vertex va ∧ UVVertex.uv xa = MeshUVVert.uv va
    ∧ UVVertex.vertex xb = MeshUVVert.vertex vb ∧ UVVertex.uv xb = MeshUVVert.uv vb
    ∧ this ∈ UVEdge.uv_primitives e.

(** [UVIslands::UVIslands]: one island for each id below [uv_island_len],
    with the primitives of that id, in the order of the mesh. *)
Definition UVIslands_new (mesh : MeshData.t F) : res (list (UVIsland.t F)) :=
  foldM (λ (islands : list (UVIsland.t F)) (uv_island_id : nat),
           isl ← UVIsland_of_mesh mesh (Z.of_nat uv_island_id);
           Ret (islands ++ [isl]))
        [] (seq 0 (Z.to_nat (MeshData.uv_island_len mesh))).

(** The mesh primitives of the island [uv_island_id], in the order of the
    mesh. *)
Definition primitives_of_island (mesh : MeshData.t F) (uv_island_id : Z) : list nat :=
  fst <$> filter (λ ip, MeshPrimitive.uv_island_id ip.2 = uv_island_id)
                 (imap pair (MeshData.primitives mesh)).

End Stores.

(** ** Flags and links of the borders *)

Section BorderVocabulary.
Context {F : Type} {O : FloatOps F}.

Implicit Types isl : UVIsland.t F.

(** The UV vertices at the ends of the edges of the borders of the island,
    border after border. *)
Definition border_vertices isl : list nat :=
  border ← UVIsland.borders isl;
  border_edge ← UVBorder.edges border;
  match UVIsland.uv_edges isl !! UVBorderEdge.edge border_edge with
  | Some e => [(UVEdge.vertices e).1; (UVEdge.vertices e).2]
  | None => []
  end.

(** The vertex store after [reset_extendability_flags]: [is_extended] is
    cleared, and [is_border] is set on the vertices of [marked]. *)
Definition flagged (marked : list nat) (vs : list (UVVertex.t F)) : list (UVVertex.t F) :=
  imap (λ v x, set_vertex_flags x (bool_decide (v ∈ marked)) false) vs.

(** What identifies a border edge: its UV edge and the UV primitive that
    owns it. *)
Definition edge_key (be : UVBorderEdge.t) : nat * nat :=
  (UVBorderEdge.edge be, UVBorderEdge.uv_primitive be).

(** The border edges of all the borders of a list. *)
Definition edges_of_borders (borders : list UVBorder.t) : list UVBorderEdge.t :=
  border ← borders; UVBorder.edges border.

End BorderVocabulary.

(** ** The rasteriser of the islands mask *)

Module Raster.
Import Mask.

(** [rctf] of [DNA_vec_types.h]. *)
Record rctf (F : Type) := mk_rctf {
  xmin : F;
  xmax : F;
  ymin : F;
  ymax : F;
}.
Arguments mk_rctf {F}.
Arguments xmin {F}.
Arguments xmax {F}.
Arguments ymin {F}.
Arguments ymax {F}.

(** The functions of [BLI_rect], [BLI_math] and [<cmath>] that the
    rasteriser calls.  They are kept abstract, as the [float] operations
    are.  [floor_to_int] and [ceil_to_int] are [floor] and [ceil] with the
    conversion of their result to the [int] parameter of [max_ii] and
    [min_ii], which is undefined for a value that no [int] holds. *)
Class RasterOps (F : Type) := {
  BLI_rctf_init_minmax : rctf F;
  BLI_rctf_do_minmax_v : rctf F → float2 F → rctf F;
  floor_to_int : F → option Z;
  ceil_to_int : F → option Z;
  barycentric_weights_v2 : float2 F → float2 F → float2 F → float2 F → F * F * F;
  barycentric_inside_triangle_v2 : F * F * F → bool;
}.

(** Conversion of an [int] to [int16_t], and of an [int16_t] to the
    [uint16_t] of a mask cell. *)
Definition to_int16 (z : Z) : Z := ((z + 32768) mod 65536 - 32768)%Z.
Definition to_uint16 (z : Z) : Z := (z mod 65536)%Z.

(** [for (int i = lo; i < hi + 1; i++)]. *)
Definition zrange (lo hi : Z) : list Z :=
  (λ i, (lo + Z.of_nat i)%Z) <$> seq 0 (Z.to_nat (hi + 1 - lo)).

Section Rasteriser.
Context {F : Type} {O : FloatOps F} {R : RasterOps F}.
Variable mesh : MeshData.t F.

(** [MeshPrimitive::uv_bounds]. *)
Definition MeshPrimitive_uv_bounds (prim : MeshPrimitive.t F) : rctf F :=
  foldl (λ result uv_vertex, BLI_rctf_do_minmax_v result (MeshUVVert.uv uv_vertex))
        BLI_rctf_init_minmax (MeshPrimitive.vertices prim).

(** [buffer_bounds] of [add_uv_island], as (xmin, xmax, ymin, ymax): the
    bounds of the primitive in mask pixels, clamped to the mask. *)
Definition buffer_bounds (udim_offset : float2 F) (mask_resolution : nat * nat)
    (uv_bounds : rctf F) : res (Z * Z * Z * Z) :=
  let rx := f_of_int (Z.of_nat mask_resolution.1) in
  let ry := f_of_int (Z.of_nat mask_resolution.2) in
  x0 ← nonnull (floor_to_int (fmul (fsub (xmin uv_bounds) udim_offset.1) rx));
  x1 ← nonnull (ceil_to_int (fmul (fsub (xmax uv_bounds) udim_offset.1) rx));
  y0 ← nonnull (floor_to_int (fmul (fsub (ymin uv_bounds) udim_offset.2) ry));
  y1 ← nonnull (ceil_to_int (fmul (fsub (ymax uv_bounds) udim_offset.2) ry));
  Ret (Z.max x0 0, Z.min x1 (Z.of_nat mask_resolution.1 - 1),
       Z.max y0 0, Z.min y1 (Z.of_nat mask_resolution.2 - 1))%Z.

(** The test of the body of the loops: the mask pixel [(x, y)], taken to UV
    space, is inside the triangle of the primitive. *)
Definition pixel_inside (udim_offset : float2 F) (mask_resolution : nat * nat)
    (prim : MeshPrimitive.t F) (x y : Z) : res bool :=
  let uv := (fdiv (f_of_int x) (f_of_int (Z.of_nat mask_resolution.1)),
             fdiv (f_of_int y) (f_of_int (Z.of_nat mask_resolution.2))) in
  v0 ← deref (MeshPrimitive.vertices prim) 0;
  v1 ← deref (MeshPrimitive.vertices prim) 1;
  v2 ← deref (MeshPrimitive.vertices prim) 2;
  Ret (barycentric_inside_triangle_v2
         (barycentric_weights_v2 (MeshUVVert.uv v0) (MeshUVVert.uv v1) (MeshUVVert.uv v2)
            (add_v2 uv udim_offset))).

(** The body of the loops of [add_uv_island]; a write outside the mask is
    undefined. *)
Definition add_pixel (prim : MeshPrimitive.t F) (island_index : Z) (tile : Tile F)
    (y x : Z) : res (Tile F) :=
  inside ← pixel_inside (udim_offset tile) (mask_resolution tile) prim x y;
  if negb inside then Ret tile
  else
    let offset := (Z.of_nat (mask_resolution tile).1 * y + x)%Z in
    if bool_decide (0 ≤ offset < Z.of_nat (length (mask tile)))%Z
    then Ret (set_mask tile (<[Z.to_nat offset := to_uint16 island_index]> (mask tile)))
    else UB.

(** The body of the loop of [add_uv_island] over the primitives. *)
Definition add_uv_primitive (island_index : Z) (tile : Tile F)
    (uv_primitive : UVPrimitive.t) : res (Tile F) :=
  prim ← deref (MeshData.primitives mesh) (UVPrimitive.primitive uv_primitive);
  bounds ← buffer_bounds (udim_offset tile) (mask_resolution tile)
              (MeshPrimitive_uv_bounds prim);
  let '(x0, x1, y0, y1) := bounds in
  foldM (λ tile y, foldM (λ tile x, add_pixel prim island_index tile y x)
                         tile (zrange x0 x1))
        tile (zrange y0 y1).

(** [add_uv_island]; [island_index] is an [int16_t]. *)
Definition add_uv_island (tile : Tile F) (uv_island : UVIsland.t F) (island_index : Z)
    : res (Tile F) :=
  foldM (add_uv_primitive island_index) tile (UVIsland.uv_primitives uv_island).

(** [UVIslandsMask::add]: the [int] index of an island is converted to
    [int16_t] at the call. *)
Definition UVIslandsMask_add (tiles : list (Tile F)) (islands : list (UVIsland.t F))
    : res (list (Tile F)) :=
  foldM (λ (done : list (Tile F)) (tile : Tile F),
           tile' ← foldM (λ tile (ii : nat * UVIsland.t F),
                             add_uv_island tile ii.2 (to_int16 (Z.of_nat ii.1)))
                          tile (imap pair islands);
           Ret (done ++ [tile']))
        [] tiles.

(** *** Vocabulary of the statements about the rasteriser *)

(** The cell of the mask pixel [(x, y)]. *)
Definition cell (tile : Tile F) (x y : Z) : option Z :=
  mask tile !! Z.to_nat (Z.of_nat (mask_resolution tile).1 * y + x).

(** The tile [tile'] is the tile [tile] with other values in its mask. *)
Definition same_shape (tile tile' : Tile F) : Prop :=
  udim_offset tile' = udim_offset tile
  ∧ tile_resolution tile' = tile_resolution tile
  ∧ mask_resolution tile' = mask_resolution tile
  ∧ length (mask tile') = length (mask tile).

(** The UV primitive stamps the mask pixel [(x, y)] of the tile: the pixel is
    within the clamped bounds of the primitive and inside its triangle. *)
Definition stamps (tile : Tile F) (uv_primitive : UVPrimitive.t) (x y : Z) : bool :=
  match MeshData.primitives mesh !! UVPrimitive.primitive uv_primitive with
  | Some prim =>
      match buffer_bounds (udim_offset tile) (mask_resolution tile)
              (MeshPrimitive_uv_bounds prim) with
      | Ret (x0, x1, y0, y1) =>
          bool_decide (x0 ≤ x ≤ x1 ∧ y0 ≤ y ≤ y1)%Z
          && match pixel_inside (udim_offset tile) (mask_resolution tile) prim x y with
             | Ret inside => inside
             | _ => false
             end
      | _ => false
      end
  | None => false
  end.

(** A primitive of the island stamps the pixel. *)
Definition island_stamps (tile : Tile F) (uv_island : UVIsland.t F) (x y : Z) : bool :=
  existsb (λ uv_primitive, stamps tile uv_primitive x y) (UVIsland.uv_primitives uv_island).

(** The primitive can be rasterised on the tile: its mesh primitive is
    there and is a triangle, and the four bounds convert to [int]. *)
Definition rasterisable (tile : Tile F) (uv_primitive : UVPrimitive.t) : Prop :=
  ∃ prim bounds,
    MeshData.primitives mesh !! UVPrimitive.primitive uv_primitive = Some prim
    ∧ 3 ≤ length (MeshPrimitive.vertices prim)
    ∧ buffer_bounds (udim_offset tile) (mask_resolution tile) (MeshPrimitive_uv_bounds prim)
      = Ret bounds.

End Rasteriser.

End Raster.

(** ** The walk of the fan *)

Section FanVocabulary.
Context {F : Type} {O : FloatOps F}.
Variable mesh : MeshData.t F.

(** One step of the walk around [vertex], between states (current edge,
    previous primitive): the next primitive lies on the current edge and is
    not the previous one, and the next edge is an edge of that primitive,
    other than the current edge, that touches the vertex. *)
Definition fan_step (vertex : nat) (from to : nat * nat) : Prop :=
  ∃ ce prim me,
    MeshData.edges mesh !! from.1 = Some ce
    ∧ to.2 ∈ MeshEdge.primitives ce ∧ to.2 ≠ from.2
    ∧ MeshData.primitives mesh !! to.2 = Some prim
    ∧ to.1 ∈ MeshPrimitive.edges prim ∧ to.1 ≠ from.1
    ∧ MeshData.edges mesh !! to.1 = Some me
    ∧ (MeshEdge.vert1 me = vertex ∨ MeshEdge.vert2 me = vertex).

(** A walk from the state [start] through the states of [path]. *)
Fixpoint fan_walk (vertex : nat) (start : nat * nat) (path : list (nat * nat)) : Prop :=
  match path with
  | [] => True
  | state :: rest => fan_step vertex start state ∧ fan_walk vertex state rest
  end.

(** The segment of the fan is in the island at the UV vertex [uv_vertex]:
    an edge of the UV vertex joins the mesh vertices [v0] and [v1], in
    either order. *)
Definition segment_in_island (isl : UVIsland.t F) (uv_vertex : UVVertex.t F)
    (v0 v1 : nat) : Prop :=
  ∃ ei edge e0 e1,
    ei ∈ UVVertex.uv_edges uv_vertex
    ∧ UVIsland.uv_edges isl !! ei = Some edge
    ∧ mesh_vertex_of isl (UVEdge.vertices edge).1 = Ret e0
    ∧ mesh_vertex_of isl (UVEdge.vertices edge).2 = Ret e1
    ∧ ((e0 = v0 ∧ e1 = v1) ∨ (e0 = v1 ∧ e1 = v0)).

End FanVocabulary.

(** ** More examples *)

Module MoreExamples.
Import QFloat Examples.

(** A tile with a mask of four by three cells, the cell [(1, 1)] claimed by
    the island 7. *)
Definition small_tile : Mask.Tile Q :=
  Mask.mkTile (q 0 1, q 0 1) (16, 12) (4, 3)
    [Mask.unclaimed; Mask.unclaimed; Mask.unclaimed; Mask.unclaimed;
     Mask.unclaimed; 7%Z;            Mask.unclaimed; Mask.unclaimed;
     Mask.unclaimed; Mask.unclaimed; Mask.unclaimed; Mask.unclaimed].

(** A closed fan of three triangles around the vertex 0 in two islands:
    the island 0 has the first two triangles, and the third triangle closes
    the corner that the island has at the vertex 0. *)
Definition tripod : MeshData.t Q :=
  MeshData.mk
    [MeshVertex.mk 0 [0; 2; 4];
     MeshVertex.mk 1 [0; 1; 5];
     MeshVertex.mk 2 [1; 2; 3];
     MeshVertex.mk 3 [3; 4; 5]]
    [MeshEdge.mk 0 1 [0; 2];
     MeshEdge.mk 1 2 [0];
     MeshEdge.mk 0 2 [0; 1];
     MeshEdge.mk 2 3 [1];
     MeshEdge.mk 0 3 [1; 2];
     MeshEdge.mk 1 3 [2]]
    [MeshPrimitive.mk 0 [0; 1; 2]
       [MeshUVVert.mk 0 (q 0 1, q 0 1);
        MeshUVVert.mk 1 (q 1 1, q 0 1);
        MeshUVVert.mk 2 (q 0 1, q 1 1)] 0;
     MeshPrimitive.mk 1 [2; 3; 4]
       [MeshUVVert.mk 0 (q 0 1, q 0 1);
        MeshUVVert.mk 2 (q 0 1, q 1 1);
        MeshUVVert.mk 3 (q (-1) 1, q (-1) 1)] 0;
     MeshPrimitive.mk 2 [4; 5; 0]
       [MeshUVVert.mk 0 (q 0 1, q 0 1);
        MeshUVVert.mk 3 (q (-1) 1, q (-1) 1);
        MeshUVVert.mk 1 (q 1 1, q 0 1)] 1]
    2.

Definition tripod_island : UVIsland.t Q :=
  Eval vm_compute in prepared (with_borders (island_of tripod)).

(** The corner at the vertex 0 of the island 0 of the tripod. *)
Definition tripod_corner : UVBorderCorner.t Q :=
  UVBorderCorner.mk (0, 3) (0, 0) (q 1065 452).

(** The border of the triangle with its links. *)
Definition tri_border : UVBorder.t :=
  Eval vm_compute in
    UVBorder_update_indexes (default (UVBorder.mk []) (head (UVIsland.borders tri_bordered))) 0.

(** A tile around the origin whose mask belongs to the island 0. *)
Definition centre_tile : Mask.Tile Q :=
  Mask.mkTile (q (-1) 2, q (-1) 2) (16, 12) (4, 3) (replicate 12 0%Z).

(** The cone after the pass of [extend_border] under that mask. *)
Definition cone_pass : UVIsland.t Q :=
  Eval vm_compute in
    match UVIsland_extend_border cone 20 100 [centre_tile] 0 (with_borders (island_of cone)) with
    | Halted isl => isl
    | _ => no_island
    end.

(** Rational stand-ins for the functions of the rasteriser: the bounding
    box by minimum and maximum, [floor] and [ceil] by integer division, the
    barycentric weights by the signed areas of the three sub-triangles. *)
Definition cross_tri (v1 v2 v3 : Q * Q) : Q :=
  add (mul (sub v1.1 v2.1) (sub v2.2 v3.2)) (mul (sub v1.2 v2.2) (sub v3.1 v2.1)).

Definition weights (v1 v2 v3 co : Q * Q) : Q * Q * Q :=
  let w1 := cross_tri v2 v3 co in
  let w2 := cross_tri v3 v1 co in
  let w3 := cross_tri v1 v2 co in
  let wtot := add (add w1 w2) w3 in
  if Q_eq_dec wtot (q 0 1) then (q 1 3, q 1 3, q 1 3)
  else (div w1 wtot, div w2 wtot, div w3 wtot).

Definition in_unit (w : Q) : bool := leb (q 0 1) w && leb w (q 1 1).

#[global] Instance raster_ops : Raster.RasterOps Q := {|
  Raster.BLI_rctf_init_minmax :=
    Raster.mk_rctf FLT_MAX (sub (q 0 1) FLT_MAX) FLT_MAX (sub (q 0 1) FLT_MAX);
  Raster.BLI_rctf_do_minmax_v := λ r v,
    Raster.mk_rctf (min_ff (Raster.xmin r) v.1) (max_ff (Raster.xmax r) v.1)
                   (min_ff (Raster.ymin r) v.2) (max_ff (Raster.ymax r) v.2);
  Raster.floor_to_int := λ a, Some (Qnum a / Z.pos (Qden a))%Z;
  Raster.ceil_to_int := λ a, Some (- ((- Qnum a) / Z.pos (Qden a)))%Z;
  Raster.barycentric_weights_v2 := weights;
  Raster.barycentric_inside_triangle_v2 := λ w, in_unit w.1.1 && in_unit w.1.2 && in_unit w.2;
|}.

(** The small tile after the triangle was added as the island 0. *)
Definition small_tile_added : Mask.Tile Q :=
  Eval vm_compute in
    match Raster.add_uv_island tri small_tile tri_island 0 with
    | Ret t => t
    | _ => small_tile
    end.

(** The two islands of the partial fan, and the small tile after
    [UVIslandsMask::add] ran with them. *)
Definition partial_islands : list (UVIsland.t Q) :=
  Eval vm_compute in
    match UVIslands_new partial with
    | Ret islands => islands
    | _ => []
    end.

Definition small_tiles_added : list (Mask.Tile Q) :=
  Eval vm_compute in
    match Raster.UVIslandsMask_add partial [small_tile] partial_islands with
    | Ret tiles => tiles
    | _ => []
    end.

(** The UV vertex of the partial fan at the mesh vertex 0, and the fan
    around it as [extend_at_vert] builds, initialises and marks it. *)
Definition partial_vertex : UVVertex.t Q :=
  Eval vm_compute in
    default (UVVertex_new 0 (q 0 1, q 0 1)) (UVIsland.uv_vertices partial_island !! 0).

Definition partial_fan : Fan.t Q :=
  Eval vm_compute in
    match Fan_new partial 100 0 with
    | Ret fan => fan
    | _ => Fan.mk [] false
    end.

Definition partial_fan_placed : Fan.t Q :=
  Eval vm_compute in
    match Fan_init_uv_coordinates partial partial_island partial_fan partial_vertex with
    | Ret fan => fan
    | _ => Fan.mk [] false
    end.

Definition partial_fan_marked : Fan.t Q :=
  Eval vm_compute in
    match Fan_mark_already_added_segments partial partial_island partial_fan_placed
            partial_vertex with
    | Ret fan => fan
    | _ => Fan.mk [] false
    end.

End MoreExamples.
(** * Properties *)

(** ** The islands mask *)

Module MaskFacts.
Import Mask.

Section Dilate.

Lemma dilate_x_cell_write w prev st y x :
  dilate_x_cell w prev st y x = write_step w (upd_x w prev) st (y, x).
Proof.
  unfold dilate_x_cell, write_step, upd_x; simpl.
  repeat (case_bool_decide; simpl; try done).
Qed.

Lemma dilate_y_cell_write w h prev st y x :
  dilate_y_cell w h prev st y x = write_step w (upd_y w h prev) st (y, x).
Proof.
  unfold dilate_y_cell, write_step, upd_y; simpl.
  repeat (case_bool_decide; simpl; try done).
Qed.

Lemma grid_loop_cells {S} w h (body : S → nat → nat → S) s :
  grid_loop w h body s = foldl (λ s c, body s c.1 c.2) s (cells w h).
Proof.
  unfold grid_loop, cells. generalize (seq 0 h) as ys. intros ys. revert s.
  induction ys as [|y ys IH]; intros s; simpl; [done|].
  rewrite foldl_app, IH. f_equal.
  generalize (seq 0 w) as xs. intros xs. revert s.
  induction xs as [|x xs IHx]; intros s; simpl; [done|]. by rewrite IHx.
Qed.

Lemma elem_of_cells w h y x : (y, x) ∈ cells w h ↔ y < h ∧ x < w.
Proof.
  unfold cells. rewrite list_elem_of_bind. split.
  - intros (y' & Hin & Hy). apply list_elem_of_fmap in Hin as (x' & Heq & Hx).
    simplify_eq. apply elem_of_seq in Hy, Hx. lia.
  - intros [Hy Hx]. exists y. split.
    + apply list_elem_of_fmap. exists x. split; [done|]. apply elem_of_seq. lia.
    + apply elem_of_seq. lia.
Qed.

Lemma write_step_length w upd st c :
  length (write_step w upd st c).1 = length st.1.
Proof.
  unfold write_step. destruct (upd c.1 c.2); simpl; [|done].
  by rewrite length_insert.
Qed.

Lemma write_fold_length w upd cs st :
  length (foldl (write_step w upd) st cs).1 = length st.1.
Proof.
  revert st. induction cs as [|c cs IH]; intros st; simpl; [done|].
  by rewrite IH, write_step_length.
Qed.

(** A cell that no iteration writes keeps its value. *)
Lemma write_fold_untouched w upd cs st o :
  (∀ c, c ∈ cs → c.1 * w + c.2 = o → upd c.1 c.2 = None) →
  (foldl (write_step w upd) st cs).1 !! o = st.1 !! o.
Proof.
  revert st. induction cs as [|c cs IH]; intros st Hno; simpl; [done|].
  rewrite IH.
  - unfold write_step. destruct (upd c.1 c.2) eqn:Hu; simpl; [|done].
    apply list_lookup_insert_ne. intros Heq.
    specialize (Hno c (list_elem_of_here _ _) Heq). congruence.
  - intros c' Hin. apply Hno. by apply list_elem_of_further.
Qed.

(** The offsets of the cells of one grid are distinct, so a written cell
    holds the value of its only write. *)
Lemma write_fold_written w h upd st y x v :
  y < h → x < w → upd y x = Some v → y * w + x < length st.1 →
  ∀ cs, (∀ c, c ∈ cs → c.2 < w) → (y, x) ∈ cs →
  (foldl (write_step w upd) st cs).1 !! (y * w + x) = Some v.
Proof.
  intros Hy Hx Hu Hlen cs. revert st Hlen.
  induction cs as [|c cs IH]; intros st Hlen Hw Hin; [by apply elem_of_nil in Hin|].
  simpl. destruct (decide (c = (y, x))) as [->|Hne].
  - destruct (decide ((y, x) ∈ cs)) as [Hin'|Hnin].
    + apply IH; [|intros; apply Hw; by apply list_elem_of_further|done].
      by rewrite write_step_length.
    + rewrite write_fold_untouched.
      * unfold write_step; simpl. rewrite Hu; simpl.
        by apply list_lookup_insert_eq.
      * intros [y' x'] Hc Hoff; simpl in *.
        assert (x' < w) by (apply (Hw (y', x')); by apply list_elem_of_further).
        assert (y' = y ∧ x' = x) as [-> ->]; [|done].
        assert (y' = y) by nia. subst. lia.
  - apply elem_of_cons in Hin as [Heq|Hin]; [congruence|].
    apply IH; [|intros; apply Hw; by apply list_elem_of_further|done].
    by rewrite write_step_length.
Qed.

Lemma write_fold_cells w h upd m b y x :
  y < h → x < w → length m = w * h →
  (foldl (write_step w upd) (m, b) (cells w h)).1 !! (y * w + x)
  = Some (default (m !!! (y * w + x)) (upd y x)).
Proof.
  intros Hy Hx Hlen.
  assert (y * w + x < length m) as Hlt by nia.
  destruct (upd y x) as [v|] eqn:Hu; simpl.
  - apply (write_fold_written w h); simpl; try done.
    + intros [y' x'] Hc. apply elem_of_cells in Hc. simpl. lia.
    + by apply elem_of_cells.
  - rewrite write_fold_untouched; simpl.
    + by apply list_lookup_lookup_total_lt.
    + intros [y' x'] Hc Hoff; simpl in *. apply elem_of_cells in Hc.
      assert (y' = y) by nia. subst. assert (x' = x) by lia. by subst.
Qed.

Lemma foldl_write_ext {A} (f g : A → nat * nat → A) cs a :
  (∀ a c, f a c = g a c) → foldl f a cs = foldl g a cs.
Proof.
  intros Hfg. revert a. induction cs as [|c cs IH]; intros a; simpl; [done|].
  by rewrite Hfg, IH.
Qed.

Context {F : Type}.
Implicit Types t : Tile F.

Lemma dilate_x_resolution t : mask_resolution (dilate_x t).1 = mask_resolution t.
Proof. unfold dilate_x. by destruct (mask_resolution t) eqn:E. Qed.

Lemma dilate_y_resolution t : mask_resolution (dilate_y t).1 = mask_resolution t.
Proof. unfold dilate_y. by destruct (mask_resolution t) eqn:E. Qed.

Lemma dilate_x_length t : length (mask (dilate_x t).1) = length (mask t).
Proof.
  unfold dilate_x. destruct (mask_resolution t) as [w h]; simpl.
  rewrite grid_loop_cells.
  rewrite (foldl_write_ext _ (write_step w (upd_x w (mask t))))
    by (intros ? []; apply dilate_x_cell_write).
  by rewrite write_fold_length.
Qed.

Lemma dilate_x_lookup t w h y x :
  mask_resolution t = (w, h) → length (mask t) = w * h → y < h → x < w →
  mask (dilate_x t).1 !!! (y * w + x)
  = default (mask t !!! (y * w + x)) (upd_x w (mask t) y x).
Proof.
  intros Hres Hlen Hy Hx. unfold dilate_x. rewrite Hres; simpl.
  rewrite grid_loop_cells.
  rewrite (foldl_write_ext _ (write_step w (upd_x w (mask t))))
    by (intros ? []; apply dilate_x_cell_write).
  apply list_lookup_total_correct. by apply (write_fold_cells w h).
Qed.

Lemma dilate_y_lookup t w h y x :
  mask_resolution t = (w, h) → length (mask t) = w * h → y < h → x < w →
  mask (dilate_y t).1 !!! (y * w + x)
  = default (mask t !!! (y * w + x)) (upd_y w h (mask t) y x).
Proof.
  intros Hres Hlen Hy Hx. unfold dilate_y. rewrite Hres; simpl.
  rewrite grid_loop_cells.
  rewrite (foldl_write_ext _ (write_step w (upd_y w h (mask t))))
    by (intros ? []; apply dilate_y_cell_write).
  apply list_lookup_total_correct. by apply (write_fold_cells w h).
Qed.

(** After the x pass the claim covers the cell and its two x neighbours. *)
Lemma dilate_x_single_claim t w h x y K :
  mask_resolution t = (w, h) → single_claim t x y K →
  ∀ x' y', x' < w → y' < h →
    mask (dilate_x t).1 !!! (y' * w + x')
    = if decide (y' = y ∧ (x' = x ∨ x' = x + 1 ∨ x' + 1 = x)) then K else unclaimed.
Proof.
  intros Hres Hsc x' y' Hx' Hy'. unfold single_claim in Hsc. rewrite Hres in Hsc.
  destruct Hsc as (Hx & Hy & Hlen & HK & Hm).
  rewrite (dilate_x_lookup t w h) by done. unfold upd_x.
  rewrite Hm by done.
  destruct (decide (x' = x ∧ y' = y)) as [[-> ->]|Hne].
  { rewrite bool_decide_eq_true_2 by done. simpl.
    rewrite decide_True by lia. done. }
  rewrite bool_decide_eq_false_2 by (intros Hc; by apply Hc).
  destruct (decide (x' = 0)) as [->|Hx0].
  - rewrite (bool_decide_eq_false_2 (0 ≠ 0)) by (intros Hc; by apply Hc). simpl.
    destruct (decide (0 < w - 1)) as [Hw1|Hw1].
    + replace (y' * w + 0 + 1) with (y' * w + 1) by lia.
      rewrite Hm by lia. rewrite (bool_decide_eq_true_2 (0 < w - 1)) by done. simpl.
      destruct (decide (1 = x ∧ y' = y)) as [[<- ->]|Hn1].
      * rewrite bool_decide_eq_true_2 by done. simpl. by rewrite decide_True by lia.
      * rewrite bool_decide_eq_false_2 by (intros Hc; by apply Hc). simpl.
        rewrite decide_False by lia. done.
    + rewrite (bool_decide_eq_false_2 (0 < w - 1)) by done. simpl.
      rewrite decide_False by lia. done.
  - rewrite (bool_decide_eq_true_2 (x' ≠ 0)) by done. simpl.
    replace (y' * w + x' - 1) with (y' * w + (x' - 1)) by lia.
    rewrite Hm by lia.
    destruct (decide (x' - 1 = x ∧ y' = y)) as [[Hx1 ->]|Hn1].
    { rewrite bool_decide_eq_true_2 by done. simpl. by rewrite decide_True by lia. }
    rewrite bool_decide_eq_false_2 by (intros Hc; by apply Hc). simpl.
    destruct (decide (x' < w - 1)) as [Hw1|Hw1].
    + replace (y' * w + x' + 1) with (y' * w + (x' + 1)) by lia.
      rewrite Hm by lia. rewrite (bool_decide_eq_true_2 (x' < w - 1)) by done. simpl.
      destruct (decide (x' + 1 = x ∧ y' = y)) as [[<- ->]|Hn2].
      * rewrite bool_decide_eq_true_2 by done. simpl. by rewrite decide_True by lia.
      * rewrite bool_decide_eq_false_2 by (intros Hc; by apply Hc). simpl.
        rewrite decide_False by lia. done.
    + rewrite (bool_decide_eq_false_2 (x' < w - 1)) by done. simpl.
      rewrite decide_False by lia. done.
Qed.

Lemma dilate_y_after_x t1 w h x y K :
  mask_resolution t1 = (w, h) → length (mask t1) = w * h →
  x < w → y < h → K ≠ unclaimed →
  (∀ x' y', x' < w → y' < h →
    mask t1 !!! (y' * w + x')
    = if decide (y' = y ∧ (x' = x ∨ x' = x + 1 ∨ x' + 1 = x)) then K else unclaimed) →
  ∀ x' y', x' < w → y' < h → neighbour4 x y x' y' →
    mask (dilate_y t1).1 !!! (y' * w + x') = K.
Proof.
  intros Hres Hlen Hx Hy HK Hm x' y' Hx' Hy' Hn.
  rewrite (dilate_y_lookup t1 w h) by done. unfold upd_y.
  rewrite Hm by done.
  destruct Hn as [[-> Hyy]|[-> Hxx]].
  - rewrite decide_False by lia.
    rewrite bool_decide_eq_false_2 by (intros Hc; by apply Hc).
    destruct Hyy as [->|Hyy].
    + rewrite (bool_decide_eq_true_2 (y + 1 ≠ 0)) by lia. simpl.
      replace ((y + 1) * w + x - w) with (y * w + x) by lia.
      rewrite Hm by done. rewrite decide_True by lia.
      by rewrite bool_decide_eq_true_2 by done.
    + assert (bool_decide (y' ≠ 0)
              && bool_decide (mask t1 !!! (y' * w + x - w) ≠ unclaimed) = false) as ->.
      { destruct (decide (y' = 0)) as [->|Hy0].
        - by rewrite (bool_decide_eq_false_2 (0 ≠ 0)) by (intros Hc; by apply Hc).
        - replace (y' * w + x - w) with ((y' - 1) * w + x) by nia.
          rewrite Hm by lia. rewrite decide_False by lia.
          rewrite (bool_decide_eq_false_2 (unclaimed ≠ unclaimed))
            by (intros Hc; by apply Hc).
          apply andb_false_r. }
      rewrite (bool_decide_eq_true_2 (y' < h - 1)) by lia. simpl.
      replace (y' * w + x + w) with (y * w + x) by nia.
      rewrite Hm by done. rewrite decide_True by lia.
      by rewrite bool_decide_eq_true_2 by done.
  - rewrite decide_True by lia. by rewrite bool_decide_eq_true_2 by done.
Qed.

Lemma dilate_tile_once t : dilate_tile t 1 = (dilate_y (dilate_x t).1).1.
Proof.
  unfold dilate_tile. simpl.
  destruct (dilate_x t) as [t1 cx]. simpl.
  destruct (dilate_y t1) as [t2 cy]. simpl.
  by destruct (cx || cy).
Qed.

Lemma dilate_zero (tiles : list (Tile F)) : dilate tiles 0 = tiles.
Proof. unfold dilate. induction tiles as [|t ts IH]; simpl; [done|]. by f_equal. Qed.

Lemma stamped_single_claim (offset : float2 F) res x y K :
  x < (mask_resolution_from_tile_resolution res).1 →
  y < (mask_resolution_from_tile_resolution res).2 →
  K ≠ unclaimed →
  single_claim (stamped offset res x y K) x y K.
Proof.
  intros Hx Hy HK. unfold single_claim, stamped, new_tile.
  destruct (mask_resolution_from_tile_resolution res) as [w h].
  cbn [fst snd mask_resolution set_mask mask] in *.
  repeat split; try done.
  - by rewrite length_insert, length_replicate.
  - intros x' y' Hx' Hy'.
    assert (y' * w + x' < w * h) by nia.
    apply list_lookup_total_correct.
    destruct (decide (x' = x ∧ y' = y)) as [[-> ->]|Hne].
    + apply list_lookup_insert_eq. by rewrite length_replicate.
    + rewrite list_lookup_insert_ne.
      * by apply lookup_replicate_2.
      * intros Heq. apply Hne. assert (y' = y) by nia. subst. lia.
Qed.

End Dilate.

(** C9. In a tile where only the cell [(x, y)] is claimed, by island [K],
    [dilate(1)] gives [K] to every direct 4-neighbour of [(x, y)] that lies
    in the grid, and [dilate(0)] returns the mask as it was. *)
Theorem dilate_single_claim {F} (tiles : list (Tile F)) i t x y K :
  tiles !! i = Some t → single_claim t x y K →
  (∃ t', dilate tiles 1 !! i = Some t' ∧
     mask_resolution t' = mask_resolution t ∧
     ∀ x' y', x' < (mask_resolution t).1 → y' < (mask_resolution t).2 →
       neighbour4 x y x' y' →
       mask t' !! (y' * (mask_resolution t).1 + x') = Some K) ∧
  dilate tiles 0 = tiles.
Proof.
  intros Hi Hsc. split; [|apply dilate_zero].
  exists (dilate_tile t 1). unfold dilate. rewrite list_lookup_fmap, Hi. simpl.
  split; [done|]. rewrite dilate_tile_once.
  destruct (mask_resolution t) as [w h] eqn:Hres.
  assert (Hsc' := Hsc). unfold single_claim in Hsc'. rewrite Hres in Hsc'.
  destruct Hsc' as (Hx & Hy & Hlen & HK & _).
  assert (Hres1 : mask_resolution (dilate_x t).1 = (w, h))
    by (by rewrite dilate_x_resolution).
  assert (Hlen1 : length (mask (dilate_x t).1) = w * h)
    by (by rewrite dilate_x_length).
  split; [by rewrite dilate_y_resolution|].
  simpl. intros x' y' Hx' Hy' Hn.
  rewrite <- (dilate_y_after_x (dilate_x t).1 w h x y K Hres1 Hlen1 Hx Hy HK
               (dilate_x_single_claim t w h x y K Hres Hsc) x' y' Hx' Hy' Hn).
  apply list_lookup_lookup_total_lt.
  rewrite <- (dilate_y_resolution (dilate_x t).1) in Hres1.
  assert (length (mask (dilate_y (dilate_x t).1).1) = w * h) as ->; [|nia].
  rewrite <- Hlen1. clear. unfold dilate_y.
  destruct (mask_resolution (dilate_x t).1) as [w h]; simpl.
  rewrite grid_loop_cells.
  rewrite (foldl_write_ext _ (write_step w (upd_y w h (mask (dilate_x t).1))))
    by (intros ? []; apply dilate_y_cell_write).
  by rewrite write_fold_length.
Qed.

Lemma dilate_single_claim_witness :
  let t := stamped (F:=Z) (0%Z, 0%Z) (1024, 1024) 0 255 3%Z in
  (∃ t', dilate [t] 1 !! 0 = Some t' ∧
     mask_resolution t' = mask_resolution t ∧
     ∀ x' y', x' < (mask_resolution t).1 → y' < (mask_resolution t).2 →
       neighbour4 0 255 x' y' →
       mask t' !! (y' * (mask_resolution t).1 + x') = Some 3%Z) ∧
  dilate [t] 0 = [t].
Proof.
  intros t. apply (dilate_single_claim [t] 0 t 0 255 3%Z).
  - reflexivity.
  - apply stamped_single_claim; [vm_compute; lia|vm_compute; lia|done].
Defined.

End MaskFacts.

(** ** The result monad *)

Lemma bind_Ret {A B} (m : res A) (f : A → res B) (b : B) :
  m ≫= f = Ret b ↔ ∃ a, m = Ret a ∧ f a = Ret b.
Proof.
  destruct m; simpl; split.
  - eauto.
  - intros (? & ? & ?). by simplify_eq.
  - done.
  - by intros (? & ? & ?).
  - done.
  - by intros (? & ? & ?).
Qed.

Lemma deref_Ret {A} (l : list A) p a : deref l p = Ret a ↔ l !! p = Some a.
Proof. unfold deref. destruct (l !! p); split; intros; by simplify_eq. Qed.

Lemma nonnull_Ret {A} (o : option A) a : nonnull o = Ret a ↔ o = Some a.
Proof. destruct o; simpl; split; intros; by simplify_eq. Qed.

Lemma at_index_Ret {A} (l : list A) i a :
  at_index l i = Ret a ↔ (0 ≤ i)%Z ∧ l !! Z.to_nat i = Some a.
Proof.
  unfold at_index. case_bool_decide; rewrite ?deref_Ret; split; try tauto; try done.
Qed.

(** Inversion of a computation that returned. *)
Ltac res_step :=
  match goal with
  | H : mbind _ _ = Ret _ |- _ =>
      let a := fresh "a" in let Ha := fresh "Ha" in
      apply bind_Ret in H as (a & Ha & H)
  | H : deref _ _ = Ret _ |- _ => apply deref_Ret in H
  | H : nonnull _ = Ret _ |- _ => apply nonnull_Ret in H
  | H : at_index _ _ = Ret _ |- _ => apply at_index_Ret in H as [? H]
  | H : Ret _ = Ret _ |- _ => injection H as H
  | H : mret _ = Ret _ |- _ => injection H as H
  | H : UB = Ret _ |- _ => discriminate H
  | H : Diverge = Ret _ |- _ => discriminate H
  end.
Ltac res_inv := repeat res_step.

(** Case analysis on the value that a returned computation matches on. *)
Ltac res_case :=
  match goal with
  | H : match ?x with _ => _ end = Ret _ |- _ => destruct x eqn:?
  end.

(** Names the results of the lookups of a computation that returned. *)
Ltac split_lookups H :=
  repeat (res_inv;
          match type of H with
          | context [UVIsland_lookup_or_create_vertex ?i ?t] =>
              let E := fresh "E" in
              destruct (UVIsland_lookup_or_create_vertex i t) as [? ?] eqn:E
          | context [UVIsland_lookup_or_create_edge ?i ?t] =>
              let E := fresh "E" in
              destruct (UVIsland_lookup_or_create_edge i t) as [? ?] eqn:E
          end);
  res_inv.

(** ** Tile membership and the skipped iterations *)

Module SkipFacts.
Import Mask.

Section Skip.
Context {F : Type} {O : FloatOps F}.
Variable mesh : MeshData.t F.

Implicit Types isl : UVIsland.t F.

Hypothesis fltb_irrefl : ∀ a : F, fltb a a = false.





Lemma selected_vertex_Some isl corner v uv :
  selected_vertex isl = Ret (Some (corner, v, uv)) →
  ∃ second x,
    sharpest_border_corner isl = Ret (Some corner)
    ∧ corner_edge isl (UVBorderCorner.second corner) = Ret second
    ∧ UVBorderEdge_get_uv_vertex isl second 0 = Ret v
    ∧ UVIsland.uv_vertices isl !! v = Some x
    ∧ UVVertex.uv x = uv.
Proof.
  unfold selected_vertex. intros H. res_inv.
  destruct a as [c|]; [|done]. res_inv. simplify_eq.
  unfold uv_of in Ha2. res_inv. simplify_eq. eauto 10.
Qed.

Lemma iteration_of_selected fan_fuel tiles island_index isl corner v uv :
  selected_vertex isl = Ret (Some (corner, v, uv)) →
  extend_border_iteration mesh fan_fuel tiles island_index isl
  = (isl1 ← match find_tile tiles uv with
            | Some tile =>
                if is_masked tile island_index uv
                then extend_at_vert mesh fan_fuel isl corner
                       (fmul (get_pixel_size_in_uv_space tile) f2)
                else Ret isl
            | None => Ret isl
            end;
     isl2 ← mark_extended isl1 v; Ret (Some isl2)).
Proof.
  intros H. pose proof (selected_vertex_Some _ _ _ _ H) as (second & x & Hc & Hs & Hv & Hx & Hu).
  unfold extend_border_iteration. rewrite Hc. simpl. rewrite Hs. simpl.
  rewrite Hv. simpl. unfold uv_of, deref. rewrite Hx. simpl. by rewrite Hu.
Qed.

Lemma mark_extended_with isl v x :
  UVIsland.uv_vertices isl !! v = Some x →
  mark_extended isl v = Ret (with_extended isl v x).
Proof. intros Hx. unfold mark_extended, deref. by rewrite Hx. Qed.

Lemma skipped_iteration fan_fuel tiles island_index isl corner v uv x :
  selected_vertex isl = Ret (Some (corner, v, uv)) →
  UVIsland.uv_vertices isl !! v = Some x →
  skips mesh fan_fuel tiles island_index isl corner x uv →
  extend_border_iteration mesh fan_fuel tiles island_index isl
  = Ret (Some (with_extended isl v x)).
Proof.
  intros Hsel Hx Hskip. rewrite (iteration_of_selected _ _ _ _ _ _ _ Hsel).
  pose proof (selected_vertex_Some _ _ _ _ Hsel) as (second & x' & Hc & Hs & Hv & Hx' & Hu).
  assert (x' = x) by congruence. subst x'.
  assert (match find_tile tiles uv with
          | Some tile =>
              if is_masked tile island_index uv
              then extend_at_vert mesh fan_fuel isl corner
                     (fmul (get_pixel_size_in_uv_space tile) f2)
              else Ret isl
          | None => Ret isl
          end = Ret isl) as ->.
  { destruct Hskip as [-> | [(tile & -> & ->) | (first & b & fan & Hf & Hb & Hfan & Hfull)]];
      [done|done|].
    assert (∀ d, extend_at_vert mesh fan_fuel isl corner d = Ret isl) as Hext.
    { intros d. unfold extend_at_vert. rewrite Hf. simpl. rewrite Hb. simpl.
      rewrite Hs. simpl. rewrite Hv. simpl. unfold deref. rewrite Hx. simpl.
      rewrite Hfan. simpl. by rewrite Hfull. }
    destruct (find_tile tiles uv); [|done]. by destruct (is_masked _ _ _). }
  simpl. by rewrite (mark_extended_with _ _ _ Hx).
Qed.

End Skip.


(** C7. Every iteration of [extend_border] that runs to its end has marked
    the shared vertex of the selected corner as extended; and an iteration
    that skips the extension (no tile contains the UV, the tile does not
    mask it for the island, or the fan is not full) returns the island with
    its edges, primitives and borders as they were and its vertices changed
    in that flag only. *)
Theorem iteration_marks_extended {F} {O : FloatOps F} mesh fan_fuel
    (tiles : list (Tile F)) island_index (isl : UVIsland.t F) :
  (∀ isl', extend_border_iteration mesh fan_fuel tiles island_index isl = Ret (Some isl') →
     ∃ corner v uv x',
       selected_vertex isl = Ret (Some (corner, v, uv))
       ∧ UVIsland.uv_vertices isl' !! v = Some x'
       ∧ UVVertex.is_extended x' = true)
  ∧ (∀ corner v uv x,
       selected_vertex isl = Ret (Some (corner, v, uv)) →
       UVIsland.uv_vertices isl !! v = Some x →
       skips mesh fan_fuel tiles island_index isl corner x uv →
       ∃ isl',
         extend_border_iteration mesh fan_fuel tiles island_index isl = Ret (Some isl')
         ∧ UVIsland.uv_edges isl' = UVIsland.uv_edges isl
         ∧ UVIsland.uv_primitives isl' = UVIsland.uv_primitives isl
         ∧ UVIsland.borders isl' = UVIsland.borders isl
         ∧ UVIsland.uv_vertices isl'
           = <[v := UVVertex.mk (UVVertex.vertex x) (UVVertex.uv x) (UVVertex.uv_edges x)
                      (UVVertex.is_border x) true]> (UVIsland.uv_vertices isl)).
Proof.
  split.
  - intros isl' H.
    assert (∃ corner v uv, selected_vertex isl = Ret (Some (corner, v, uv)))
      as (corner & v & uv & Hsel).
    { unfold extend_border_iteration in H. res_inv.
      destruct a as [c|]; [|done]. res_inv.
      do 3 eexists. unfold selected_vertex.
      rewrite Ha. simpl. rewrite Ha0. simpl. rewrite Ha1. simpl. rewrite Ha2.
      reflexivity. }
    rewrite (iteration_of_selected _ _ _ _ _ _ _ _ Hsel) in H. res_inv.
    unfold mark_extended in Ha0. res_inv. simplify_eq.
    exists corner, v, uv. eexists. split; [done|]. simpl. split.
    + apply list_lookup_insert_eq. by eapply lookup_lt_Some.
    + done.
  - intros corner v uv x Hsel Hx Hskip. exists (with_extended isl v x).
    split; [by apply (skipped_iteration mesh fan_fuel tiles island_index isl corner v uv x)|].
    done.
Qed.

End SkipFacts.

(** ** Termination of the extension pass *)

Lemma foldM_ind {A S} (P : S → Prop) (body : S → A → res S) xs :
  (∀ s x s', x ∈ xs → P s → body s x = Ret s' → P s') →
  ∀ s s', P s → foldM body s xs = Ret s' → P s'.
Proof.
  induction xs as [|x xs IH]; intros Hstep s s' Hs H; simpl in H.
  - by simplify_eq.
  - res_inv. eapply IH; [| |exact H].
    + intros ? ? ? Hin. apply Hstep. by apply list_elem_of_further.
    + eapply Hstep; [|done..]. apply list_elem_of_here.
Qed.

(** The same, with the elements that the loop has gone through so far. *)
Lemma foldM_prefix_ind {A S} (P : list A → S → Prop) (body : S → A → res S) xs s0 s' :
  P [] s0 →
  (∀ pre x s s1, P pre s → body s x = Ret s1 → P (pre ++ [x]) s1) →
  foldM body s0 xs = Ret s' → P xs s'.
Proof.
  intros H0 Hstep.
  assert (∀ xs pre s, P pre s → foldM body s xs = Ret s' → P (pre ++ xs) s') as Hgen.
  { clear xs s0 H0. induction xs as [|x xs IH]; intros pre s Hs H; simpl in H.
    - simplify_eq. by rewrite app_nil_r.
    - res_inv. rewrite cons_middle, app_assoc. eapply IH; [|exact H].
      by eapply Hstep. }
  apply (Hgen xs [] s0 H0).
Qed.

Lemma elem_of_imap_pair {A} (l : list A) i x : (i, x) ∈ imap pair l ↔ l !! i = Some x.
Proof.
  rewrite list_elem_of_lookup. split.
  - intros (j & Hj). rewrite list_lookup_imap in Hj.
    destruct (l !! j) eqn:E; simpl in Hj; by simplify_eq.
  - intros Hi. exists i. rewrite list_lookup_imap, Hi. done.
Qed.

Module ExtendFacts.

Section Flags.
Context {F : Type} {O : FloatOps F}.
Variable mesh : MeshData.t F.

Implicit Types isl : UVIsland.t F.
Implicit Types vs : list (UVVertex.t F).

Lemma same_flags_refl (x : UVVertex.t F) : same_flags x x.
Proof. by split. Qed.

Lemma same_flags_trans (x y z : UVVertex.t F) :
  same_flags x y → same_flags y z → same_flags x z.
Proof. unfold same_flags. intros [] []. split; congruence. Qed.

Lemma flags_ext_refl vs : flags_ext vs vs.
Proof.
  exists vs, []. rewrite app_nil_r. repeat split; [|done].
  apply Forall2_same_length_lookup. split; [done|].
  intros i x y ? ?. simplify_eq. apply same_flags_refl.
Qed.

Lemma flags_ext_trans vs1 vs2 vs3 :
  flags_ext vs1 vs2 → flags_ext vs2 vs3 → flags_ext vs1 vs3.
Proof.
  intros (old1 & new1 & -> & H1 & Hn1) (old2 & new2 & -> & H2 & Hn2).
  apply Forall2_app_inv_l in H2 as (o2 & n2 & Ho & Hn & ->).
  exists o2, (n2 ++ new2). rewrite app_assoc. repeat split.
  - clear -H1 Ho. revert o2 Ho. induction H1; intros o2 Ho.
    + inversion Ho. constructor.
    + inversion Ho; subst. constructor; [by eapply same_flags_trans|auto].
  - apply Forall_app. split; [|done].
    clear -Hn Hn1. induction Hn; [done|]. inversion Hn1; subst.
    constructor; [|auto]. destruct H as [-> _]. done.
Qed.

Lemma flags_ext_app vs (x : UVVertex.t F) :
  UVVertex.is_border x = false → flags_ext vs (vs ++ [x]).
Proof.
  intros Hx. exists vs, [x]. repeat split.
  - destruct (flags_ext_refl vs) as (o & n & Heq & Ho & _).
    apply Forall2_same_length_lookup. split; [done|].
    intros i a b ? ?. simplify_eq. apply same_flags_refl.
  - by constructor.
Qed.

Lemma flags_ext_insert vs v (x x' : UVVertex.t F) :
  vs !! v = Some x → same_flags x x' → flags_ext vs (<[v := x']> vs).
Proof.
  intros Hv Hs. exists (<[v := x']> vs), []. rewrite app_nil_r. repeat split; [|done].
  apply Forall2_same_length_lookup. split; [by rewrite length_insert|].
  intros i a b Ha Hb. destruct (decide (i = v)) as [->|Hne].
  - rewrite list_lookup_insert_eq in Hb by (by eapply lookup_lt_Some). by simplify_eq.
  - rewrite list_lookup_insert_ne in Hb by done. simplify_eq. apply same_flags_refl.
Qed.





Local Abbreviation ext isl isl' :=
  (flags_ext (UVIsland.uv_vertices isl) (UVIsland.uv_vertices isl')).

Lemma ext_vertex isl vertex uv isl1 p :
  UVIsland_lookup_or_create_vertex isl (UVVertex_new vertex uv) = (isl1, p) → ext isl isl1.
Proof.
  unfold UVIsland_lookup_or_create_vertex. destruct (list_find _ _); intros H; simplify_eq.
  - apply flags_ext_refl.
  - simpl. by apply flags_ext_app.
Qed.

Lemma ext_edge isl vertices isl1 p :
  UVIsland_lookup_or_create_edge isl vertices = (isl1, p) → ext isl isl1.
Proof.
  unfold UVIsland_lookup_or_create_edge. destruct (list_find _ _); intros H; simplify_eq;
    apply flags_ext_refl.
Qed.

Lemma ext_register isl v ei isl1 :
  register_edge_with_vertex isl v ei = Ret isl1 → ext isl isl1.
Proof.
  unfold register_edge_with_vertex. intros H. res_inv. subst. simpl.
  eapply flags_ext_insert; [done|]. by split.
Qed.

Lemma ext_edge_vertices isl ei isl1 :
  UVEdge_append_to_uv_vertices isl ei = Ret isl1 → ext isl isl1.
Proof.
  unfold UVEdge_append_to_uv_vertices. intros H. res_inv.
  eapply flags_ext_trans; by eapply ext_register.
Qed.

Lemma ext_prim_edges isl p this isl1 :
  UVPrimitive_append_to_uv_edges isl p this = Ret isl1 → ext isl isl1.
Proof.
  unfold UVPrimitive_append_to_uv_edges.
  apply (foldM_ind (λ s, ext isl s)); [|apply flags_ext_refl].
  intros s x s' _ Hs H. res_inv. by subst.
Qed.

Lemma ext_prim_vertices isl p isl1 :
  UVPrimitive_append_to_uv_vertices isl p = Ret isl1 → ext isl isl1.
Proof.
  unfold UVPrimitive_append_to_uv_vertices.
  apply (foldM_ind (λ s, ext isl s)); [|apply flags_ext_refl].
  intros s x s' _ Hs H. eapply flags_ext_trans; [done|]. by eapply ext_edge_vertices.
Qed.

(** Chains the extensions that the hypotheses provide. *)
Ltac ext_chain :=
  simpl;
  repeat first
    [ apply flags_ext_refl
    | eapply flags_ext_trans;
      [ first [ eapply ext_vertex; eassumption
              | eapply ext_edge; eassumption
              | eapply ext_prim_edges; eassumption
              | eapply ext_prim_vertices; eassumption
              | eassumption ] | ] ].

Lemma ext_shared isl v1 v2 uv mp isl1 :
  add_uv_primitive_shared_uv_edge mesh isl v1 v2 uv mp = Ret isl1 → ext isl isl1.
Proof.
  unfold add_uv_primitive_shared_uv_edge. intros H. split_lookups H. subst. ext_chain.
Qed.

Lemma ext_fill isl v1 v2 v3 fp isl1 :
  add_uv_primitive_fill isl v1 v2 v3 fp = Ret isl1 → ext isl isl1.
Proof.
  unfold add_uv_primitive_fill. intros H. split_lookups H. subst. ext_chain.
Qed.

Lemma ext_fill_triangle isl x sev old_uv fp third isl1 np opv :
  add_fill_triangle mesh isl x sev old_uv fp third = Ret (isl1, np, opv) → ext isl isl1.
Proof.
  unfold add_fill_triangle. intros H. split_lookups H. simplify_eq.
  eapply flags_ext_trans; [|by eapply ext_fill]. ext_chain.
Qed.

Lemma ext_fill_segment x sev old_uv new_uv segments :
  ∀ st pos st',
    fill_segment mesh st x sev old_uv new_uv pos segments = Ret (Some st') →
    ext (fs_island st) (fs_island st').
Proof.
  induction segments as [|segment rest IH]; intros st pos st' H; simpl in H; [done|].
  destruct (InnerEdge.found segment); [by eapply IH|].
  res_inv. res_case; [|by eapply IH].
  res_inv. res_case. res_case. res_inv. simplify_eq. simpl.
  by eapply ext_fill_triangle.
Qed.

Lemma ext_fill_iteration corner x d n st i st' :
  fill_iteration mesh corner x d n st i = Ret st' → ext (fs_island st) (fs_island st').
Proof.
  unfold fill_iteration, fill_attempt. intros H. res_inv.
  match goal with Hs : fill_segment _ _ _ _ _ _ _ _ = Ret ?r |- _ => destruct r end;
    simpl in H; subst.
  - by eapply ext_fill_segment.
  - apply flags_ext_refl.
Qed.

Lemma ext_fill_final corner x st st' :
  fill_final mesh corner x st = Ret st' → ext (fs_island st) (fs_island st').
Proof.
  unfold fill_final. intros H. res_inv. res_case. res_case. res_inv.
  subst. simpl. by eapply ext_fill_triangle.
Qed.

Lemma ext_set_corner_edge isl p be isl1 :
  set_corner_edge isl p be = Ret isl1 → ext isl isl1.
Proof. unfold set_corner_edge. intros H. res_inv. subst. apply flags_ext_refl. Qed.

Lemma ext_splice isl corner bi new isl1 :
  splice_border isl corner bi new = Ret isl1 → ext isl isl1.
Proof. unfold splice_border. intros H. res_inv. subst. apply flags_ext_refl. Qed.

Lemma ext_split isl corner d isl1 :
  extend_at_vert_split mesh isl corner d = Ret isl1 → ext isl isl1.
Proof.
  unfold extend_at_vert_split. intros H. res_inv.
  eapply flags_ext_trans; [by eapply ext_shared|].
  eapply flags_ext_trans; [by eapply ext_shared|].
  eapply flags_ext_trans; by eapply ext_set_corner_edge.
Qed.

Lemma ext_extend_fill isl corner d bi x fan n isl1 :
  extend_at_vert_fill mesh isl corner d bi x fan n = Ret isl1 → ext isl isl1.
Proof.
  unfold extend_at_vert_fill. intros H. res_inv.
  eapply flags_ext_trans; [|by eapply ext_splice].
  eapply flags_ext_trans; [|by eapply ext_fill_final].
  match goal with Hf : foldM _ _ _ = Ret _ |- _ => revert Hf end.
  generalize (seq 0 n). intros l.
  apply (foldM_ind (λ s, ext isl (fs_island s))); [|apply flags_ext_refl].
  intros s i s' _ Hs Hi. eapply flags_ext_trans; [done|]. by eapply ext_fill_iteration.
Qed.

(** [extend_at_vert] keeps the flags of the vertices of the island, and the
    vertices it creates are not flagged [is_border]. *)
Lemma ext_extend_at_vert fan_fuel isl corner d isl1 :
  extend_at_vert mesh fan_fuel isl corner d = Ret isl1 → ext isl isl1.
Proof.
  unfold extend_at_vert. intros H. res_inv.
  match type of H with context [negb ?b] => destruct (negb b) end;
    [res_inv; subst; apply flags_ext_refl|].
  res_inv. case_bool_decide.
  - by eapply ext_split.
  - by eapply ext_extend_fill.
Qed.








End Flags.


End ExtendFacts.

(** ** Border extraction *)

Module BorderFacts.

Section Extract.
Context {F : Type} {O : FloatOps F}.

Implicit Types isl : UVIsland.t F.
Implicit Types be c : UVBorderEdge.t.
Implicit Types edges bs : list UVBorderEdge.t.

Lemma scan_skip_inv c (m : res (option (list UVBorderEdge.t * UVBorderEdge.t * float2 F)))
    edges' be' uv' :
  (r ← m;
   Ret match r with
       | Some (rest', be', uv') => Some (c :: rest', be', uv')
       | None => None
       end) = Ret (Some (edges', be', uv')) →
  ∃ rest', edges' = c :: rest' ∧ m = Ret (Some (rest', be', uv')).
Proof.
  intros H. res_inv. destruct a as [[[rest' b] u]|]; [|done]. simplify_eq. eauto.
Qed.

(** What the scan of the candidates returns: the candidate at one position,
    untagged before, is now oriented and tagged; it starts at [current_uv]
    and ends at the UV that is returned. *)
Lemma extract_scan_Some isl current_uv edges edges' be' uv' :
  extract_scan isl current_uv edges = Ret (Some (edges', be', uv')) →
  ∃ j c r,
    edges !! j = Some c ∧ UVBorderEdge.tag c = false
    ∧ be' = oriented c r ∧ edges' = <[j := be']> edges
    ∧ border_edge_uv isl be' 0 = Ret current_uv
    ∧ border_edge_uv isl be' 1 = Ret uv'.
Proof.
  revert edges'. induction edges as [|c rest IH]; intros edges' H; simpl in H; [by res_inv|].
  assert (∀ m, m = extract_scan isl current_uv rest →
            (r ← m;
             Ret match r with
                 | Some (rest', be', uv') => Some (c :: rest', be', uv')
                 | None => None
                 end) = Ret (Some (edges', be', uv')) →
            ∃ j c0 r, (c :: rest) !! j = Some c0 ∧ UVBorderEdge.tag c0 = false
              ∧ be' = oriented c0 r ∧ edges' = <[j := be']> (c :: rest)
              ∧ border_edge_uv isl be' 0 = Ret current_uv
              ∧ border_edge_uv isl be' 1 = Ret uv') as Hskip.
  { clear H. intros m -> Hr. apply scan_skip_inv in Hr as (rest' & -> & Hr).
    destruct (IH _ Hr) as (j & c0 & r & Hj & Ht & -> & -> & H0 & H1).
    exists (S j), c0, r. by repeat split. }
  destruct (UVBorderEdge.tag c) eqn:Htag; [by eapply Hskip|].
  res_inv. case_bool_decide as Hu0.
  - res_inv. simplify_eq. exists 0, c, false. repeat split; try done.
    unfold border_edge_uv, UVBorderEdge_get_uv_vertex, deref. simpl.
    match goal with He : UVIsland.uv_edges isl !! _ = Some _ |- _ => rewrite He end.
    simpl. done.
  - res_inv. case_bool_decide as Hu1; [|by eapply Hskip].
    res_inv. simplify_eq. exists 0, c, true. repeat split; try done.
    unfold border_edge_uv, UVBorderEdge_get_uv_vertex, deref. simpl.
    match goal with He : UVIsland.uv_edges isl !! _ = Some _ |- _ => rewrite He end.
    simpl. done.
Qed.

Lemma chain_snoc isl first_uv current_uv uv' bs be' :
  chain isl first_uv current_uv bs →
  border_edge_uv isl be' 0 = Ret current_uv →
  border_edge_uv isl be' 1 = Ret uv' →
  chain isl first_uv uv' (bs ++ [be']).
Proof.
  intros ((be0 & Hh & H0) & (bel & Hl & H1) & Hc) Hs He. repeat split.
  - exists be0. split; [|done]. destruct bs; [done|]. done.
  - exists be'. split; [|done]. apply last_snoc.
  - intros i be be2 Hi Hi'.
    destruct (decide (S i < length bs)) as [Hlt|Hge].
    + rewrite lookup_app_l in Hi by lia. rewrite lookup_app_l in Hi' by lia. eauto.
    + assert (S i = length bs) as Hlen.
      { apply lookup_lt_Some in Hi'. rewrite length_app in Hi'. simpl in Hi'. lia. }
      rewrite lookup_app_l in Hi by lia.
      rewrite lookup_app_r in Hi' by lia.
      replace (S i - length bs) with 0 in Hi' by lia. simpl in Hi'. simplify_eq.
      rewrite last_lookup in Hl. replace (pred (length bs)) with i in Hl by lia.
      simplify_eq. eauto.
Qed.

Lemma extract_walk_chain isl first_uv fuel :
  ∀ current_uv edges bs bs' edges',
    extract_walk fuel isl first_uv current_uv edges bs = Ret (bs', edges') →
    chain isl first_uv current_uv bs →
    chain isl first_uv first_uv bs'.
Proof.
  induction fuel as [|fuel IH]; intros current_uv edges bs bs' edges' H Hc; simpl in H.
  - case_bool_decide; [|done]. by simplify_eq.
  - case_bool_decide; [by simplify_eq|].
    res_inv. res_case; [|done]. repeat res_case. simplify_eq.
    match goal with Hs : extract_scan _ _ _ = Ret _ |- _ =>
      apply extract_scan_Some in Hs as (j & c & r & _ & _ & _ & _ & Hstart & Hend) end.
    eapply IH; [done|]. by eapply chain_snoc.
Qed.

(** A chain that comes back to where it starts is a closed border. *)
Lemma chain_closed isl uv bs : chain isl uv uv bs → closed_border isl (UVBorder.mk bs).
Proof.
  intros ((be0 & Hh & H0) & (bel & Hl & H1) & Hc) i be be' Hi Hi'. simpl in *.
  assert (i < length bs) as Hlt by (by eapply lookup_lt_Some).
  destruct (decide (S i < length bs)) as [Hs|Hs].
  - rewrite Nat.mod_small in Hi' by lia. replace (i + 1) with (S i) in Hi' by lia. eauto.
  - assert (i + 1 = length bs) as Heq by lia. rewrite Heq, Nat.Div0.mod_same in Hi'.
    rewrite last_lookup in Hl. replace (pred (length bs)) with i in Hl by lia.
    rewrite <- head_lookup in Hi'. simplify_eq. eauto.
Qed.

(** Every border that [extract_from_edges] returns is closed. *)
Lemma extract_closed isl edges b edges' :
  UVBorder_extract_from_edges isl edges = Ret (Some b, edges') → closed_border isl b.
Proof.
  unfold UVBorder_extract_from_edges. intros H.
  destruct (list_find _ edges) as [[i start]|]; [|by simplify_eq].
  res_inv. simplify_eq. destruct a1 as [bs es]. simpl.
  eapply chain_closed, extract_walk_chain; [done|].
  repeat split; simpl; eauto. intros [|?] ? ? ? ?; simplify_eq.
Qed.

Lemma border_edge_uv_set_indexes isl be i p n bi k :
  border_edge_uv isl (set_indexes be i p n bi) k = border_edge_uv isl be k.
Proof. done. Qed.

Lemma border_edge_uv_toggle isl be :
  border_edge_uv isl (set_reverse_order be (negb (UVBorderEdge.reverse_order be))) 0
  = border_edge_uv isl be 1
  ∧ border_edge_uv isl (set_reverse_order be (negb (UVBorderEdge.reverse_order be))) 1
    = border_edge_uv isl be 0.
Proof.
  unfold border_edge_uv, UVBorderEdge_get_uv_vertex. simpl.
  by destruct (UVBorderEdge.reverse_order be).
Qed.

Lemma update_indexes_lookup b bi i :
  UVBorder.edges (UVBorder_update_indexes b bi) !! i
  = (λ be, set_indexes be (Z.of_nat i)
             ((Z.of_nat i - 1 + Z.of_nat (length (UVBorder.edges b)))
                mod Z.of_nat (length (UVBorder.edges b)))
             ((Z.of_nat i + 1) mod Z.of_nat (length (UVBorder.edges b))) bi)
    <$> UVBorder.edges b !! i.
Proof. unfold UVBorder_update_indexes. simpl. by rewrite list_lookup_imap. Qed.

Lemma update_indexes_length b bi :
  length (UVBorder.edges (UVBorder_update_indexes b bi)) = length (UVBorder.edges b).
Proof. unfold UVBorder_update_indexes. simpl. by rewrite length_imap. Qed.

Lemma update_indexes_closed isl b bi :
  closed_border isl b → closed_border isl (UVBorder_update_indexes b bi).
Proof.
  intros Hc i be be'. rewrite update_indexes_length, !update_indexes_lookup.
  intros Hi Hi'. apply fmap_Some in Hi as (c & Hi & ->).
  apply fmap_Some in Hi' as (c' & Hi' & ->).
  rewrite !border_edge_uv_set_indexes. eauto.
Qed.

(** The flipped border walks the same cycle backwards: its edge [i] is the
    edge [n - 1 - i] with its start and its end exchanged. *)
Lemma flip_lookup isl b b' i be' :
  UVBorder_flip b = Ret b' → UVBorder.edges b' !! i = Some be' →
  length (UVBorder.edges b') = length (UVBorder.edges b)
  ∧ ∃ be, UVBorder.edges b !! (length (UVBorder.edges b) - 1 - i) = Some be
          ∧ i < length (UVBorder.edges b)
          ∧ border_edge_uv isl be' 0 = border_edge_uv isl be 1
          ∧ border_edge_uv isl be' 1 = border_edge_uv isl be 0.
Proof.
  unfold UVBorder_flip. intros H Hi. res_inv. subst b'.
  rewrite update_indexes_length. rewrite update_indexes_lookup in Hi.
  cbn [UVBorder.edges] in *.
  rewrite length_reverse, length_fmap in *. split; [done|].
  apply fmap_Some in Hi as (c & Hi & ->).
  assert (i < length (UVBorder.edges b)) as Hlt.
  { apply lookup_lt_Some in Hi. by rewrite length_reverse, length_fmap in Hi. }
  rewrite reverse_lookup in Hi by (by rewrite length_fmap).
  rewrite length_fmap, list_lookup_fmap in Hi.
  apply fmap_Some in Hi as (be & Hi & ->).
  exists be. replace (length (UVBorder.edges b) - 1 - i)
    with (length (UVBorder.edges b) - S i) by lia.
  rewrite !border_edge_uv_set_indexes.
  destruct (border_edge_uv_toggle isl be) as [-> ->]. done.
Qed.

Lemma flip_closed isl b b' :
  closed_border isl b → UVBorder_flip b = Ret b' → closed_border isl b'.
Proof.
  intros Hc Hf i be be' Hi Hi'.
  destruct (flip_lookup isl _ _ _ _ Hf Hi) as (Hlen & c & Hc1 & Hlt & H0 & H1).
  destruct (flip_lookup isl _ _ _ _ Hf Hi') as (_ & c' & Hc2 & Hlt' & H0' & H1').
  rewrite Hlen in *. rewrite H1, H0'.
  set (n := length (UVBorder.edges b)) in *.
  assert (∃ uv, border_edge_uv isl c' 1 = Ret uv ∧ border_edge_uv isl c 0 = Ret uv)
    as (uv & ? & ?); [|eauto].
  apply (Hc (n - 1 - (i + 1) mod n)); [done|]. fold n.
  replace ((n - 1 - (i + 1) mod n + 1) mod n) with (n - 1 - i); [done|].
  destruct (decide (i + 1 < n)).
  - rewrite (Nat.mod_small (i + 1)) by lia. rewrite Nat.mod_small by lia. lia.
  - replace (i + 1) with n by lia. rewrite Nat.Div0.mod_same.
    replace (n - 1 - 0 + 1) with n by lia. rewrite Nat.Div0.mod_same. lia.
Qed.

Lemma extract_borders_loop_spec isl fuel :
  ∀ edges borders result,
    extract_borders_loop fuel isl edges borders = Ret result →
    ∃ new, result = borders ++ new
           ∧ Forall (λ b, closed_border isl b ∧ normalized isl b) new.
Proof.
  induction fuel as [|fuel IH]; intros edges borders result H; simpl in H; [done|].
  res_inv.
  match goal with Hx : UVBorder_extract_from_edges _ _ = Ret ?r |- _ =>
    destruct r as [[e|] edges'] end; simpl in H.
  - res_inv. apply IH in H as (new & -> & Hnew).
    eexists (_ :: new). rewrite <- app_assoc. split; [done|].
    constructor; [|done].
    match goal with Hx : UVBorder_extract_from_edges _ _ = Ret _ |- _ =>
      pose proof (extract_closed _ _ _ _ Hx) as Hcl; rename Hx into Hex end.
    match goal with Hx : UVBorder_is_ccw _ _ = Ret ?c |- _ => destruct c end; res_inv.
    + match goal with Heq : e = ?x |- _ => subst x end.
      split; [done|]. exists edges, edges', e. eauto.
    + split; [by eapply flip_closed|]. exists edges, edges', e. eauto.
  - simplify_eq. exists []. by rewrite app_nil_r.
Qed.

Lemma closed_border_set_borders isl (borders : list UVBorder.t) b :
  closed_border (set_borders isl borders) b ↔ closed_border isl b.
Proof. done. Qed.

Lemma extract_borders_spec isl isl' :
  UVIsland_extract_borders isl = Ret isl' →
  ∃ new, UVIsland.borders isl' = UVIsland.borders isl ++ new
         ∧ Forall (λ b, closed_border isl b ∧ normalized isl b) new
         ∧ isl' = set_borders isl (UVIsland.borders isl').
Proof.
  unfold UVIsland_extract_borders. intros H. res_inv. subst. simpl.
  match goal with Hx : extract_borders_loop _ _ _ _ = Ret _ |- _ =>
    apply extract_borders_loop_spec in Hx as (new & -> & Hnew) end.
  eauto.
Qed.

(** *** The candidates that a walk consumes *)

Lemma consumed_step edges0 edges bs j c r :
  consumed edges0 edges bs → edges !! j = Some c → UVBorderEdge.tag c = false →
  consumed edges0 (<[j := oriented c r]> edges) (bs ++ [oriented c r]).
Proof.
  intros [Hu Hb] Hj Ht. split.
  - intros j' c' Hj' Ht'. destruct (decide (j' = j)) as [->|Hne].
    + rewrite list_lookup_insert_eq in Hj' by (by eapply lookup_lt_Some). by simplify_eq.
    + rewrite list_lookup_insert_ne in Hj' by done. by apply Hu.
  - intros be Hin. apply elem_of_app in Hin as [Hin|Hin].
    + destruct (Hb be Hin) as (j1 & c0 & c1 & H0 & Ht0 & H1 & Ht1 & Hs & Hs').
      exists j1, c0, c1. split; [done|]. split; [done|]. split; [|done].
      rewrite list_lookup_insert_ne; [done|]. intros <-. congruence.
    + apply list_elem_of_singleton in Hin as ->.
      exists j, c, (oriented c r). split; [by apply Hu|]. split; [done|].
      split; [|done]. apply list_lookup_insert_eq. by eapply lookup_lt_Some.
Qed.

Lemma extract_walk_consumed isl first_uv edges0 fuel :
  ∀ current_uv edges bs bs' edges',
    extract_walk fuel isl first_uv current_uv edges bs = Ret (bs', edges') →
    consumed edges0 edges bs →
    consumed edges0 edges' bs' ∧ ∀ be0, head bs = Some be0 → head bs' = Some be0.
Proof.
  induction fuel as [|fuel IH]; intros current_uv edges bs bs' edges' H Hc; simpl in H.
  - case_bool_decide; [|done]. by simplify_eq.
  - case_bool_decide; [by simplify_eq|].
    res_inv. res_case; [|done]. repeat res_case. simplify_eq.
    match goal with Hs : extract_scan _ _ _ = Ret _ |- _ =>
      apply extract_scan_Some in Hs as (j & c & r & Hj & Ht & -> & -> & _ & _) end.
    destruct (IH _ _ _ _ _ H (consumed_step _ _ _ _ _ r Hc Hj Ht)) as (Hc' & Hh).
    split; [done|]. intros be0 Hbe0. apply Hh. by destruct bs.
Qed.

(** *** Termination of the walk over balanced candidates *)

Lemma ends_border_edge_uv isl be a b :
  ends isl be = Ret (a, b) →
  border_edge_uv isl be 0 = Ret (if UVBorderEdge.reverse_order be then b else a)
  ∧ border_edge_uv isl be 1 = Ret (if UVBorderEdge.reverse_order be then a else b).
Proof.
  unfold ends, border_edge_uv, UVBorderEdge_get_uv_vertex. intros H. res_inv.
  match goal with He : UVIsland.uv_edges isl !! _ = Some _ |- _ =>
    unfold deref; rewrite He end.
  simplify_eq. simpl. by destruct (UVBorderEdge.reverse_order be); simpl.
Qed.

Lemma ends_at_border_edge isl be s t p :
  border_edge_uv isl be 0 = Ret s → border_edge_uv isl be 1 = Ret t →
  ends_at p (ends isl be)
  = (if bool_decide (s = p) then 1 else 0) + (if bool_decide (t = p) then 1 else 0).
Proof.
  unfold ends, border_edge_uv, UVBorderEdge_get_uv_vertex. intros H0 H1. res_inv.
  simplify_eq.
  match goal with He : UVIsland.uv_edges isl !! _ = Some _ |- _ =>
    unfold deref at 1; rewrite He end.
  simpl. destruct (UVBorderEdge.reverse_order be); simpl in *;
    rewrite H0, H1; simpl; lia.
Qed.

Lemma ends_oriented isl c r : ends isl (oriented c r) = ends isl c.
Proof. done. Qed.

Lemma degree_insert isl p edges j c c' :
  edges !! j = Some c → UVBorderEdge.tag c = false → UVBorderEdge.tag c' = true →
  degree isl p edges = degree isl p (<[j := c']> edges) + ends_at p (ends isl c).
Proof.
  revert j. induction edges as [|x edges IH]; intros j Hj Ht Ht'; [done|].
  destruct j as [|j]; simpl in *.
  - simplify_eq. rewrite Ht, Ht'. lia.
  - rewrite (IH j) by done. lia.
Qed.

Lemma untagged_insert edges j c c' :
  edges !! j = Some c → UVBorderEdge.tag c = false → UVBorderEdge.tag c' = true →
  length (untagged edges) = S (length (untagged (<[j := c']> edges))).
Proof.
  unfold untagged. revert j. induction edges as [|x edges IH]; intros j Hj Ht Ht'; [done|].
  destruct j as [|j]; simpl in *.
  - simplify_eq. rewrite (filter_cons_True _ c) by done.
    by rewrite filter_cons_False by congruence.
  - rewrite !(filter_cons _ x). destruct (decide (UVBorderEdge.tag x = false)); simpl;
      by rewrite (IH j).
Qed.

(** Where an untagged candidate has an end at [current_uv], the scan finds
    a candidate. *)
Lemma extract_scan_finds isl current_uv edges :
  (∀ be, be ∈ edges → UVBorderEdge.tag be = false → ∃ ab, ends isl be = Ret ab) →
  0 < degree isl current_uv edges →
  ∃ r, extract_scan isl current_uv edges = Ret (Some r).
Proof.
  induction edges as [|c rest IH]; intros Hv Hd; simpl in *; [lia|].
  assert (∀ be, be ∈ rest → UVBorderEdge.tag be = false → ∃ ab, ends isl be = Ret ab)
    as Hv' by (intros; apply Hv; [by apply list_elem_of_further|done]).
  destruct (UVBorderEdge.tag c) eqn:Ht.
  - destruct (IH Hv' ltac:(lia)) as ([[rest' be'] uv'] & ->). simpl. eauto.
  - destruct (Hv c (list_elem_of_here _ _) Ht) as ([a b] & He).
    pose proof (ends_border_edge_uv isl (oriented c false) a b He) as [_ Hf].
    pose proof (ends_border_edge_uv isl (oriented c true) a b He) as [_ Hr].
    rewrite He in Hd. unfold ends in He. res_inv. simplify_eq.
    match goal with Hx : UVIsland.uv_edges isl !! _ = Some _ |- _ =>
      unfold deref at 1; rewrite Hx end. simpl in *.
    match goal with Hx : uv_of isl _ = Ret a |- _ => rewrite Hx end. simpl.
    case_bool_decide.
    + unfold oriented in Hf. rewrite Hf. simpl. eauto.
    + match goal with Hx : uv_of isl _ = Ret b |- _ => rewrite Hx end. simpl.
      case_bool_decide.
      * unfold oriented in Hr. rewrite Hr. simpl. eauto.
      * destruct (IH Hv' ltac:(lia)) as ([[rest' be'] uv'] & ->). simpl. eauto.
Qed.

Lemma odd_positive n : Nat.odd n = true → 0 < n.
Proof. destruct n; [done|lia]. Qed.

Lemma extract_walk_terminates isl first_uv fuel :
  ∀ current_uv edges bs,
    (∀ be, be ∈ edges → UVBorderEdge.tag be = false → ∃ ab, ends isl be = Ret ab) →
    length (untagged edges) ≤ fuel →
    (current_uv ≠ first_uv →
       ∀ p, Nat.odd (degree isl p edges)
            = bool_decide (p = current_uv ∨ p = first_uv)) →
    ∃ r, extract_walk fuel isl first_uv current_uv edges bs = Ret r.
Proof.
  induction fuel as [|fuel IH]; intros current_uv edges bs Hv Hfuel Hpar.
  - simpl. case_bool_decide as Hcur; [eauto|].
    specialize (Hpar Hcur current_uv). rewrite bool_decide_eq_true_2 in Hpar by auto.
    apply odd_positive in Hpar.
    destruct (extract_scan_finds _ _ _ Hv Hpar) as ([[edges' be'] uv'] & Hs).
    apply extract_scan_Some in Hs as (j & c & r & Hj & Ht & -> & -> & _).
    rewrite (untagged_insert _ _ _ (oriented c r) Hj Ht) in Hfuel by done. lia.
  - simpl. case_bool_decide as Hcur; [eauto|].
    pose proof (Hpar Hcur) as Hp. pose proof (Hp current_uv) as Hpc.
    rewrite bool_decide_eq_true_2 in Hpc by auto. apply odd_positive in Hpc.
    destruct (extract_scan_finds _ _ _ Hv Hpc) as ([[edges' be'] uv'] & Hs).
    rewrite Hs. simpl.
    apply extract_scan_Some in Hs as (j & c & r & Hj & Ht & -> & -> & H0 & H1).
    apply IH.
    + intros be Hin Htag. apply list_elem_of_lookup in Hin as (j' & Hj').
      destruct (decide (j' = j)) as [->|Hne].
      * rewrite list_lookup_insert_eq in Hj' by (by eapply lookup_lt_Some).
        by simplify_eq.
      * rewrite list_lookup_insert_ne in Hj' by done.
        apply Hv; [|done]. by eapply list_elem_of_lookup_2.
    + rewrite (untagged_insert _ _ _ (oriented c r) Hj Ht) in Hfuel by done. lia.
    + intros Hne p. specialize (Hp p).
      rewrite (degree_insert isl p _ _ _ (oriented c r) Hj Ht) in Hp by done.
      rewrite <- (ends_oriented isl c r), (ends_at_border_edge _ _ _ _ p H0 H1) in Hp.
      rewrite !Nat.odd_add in Hp.
      destruct (Nat.odd (degree isl p (<[j:=oriented c r]> edges)));
        repeat case_bool_decide; simpl in *; try done; exfalso; intuition congruence.
Qed.

Lemma untagged_length edges : length (untagged edges) ≤ length edges.
Proof. apply length_filter. Qed.

(** Over balanced candidates the extraction returns a border whenever a
    candidate is untagged. *)
Lemma extract_terminates isl edges :
  balanced isl edges → Exists (λ be, UVBorderEdge.tag be = false) edges →
  ∃ b edges', UVBorder_extract_from_edges isl edges = Ret (Some b, edges').
Proof.
  intros [Hv Hbal] Hex. unfold UVBorder_extract_from_edges.
  destruct (list_find _ edges) as [[i start]|] eqn:Hf.
  - apply list_find_Some in Hf as (Hi & Ht & _).
    destruct (Hv start (list_elem_of_lookup_2 _ _ _ Hi) Ht) as ([a b] & He).
    destruct (ends_border_edge_uv _ _ _ _ He) as [H0 H1]. rewrite H0, H1. simpl.
    edestruct (extract_walk_terminates isl
                 (if UVBorderEdge.reverse_order start then b else a) (length edges)
                 (if UVBorderEdge.reverse_order start then a else b)
                 (<[i := set_tag start true]> edges) [start]) as ([bs es] & ->).
    + intros be Hin Htag. apply list_elem_of_lookup in Hin as (j' & Hj').
      destruct (decide (j' = i)) as [->|Hne].
      * rewrite list_lookup_insert_eq in Hj' by (by eapply lookup_lt_Some).
        by simplify_eq.
      * rewrite list_lookup_insert_ne in Hj' by done.
        apply Hv; [|done]. by eapply list_elem_of_lookup_2.
    + etrans; [apply untagged_length|]. by rewrite length_insert.
    + intros Hne p. specialize (Hbal p).
      rewrite (degree_insert isl p _ _ _ (set_tag start true) Hi Ht) in Hbal by done.
      rewrite (ends_at_border_edge _ _ _ _ p H0 H1) in Hbal.
      rewrite <- Nat.negb_odd, !Nat.odd_add in Hbal.
      destruct (Nat.odd (degree isl p (<[i:=set_tag start true]> edges)));
        repeat case_bool_decide; simpl in *; try done; exfalso; intuition congruence.
    + simpl. eauto.
  - apply list_find_None in Hf. apply Exists_exists in Hex as (be & Hin & Ht).
    by apply (proj1 (Forall_forall _ _) Hf be) in Ht.
Qed.

Lemma extract_None isl edges :
  (∀ be, be ∈ edges → UVBorderEdge.tag be = true)
  ↔ ∃ edges', UVBorder_extract_from_edges isl edges = Ret (None, edges').
Proof.
  unfold UVBorder_extract_from_edges. split.
  - intros Hall. destruct (list_find _ edges) as [[i start]|] eqn:Hf; [|eauto].
    apply list_find_Some in Hf as (Hi & Ht & _).
    rewrite (Hall start) in Ht; [done|]. by eapply list_elem_of_lookup_2.
  - intros (edges' & H). destruct (list_find _ edges) as [[i start]|] eqn:Hf.
    + res_inv. done.
    + apply list_find_None in Hf. intros be Hin.
      apply (proj1 (Forall_forall _ _) Hf) in Hin. by destruct (UVBorderEdge.tag be).
Qed.

Lemma extract_Some isl edges b edges' :
  UVBorder_extract_from_edges isl edges = Ret (Some b, edges') →
  (∃ i start, edges !! i = Some start ∧ UVBorderEdge.tag start = false
              ∧ (∀ j c, edges !! j = Some c → j < i → UVBorderEdge.tag c = true)
              ∧ head (UVBorder.edges b) = Some start)
  ∧ consumed edges edges' (UVBorder.edges b).
Proof.
  unfold UVBorder_extract_from_edges. intros H.
  destruct (list_find _ edges) as [[i start]|] eqn:Hf; [|by simplify_eq].
  apply list_find_Some in Hf as (Hi & Ht & Hbefore).
  res_inv. simplify_eq.
  match goal with Hw : extract_walk _ _ _ _ _ _ = Ret ?r |- _ =>
    destruct r as [bs es];
    apply (extract_walk_consumed _ _ edges) in Hw as [Hc Hh] end.
  - simpl. split; [|done]. exists i, start. repeat split; try done.
    + intros j c Hj Hlt. specialize (Hbefore j c Hj Hlt).
      by destruct (UVBorderEdge.tag c).
    + by apply Hh.
  - split.
    + intros j c' Hj Htag. destruct (decide (j = i)) as [->|Hne].
      * rewrite list_lookup_insert_eq in Hj by (by eapply lookup_lt_Some). by simplify_eq.
      * by rewrite list_lookup_insert_ne in Hj.
    + intros be Hin. apply list_elem_of_singleton in Hin as ->.
      exists i, start, (set_tag start true). split; [done|]. split; [done|].
      split; [|done]. apply list_lookup_insert_eq. by eapply lookup_lt_Some.
Qed.

End Extract.

(** C8, as amended. [extract_from_edges] returns no border exactly when
    every candidate edge is tagged.  When a candidate is untagged and the
    untagged candidates are balanced (every UV coordinate is the end of an
    even number of them), it returns a border; and a border that it returns
    starts with the first untagged candidate, and each of its edges is a
    candidate that was untagged and is tagged when the call returns. *)
Theorem extract_from_edges_result {F} {O : FloatOps F} (isl : UVIsland.t F)
    (edges : list UVBorderEdge.t) :
  ((∀ be, be ∈ edges → UVBorderEdge.tag be = true)
   ↔ ∃ edges', UVBorder_extract_from_edges isl edges = Ret (None, edges'))
  ∧ (balanced isl edges → Exists (λ be, UVBorderEdge.tag be = false) edges →
     ∃ b edges', UVBorder_extract_from_edges isl edges = Ret (Some b, edges'))
  ∧ (∀ b edges',
       UVBorder_extract_from_edges isl edges = Ret (Some b, edges') →
       (∃ i start, edges !! i = Some start ∧ UVBorderEdge.tag start = false
                   ∧ (∀ j c, edges !! j = Some c → j < i → UVBorderEdge.tag c = true)
                   ∧ head (UVBorder.edges b) = Some start)
       ∧ consumed edges edges' (UVBorder.edges b)).
Proof.
  split; [apply extract_None|]. split; [apply extract_terminates|apply extract_Some].
Qed.

Section Normalize.
Context {F : Type} {O : FloatOps F}.
Implicit Types isl : UVIsland.t F.

Lemma flip_flipped (e b : UVBorder.t) : UVBorder_flip e = Ret b → flipped e b.
Proof.
  unfold UVBorder_flip. intros H. res_inv. subst b. split.
  - rewrite update_indexes_length. cbn [UVBorder.edges].
    by rewrite length_reverse, length_fmap.
  - intros i be' Hi. rewrite update_indexes_lookup in Hi. cbn [UVBorder.edges] in Hi.
    apply fmap_Some in Hi as (c & Hi & ->).
    assert (i < length (UVBorder.edges e)) as Hlt.
    { apply lookup_lt_Some in Hi. by rewrite length_reverse, length_fmap in Hi. }
    rewrite reverse_lookup in Hi by (by rewrite length_fmap).
    rewrite length_fmap, list_lookup_fmap in Hi.
    apply fmap_Some in Hi as (be & Hi & ->).
    exists be. replace (length (UVBorder.edges e) - 1 - i)
      with (length (UVBorder.edges e) - S i) by lia. done.
Qed.

Lemma is_ccw_first_corner isl e ccw :
  UVBorder_is_ccw isl e = Ret ccw → first_corner_ccw isl e ccw.
Proof.
  unfold UVBorder_is_ccw, first_corner_ccw. intros H. res_inv. subst.
  match goal with
  | Hh : head _ = Some ?a, H0 : UVBorderEdge_get_uv_vertex _ _ 0 = Ret _,
    H1 : UVBorderEdge_get_uv_vertex _ _ 1 = Ret _,
    H3 : UVBorderEdge_get_other_uv_vertex _ _ = Ret (Some ?v) |- _ =>
      exists a, v; do 3 eexists; split; [exact Hh|];
      unfold border_edge_uv; rewrite H0, H1; simpl
  end.
  repeat split; try eassumption.
Qed.

End Normalize.

(** C3, as amended. Every border that [UVIsland::extract_borders] appends
    is an extracted border for which [is_ccw] held, or the flip of an
    extracted border for which it did not hold: the edges in reverse order
    and every [reverse_order] toggled.  [is_ccw] tests the triangle at the
    first edge of the border (start, end, opposite vertex of the owning
    primitive), which is counter-clockwise when [cross_poly_v2] is below
    zero. *)
Theorem extract_borders_normalizes {F} {O : FloatOps F} (isl isl' : UVIsland.t F) :
  UVIsland_extract_borders isl = Ret isl' →
  ∃ new, UVIsland.borders isl' = UVIsland.borders isl ++ new
         ∧ ∀ b, b ∈ new →
             ∃ edges edges' e,
               UVBorder_extract_from_edges isl edges = Ret (Some e, edges')
               ∧ ((first_corner_ccw isl e true ∧ b = e)
                  ∨ (first_corner_ccw isl e false ∧ flipped e b)).
Proof.
  intros H. apply extract_borders_spec in H as (new & Hb & Hnew & _).
  exists new. split; [done|]. intros b Hin.
  destruct (proj1 (Forall_forall _ _) Hnew b Hin) as [_ (edges & edges' & e & He & Hn)].
  exists edges, edges', e. split; [done|].
  destruct Hn as [[Hccw ->]|[Hccw Hf]].
  - left. split; [|done]. by apply is_ccw_first_corner.
  - right. split; [by apply is_ccw_first_corner|by apply flip_flipped].
Qed.

(** C2. Every border that [UVBorder::extract_from_edges] returns, and so
    every border that [UVIsland::extract_borders] appends, is closed: the UV
    coordinate where an edge ends is the UV coordinate where the next edge,
    cyclically, starts. *)
Theorem extracted_borders_closed {F} {O : FloatOps F} (isl : UVIsland.t F) :
  (∀ edges b edges',
     UVBorder_extract_from_edges isl edges = Ret (Some b, edges') → closed_border isl b)
  ∧ (∀ isl',
       UVIsland_extract_borders isl = Ret isl' →
       ∃ new, UVIsland.borders isl' = UVIsland.borders isl ++ new
              ∧ ∀ b, b ∈ new → closed_border isl' b).
Proof.
  split.
  - apply extract_closed.
  - intros isl' H. apply extract_borders_spec in H as (new & Hb & Hnew & Hisl).
    exists new. split; [done|]. intros b Hin. rewrite Hisl.
    apply closed_border_set_borders.
    by apply (proj1 (Forall_forall _ _) Hnew b).
Qed.

End BorderFacts.

(** ** Corner selection *)

Module CornerFacts.

Section Sharpest.
Context {F : Type} {O : FloatOps F}.
Implicit Types isl : UVIsland.t F.
Implicit Types cs : list (UVBorderCorner.t F).
Implicit Types st : option (UVBorderCorner.t F) * F.

(** [<] on the angles is a strict weak order. *)
Hypothesis lt_irrefl : ∀ a : F, fltb a a = false.
Hypothesis lt_trans : ∀ a b c : F, fltb a b = true → fltb b c = true → fltb a c = true.
Hypothesis lt_negtrans :
  ∀ a b c : F, fltb a b = false → fltb b c = false → fltb a c = false.

Lemma lt_asym (a b : F) : fltb a b = true → fltb b a = false.
Proof.
  intros Hab. destruct (fltb b a) eqn:Hba; [|done].
  pose proof (lt_trans _ _ _ Hab Hba). pose proof (lt_irrefl a). congruence.
Qed.

Lemma pick_snoc cs st c :
  pick_sharpest (cs ++ [c]) st
  = if fltb (UVBorderCorner.angle c) (pick_sharpest cs st).2
    then (Some c, UVBorderCorner.angle c) else pick_sharpest cs st.
Proof. unfold pick_sharpest. by rewrite foldl_app. Qed.

Lemma pick_app cs1 cs2 st :
  pick_sharpest (cs1 ++ cs2) st = pick_sharpest cs2 (pick_sharpest cs1 st).
Proof. unfold pick_sharpest. by rewrite foldl_app. Qed.

(** The running minimum is the initial state, which no corner beats, or the
    first minimum of the corners, which beats the initial angle. *)
Lemma pick_spec cs r0 a0 :
  (pick_sharpest cs (r0, a0) = (r0, a0)
   ∧ ∀ c, c ∈ cs → fltb (UVBorderCorner.angle c) a0 = false)
  ∨ ∃ i c, pick_sharpest cs (r0, a0) = (Some c, UVBorderCorner.angle c)
           ∧ first_minimum cs i c
           ∧ fltb (UVBorderCorner.angle c) a0 = true.
Proof.
  induction cs as [|c cs IH] using rev_ind.
  - left. split; [done|]. intros c Hc. by apply elem_of_nil in Hc.
  - rewrite pick_snoc. destruct IH as [[-> Hall]|(i & ci & -> & (Hi & Hmin & Hbefore) & Hlt)];
      simpl.
    + destruct (fltb (UVBorderCorner.angle c) a0) eqn:Hc.
      * right. exists (length cs), c. split; [done|]. split; [|done]. split; [|split].
        -- by rewrite lookup_app_r, Nat.sub_diag by lia.
        -- intros j c' Hj. apply lookup_snoc_Some in Hj as [[_ Hj]|[_ <-]]; [|done].
           destruct (fltb (UVBorderCorner.angle c') (UVBorderCorner.angle c)) eqn:Hcc;
             [|done].
           pose proof (Hall c' (list_elem_of_lookup_2 _ _ _ Hj)).
           pose proof (lt_trans _ _ _ Hcc Hc). congruence.
        -- intros j c' Hj Hlt. rewrite lookup_app_l in Hj by lia.
           destruct (fltb (UVBorderCorner.angle c) (UVBorderCorner.angle c')) eqn:Hcc;
             [done|].
           pose proof (lt_negtrans _ _ _ Hcc (Hall c' (list_elem_of_lookup_2 _ _ _ Hj))).
           congruence.
      * left. split; [done|]. intros c' Hin. apply elem_of_app in Hin as [Hin|Hin];
          [by apply Hall|]. by apply list_elem_of_singleton in Hin as ->.
    + right. destruct (fltb (UVBorderCorner.angle c) (UVBorderCorner.angle ci)) eqn:Hc.
      * exists (length cs), c. split; [done|]. split; [|by eapply lt_trans].
        split; [|split].
        -- by rewrite lookup_app_r, Nat.sub_diag by lia.
        -- intros j c' Hj. apply lookup_snoc_Some in Hj as [[_ Hj]|[_ <-]]; [|done].
           destruct (fltb (UVBorderCorner.angle c') (UVBorderCorner.angle c)) eqn:Hcc;
             [|done].
           pose proof (Hmin j c' Hj). pose proof (lt_trans _ _ _ Hcc Hc). congruence.
        -- intros j c' Hj Hltj. rewrite lookup_app_l in Hj by lia.
           destruct (fltb (UVBorderCorner.angle c) (UVBorderCorner.angle c')) eqn:Hcc;
             [done|].
           pose proof (lt_negtrans _ _ _ Hcc (Hmin j c' Hj)). congruence.
      * exists i, ci. split; [done|]. split; [|done]. split; [|split].
        -- by apply lookup_app_l_Some.
        -- intros j c' Hj. apply lookup_snoc_Some in Hj as [[_ Hj]|[_ <-]]; [|done].
           by eapply Hmin.
        -- intros j c' Hj Hltj. apply lookup_lt_Some in Hi.
           rewrite lookup_app_l in Hj by lia. by eapply Hbefore.
Qed.

(** Taking the minimum of a border first and comparing it with the running
    minimum of the island is taking the running minimum over the corners of
    the border. *)
Lemma pick_merge cs : ∀ r1 a1 ro s,
  (if fltb (pick_sharpest cs (r1, a1)).2 s then pick_sharpest cs (r1, a1) else (ro, s))
  = pick_sharpest cs (if fltb a1 s then (r1, a1) else (ro, s)).
Proof.
  induction cs as [|c cs IH]; intros r1 a1 ro s; [done|].
  unfold pick_sharpest in *. simpl.
  destruct (fltb (UVBorderCorner.angle c) a1) eqn:Hca, (fltb a1 s) eqn:Has; simpl.
  - rewrite IH, (lt_trans _ _ _ Hca Has), Hca. done.
  - rewrite IH. by destruct (fltb (UVBorderCorner.angle c) s).
  - rewrite IH, Has, Hca. done.
  - rewrite IH, Has, (lt_negtrans _ _ _ Hca Has). done.
Qed.

Lemma pick_angle cs st :
  (pick_sharpest cs st).2 = st.2
  ∨ ∃ c, c ∈ cs ∧ (pick_sharpest cs st).2 = UVBorderCorner.angle c.
Proof.
  induction cs as [|c cs IH] using rev_ind; [by left|].
  rewrite pick_snoc. destruct (fltb _ _).
  - right. exists c. split; [|done]. apply elem_of_app. right. apply list_elem_of_here.
  - destruct IH as [->|(c' & Hin & ->)]; [by left|].
    right. exists c'. split; [|done]. apply elem_of_app. by left.
Qed.

(** Every corner of the enumeration is a considered one. *)
Lemma candidates_in_considered isl bpos b cs :
  UVIsland.borders isl !! bpos = Some b →
  candidate_corners_in isl bpos b = Ret cs →
  ∀ c, c ∈ cs → considered isl c.
Proof.
  intros Hb H.
  eapply (foldM_ind (λ acc, ∀ c, c ∈ acc → considered isl c)); [| |exact H].
  - intros acc [pos edge] acc' Hin Hacc Hstep. simpl in Hstep.
    apply elem_of_imap_pair in Hin. res_inv.
    match goal with Hv : UVIsland.uv_vertices _ !! _ = Some ?x |- _ =>
      destruct (UVVertex.is_border x) eqn:Eb;
      destruct (UVVertex.is_extended x) eqn:Ee end;
      simpl in Hstep; try (by simplify_eq).
    unfold UVBorder_outside_angle in Hstep. res_inv. subst.
    intros c [Hc|Hc]%elem_of_app; [by apply Hacc|].
    apply list_elem_of_singleton in Hc. subst c.
    unfold considered. simpl. do 9 eexists.
    repeat split; try eassumption; try reflexivity.
    by apply at_index_Ret.
  - intros c Hc. by apply elem_of_nil in Hc.
Qed.

Lemma candidates_considered isl cs :
  candidate_corners isl = Ret cs → ∀ c, c ∈ cs → considered isl c.
Proof.
  intros H.
  eapply (foldM_ind (λ acc, ∀ c, c ∈ acc → considered isl c)); [| |exact H].
  - intros acc [bpos b] acc' Hin Hacc Hstep. simpl in Hstep.
    apply elem_of_imap_pair in Hin. res_inv. subst.
    intros c [Hc|Hc]%elem_of_app; [by apply Hacc|].
    by eapply candidates_in_considered.
  - intros c Hc. by apply elem_of_nil in Hc.
Qed.

(** Every border edge that starts at an extendable vertex has its corner in
    the enumeration. *)
Lemma candidates_in_complete isl bpos b cs :
  UVIsland.borders isl !! bpos = Some b →
  candidate_corners_in isl bpos b = Ret cs →
  ∀ pos, extendable_slot isl bpos pos →
         ∃ c, c ∈ cs ∧ UVBorderCorner.second c = (bpos, pos).
Proof.
  intros Hb H pos (b' & edge & v & x & Hb' & Hedge & Hv & Hx & Hborder & Hext).
  assert (b' = b) as -> by congruence.
  apply elem_of_imap_pair in Hedge. revert Hedge.
  eapply (foldM_prefix_ind
            (λ pre acc, (pos, edge) ∈ pre →
                        ∃ c, c ∈ acc ∧ UVBorderCorner.second c = (bpos, pos)));
    [| |exact H].
  - intros Hin. by apply elem_of_nil in Hin.
  - intros pre [pos' edge'] acc acc' IH Hstep [Hin|Hin]%elem_of_app.
    + destruct (IH Hin) as (c & Hc & Hsec). exists c. split; [|done].
      simpl in Hstep. res_inv.
      match type of Hstep with context [if ?t then _ else _] => destruct t end;
        res_inv; subst; [apply elem_of_app; by left|done].
    + apply list_elem_of_singleton in Hin. simplify_eq.
      simpl in Hstep. res_inv.
      assert (UVVertex.is_border x && negb (UVVertex.is_extended x) = true) as Hok
        by (by rewrite Hborder, Hext).
      match goal with Hs : context [if ?t then _ else _] |- _ =>
        replace t with true in Hs by congruence end.
      res_inv. subst. eexists. split; [apply elem_of_app; right; apply list_elem_of_here|].
      done.
Qed.

Lemma candidates_complete isl cs :
  candidate_corners isl = Ret cs →
  ∀ bpos pos, extendable_slot isl bpos pos →
              ∃ c, c ∈ cs ∧ UVBorderCorner.second c = (bpos, pos).
Proof.
  intros H bpos pos Hslot.
  pose proof Hslot as (b & edge & v & x & Hb & Hrest).
  pose proof Hb as Hb0. apply elem_of_imap_pair in Hb. revert Hb.
  eapply (foldM_prefix_ind
            (λ pre acc, (bpos, b) ∈ pre →
                        ∃ c, c ∈ acc ∧ UVBorderCorner.second c = (bpos, pos)));
    [| |exact H].
  - intros Hin. by apply elem_of_nil in Hin.
  - intros pre [bpos' b'] acc acc' IH Hstep [Hin|Hin]%elem_of_app;
      simpl in Hstep; res_inv; subst.
    + destruct (IH Hin) as (c & Hc & Hsec). exists c. split; [|done].
      apply elem_of_app. by left.
    + apply list_elem_of_singleton in Hin. simplify_eq.
      match goal with Hc : candidate_corners_in _ _ _ = Ret _ |- _ =>
        destruct (candidates_in_complete _ _ _ _ Hb0 Hc pos Hslot)
          as (c & Hc' & Hsec) end.
      exists c. split; [|done]. apply elem_of_app. by right.
Qed.

(** The selection on one border computes the running minimum of the
    corners it considers there. *)
Lemma sharpest_in_candidates isl bpos b cs :
  candidate_corners_in isl bpos b = Ret cs →
  sharpest_border_corner_in isl bpos b = Ret (pick_sharpest cs (None, FLT_MAX)).
Proof.
  unfold candidate_corners_in, sharpest_border_corner_in.
  match goal with |- foldM ?bc _ ?l = _ → foldM ?bs ?s0 _ = _ =>
    assert (∀ slots acc st cs',
              foldM bc acc slots = Ret cs' →
              ∃ cs, cs' = acc ++ cs ∧ foldM bs st slots = Ret (pick_sharpest cs st))
      as Hgen end.
  { induction slots as [|[pos edge] slots IH]; intros acc [result r_angle] cs' H;
      simpl in H.
    - simplify_eq. exists []. by rewrite app_nil_r.
    - res_inv. simpl.
      match goal with Hv : UVBorderEdge_get_uv_vertex _ _ _ = Ret _ |- _ =>
        rewrite Hv end. cbn [mbind res_bind].
      match goal with Hv : UVIsland.uv_vertices _ !! _ = Some ?x |- _ =>
        rewrite (proj2 (deref_Ret _ _ _) Hv); rename x into vert end.
      cbn [mbind res_bind].
      destruct (UVVertex.is_border vert), (UVVertex.is_extended vert); simpl in *;
        res_inv; subst; try (by apply IH).
      match goal with Ha : UVBorder_outside_angle _ _ _ = Ret ?a |- _ =>
        rewrite Ha; rename a into angle end. simpl.
      destruct (IH _ (if fltb angle r_angle
                      then (Some (UVBorderCorner.mk
                                    (bpos, Z.to_nat (UVBorderEdge.prev_index edge))
                                    (bpos, pos) angle), angle)
                      else (result, r_angle)) _ H) as (cs0 & -> & Hs).
      eexists (_ :: cs0). rewrite <- app_assoc. split; [done|].
      simpl. by destruct (fltb angle r_angle). }
  intros H. destruct (Hgen _ _ (None, FLT_MAX) _ H) as (cs0 & Heq & Hs).
  simpl in Heq. by subst.
Qed.

Lemma sharpest_candidates isl cs :
  candidate_corners isl = Ret cs →
  (∀ c, c ∈ cs → fltb (UVBorderCorner.angle c) FLT_MAX = true) →
  sharpest_border_corner isl = Ret (pick_sharpest cs (None, FLT_MAX)).1.
Proof.
  unfold candidate_corners, sharpest_border_corner. intros H Hbound.
  match type of H with foldM ?bc _ ?l = _ =>
    match goal with |- mbind _ (foldM ?bs _ _) = _ =>
      assert (∀ slots acc st cs',
                fltb FLT_MAX st.2 = false →
                foldM bc acc slots = Ret cs' →
                (∀ c, c ∈ cs' → fltb (UVBorderCorner.angle c) FLT_MAX = true) →
                ∃ cs, cs' = acc ++ cs ∧ foldM bs st slots = Ret (pick_sharpest cs st))
        as Hgen end end.
  { clear H Hbound cs.
    induction slots as [|[bpos b] slots IH]; intros acc [result s] cs' Hs H Hbound;
      simpl in H.
    - simplify_eq. exists []. by rewrite app_nil_r.
    - res_inv. subst. simpl.
      match goal with Hc : candidate_corners_in _ _ _ = Ret ?c |- _ =>
        rewrite (sharpest_in_candidates _ _ _ _ Hc); rename c into cs_b end. simpl.
      pose proof (pick_merge cs_b None FLT_MAX result s) as Hm.
      simpl in Hs. rewrite Hs in Hm.
      assert (fltb FLT_MAX (pick_sharpest cs_b (result, s)).2 = false) as Hinv.
      { destruct (pick_angle cs_b (result, s)) as [->|(c & Hin & ->)]; [done|].
        apply lt_asym, Hbound.
        assert (c ∈ acc ++ cs_b) as Hin' by (apply elem_of_app; by right).
        clear -Hin' H. revert H.
        apply (foldM_ind (λ l, c ∈ l)); [|done].
        intros l x l' _ Hl Hx. res_inv. subst. apply elem_of_app. by left. }
      destruct (IH _ _ _ Hinv H Hbound) as (cs0 & Heq & Hrest).
      exists (cs_b ++ cs0). rewrite app_assoc. split; [done|].
      rewrite pick_app, <- Hrest.
      destruct (fltb (pick_sharpest cs_b (None, FLT_MAX)).2 s); rewrite <- Hm;
        [by destruct (pick_sharpest cs_b (None, FLT_MAX))|done]. }
  destruct (Hgen _ _ (None, FLT_MAX) _ (lt_irrefl _) H Hbound) as (cs0 & Heq & ->).
  simpl in Heq. by subst.
Qed.

(** C4. On scalars without NaN, where [<] is a strict weak order, and with
    every outside angle below [FLT_MAX]: the corners that
    [sharpest_border_corner] compares are exactly those of the border edges
    that start at a vertex flagged [is_border] and not [is_extended], each
    with the angle pi minus the signed angle between the UV direction of the
    previous border edge and the one of the edge itself; the function
    returns no corner exactly when there is no such edge, and otherwise the
    first corner, in the order of the iteration over the borders and their
    edges, among those of the smallest angle. *)
Theorem sharpest_corner_is_first_minimum isl cs :
  candidate_corners isl = Ret cs →
  (∀ c, c ∈ cs → fltb (UVBorderCorner.angle c) FLT_MAX = true) →
  (∀ c, c ∈ cs → considered isl c)
  ∧ (∀ bpos pos, extendable_slot isl bpos pos →
                 ∃ c, c ∈ cs ∧ UVBorderCorner.second c = (bpos, pos))
  ∧ ∃ r, sharpest_border_corner isl = Ret r
         ∧ (r = None ↔ cs = [])
         ∧ ∀ c, r = Some c → ∃ i, first_minimum cs i c.
Proof.
  intros H Hbound.
  split; [by apply candidates_considered|].
  split; [by apply candidates_complete|].
  eexists. split; [by apply sharpest_candidates|].
  destruct (pick_spec cs None FLT_MAX)
    as [[-> Hall]|(i & c & -> & Hmin & Hlt)]; simpl.
  - split.
    + split; [|done]. intros _. destruct cs as [|c cs]; [done|].
      specialize (Hall c (list_elem_of_here _ _)).
      specialize (Hbound c (list_elem_of_here _ _)). congruence.
    + intros c Hc. discriminate Hc.
  - split.
    + split; [done|]. intros ->. by destruct Hmin as (Hi & _).
    + intros c' Hc'. exists i. by simplify_eq.
Qed.

End Sharpest.
End CornerFacts.

(** ** The two branches of [extend_at_vert] *)

Module FillFacts.

Section Fill.
Context {F : Type} {O : FloatOps F}.
Variable mesh : MeshData.t F.

Implicit Types isl : UVIsland.t F.
Implicit Types corner : UVBorderCorner.t F.

(** The borders and the primitives are the same in both islands. *)
Local Abbreviation frame isl isl' :=
  (UVIsland.borders isl' = UVIsland.borders isl
   ∧ UVIsland.uv_primitives isl' = UVIsland.uv_primitives isl).

Lemma frame_trans isl1 isl2 isl3 : frame isl1 isl2 → frame isl2 isl3 → frame isl1 isl3.
Proof. intros [] []. split; congruence. Qed.

Lemma frame_vertex isl t isl1 p :
  UVIsland_lookup_or_create_vertex isl t = (isl1, p) → frame isl isl1.
Proof.
  unfold UVIsland_lookup_or_create_vertex. destruct (list_find _ _); intros H; by simplify_eq.
Qed.

Lemma frame_edge isl vertices isl1 p :
  UVIsland_lookup_or_create_edge isl vertices = (isl1, p) → frame isl isl1.
Proof.
  unfold UVIsland_lookup_or_create_edge. destruct (list_find _ _); intros H; by simplify_eq.
Qed.

Lemma frame_register isl v ei isl1 :
  register_edge_with_vertex isl v ei = Ret isl1 → frame isl isl1.
Proof. unfold register_edge_with_vertex. intros H. res_inv. by subst. Qed.

Lemma frame_edge_vertices isl ei isl1 :
  UVEdge_append_to_uv_vertices isl ei = Ret isl1 → frame isl isl1.
Proof.
  unfold UVEdge_append_to_uv_vertices. intros H. res_inv.
  eapply frame_trans; by eapply frame_register.
Qed.

Lemma frame_prim_edges isl p this isl1 :
  UVPrimitive_append_to_uv_edges isl p this = Ret isl1 → frame isl isl1.
Proof.
  unfold UVPrimitive_append_to_uv_edges.
  apply (foldM_ind (λ s, frame isl s)); [|done].
  intros s x s' _ Hs H. res_inv. by subst.
Qed.

Lemma frame_prim_vertices isl p isl1 :
  UVPrimitive_append_to_uv_vertices isl p = Ret isl1 → frame isl isl1.
Proof.
  unfold UVPrimitive_append_to_uv_vertices.
  apply (foldM_ind (λ s, frame isl s)); [|done].
  intros s x s' _ Hs H. eapply frame_trans; [done|]. by eapply frame_edge_vertices.
Qed.

(** Chains the frames that the hypotheses provide. *)
Ltac frame_chain :=
  simpl;
  repeat first
    [ done
    | eapply frame_trans;
      [ first [ eapply frame_vertex; eassumption
              | eapply frame_edge; eassumption
              | eapply frame_prim_edges; eassumption
              | eapply frame_prim_vertices; eassumption ] | ] ].

(** [add_uv_primitive_shared_uv_edge] appends one primitive, of the mesh
    primitive it is given, and leaves the borders alone. *)
Lemma shared_appends isl v1 v2 uv mp isl1 :
  add_uv_primitive_shared_uv_edge mesh isl v1 v2 uv mp = Ret isl1 →
  UVIsland.borders isl1 = UVIsland.borders isl
  ∧ ∃ p, UVPrimitive.primitive p = mp
         ∧ UVIsland.uv_primitives isl1 = UVIsland.uv_primitives isl ++ [p].
Proof.
  unfold add_uv_primitive_shared_uv_edge. intros H.
  split_lookups H. subst. simpl.
  match goal with H8 : UVPrimitive_append_to_uv_vertices ?i7 ?prim = Ret ?i8 |- _ =>
    assert (frame isl i8) as [Hb Hp] by frame_chain
  end.
  split; [done|]. eexists. split; [|by rewrite Hp]. done.
Qed.

(** [add_uv_primitive_fill] does the same. *)
Lemma fill_appends isl v1 v2 v3 fp isl1 :
  add_uv_primitive_fill isl v1 v2 v3 fp = Ret isl1 →
  UVIsland.borders isl1 = UVIsland.borders isl
  ∧ ∃ p, UVPrimitive.primitive p = fp
         ∧ UVIsland.uv_primitives isl1 = UVIsland.uv_primitives isl ++ [p].
Proof.
  unfold add_uv_primitive_fill. intros H.
  split_lookups H. subst. simpl.
  match goal with H8 : UVPrimitive_append_to_uv_vertices ?i7 ?prim = Ret ?i8 |- _ =>
    assert (frame isl i8) as [Hb Hp] by frame_chain
  end.
  split; [done|]. eexists. split; [|by rewrite Hp]. done.
Qed.

(** The edge that [get_uv_edge(uv1, uv2)] finds is an edge of the primitive
    between the two coordinates. *)
Lemma get_uv_edge_uv_Some isl p uv1 uv2 edge :
  UVPrimitive_get_uv_edge_uv isl p uv1 uv2 = Ret (Some edge) →
  ∃ e a b,
    edge ∈ UVPrimitive.edges p
    ∧ UVIsland.uv_edges isl !! edge = Some e
    ∧ uv_of isl (UVEdge.vertices e).1 = Ret a
    ∧ uv_of isl (UVEdge.vertices e).2 = Ret b
    ∧ ((a = uv1 ∧ b = uv2) ∨ (a = uv2 ∧ b = uv1)).
Proof.
  unfold UVPrimitive_get_uv_edge_uv. intros H.
  eapply (foldM_ind
            (λ found, ∀ edge, found = Some edge →
               ∃ e a b,
                 edge ∈ UVPrimitive.edges p
                 ∧ UVIsland.uv_edges isl !! edge = Some e
                 ∧ uv_of isl (UVEdge.vertices e).1 = Ret a
                 ∧ uv_of isl (UVEdge.vertices e).2 = Ret b
                 ∧ ((a = uv1 ∧ b = uv2) ∨ (a = uv2 ∧ b = uv1))));
    [| |exact H|done]; [|done].
  intros found ei found' Hin IH Hstep ed Hed. subst found'.
  destruct found as [f|]; [simplify_eq; by apply IH|].
  res_inv. case_bool_decide; [|done]. simplify_eq.
  eauto 10.
Qed.

Lemma corner_edge_borders isl isl1 p :
  UVIsland.borders isl1 = UVIsland.borders isl → corner_edge isl1 p = corner_edge isl p.
Proof. unfold corner_edge. by intros ->. Qed.

Lemma uv_of_vertices isl isl1 v :
  UVIsland.uv_vertices isl1 = UVIsland.uv_vertices isl → uv_of isl1 v = uv_of isl v.
Proof. unfold uv_of. by intros ->. Qed.

(** *** Growth of the stores *)

Lemma grows_refl isl : grows isl isl.
Proof.
  split; [done|]. split; [eauto|]. split; [eauto|]. exists []. by rewrite app_nil_r.
Qed.


Lemma grows_set_vertices isl vs :
  (∀ v x, UVIsland.uv_vertices isl !! v = Some x →
     ∃ x', vs !! v = Some x' ∧ UVVertex.uv x' = UVVertex.uv x
           ∧ UVVertex.vertex x' = UVVertex.vertex x) →
  grows isl (set_uv_vertices isl vs).
Proof.
  intros H. split; [done|]. split; [done|]. split; [eauto|].
  exists []. by rewrite app_nil_r.
Qed.

Lemma grows_set_edges isl es :
  (∀ i e, UVIsland.uv_edges isl !! i = Some e →
     ∃ e', es !! i = Some e' ∧ UVEdge.vertices e' = UVEdge.vertices e) →
  grows isl (set_uv_edges isl es).
Proof.
  intros H. split; [done|]. split; [eauto|]. split; [done|].
  exists []. by rewrite app_nil_r.
Qed.

Lemma grows_vertex isl vertex uv isl1 p :
  UVIsland_lookup_or_create_vertex isl (UVVertex_new vertex uv) = (isl1, p) →
  grows isl isl1
  ∧ ∃ x, UVIsland.uv_vertices isl1 !! p = Some x
         ∧ UVVertex.uv x = uv ∧ UVVertex.vertex x = vertex.
Proof.
  unfold UVIsland_lookup_or_create_vertex.
  destruct (list_find _ _) as [[i x]|] eqn:E; intros H; simplify_eq.
  - split; [apply grows_refl|]. apply list_find_Some in E as (Hi & [Hm Hu] & _).
    exists x. simpl in *. by rewrite Hi.
  - split.
    + apply grows_set_vertices. intros v x Hx. exists x.
      by rewrite lookup_app_l by (by eapply lookup_lt_Some).
    + simpl. eexists. rewrite lookup_app_r, Nat.sub_diag by lia. by simpl.
Qed.

Lemma grows_edge isl vertices isl1 p :
  UVIsland_lookup_or_create_edge isl vertices = (isl1, p) →
  grows isl isl1
  ∧ ∃ e, UVIsland.uv_edges isl1 !! p = Some e
         ∧ (UVEdge.vertices e = vertices
            ∨ UVEdge.vertices e = (vertices.2, vertices.1)).
Proof.
  unfold UVIsland_lookup_or_create_edge.
  destruct (list_find _ _) as [[i e]|] eqn:E; intros H; simplify_eq.
  - split; [apply grows_refl|]. apply list_find_Some in E as (Hi & Hor & _).
    exists e. simpl in *. by rewrite Hi.
  - split.
    + apply grows_set_edges. intros i e Hi. exists e.
      by rewrite lookup_app_l by (by eapply lookup_lt_Some).
    + simpl. eexists. rewrite lookup_app_r, Nat.sub_diag by lia. simpl. eauto.
Qed.













(** *** The triangles of the fill *)







(** *** The splice of the border *)



(** The branch that [extend_at_vert] takes. *)
Lemma extend_at_vert_branch fuel isl corner d n isl' :
  corner_num_to_add mesh fuel isl corner = Ret (Some n) →
  extend_at_vert mesh fuel isl corner d = Ret isl' →
  ∃ first x fan,
    corner_edge isl (UVBorderCorner.first corner) = Ret first
    ∧ Fan_count_num_to_add fan = n
    ∧ (if bool_decide (n = 0)
       then extend_at_vert_split mesh isl corner d = Ret isl'
       else extend_at_vert_fill mesh isl corner d (UVBorderEdge.border_index first)
              x fan n = Ret isl')
    ∧ fill_trace_at mesh fuel isl corner d
      = fill_trace mesh corner x d n
          (mk_fill_state isl (Fan.inner_edges fan) (UVBorderEdge.edge first) [])
          (seq 0 n).
Proof.
  unfold corner_num_to_add, extend_at_vert, fill_trace_at. intros Hn H.
  apply bind_Ret in H as (first & Hfirst & H).
  apply bind_Ret in H as (b & _ & H).
  revert H. res_inv. intros H.
  repeat match goal with
         | E : ?m = Ret _, H : context [?m] |- _ => rewrite E in H; cbn [mbind res_bind] in H
         end.
  match goal with E : UVIsland.uv_vertices isl !! _ = Some _ |- _ =>
    rewrite (proj2 (deref_Ret _ _ _) E) in H; cbn [mbind res_bind] in H end.
  repeat match goal with
         | E : ?m = Ret _, H : context [?m] |- _ => rewrite E in H; cbn [mbind res_bind] in H
         end.
  match goal with E : Fan_new _ _ _ = Ret ?fan |- _ => destruct (Fan.full fan) eqn:Hfull end;
    simpl in Hn, H; [|discriminate Hn].
  revert H. res_inv. intros H. subst n.
  repeat match goal with
         | E : ?m = Ret _, H : context [?m] |- _ => rewrite E in H; cbn [mbind res_bind] in H
         end.
  do 3 eexists. split; [exact Hfirst|]. split; [reflexivity|].
  split; [case_bool_decide; exact H|].
  repeat match goal with
         | E : ?m = Ret _ |- context [?m] => rewrite E; cbn [mbind res_bind]
         | E : ?l !! ?i = Some _ |- context [deref ?l ?i] =>
             rewrite (proj2 (deref_Ret _ _ _) E); cbn [mbind res_bind]
         end.
  by rewrite Hfull.
Qed.

(** The assignment through a pointer to a border edge changes the borders
    only, and not the number of their edges. *)
Lemma set_corner_edge_spec isl p be isl1 :
  set_corner_edge isl p be = Ret isl1 →
  UVIsland.uv_vertices isl1 = UVIsland.uv_vertices isl
  ∧ UVIsland.uv_edges isl1 = UVIsland.uv_edges isl
  ∧ UVIsland.uv_primitives isl1 = UVIsland.uv_primitives isl
  ∧ border_lengths isl1 = border_lengths isl.
Proof.
  unfold set_corner_edge, border_lengths. intros H. res_inv. subst. simpl.
  repeat split. rewrite list_fmap_insert. simpl. rewrite length_insert.
  apply list_insert_id. rewrite list_lookup_fmap.
  match goal with E : UVIsland.borders isl !! _ = Some _ |- _ => by rewrite E end.
Qed.

Lemma set_corner_edge_borders isl isl0 p be isl1 :
  UVIsland.borders isl0 = UVIsland.borders isl →
  set_corner_edge isl0 p be = Ret isl1 →
  ∃ isl2, set_corner_edge isl p be = Ret isl2
          ∧ UVIsland.borders isl2 = UVIsland.borders isl1.
Proof.
  unfold set_corner_edge. intros Hb H. rewrite Hb in H. res_inv. subst.
  repeat match goal with E : _ !! _ = Some _ |- _ =>
    rewrite (proj2 (deref_Ret _ _ _) E); clear E; simpl end.
  eauto.
Qed.

(** C5, as amended. When [extend_at_vert] runs on a corner whose fan
    is full and [count_num_to_add()] is 0, two primitives are appended to the
    island; the border edge [corner.first] is rebound, in its slot, to an
    edge of the first of them that ends at [corner.uv(0.5,
    min_uv_distance)], and [corner.second] to such an edge of the second
    one; no border changes its number of edges.  Each of the two primitives
    so has a UV vertex at that coordinate; the vertices are looked up or
    created by (mesh vertex, UV coordinate), one for each primitive. *)
Theorem split_adds_two_primitives fuel isl corner d isl' :
  corner_num_to_add mesh fuel isl corner = Ret (Some 0) →
  extend_at_vert mesh fuel isl corner d = Ret isl' →
  ∃ center p1 p2 old1 old2 new1 new2 isl1 isl2,
    UVBorderCorner_uv isl corner fhalf d = Ret center
    ∧ UVIsland.uv_primitives isl' = UVIsland.uv_primitives isl ++ [p1; p2]
    ∧ corner_edge isl (UVBorderCorner.first corner) = Ret old1
    ∧ set_corner_edge isl (UVBorderCorner.first corner) new1 = Ret isl1
    ∧ corner_edge isl1 (UVBorderCorner.second corner) = Ret old2
    ∧ set_corner_edge isl1 (UVBorderCorner.second corner) new2 = Ret isl2
    ∧ UVIsland.borders isl' = UVIsland.borders isl2
    ∧ rebound isl' old1 new1 (length (UVIsland.uv_primitives isl)) p1 center
    ∧ rebound isl' old2 new2 (S (length (UVIsland.uv_primitives isl))) p2 center
    ∧ border_lengths isl' = border_lengths isl.
Proof.
  intros Hn H.
  destruct (extend_at_vert_branch _ _ _ _ _ _ Hn H)
    as (first & x & fan & _ & _ & Hsplit & _).
  clear Hn H. rewrite bool_decide_true in Hsplit by done.
  unfold extend_at_vert_split in Hsplit.
  apply bind_Ret in Hsplit as (old1 & Hold1 & Hsplit).
  apply bind_Ret in Hsplit as (sec0 & Hsec0 & Hsplit).
  apply bind_Ret in Hsplit as (sp & Hsp & Hsplit).
  apply bind_Ret in Hsplit as (fp & Hfp & Hsplit).
  apply bind_Ret in Hsplit as (fill & Hfill & Hsplit).
  apply bind_Ret in Hsplit as (center & Hcenter & Hsplit).
  apply bind_Ret in Hsplit as (a1 & Ha1 & Hsplit).
  apply bind_Ret in Hsplit as (a0 & Ha0 & Hsplit).
  apply bind_Ret in Hsplit as (isl1 & Hadd1 & Hsplit).
  apply bind_Ret in Hsplit as (sec1 & Hsec1 & Hsplit).
  apply bind_Ret in Hsplit as (c0 & Hc0 & Hsplit).
  apply bind_Ret in Hsplit as (c1 & Hc1 & Hsplit).
  apply bind_Ret in Hsplit as (isl2 & Hadd2 & Hsplit).
  apply bind_Ret in Hsplit as (be1 & Hbe1 & Hsplit).
  apply bind_Ret in Hsplit as (np1 & Hnp1 & Hsplit).
  apply bind_Ret in Hsplit as (start_uv & Hstart & Hsplit).
  apply bind_Ret in Hsplit as (edge1 & Hedge1 & Hsplit).
  apply bind_Ret in Hsplit as (e1 & He1 & Hsplit).
  apply bind_Ret in Hsplit as (uv0 & Huv0 & Hsplit).
  apply bind_Ret in Hsplit as (isl3 & Hset1 & Hsplit).
  apply bind_Ret in Hsplit as (be2 & Hbe2 & Hsplit).
  apply bind_Ret in Hsplit as (np2 & Hnp2 & Hsplit).
  apply bind_Ret in Hsplit as (end_uv & Hend & Hsplit).
  apply bind_Ret in Hsplit as (edge2 & Hedge2 & Hsplit).
  apply bind_Ret in Hsplit as (e2 & He2 & Hsplit).
  apply bind_Ret in Hsplit as (uv1 & Huv1 & Hsplit).
  destruct (shared_appends _ _ _ _ _ _ Hadd1) as (Hb1 & p1 & _ & Hp1).
  destruct (shared_appends _ _ _ _ _ _ Hadd2) as (Hb2 & p2 & _ & Hp2).
  destruct (set_corner_edge_spec _ _ _ _ Hset1) as (Hv3 & He3 & Hp3 & Hl3).
  destruct (set_corner_edge_spec _ _ _ _ Hsplit) as (Hv4 & He4 & Hp4 & Hl4).
  assert (UVIsland.borders isl2 = UVIsland.borders isl) as Hb by congruence.
  destruct (set_corner_edge_borders _ _ _ _ _ Hb Hset1) as (islA & HsetA & HbA).
  destruct (set_corner_edge_borders islA _ _ _ _ (eq_sym HbA) Hsplit)
    as (islB & HsetB & HbB).
  assert (length (UVIsland.uv_primitives isl1) - 1
          = length (UVIsland.uv_primitives isl)) as Hn1
    by (rewrite Hp1, length_app; simpl; lia).
  assert (length (UVIsland.uv_primitives isl2) - 1
          = S (length (UVIsland.uv_primitives isl))) as Hn2
    by (rewrite Hp2, Hp1, !length_app; simpl; lia).
  rewrite Hn1 in *. rewrite Hn2 in *.
  assert (UVIsland.uv_primitives isl'
          = UVIsland.uv_primitives isl ++ [p1; p2]) as Hp'.
  { rewrite Hp4, Hp3, Hp2, Hp1, <- app_assoc. done. }
  apply deref_Ret in Hnp1, Hnp2, He1, He2.
  assert (np1 = p1) as ->.
  { rewrite Hp2, Hp1, <- app_assoc in Hnp1.
    rewrite lookup_app_r, Nat.sub_diag in Hnp1 by lia. simpl in Hnp1. by simplify_eq. }
  assert (np2 = p2) as ->.
  { rewrite Hp3, Hp2, Hp1, <- app_assoc in Hnp2.
    rewrite lookup_app_r in Hnp2 by lia.
    replace (S (length (UVIsland.uv_primitives isl))
             - length (UVIsland.uv_primitives isl)) with 1 in Hnp2 by lia.
    simpl in Hnp2. by simplify_eq. }
  rewrite (corner_edge_borders _ _ _ Hb) in Hbe1.
  rewrite (corner_edge_borders _ _ _ (eq_sym HbA)) in Hbe2.
  assert (be1 = old1) as -> by congruence.
  apply bind_Ret in Hedge1 as (r1 & Hr1 & Hedge1). apply nonnull_Ret in Hedge1. subst r1.
  apply bind_Ret in Hedge2 as (r2 & Hr2 & Hedge2). apply nonnull_Ret in Hedge2. subst r2.
  destruct (get_uv_edge_uv_Some _ _ _ _ _ Hr1) as (e1' & u1 & w1 & Hin1 & He1' & Hu1 & Hw1 & Hor1).
  destruct (get_uv_edge_uv_Some _ _ _ _ _ Hr2) as (e2' & u2 & w2 & Hin2 & He2' & Hu2 & Hw2 & Hor2).
  exists center, p1, p2, old1, be2. do 4 eexists.
  split; [done|]. split; [done|]. split; [done|]. split; [exact HsetA|].
  split; [done|]. split; [exact HsetB|]. split; [done|].
  split; [|split].
  - exists edge1, (bool_decide (uv0 = center)), e1', u1, w1.
    split; [done|]. split; [by rewrite Hp', lookup_app_r, Nat.sub_diag by lia|].
    split; [done|]. split; [congruence|].
    rewrite !(uv_of_vertices isl2 isl') by congruence.
    split; [done|]. split; [done|]. destruct Hor1 as [[]|[]]; auto.
  - exists edge2, (bool_decide (uv1 = center)), e2', u2, w2.
    split; [done|]. split.
    { rewrite Hp', lookup_app_r by lia.
      by replace (S (length (UVIsland.uv_primitives isl))
                  - length (UVIsland.uv_primitives isl)) with 1 by lia. }
    split; [done|]. split; [congruence|].
    rewrite !(uv_of_vertices isl3 isl') by congruence.
    split; [done|]. split; [done|]. destruct Hor2 as [[]|[]]; auto.
  - rewrite Hl4, Hl3. unfold border_lengths. by rewrite Hb.
Qed.



End Fill.
End FillFacts.

(** ** Examples *)

Module ExampleFacts.
Import Examples.

Example tri_island_built : UVIsland_of_mesh tri 0 = Ret tri_island.
Proof. vm_compute. reflexivity. Qed.

Example tri_candidates_collected : border_edges_of_island tri_island = Ret tri_candidates.
Proof. vm_compute. reflexivity. Qed.

Example tri_borders_extracted : UVIsland_extract_borders tri_island = Ret tri_bordered.
Proof. vm_compute. reflexivity. Qed.

Example annulus_borders_extracted :
  UVIsland_extract_borders annulus_island = Ret annulus_bordered.
Proof. vm_compute. reflexivity. Qed.

Example cone_corner_selected : sharpest_border_corner cone_island = Ret (Some cone_corner).
Proof. vm_compute. reflexivity. Qed.

Example partial_corner_selected :
  sharpest_border_corner partial_island = Ret (Some partial_corner).
Proof. vm_compute. reflexivity. Qed.

(** The candidates of the triangle are balanced: each of the three UV
    coordinates is the end of two of them. *)
Lemma tri_balanced : balanced tri_island tri_candidates.
Proof.
  assert (ends tri_island (UVBorderEdge_new 0 0) = Ret ((0, 0), (1, 0))%Q) as E0
    by (vm_compute; reflexivity).
  assert (ends tri_island (UVBorderEdge_new 1 0) = Ret ((1, 0), (0, 1))%Q) as E1
    by (vm_compute; reflexivity).
  assert (ends tri_island (UVBorderEdge_new 2 0) = Ret ((0, 0), (0, 1))%Q) as E2
    by (vm_compute; reflexivity).
  split.
  - intros be Hin _. unfold tri_candidates in Hin.
    repeat (apply elem_of_cons in Hin as [->|Hin]; [eauto|]).
    by apply elem_of_nil in Hin.
  - intros p. unfold tri_candidates. cbn [degree UVBorderEdge_new UVBorderEdge.tag].
    rewrite E0, E1, E2. cbn [ends_at].
    repeat case_bool_decide; simplify_eq; done.
Qed.

(** C8, the counterexample: the candidate list that holds one edge of the
    triangle, untagged, is not a list of tagged edges, and the extraction
    does not return on it. *)
Lemma extract_open_chain_diverges :
  (∃ be, be ∈ open_candidates ∧ UVBorderEdge.tag be = false)
  ∧ UVBorder_extract_from_edges tri_island open_candidates = Diverge.
Proof.
  split.
  - exists (UVBorderEdge_new 0 0). split; [apply list_elem_of_here|done].
  - vm_compute. reflexivity.
Qed.

Lemma extract_from_edges_result_witness :
  ∃ b edges',
    UVBorder_extract_from_edges tri_island tri_candidates = Ret (Some b, edges')
    ∧ consumed tri_candidates edges' (UVBorder.edges b).
Proof.
  destruct (BorderFacts.extract_from_edges_result tri_island tri_candidates)
    as (_ & Hreturns & Hresult).
  destruct Hreturns as (b & edges' & Hb).
  - exact tri_balanced.
  - apply Exists_cons_hd. reflexivity.
  - exists b, edges'. split; [exact Hb|]. exact (proj2 (Hresult b edges' Hb)).
Defined.

Lemma extracted_borders_closed_witness :
  ∃ new, UVIsland.borders tri_bordered = UVIsland.borders tri_island ++ new
         ∧ ∀ b, b ∈ new → closed_border tri_bordered b.
Proof.
  apply (proj2 (BorderFacts.extracted_borders_closed tri_island) tri_bordered).
  vm_compute. reflexivity.
Defined.

(** C3, the counterexample: the border around the hole of the ring, as
    [extract_borders] leaves it, has the signed area -1 (its shoelace sum is
    -2): it is wound clockwise. *)
Lemma hole_border_is_clockwise :
  ∃ b, UVIsland.borders annulus_bordered !! 1 = Some b
       ∧ shoelace2 annulus_bordered b = Ret (QFloat.q (-2) 1)
       ∧ fltb f0 (QFloat.q (-2) 1) = false.
Proof. eexists. split; [reflexivity|]. split; vm_compute; reflexivity. Qed.

Lemma extract_borders_normalizes_witness :
  ∃ new, UVIsland.borders annulus_bordered = UVIsland.borders annulus_island ++ new
         ∧ ∀ b, b ∈ new →
             ∃ edges edges' e,
               UVBorder_extract_from_edges annulus_island edges = Ret (Some e, edges')
               ∧ ((first_corner_ccw annulus_island e true ∧ b = e)
                  ∨ (first_corner_ccw annulus_island e false ∧ flipped e b)).
Proof.
  apply (BorderFacts.extract_borders_normalizes annulus_island annulus_bordered).
  vm_compute. reflexivity.
Defined.

Lemma Q_ltb_lt (a b : Q) : QFloat.ltb a b = true ↔ (a < b)%Q.
Proof.
  unfold QFloat.ltb. rewrite negb_true_iff, <- not_true_iff_false, Qle_bool_iff.
  split; [apply Qnot_le_lt|apply Qlt_not_le].
Qed.

Lemma Q_ltb_ge (a b : Q) : QFloat.ltb a b = false ↔ (b <= a)%Q.
Proof. unfold QFloat.ltb. by rewrite negb_false_iff, Qle_bool_iff. Qed.

Lemma Q_ltb_trans (a b c : Q) :
  QFloat.ltb a b = true → QFloat.ltb b c = true → QFloat.ltb a c = true.
Proof. rewrite !Q_ltb_lt. apply Qlt_trans. Qed.

Lemma Q_ltb_negtrans (a b c : Q) :
  QFloat.ltb a b = false → QFloat.ltb b c = false → QFloat.ltb a c = false.
Proof. rewrite !Q_ltb_ge. intros Hab Hbc. by apply Qle_trans with b. Qed.

Lemma Q_ltb_irrefl (a : Q) : fltb a a = false.
Proof.
  simpl. unfold QFloat.ltb.
  assert (Qle_bool a a = true) as -> by (apply Qle_bool_iff, Qle_refl). done.
Qed.


Lemma iteration_marks_extended_witness :
  ∃ isl' v x',
    extend_border_iteration tri 8 unit_tiles 0 tri_prepared = Ret (Some isl')
    ∧ UVIsland.uv_vertices isl' !! v = Some x'
    ∧ UVVertex.is_extended x' = true
    ∧ UVIsland.uv_edges isl' = UVIsland.uv_edges tri_prepared
    ∧ UVIsland.uv_primitives isl' = UVIsland.uv_primitives tri_prepared
    ∧ UVIsland.borders isl' = UVIsland.borders tri_prepared.
Proof.
  destruct (SkipFacts.iteration_marks_extended tri 8 unit_tiles 0 tri_prepared)
    as [Hmarks Hskips].
  edestruct Hskips as (isl' & Hit & He & Hp & Hb & _).
  - vm_compute. reflexivity.
  - reflexivity.
  - left. reflexivity.
  - destruct (Hmarks isl' Hit) as (corner & v & uv & x' & _ & Hv & Hx).
    exists isl', v, x'. repeat split; assumption.
Defined.

Lemma sharpest_corner_is_first_minimum_witness :
  (∀ c, c ∈ cone_candidates → considered cone_island c)
  ∧ (∀ bpos pos, extendable_slot cone_island bpos pos →
                 ∃ c, c ∈ cone_candidates ∧ UVBorderCorner.second c = (bpos, pos))
  ∧ ∃ r, sharpest_border_corner cone_island = Ret r
         ∧ (r = None ↔ cone_candidates = [])
         ∧ ∀ c, r = Some c → ∃ i, first_minimum cone_candidates i c.
Proof.
  apply (CornerFacts.sharpest_corner_is_first_minimum
           Q_ltb_irrefl Q_ltb_trans Q_ltb_negtrans cone_island cone_candidates).
  - vm_compute. reflexivity.
  - intros c Hc. unfold cone_candidates in Hc.
    repeat (apply elem_of_cons in Hc as [->|Hc]; [vm_compute; reflexivity|]).
    by apply elem_of_nil in Hc.
Defined.

(** C5, the counterexample: on the cone, whose fan at the sharpest corner is
    full with nothing to add, [extend_at_vert] appends two primitives and two
    UV vertices, and no new UV vertex belongs to both primitives. *)
Lemma split_vertex_is_not_shared :
  corner_num_to_add cone 100 cone_island cone_corner = Ret (Some 0)
  ∧ extend_at_vert cone 100 cone_island cone_corner (QFloat.q 1 100) = Ret cone_extended
  ∧ ∃ p1 p2,
      UVIsland.uv_primitives cone_extended
      = UVIsland.uv_primitives cone_island ++ [p1; p2]
      ∧ length (UVIsland.uv_vertices cone_extended)
        = 2 + length (UVIsland.uv_vertices cone_island)
      ∧ ¬ ∃ v, length (UVIsland.uv_vertices cone_island) ≤ v
               ∧ v ∈ primitive_vertices cone_extended p1
               ∧ v ∈ primitive_vertices cone_extended p2.
Proof.
  split; [vm_compute; reflexivity|]. split; [vm_compute; reflexivity|].
  exists (UVPrimitive.mk 0 [8; 9; 10]), (UVPrimitive.mk 3 [0; 11; 12]).
  split; [vm_compute; reflexivity|]. split; [vm_compute; reflexivity|].
  intros (v & Hv & H1 & H2).
  change (primitive_vertices cone_extended (UVPrimitive.mk 0 [8; 9; 10]))
    with [0; 5; 5; 6; 6; 0] in H1.
  change (primitive_vertices cone_extended (UVPrimitive.mk 3 [0; 11; 12]))
    with [0; 1; 1; 7; 7; 0] in H2.
  change (length (UVIsland.uv_vertices cone_island)) with 6 in Hv.
  repeat (apply elem_of_cons in H1 as [->|H1]; [try lia|]);
    try (by apply elem_of_nil in H1).
  all: repeat (apply elem_of_cons in H2 as [?|H2]; [try lia|]);
    by apply elem_of_nil in H2.
Qed.

Lemma split_adds_two_primitives_witness :
  ∃ center p1 p2 old1 old2 new1 new2 isl1 isl2,
    UVBorderCorner_uv cone_island cone_corner fhalf (QFloat.q 1 100) = Ret center
    ∧ UVIsland.uv_primitives cone_extended
      = UVIsland.uv_primitives cone_island ++ [p1; p2]
    ∧ corner_edge cone_island (UVBorderCorner.first cone_corner) = Ret old1
    ∧ set_corner_edge cone_island (UVBorderCorner.first cone_corner) new1 = Ret isl1
    ∧ corner_edge isl1 (UVBorderCorner.second cone_corner) = Ret old2
    ∧ set_corner_edge isl1 (UVBorderCorner.second cone_corner) new2 = Ret isl2
    ∧ UVIsland.borders cone_extended = UVIsland.borders isl2
    ∧ rebound cone_extended old1 new1
        (length (UVIsland.uv_primitives cone_island)) p1 center
    ∧ rebound cone_extended old2 new2
        (S (length (UVIsland.uv_primitives cone_island))) p2 center
    ∧ border_lengths cone_extended = border_lengths cone_island.
Proof.
  apply (FillFacts.split_adds_two_primitives cone 100 cone_island cone_corner (QFloat.q 1 100)).
  - vm_compute. reflexivity.
  - vm_compute. reflexivity.
Defined.


End ExampleFacts.

(** * More properties *)

(** ** The islands mask *)

Module MaskMoreFacts.
Import Mask MaskOps MaskFacts.

Section Folds.

(** The flag of a pass is set exactly when a cell is written. *)
Lemma write_fold_flag w upd cs st :
  (foldl (write_step w upd) st cs).2
  = st.2 || bool_decide (Exists (λ c, is_Some (upd c.1 c.2)) cs).
Proof.
  revert st. induction cs as [|c cs IH]; intros st; simpl.
  - by rewrite orb_false_r.
  - rewrite IH. unfold write_step at 1. destruct (upd c.1 c.2) eqn:Hu; simpl.
    + rewrite bool_decide_eq_true_2; [by rewrite orb_true_r|].
      apply Exists_cons. left. by rewrite Hu.
    + f_equal. apply bool_decide_ext. rewrite Exists_cons, Hu.
      split; [auto|]. intros [H|H]; [by destruct H|done].
Qed.

(** A pass that writes no cell leaves the mask as it is. *)
Lemma write_fold_none w upd cs st :
  (∀ c, c ∈ cs → upd c.1 c.2 = None) → foldl (write_step w upd) st cs = st.
Proof.
  revert st. induction cs as [|c cs IH]; intros st Hno; simpl; [done|].
  unfold write_step at 2. rewrite (Hno c) by apply list_elem_of_here.
  apply IH. intros c' Hc'. apply Hno. by apply list_elem_of_further.
Qed.

(** Every value of the mask after a pass is a value of the mask before or a
    value that the pass wrote. *)
Lemma write_fold_values w upd cs st v :
  v ∈ (foldl (write_step w upd) st cs).1 →
  v ∈ st.1 ∨ ∃ c, c ∈ cs ∧ upd c.1 c.2 = Some v.
Proof.
  revert st. induction cs as [|c cs IH]; intros st Hv; simpl in *; [by left|].
  destruct (IH _ Hv) as [Hin|(c' & Hc' & Hu)].
  - unfold write_step in Hin. destruct (upd c.1 c.2) as [u|] eqn:Hu; simpl in Hin.
    + apply list_elem_of_lookup in Hin as (o & Ho).
      destruct (decide (o = c.1 * w + c.2)) as [->|Hne].
      * assert (c.1 * w + c.2 < length st.1) as Hlt.
        { apply lookup_lt_Some in Ho. by rewrite length_insert in Ho. }
        rewrite list_lookup_insert_eq in Ho by done. simplify_eq.
        right. exists c. split; [apply list_elem_of_here|done].
      * rewrite list_lookup_insert_ne in Ho by done.
        left. by eapply list_elem_of_lookup_2.
    + by left.
  - right. exists c'. split; [by apply list_elem_of_further|done].
Qed.

End Folds.

Section Passes.
Context {F : Type}.
Implicit Types t : Tile F.

Lemma set_mask_id t : set_mask t (mask t) = t.
Proof. by destruct t. Qed.

Lemma dilate_x_fold t w h :
  mask_resolution t = (w, h) →
  dilate_x t
  = (set_mask t (foldl (write_step w (upd_x w (mask t))) (mask t, false) (cells w h)).1,
     (foldl (write_step w (upd_x w (mask t))) (mask t, false) (cells w h)).2).
Proof.
  intros Hres. unfold dilate_x. rewrite Hres. simpl. rewrite grid_loop_cells.
  by rewrite (foldl_write_ext _ (write_step w (upd_x w (mask t))))
    by (intros ? []; apply dilate_x_cell_write).
Qed.

Lemma dilate_y_fold t w h :
  mask_resolution t = (w, h) →
  dilate_y t
  = (set_mask t (foldl (write_step w (upd_y w h (mask t))) (mask t, false) (cells w h)).1,
     (foldl (write_step w (upd_y w h (mask t))) (mask t, false) (cells w h)).2).
Proof.
  intros Hres. unfold dilate_y. rewrite Hres. simpl. rewrite grid_loop_cells.
  by rewrite (foldl_write_ext _ (write_step w (upd_y w h (mask t))))
    by (intros ? []; apply dilate_y_cell_write).
Qed.

Lemma upd_x_claimed w prev y x v :
  prev !! (y * w + x) = Some v → v ≠ unclaimed → upd_x w prev y x = None.
Proof.
  intros Hv Hne. unfold upd_x.
  rewrite (list_lookup_total_correct _ _ _ Hv). by rewrite bool_decide_eq_true_2.
Qed.

Lemma upd_y_claimed w h prev y x v :
  prev !! (y * w + x) = Some v → v ≠ unclaimed → upd_y w h prev y x = None.
Proof.
  intros Hv Hne. unfold upd_y.
  rewrite (list_lookup_total_correct _ _ _ Hv). by rewrite bool_decide_eq_true_2.
Qed.

Lemma keeps_claims_refl t : keeps_claims t t.
Proof. by repeat split. Qed.

Lemma keeps_claims_trans t1 t2 t3 :
  keeps_claims t1 t2 → keeps_claims t2 t3 → keeps_claims t1 t3.
Proof.
  intros (Ho1 & Hr1 & Hm1 & Hl1 & Hk1) (Ho2 & Hr2 & Hm2 & Hl2 & Hk2).
  repeat split; try congruence. intros o v Hv Hne. apply Hk2; [|done]. by apply Hk1.
Qed.

Lemma keeps_claims_well_formed t t' :
  keeps_claims t t' → well_formed t → well_formed t'.
Proof. intros (_ & _ & Hm & Hl & _). unfold well_formed. by rewrite Hm, Hl. Qed.

Lemma dilate_x_keeps t : keeps_claims t (dilate_x t).1.
Proof.
  destruct (mask_resolution t) as [w h] eqn:Hres.
  rewrite (dilate_x_fold t w h Hres). simpl.
  repeat split; try done.
  - simpl. by rewrite write_fold_length.
  - intros o v Hv Hne. simpl. rewrite write_fold_untouched; [done|].
    intros c _ <-. by eapply upd_x_claimed.
Qed.

Lemma dilate_y_keeps t : keeps_claims t (dilate_y t).1.
Proof.
  destruct (mask_resolution t) as [w h] eqn:Hres.
  rewrite (dilate_y_fold t w h Hres). simpl.
  repeat split; try done.
  - simpl. by rewrite write_fold_length.
  - intros o v Hv Hne. simpl. rewrite write_fold_untouched; [done|].
    intros c _ <-. by eapply upd_y_claimed.
Qed.

Lemma dilate_tile_loop_keeps n : ∀ t, keeps_claims t (dilate_tile_loop n t).
Proof.
  induction n as [|n IH]; intros t; simpl; [apply keeps_claims_refl|].
  pose proof (dilate_x_keeps t) as Hx. destruct (dilate_x t) as [t1 cx]. simpl in Hx.
  pose proof (dilate_y_keeps t1) as Hy. destruct (dilate_y t1) as [t2 cy]. simpl in Hy.
  assert (keeps_claims t t2) by (by eapply keeps_claims_trans).
  destruct (cx || cy); [|done]. eapply keeps_claims_trans; [done|apply IH].
Qed.

End Passes.

(** X1. Dilation never takes a cell away from an island: in every tile, a
    cell that holds an island index before [UVIslandsMask::dilate] holds the
    same index afterwards, whatever [max_iterations] is; the number of
    tiles, their offsets and resolutions and the sizes of their masks do not
    change. *)
Theorem dilate_keeps_claimed_cells {F} (tiles : list (Tile F)) (max_iterations : Z) :
  Forall2 keeps_claims tiles (dilate tiles max_iterations).
Proof.
  unfold dilate. induction tiles as [|t ts IH]; simpl; constructor; [|done].
  apply dilate_tile_loop_keeps.
Qed.

Section Rounds.
Context {F : Type}.
Implicit Types t : Tile F.

(** A pass that reports no change has not changed the tile. *)
Lemma dilate_x_unchanged t : (dilate_x t).2 = false → (dilate_x t).1 = t.
Proof.
  destruct (mask_resolution t) as [w h] eqn:Hres.
  rewrite (dilate_x_fold t w h Hres). simpl. rewrite write_fold_flag. simpl.
  intros Hflag. apply bool_decide_eq_false_1 in Hflag.
  rewrite write_fold_none; [apply set_mask_id|].
  intros c Hc. destruct (upd_x w (mask t) c.1 c.2) eqn:Hu; [|done].
  exfalso. apply Hflag. apply Exists_exists. exists c.
  split; [done|]. by rewrite Hu.
Qed.

Lemma dilate_y_unchanged t : (dilate_y t).2 = false → (dilate_y t).1 = t.
Proof.
  destruct (mask_resolution t) as [w h] eqn:Hres.
  rewrite (dilate_y_fold t w h Hres). simpl. rewrite write_fold_flag. simpl.
  intros Hflag. apply bool_decide_eq_false_1 in Hflag.
  rewrite write_fold_none; [apply set_mask_id|].
  intros c Hc. destruct (upd_y w h (mask t) c.1 c.2) eqn:Hu; [|done].
  exfalso. apply Hflag. apply Exists_exists. exists c.
  split; [done|]. by rewrite Hu.
Qed.

(** What a pass writes into a cell is an island index, and the cell was
    unclaimed. *)
Lemma upd_x_Some w prev y x v :
  upd_x w prev y x = Some v →
  prev !!! (y * w + x) = unclaimed ∧ v ≠ unclaimed
  ∧ ((x ≠ 0 ∧ v = prev !!! (y * w + x - 1))
     ∨ (x < w - 1 ∧ v = prev !!! (y * w + x + 1))).
Proof.
  unfold upd_x. intros Hu.
  destruct (decide (prev !!! (y * w + x) = unclaimed)) as [Hcur|Hcur];
    [|by rewrite bool_decide_eq_true_2 in Hu].
  rewrite bool_decide_eq_false_2 in Hu by (intros Hc; by apply Hc).
  split; [done|].
  destruct (bool_decide (x ≠ 0) && _) eqn:E1.
  - apply andb_true_iff in E1 as [Ha Hb]. apply bool_decide_eq_true_1 in Ha, Hb.
    simplify_eq. auto.
  - destruct (bool_decide (x < w - 1) && _) eqn:E2; [|done].
    apply andb_true_iff in E2 as [Ha Hb]. apply bool_decide_eq_true_1 in Ha, Hb.
    simplify_eq. auto.
Qed.

Lemma upd_y_Some w h prev y x v :
  upd_y w h prev y x = Some v →
  prev !!! (y * w + x) = unclaimed ∧ v ≠ unclaimed
  ∧ ((y ≠ 0 ∧ v = prev !!! (y * w + x - w))
     ∨ (y < h - 1 ∧ v = prev !!! (y * w + x + w))).
Proof.
  unfold upd_y. intros Hu.
  destruct (decide (prev !!! (y * w + x) = unclaimed)) as [Hcur|Hcur];
    [|by rewrite bool_decide_eq_true_2 in Hu].
  rewrite bool_decide_eq_false_2 in Hu by (intros Hc; by apply Hc).
  split; [done|].
  destruct (bool_decide (y ≠ 0) && _) eqn:E1.
  - apply andb_true_iff in E1 as [Ha Hb]. apply bool_decide_eq_true_1 in Ha, Hb.
    simplify_eq. auto.
  - destruct (bool_decide (y < h - 1) && _) eqn:E2; [|done].
    apply andb_true_iff in E2 as [Ha Hb]. apply bool_decide_eq_true_1 in Ha, Hb.
    simplify_eq. auto.
Qed.

Lemma dilate_x_changed t :
  well_formed t → (dilate_x t).2 = true → mask (dilate_x t).1 ≠ mask t.
Proof.
  unfold well_formed. destruct (mask_resolution t) as [w h] eqn:Hres. simpl.
  intros Hwf. rewrite (dilate_x_fold t w h Hres). simpl. rewrite write_fold_flag. simpl.
  intros Hflag. apply bool_decide_eq_true_1, Exists_exists in Hflag as ([y x] & Hc & Hu).
  apply elem_of_cells in Hc as [Hy Hx]. simpl in Hu.
  destruct Hu as [v Hu]. pose proof (upd_x_Some _ _ _ _ _ Hu) as (Hcur & Hv & _).
  intros Heq.
  pose proof (write_fold_cells w h (upd_x w (mask t)) (mask t) false y x Hy Hx Hwf) as Hnew.
  rewrite Heq, Hu in Hnew. simpl in Hnew.
  apply list_lookup_total_correct in Hnew. congruence.
Qed.

Lemma dilate_y_changed t :
  well_formed t → (dilate_y t).2 = true → mask (dilate_y t).1 ≠ mask t.
Proof.
  unfold well_formed. destruct (mask_resolution t) as [w h] eqn:Hres. simpl.
  intros Hwf. rewrite (dilate_y_fold t w h Hres). simpl. rewrite write_fold_flag. simpl.
  intros Hflag. apply bool_decide_eq_true_1, Exists_exists in Hflag as ([y x] & Hc & Hu).
  apply elem_of_cells in Hc as [Hy Hx]. simpl in Hu.
  destruct Hu as [v Hu]. pose proof (upd_y_Some _ _ _ _ _ _ Hu) as (Hcur & Hv & _).
  intros Heq.
  pose proof (write_fold_cells w h (upd_y w h (mask t)) (mask t) false y x Hy Hx Hwf) as Hnew.
  rewrite Heq, Hu in Hnew. simpl in Hnew.
  apply list_lookup_total_correct in Hnew. congruence.
Qed.

(** A tile that one round leaves alone is left alone by any number of
    rounds. *)
Lemma dilate_tile_loop_fixed t n :
  (dilate_x t).2 = false → (dilate_y t).2 = false → dilate_tile_loop n t = t.
Proof.
  intros Hx Hy. destruct n as [|n]; simpl; [done|].
  pose proof (dilate_x_unchanged t Hx) as Ex.
  destruct (dilate_x t) as [t1 cx]. simpl in *. subst.
  pose proof (dilate_y_unchanged t Hy) as Ey.
  destruct (dilate_y t) as [t2 cy]. simpl in *. by subst.
Qed.

Lemma dilate_tile_loop_add n m : ∀ t,
  dilate_tile_loop m (dilate_tile_loop n t) = dilate_tile_loop (n + m) t.
Proof.
  induction n as [|n IH]; intros t; simpl; [done|].
  destruct (dilate_x t) as [t1 cx] eqn:Ex.
  destruct (dilate_y t1) as [t2 cy] eqn:Ey.
  destruct (cx || cy) eqn:Hc; [apply IH|].
  apply orb_false_elim in Hc as [-> ->].
  pose proof (dilate_x_unchanged t) as Hx. rewrite Ex in Hx. simpl in Hx.
  specialize (Hx eq_refl). subst t1.
  pose proof (dilate_y_unchanged t) as Hy. rewrite Ey in Hy. simpl in Hy.
  specialize (Hy eq_refl). subst t2.
  apply dilate_tile_loop_fixed; [by rewrite Ex|by rewrite Ey].
Qed.

End Rounds.

(** X2. The value that [dilate_x] and [dilate_y] return tells whether the
    pass changed the mask: on a tile whose mask has one cell per pixel, the
    pass returns [true] exactly when the mask after the pass differs from
    the mask before. *)
Theorem dilate_pass_reports_change {F} (t : Tile F) :
  well_formed t →
  ((dilate_x t).2 = true ↔ mask (dilate_x t).1 ≠ mask t)
  ∧ ((dilate_y t).2 = true ↔ mask (dilate_y t).1 ≠ mask t).
Proof.
  intros Hwf. split; split.
  - by apply dilate_x_changed.
  - intros Hne. destruct (dilate_x t).2 eqn:E; [done|].
    exfalso. apply Hne. by rewrite dilate_x_unchanged.
  - by apply dilate_y_changed.
  - intros Hne. destruct (dilate_y t).2 eqn:E; [done|].
    exfalso. apply Hne. by rewrite dilate_y_unchanged.
Qed.

(** X3. Dilating a mask by [n] iterations and then by [m] more gives the
    mask that dilating by [n + m] iterations gives: the early exit of
    [dilate_tile] only skips rounds that would change nothing. *)
Theorem dilate_composes {F} (tiles : list (Tile F)) (n m : Z) :
  (0 ≤ n)%Z → (0 ≤ m)%Z →
  dilate (dilate tiles n) m = dilate tiles (n + m).
Proof.
  intros Hn Hm. unfold dilate. rewrite <- list_fmap_compose.
  apply list_fmap_ext. intros i t _. simpl. unfold dilate_tile.
  rewrite Z2Nat.inj_add by done. apply dilate_tile_loop_add.
Qed.

Section Values.
Context {F : Type}.
Implicit Types t : Tile F.

Lemma dilate_x_values t v :
  well_formed t → v ∈ mask (dilate_x t).1 → v ∈ mask t.
Proof.
  unfold well_formed. destruct (mask_resolution t) as [w h] eqn:Hres. simpl.
  intros Hwf. rewrite (dilate_x_fold t w h Hres). simpl.
  intros [Hin|([y x] & Hc & Hu)]%write_fold_values; [done|].
  apply elem_of_cells in Hc as [Hy Hx]. simpl in Hu.
  apply upd_x_Some in Hu as (_ & _ & [[Hx0 ->]| [Hx1 ->]]);
    apply list_elem_of_lookup_total_2; nia.
Qed.

Lemma dilate_y_values t v :
  well_formed t → v ∈ mask (dilate_y t).1 → v ∈ mask t.
Proof.
  unfold well_formed. destruct (mask_resolution t) as [w h] eqn:Hres. simpl.
  intros Hwf. rewrite (dilate_y_fold t w h Hres). simpl.
  intros [Hin|([y x] & Hc & Hu)]%write_fold_values; [done|].
  apply elem_of_cells in Hc as [Hy Hx]. simpl in Hu.
  apply upd_y_Some in Hu as (_ & _ & [[Hy0 ->]| [Hy1 ->]]);
    apply list_elem_of_lookup_total_2; nia.
Qed.

Lemma dilate_tile_loop_values n : ∀ t v,
  well_formed t → v ∈ mask (dilate_tile_loop n t) → v ∈ mask t.
Proof.
  induction n as [|n IH]; intros t v Hwf; simpl; [done|].
  pose proof (dilate_x_keeps t) as Kx. pose proof (dilate_x_values t) as Vx.
  destruct (dilate_x t) as [t1 cx]. simpl in *.
  assert (well_formed t1) as Hwf1 by (by eapply keeps_claims_well_formed).
  pose proof (dilate_y_keeps t1) as Ky. pose proof (dilate_y_values t1) as Vy.
  destruct (dilate_y t1) as [t2 cy]. simpl in *.
  assert (well_formed t2) as Hwf2 by (by eapply keeps_claims_well_formed).
  destruct (cx || cy); intros Hv; [apply IH in Hv; [|done]|]; auto.
Qed.

(** A tile without a claimed cell is left alone by both passes. *)
Lemma dilate_x_blank t :
  well_formed t → (∀ v, v ∈ mask t → v = unclaimed) → (dilate_x t).2 = false.
Proof.
  unfold well_formed. destruct (mask_resolution t) as [w h] eqn:Hres. simpl.
  intros Hwf Hall. rewrite (dilate_x_fold t w h Hres). simpl. rewrite write_fold_flag.
  simpl. apply bool_decide_eq_false_2. intros ([y x] & Hc & [v Hu])%Exists_exists.
  apply elem_of_cells in Hc as [Hy Hx]. simpl in Hu.
  apply upd_x_Some in Hu as (_ & Hv & [[Hx0 ->]| [Hx1 ->]]);
    apply Hv, Hall, list_elem_of_lookup_total_2; nia.
Qed.

Lemma dilate_y_blank t :
  well_formed t → (∀ v, v ∈ mask t → v = unclaimed) → (dilate_y t).2 = false.
Proof.
  unfold well_formed. destruct (mask_resolution t) as [w h] eqn:Hres. simpl.
  intros Hwf Hall. rewrite (dilate_y_fold t w h Hres). simpl. rewrite write_fold_flag.
  simpl. apply bool_decide_eq_false_2. intros ([y x] & Hc & [v Hu])%Exists_exists.
  apply elem_of_cells in Hc as [Hy Hx]. simpl in Hu.
  apply upd_y_Some in Hu as (_ & Hv & [[Hy0 ->]| [Hy1 ->]]);
    apply Hv, Hall, list_elem_of_lookup_total_2; nia.
Qed.

Lemma new_tile_well_formed (offset : float2 F) res : well_formed (new_tile offset res).
Proof. unfold well_formed, new_tile. simpl. by rewrite length_replicate. Qed.

Lemma new_tile_blank (offset : float2 F) res v :
  v ∈ mask (new_tile offset res) → v = unclaimed.
Proof. unfold new_tile. simpl. by intros [-> _]%elem_of_replicate. Qed.

End Values.

(** X4. Dilation invents no island: on a tile whose mask has one cell per
    pixel, every value in the mask after [dilate_tile] is a value that the
    mask held before, so an island index that claims no cell before the
    dilation claims none after it. *)
Theorem dilate_invents_no_island {F} (t : Tile F) (max_iterations v : Z) :
  well_formed t → v ∈ mask (dilate_tile t max_iterations) → v ∈ mask t.
Proof. intros Hwf. unfold dilate_tile. by apply dilate_tile_loop_values. Qed.

(** X5. One pass of [dilate_x] reads the copy of the mask that it takes on
    entry: on a tile whose mask has one cell per pixel, a claimed cell keeps
    its value, an unclaimed cell takes the value of its left neighbour in
    the same row when that one is claimed, else the value of its right
    neighbour in the same row when that one is claimed, else stays
    unclaimed; the neighbours are read as they were before the pass, so a
    claim spreads by one cell and never across the end of a row.  [dilate_y]
    does the same with the cell above and the cell below. *)
Theorem dilate_pass_reads_previous_mask {F} (t : Tile F) (w h y x : nat) :
  mask_resolution t = (w, h) → well_formed t → y < h → x < w →
  let cell (m : list Z) (y x : nat) := m !!! (y * w + x) in
  cell (mask (dilate_x t).1) y x
  = (if decide (cell (mask t) y x ≠ unclaimed) then cell (mask t) y x
     else if decide (x ≠ 0 ∧ cell (mask t) y (x - 1) ≠ unclaimed)
          then cell (mask t) y (x - 1)
     else if decide (x < w - 1 ∧ cell (mask t) y (x + 1) ≠ unclaimed)
          then cell (mask t) y (x + 1)
     else unclaimed)
  ∧ cell (mask (dilate_y t).1) y x
    = (if decide (cell (mask t) y x ≠ unclaimed) then cell (mask t) y x
       else if decide (y ≠ 0 ∧ cell (mask t) (y - 1) x ≠ unclaimed)
            then cell (mask t) (y - 1) x
       else if decide (y < h - 1 ∧ cell (mask t) (y + 1) x ≠ unclaimed)
            then cell (mask t) (y + 1) x
       else unclaimed).
Proof.
  intros Hres Hwf Hy Hx cell. unfold well_formed in Hwf. rewrite Hres in Hwf.
  simpl in Hwf. subst cell. cbv beta. split.
  - rewrite (dilate_x_lookup t w h) by done. unfold upd_x.
    rewrite <- !bool_decide_and.
    replace (y * w + x + 1) with (y * w + (x + 1)) by lia.
    destruct (decide (x = 0)) as [->|Hx0].
    + repeat case_bool_decide; repeat case_decide; simpl; try done;
        exfalso; intuition.
    + replace (y * w + x - 1) with (y * w + (x - 1)) by lia.
      repeat case_bool_decide; repeat case_decide; simpl; try done;
        exfalso; intuition.
  - rewrite (dilate_y_lookup t w h) by done. unfold upd_y.
    rewrite <- !bool_decide_and.
    replace (y * w + x + w) with ((y + 1) * w + x) by lia.
    destruct (decide (y = 0)) as [->|Hy0].
    + repeat case_bool_decide; repeat case_decide; simpl; try done;
        exfalso; intuition.
    + replace (y * w + x - w) with ((y - 1) * w + x) by nia.
      repeat case_bool_decide; repeat case_decide; simpl; try done;
        exfalso; intuition.
Qed.

(** X6. The tile that [Tile::Tile] builds has a mask of at least 256 by 256
    cells, a quarter of the tile resolution in each direction above that,
    with one cell per pixel of the mask resolution and every cell [0xffff];
    dilating it changes nothing, whatever [max_iterations] is. *)
Theorem new_tile_is_blank {F} (offset : float2 F) (res : nat * nat) (max_iterations : Z) :
  let t := new_tile offset res in
  mask_resolution t = (Nat.max (res.1 / 4) 256, Nat.max (res.2 / 4) 256)
  ∧ well_formed t
  ∧ (∀ v, v ∈ mask t → v = unclaimed)
  ∧ dilate_tile t max_iterations = t.
Proof.
  intros t. split; [|split; [|split]].
  - unfold t, new_tile, mask_resolution_from_tile_resolution.
    cbn [mask_resolution]. by rewrite !Nat.shiftr_div_pow2.
  - apply new_tile_well_formed.
  - apply new_tile_blank.
  - unfold dilate_tile. apply dilate_tile_loop_fixed.
    + apply dilate_x_blank; [apply new_tile_well_formed|apply new_tile_blank].
    + apply dilate_y_blank; [apply new_tile_well_formed|apply new_tile_blank].
Qed.

End MaskMoreFacts.

Module LookupFacts.
Import Mask MaskOps.

Section Lookups.
Context {F : Type} {O : FloatOps F}.

Lemma find_tile_Some (tiles : list (Tile F)) uv t :
  find_tile tiles uv = Some t ↔
  ∃ i, tiles !! i = Some t ∧ contains t uv = true
       ∧ ∀ j t', tiles !! j = Some t' → j < i → contains t' uv = false.
Proof.
  unfold find_tile. destruct (list_find _ tiles) as [[i t0]|] eqn:E; simpl.
  - apply list_find_Some in E as (Hi & Hc & Hbefore). split.
    + intros [= <-]. exists i. split; [done|]. split; [done|].
      intros j t' Hj Hlt. specialize (Hbefore j t' Hj Hlt). by destruct (contains t' uv).
    + intros (i' & Hi' & Hc' & Hbefore'). f_equal.
      destruct (Nat.lt_trichotomy i i') as [Hlt|[->|Hlt]].
      * specialize (Hbefore' i t0 Hi Hlt). congruence.
      * congruence.
      * specialize (Hbefore i' t Hi' Hlt). congruence.
  - split; [done|]. intros (i & Hi & Hc & _).
    apply list_find_None in E. rewrite Forall_forall in E.
    exfalso. apply (E t); [by eapply list_elem_of_lookup_2|done].
Qed.

End Lookups.

(** X7. [UVIslandsMask::is_masked] reads one tile only, the first one of the
    mask that contains the UV coordinate: the result is true exactly when
    that tile exists and its [Tile::is_masked] is true.  A tile that comes
    later in the mask and overlaps the first is never looked at. *)
Theorem mask_is_masked_first_tile {F} {O : FloatOps F}
    (tiles : list (Tile F)) (island_index : Z) (uv : float2 F) :
  mask_is_masked tiles island_index uv = true ↔
  ∃ i t, tiles !! i = Some t
         ∧ contains t uv = true
         ∧ (∀ j t', tiles !! j = Some t' → j < i → contains t' uv = false)
         ∧ is_masked t island_index uv = true.
Proof.
  unfold mask_is_masked. destruct (find_tile tiles uv) as [t|] eqn:E.
  - pose proof (proj1 (find_tile_Some tiles uv t) E) as (i & Hi & Hc & Hb). split.
    + intros Hm. by exists i, t.
    + intros (i' & t' & Hi' & Hc' & Hb' & Hm).
      assert (find_tile tiles uv = Some t') as E'
        by (apply find_tile_Some; by exists i').
      congruence.
  - split; [done|]. intros (i & t & Hi & Hc & Hb & _).
    assert (find_tile tiles uv = Some t) by (apply find_tile_Some; by exists i).
    congruence.
Qed.

End LookupFacts.

(** ** The mesh primitives and the fan *)

Module MeshFacts.

Section Mesh.
Context {F : Type} {O : FloatOps F}.
Variable mesh : MeshData.t F.

Lemma has_vertex_cases (prim : MeshPrimitive.t F) v :
  has_vertex prim v = true →
  ∃ i x, i < 3 ∧ MeshPrimitive.vertices prim !! i = Some x ∧ MeshUVVert.vertex x = v.
Proof.
  unfold has_vertex. intros H. apply bool_decide_eq_true_1, Exists_exists in H
    as (x & Hin & Hv).
  apply list_elem_of_lookup in Hin as (i & Hi).
  apply lookup_take_Some in Hi as [Hi Hlt]. by exists i, x.
Qed.

End Mesh.

(** X8. [get_uv_vert] returns the first [MeshUVVert] of the primitive that is
    at the mesh vertex; when the primitive has no such vertex (where the
    debug build asserts) it returns [vertices[0]], a vertex of another mesh
    vertex.  Whenever [has_vertex] holds the result is at the mesh vertex
    asked for, and the only primitive for which the function has no result
    is one without vertices. *)
Theorem get_uv_vert_hit_or_first {F} (prim : MeshPrimitive.t F) (v : nat) :
  (∀ x, get_uv_vert prim v = Ret x →
        (MeshUVVert.vertex x = v
         ∧ ∃ i, MeshPrimitive.vertices prim !! i = Some x
                ∧ ∀ j y, MeshPrimitive.vertices prim !! j = Some y → j < i →
                         MeshUVVert.vertex y ≠ v)
        ∨ ((∀ y, y ∈ MeshPrimitive.vertices prim → MeshUVVert.vertex y ≠ v)
           ∧ MeshPrimitive.vertices prim !! 0 = Some x))
  ∧ (has_vertex prim v = true →
     ∃ x, get_uv_vert prim v = Ret x ∧ MeshUVVert.vertex x = v)
  ∧ (get_uv_vert prim v = UB ↔ MeshPrimitive.vertices prim = []).
Proof.
  unfold get_uv_vert.
  destruct (list_find _ (MeshPrimitive.vertices prim)) as [[i x0]|] eqn:E.
  - apply list_find_Some in E as (Hi & Hv & Hbefore). split; [|split].
    + intros x [= <-]. left. split; [done|]. by exists i.
    + intros _. by exists x0.
    + split; [done|]. intros Hnil. by rewrite Hnil in Hi.
  - apply list_find_None in E. rewrite Forall_forall in E. split; [|split].
    + intros x Hx. right. split; [done|]. by apply deref_Ret.
    + intros (i & x & _ & Hi & Hv)%has_vertex_cases.
      exfalso. apply (E x); [by eapply list_elem_of_lookup_2|done].
    + unfold deref. destruct (MeshPrimitive.vertices prim) as [|y ys]; simpl; by split.
Qed.

End MeshFacts.

Module InnerEdgeFacts.

(** X9. The constructor of [InnerEdge] keeps the primitive, clears [found]
    and orders the vertices by a rotation of (0, 1, 2); when the primitive
    has the given mesh vertex, the rotation starts at it:
    [primitive->vertices[vert_order[0]].vertex] is the vertex. *)
Theorem inner_edge_starts_at_vertex {F} (mesh : MeshData.t F)
    (primitive vertex : nat) (prim : MeshPrimitive.t F) (ie : InnerEdge.t F) :
  MeshData.primitives mesh !! primitive = Some prim →
  InnerEdge_new mesh primitive vertex = Ret ie →
  InnerEdge.primitive ie = primitive
  ∧ InnerEdge.found ie = false
  ∧ InnerEdge.vert_order ie ∈ [(0, 1, 2); (1, 2, 0); (2, 0, 1)]
  ∧ (has_vertex prim vertex = true → inner_edge_vertex mesh ie 0 = Ret vertex).
Proof.
  intros Hprim H. unfold InnerEdge_new in H.
  rewrite (proj2 (deref_Ret _ _ _) Hprim) in H. simpl in H.
  apply bind_Ret in H as (v1 & Hv1 & H). apply deref_Ret in Hv1.
  unfold inner_edge_vertex.
  case_bool_decide as E1.
  { injection H as <-. simpl. repeat split; [repeat constructor|].
    intros _. rewrite (proj2 (deref_Ret _ _ _) Hprim). simpl.
    by rewrite (proj2 (deref_Ret _ _ _) Hv1); simpl; rewrite E1. }
  apply bind_Ret in H as (v2 & Hv2 & H). apply deref_Ret in Hv2.
  case_bool_decide as E2.
  { injection H as <-. simpl. repeat split; [repeat constructor|].
    intros _. rewrite (proj2 (deref_Ret _ _ _) Hprim). simpl.
    by rewrite (proj2 (deref_Ret _ _ _) Hv2); simpl; rewrite E2. }
  injection H as <-. simpl. repeat split; [repeat constructor|].
  intros (i & x & Hlt & Hi & Hx)%MeshFacts.has_vertex_cases.
  rewrite (proj2 (deref_Ret _ _ _) Hprim). simpl.
  destruct i as [|[|[|i]]]; [|congruence|congruence|lia].
  by rewrite (proj2 (deref_Ret _ _ _) Hi); simpl; rewrite Hx.
Qed.

End InnerEdgeFacts.

(** ** The search for a fill primitive *)

Module FindFillFacts.

Section Find.
Context {F : Type} {O : FloatOps F}.
Variable mesh : MeshData.t F.

Implicit Types isl : UVIsland.t F.

(** The primitive has the three mesh vertices. *)
Local Abbreviation has_all prim v1 v2 v3 :=
  (has_vertex prim v1 && has_vertex prim v2 && has_vertex prim v3).

Lemma find_fill_in_spec v1 v2 v3 primitives r :
  find_fill_in mesh v1 v2 v3 primitives = Ret r →
  match r with
  | Some p => p ∈ primitives
              ∧ ∃ prim, MeshData.primitives mesh !! p = Some prim
                        ∧ has_all prim v1 v2 v3 = true
  | None => ∀ p prim, p ∈ primitives → MeshData.primitives mesh !! p = Some prim →
                      has_all prim v1 v2 v3 = false
  end.
Proof.
  revert r. induction primitives as [|q rest IH]; intros r H; simpl in H.
  - simplify_eq. intros p prim Hp. by apply elem_of_nil in Hp.
  - apply bind_Ret in H as (prim & Hq & H). apply deref_Ret in Hq.
    destruct (has_all prim v1 v2 v3) eqn:E.
    + simplify_eq. split; [apply list_elem_of_here|]. by exists prim.
    + specialize (IH _ H). destruct r as [p|].
      * destruct IH as [Hin Hp]. split; [by apply list_elem_of_further|done].
      * intros p prim' [->|Hp]%elem_of_cons Hprim; [congruence|by eapply IH].
Qed.

Lemma find_fill_over_spec v1 v2 v3 edges r :
  find_fill_over mesh v1 v2 v3 edges = Ret r →
  match r with
  | Some p => ∃ ei me prim,
      ei ∈ edges ∧ MeshData.edges mesh !! ei = Some me
      ∧ p ∈ MeshEdge.primitives me
      ∧ MeshData.primitives mesh !! p = Some prim
      ∧ has_all prim v1 v2 v3 = true
  | None => ∀ ei me p prim,
      ei ∈ edges → MeshData.edges mesh !! ei = Some me →
      p ∈ MeshEdge.primitives me → MeshData.primitives mesh !! p = Some prim →
      has_all prim v1 v2 v3 = false
  end.
Proof.
  revert r. induction edges as [|e rest IH]; intros r H; simpl in H.
  - simplify_eq. intros ei me p prim Hp. by apply elem_of_nil in Hp.
  - apply bind_Ret in H as (me & He & H). apply deref_Ret in He.
    apply bind_Ret in H as (r0 & Hin & H).
    pose proof (find_fill_in_spec _ _ _ _ _ Hin) as Hr0.
    destruct r0 as [p|].
    + simplify_eq. destruct Hr0 as (Hp & prim & Hprim & Hall).
      exists e, me, prim. split; [apply list_elem_of_here|done].
    + specialize (IH _ H). destruct r as [p|].
      * destruct IH as (ei & me' & prim & Hei & IH).
        exists ei, me', prim. split; [by apply list_elem_of_further|done].
      * intros ei me' p prim [->|Hei]%elem_of_cons Hme Hp Hprim.
        -- assert (me' = me) as -> by congruence. by eapply Hr0.
        -- by eapply IH.
Qed.

(** The primitive [p] fills the corner: it lies on the mesh edge [me], which
    has the mesh vertices of [corner.first->edge], and its vertex opposite
    that edge is the mesh vertex where [corner.second] ends. *)
Local Abbreviation fills_corner isl first second me p :=
  (∃ fe c1 target prim other,
     UVIsland.uv_edges isl !! UVBorderEdge.edge first = Some fe
     ∧ UVEdge_has_same_vertices isl fe me = Ret true
     ∧ UVBorderEdge_get_uv_vertex isl second 1 = Ret c1
     ∧ mesh_vertex_of isl c1 = Ret target
     ∧ p ∈ MeshEdge.primitives me
     ∧ MeshData.primitives mesh !! p = Some prim
     ∧ MeshPrimitive_get_other_uv_vertex prim (MeshEdge.vert1 me) (MeshEdge.vert2 me)
       = Some other
     ∧ MeshUVVert.vertex other = target).

Lemma find_fill_corner_in_spec me target primitives p :
  find_fill_corner_in mesh me target primitives = Ret (Some p) →
  p ∈ primitives
  ∧ ∃ prim other,
      MeshData.primitives mesh !! p = Some prim
      ∧ MeshPrimitive_get_other_uv_vertex prim (MeshEdge.vert1 me) (MeshEdge.vert2 me)
        = Some other
      ∧ MeshUVVert.vertex other = target.
Proof.
  induction primitives as [|q rest IH]; intros H; simpl in H; [done|].
  apply bind_Ret in H as (prim & Hq & H). apply deref_Ret in Hq.
  apply bind_Ret in H as (other & Ho & H). apply nonnull_Ret in Ho.
  case_bool_decide as E.
  - simplify_eq. split; [apply list_elem_of_here|]. by exists prim, other.
  - destruct (IH H) as [Hin Hrest]. split; [by apply list_elem_of_further|done].
Qed.

Lemma find_fill_corner_over_spec isl first second edges p :
  find_fill_corner_over mesh isl first second edges = Ret (Some p) →
  ∃ ei me, ei ∈ edges ∧ MeshData.edges mesh !! ei = Some me
           ∧ fills_corner isl first second me p.
Proof.
  induction edges as [|e rest IH]; intros H; simpl in H; [done|].
  apply bind_Ret in H as (me & He & H). apply deref_Ret in He.
  apply bind_Ret in H as (fe & Hfe & H). apply deref_Ret in Hfe.
  apply bind_Ret in H as (same & Hsame & H).
  assert (∀ m, find_fill_corner_over mesh isl first second rest = Ret (Some m) →
               m = p →
               ∃ ei me, ei ∈ e :: rest ∧ MeshData.edges mesh !! ei = Some me
                        ∧ fills_corner isl first second me p) as Hrest.
  { intros m Hm ->. destruct (IH Hm) as (ei & me' & Hei & Hrest).
    exists ei, me'. split; [by apply list_elem_of_further|done]. }
  destruct same; [|by eapply Hrest].
  destruct (MeshEdge.primitives me) as [|q qs] eqn:Eprims; [by eapply Hrest|].
  apply bind_Ret in H as (c1 & Hc1 & H). apply bind_Ret in H as (target & Ht & H).
  apply bind_Ret in H as (r & Hr & H). destruct r as [m|]; [|by eapply Hrest].
  simplify_eq. destruct (find_fill_corner_in_spec _ _ _ _ Hr)
    as (Hin & prim & other & Hprim & Hother & Hv).
  exists e, me. split; [apply list_elem_of_here|]. split; [done|].
  exists fe, c1, target, prim, other.
  rewrite Eprims. repeat (split; [done|]). done.
Qed.

End Find.

(** X11. [find_fill_border(corner)] returns null when the first border edge
    of the corner does not end in the UV vertex where the second starts,
    and when the first starts in the UV vertex where the second ends (the
    two edges are one edge, walked both ways).  A primitive that it returns
    lies on a mesh edge of the shared vertex that has the mesh vertices of
    [corner.first->edge], and its vertex opposite that edge is the mesh
    vertex where [corner.second] ends. *)
Theorem find_fill_border_corner_result {F} (mesh : MeshData.t F)
    (isl : UVIsland.t F) (corner : UVBorderCorner.t F) (r : option nat) :
  find_fill_border_corner mesh isl corner = Ret r →
  ∃ first second a c,
    corner_edge isl (UVBorderCorner.first corner) = Ret first
    ∧ corner_edge isl (UVBorderCorner.second corner) = Ret second
    ∧ UVBorderEdge_get_uv_vertex isl first 1 = Ret a
    ∧ UVBorderEdge_get_uv_vertex isl second 0 = Ret c
    ∧ ((a ≠ c ∧ r = None)
       ∨ (a = c ∧ ∃ a0 c1,
            UVBorderEdge_get_uv_vertex isl first 0 = Ret a0
            ∧ UVBorderEdge_get_uv_vertex isl second 1 = Ret c1
            ∧ ((a0 = c1 ∧ r = None)
               ∨ (a0 ≠ c1 ∧ ∀ p, r = Some p →
                    ∃ sv mv ei me fe target prim other,
                      mesh_vertex_of isl c = Ret sv
                      ∧ MeshData.vertices mesh !! sv = Some mv
                      ∧ ei ∈ MeshVertex.edges mv
                      ∧ MeshData.edges mesh !! ei = Some me
                      ∧ UVIsland.uv_edges isl !! UVBorderEdge.edge first = Some fe
                      ∧ UVEdge_has_same_vertices isl fe me = Ret true
                      ∧ mesh_vertex_of isl c1 = Ret target
                      ∧ p ∈ MeshEdge.primitives me
                      ∧ MeshData.primitives mesh !! p = Some prim
                      ∧ MeshPrimitive_get_other_uv_vertex prim
                          (MeshEdge.vert1 me) (MeshEdge.vert2 me) = Some other
                      ∧ MeshUVVert.vertex other = target)))).
Proof.
  unfold find_fill_border_corner. intros H.
  apply bind_Ret in H as (first & Hfirst & H).
  apply bind_Ret in H as (second & Hsecond & H).
  apply bind_Ret in H as (a & Ha & H). apply bind_Ret in H as (c & Hc & H).
  exists first, second, a, c. repeat (split; [done|]).
  case_bool_decide as Eac; [left; by simplify_eq|].
  right. split; [done|].
  apply bind_Ret in H as (a0 & Ha0 & H). apply bind_Ret in H as (c1 & Hc1 & H).
  exists a0, c1. repeat (split; [done|]).
  case_bool_decide as Eac1; [left; by simplify_eq|].
  right. split; [done|]. intros p ->.
  apply bind_Ret in H as (c' & Hc' & H). assert (c' = c) as -> by congruence.
  apply bind_Ret in H as (sv & Hsv & H).
  apply bind_Ret in H as (mv & Hmv & H). apply deref_Ret in Hmv.
  destruct (find_fill_corner_over_spec _ _ _ _ _ _ H)
    as (ei & me & Hei & Hme & fe & c1' & target & prim & other
        & Hfe & Hsame & Hc1' & Ht & Hp & Hprim & Hother & Hv).
  assert (c1' = c1) as -> by congruence.
  by exists sv, mv, ei, me, fe, target, prim, other.
Qed.

(** X10. [find_fill_border(v1, v2, v3)] returns a primitive that has the
    three mesh vertices and lies on an edge of [v1]; it returns null only
    when no primitive on an edge of [v1] has the three vertices. *)
Theorem find_fill_border_finds {F} (mesh : MeshData.t F) (v1 v2 v3 : nat)
    (r : option nat) :
  find_fill_border_verts mesh v1 v2 v3 = Ret r →
  ∃ mv, MeshData.vertices mesh !! v1 = Some mv ∧
    match r with
    | Some p => ∃ ei me prim,
        ei ∈ MeshVertex.edges mv ∧ MeshData.edges mesh !! ei = Some me
        ∧ p ∈ MeshEdge.primitives me
        ∧ MeshData.primitives mesh !! p = Some prim
        ∧ has_vertex prim v1 = true ∧ has_vertex prim v2 = true
        ∧ has_vertex prim v3 = true
    | None => ∀ ei me p prim,
        ei ∈ MeshVertex.edges mv → MeshData.edges mesh !! ei = Some me →
        p ∈ MeshEdge.primitives me → MeshData.primitives mesh !! p = Some prim →
        ¬ (has_vertex prim v1 = true ∧ has_vertex prim v2 = true
           ∧ has_vertex prim v3 = true)
    end.
Proof.
  unfold find_fill_border_verts. intros H.
  apply bind_Ret in H as (mv & Hmv & H). apply deref_Ret in Hmv.
  exists mv. split; [done|].
  pose proof (find_fill_over_spec _ _ _ _ _ _ H) as Hr. destruct r as [p|].
  - destruct Hr as (ei & me & prim & Hei & Hme & Hp & Hprim & Hall).
    apply andb_true_iff in Hall as [[H1 H2]%andb_true_iff H3].
    by exists ei, me, prim.
  - intros ei me p prim Hei Hme Hp Hprim (H1 & H2 & H3).
    specialize (Hr ei me p prim Hei Hme Hp Hprim). by rewrite H1, H2, H3 in Hr.
Qed.

End FindFillFacts.

(** ** What the store operations keep *)

Module StoreFacts.

Section Keeps.
Context {F : Type} {O : FloatOps F}.
Variable mesh : MeshData.t F.

Implicit Types isl : UVIsland.t F.

Lemma keeps_store_refl isl : keeps_store isl isl.
Proof. split; eauto 6. Qed.

Lemma keeps_store_trans isl1 isl2 isl3 :
  keeps_store isl1 isl2 → keeps_store isl2 isl3 → keeps_store isl1 isl3.
Proof.
  intros [Hv1 He1] [Hv2 He2]. split.
  - intros v x Hx. destruct (Hv1 v x Hx) as (x1 & Hx1 & Hu1 & Hm1).
    destruct (Hv2 v x1 Hx1) as (x2 & Hx2 & Hu2 & Hm2).
    exists x2. split; [done|]. split; congruence.
  - intros i e Hi. destruct (He1 i e Hi) as (e1 & Hi1 & Hvs1 & Hp1).
    destruct (He2 i e1 Hi1) as (e2 & Hi2 & Hvs2 & Hp2).
    exists e2. split; [done|]. split; [congruence|]. auto.
Qed.

(** An island with the same two stores. *)
Lemma keeps_store_same isl isl' :
  UVIsland.uv_vertices isl' = UVIsland.uv_vertices isl →
  UVIsland.uv_edges isl' = UVIsland.uv_edges isl →
  keeps_store isl isl'.
Proof. intros Hv He. split; rewrite ?Hv, ?He; eauto 6. Qed.

Lemma keeps_vertex isl t isl1 p :
  UVIsland_lookup_or_create_vertex isl t = (isl1, p) → keeps_store isl isl1.
Proof.
  unfold UVIsland_lookup_or_create_vertex.
  destruct (list_find _ _); intros H; simplify_eq; [apply keeps_store_refl|].
  split; simpl; [|eauto 6]. intros v x Hx. exists x.
  by rewrite lookup_app_l by (by eapply lookup_lt_Some).
Qed.

Lemma keeps_edge isl vertices isl1 p :
  UVIsland_lookup_or_create_edge isl vertices = (isl1, p) → keeps_store isl isl1.
Proof.
  unfold UVIsland_lookup_or_create_edge.
  destruct (list_find _ _); intros H; simplify_eq; [apply keeps_store_refl|].
  split; simpl; [eauto 6|]. intros i e Hi. exists e.
  by rewrite lookup_app_l by (by eapply lookup_lt_Some).
Qed.

Lemma keeps_register isl v ei isl1 :
  register_edge_with_vertex isl v ei = Ret isl1 → keeps_store isl isl1.
Proof.
  unfold register_edge_with_vertex. intros H. res_inv. subst.
  split; simpl; [|eauto 6]. intros v' x Hx. destruct (decide (v' = v)) as [->|Hne].
  - eexists. rewrite list_lookup_insert_eq by (by eapply lookup_lt_Some).
    split; [done|]. by simplify_eq.
  - exists x. by rewrite list_lookup_insert_ne.
Qed.

Lemma keeps_edge_vertices isl ei isl1 :
  UVEdge_append_to_uv_vertices isl ei = Ret isl1 → keeps_store isl isl1.
Proof.
  unfold UVEdge_append_to_uv_vertices. intros H. res_inv.
  eapply keeps_store_trans; by eapply keeps_register.
Qed.

(** The edge [ei] gets more primitives. *)
Lemma keeps_set_edge isl ei e ps :
  UVIsland.uv_edges isl !! ei = Some e →
  (∀ p, p ∈ UVEdge.uv_primitives e → p ∈ ps) →
  keeps_store isl
    (set_uv_edges isl (<[ei := UVEdge.mk (UVEdge.vertices e) ps]> (UVIsland.uv_edges isl))).
Proof.
  intros He Hps. split; simpl; [eauto 6|].
  intros i e' Hi. destruct (decide (i = ei)) as [->|Hne].
  - eexists. rewrite list_lookup_insert_eq by (by eapply lookup_lt_Some).
    split; [done|]. by simplify_eq.
  - exists e'. by rewrite list_lookup_insert_ne.
Qed.

Lemma elem_of_append_non_duplicates l x y :
  y ∈ append_non_duplicates l x ↔ y ∈ l ∨ y = x.
Proof.
  unfold append_non_duplicates. case_bool_decide.
  - split; [auto|]. by intros [?| ->].
  - rewrite elem_of_app, list_elem_of_singleton. done.
Qed.

Lemma keeps_prim_edges isl p this isl1 :
  UVPrimitive_append_to_uv_edges isl p this = Ret isl1 → keeps_store isl isl1.
Proof.
  unfold UVPrimitive_append_to_uv_edges.
  apply (foldM_ind (λ s, keeps_store isl s)); [|apply keeps_store_refl].
  intros s x s' _ Hs H. res_inv. subst. eapply keeps_store_trans; [done|].
  apply keeps_set_edge; [done|]. intros q Hq. apply elem_of_append_non_duplicates. auto.
Qed.

Lemma keeps_prim_vertices isl p isl1 :
  UVPrimitive_append_to_uv_vertices isl p = Ret isl1 → keeps_store isl isl1.
Proof.
  unfold UVPrimitive_append_to_uv_vertices.
  apply (foldM_ind (λ s, keeps_store isl s)); [|apply keeps_store_refl].
  intros s x s' _ Hs H. eapply keeps_store_trans; [done|]. by eapply keeps_edge_vertices.
Qed.

Lemma keeps_vertex_at isl isl' v x :
  keeps_store isl isl' → UVIsland.uv_vertices isl !! v = Some x →
  ∃ x', UVIsland.uv_vertices isl' !! v = Some x'
        ∧ UVVertex.uv x' = UVVertex.uv x ∧ UVVertex.vertex x' = UVVertex.vertex x.
Proof. intros [Hv _]. apply Hv. Qed.

Lemma edge_of_primitive_keeps isl isl' prim this mei ei :
  keeps_store isl isl' →
  edge_of_primitive mesh isl prim this mei ei →
  edge_of_primitive mesh isl' prim this mei ei.
Proof.
  intros [Hv He] (me & e & va & vb & xa & xb & Hme & Hva & Hvb & Hei & Hends
                  & Ha1 & Ha2 & Hb1 & Hb2 & Hthis).
  destruct (He _ _ Hei) as (e' & Hei' & Hvs & Hps).
  assert (∃ xa' xb',
            ((UVIsland.uv_vertices isl' !! (UVEdge.vertices e').1 = Some xa'
              ∧ UVIsland.uv_vertices isl' !! (UVEdge.vertices e').2 = Some xb')
             ∨ (UVIsland.uv_vertices isl' !! (UVEdge.vertices e').2 = Some xa'
                ∧ UVIsland.uv_vertices isl' !! (UVEdge.vertices e').1 = Some xb'))
            ∧ UVVertex.vertex xa' = UVVertex.vertex xa ∧ UVVertex.uv xa' = UVVertex.uv xa
            ∧ UVVertex.vertex xb' = UVVertex.vertex xb ∧ UVVertex.uv xb' = UVVertex.uv xb)
    as (xa' & xb' & Hends' & Ea1 & Ea2 & Eb1 & Eb2).
  { rewrite Hvs. destruct Hends as [[H1 H2]|[H1 H2]];
      destruct (Hv _ _ H1) as (y1 & Hy1 & Hu1 & Hm1);
      destruct (Hv _ _ H2) as (y2 & Hy2 & Hu2 & Hm2).
    - exists y1, y2. split; [by left|done].
    - exists y1, y2. split; [by right|done]. }
  exists me, e', va, vb, xa', xb'.
  repeat (split; [first [done|congruence]|]). auto.
Qed.

(** The body of the loop of [add_primitive], on an island whose last
    primitive is the one being built. *)
Lemma add_primitive_step (prim : MeshPrimitive.t F) (primitive : nat) ps es s mei s1 :
  UVIsland.uv_primitives s = ps ++ [UVPrimitive.mk primitive es] →
  (me ← deref (MeshData.edges mesh) mei;
   v1 ← get_uv_vert prim (MeshEdge.vert1 me);
   v2 ← get_uv_vert prim (MeshEdge.vert2 me);
   let '(isl1, p1) := UVIsland_lookup_or_create_vertex s
                        (UVVertex_new (MeshUVVert.vertex v1) (MeshUVVert.uv v1)) in
   let '(isl2, p2) := UVIsland_lookup_or_create_vertex isl1
                        (UVVertex_new (MeshUVVert.vertex v2) (MeshUVVert.uv v2)) in
   let '(isl3, uv_edge) := UVIsland_lookup_or_create_edge isl2 (p1, p2) in
   up ← deref (UVIsland.uv_primitives isl3) (length ps);
   let isl4 := set_uv_primitives isl3
                 (<[length ps :=
                      UVPrimitive.mk (UVPrimitive.primitive up)
                        (UVPrimitive.edges up ++ [uv_edge])]>
                    (UVIsland.uv_primitives isl3)) in
   isl5 ← UVEdge_append_to_uv_vertices isl4 uv_edge;
   e ← deref (UVIsland.uv_edges isl5) uv_edge;
   Ret (set_uv_edges isl5
          (<[uv_edge := UVEdge.mk (UVEdge.vertices e)
                          (UVEdge.uv_primitives e ++ [length ps])]>
             (UVIsland.uv_edges isl5)))) = Ret s1 →
  UVIsland.borders s1 = UVIsland.borders s
  ∧ keeps_store s s1
  ∧ ∃ ei, UVIsland.uv_primitives s1 = ps ++ [UVPrimitive.mk primitive (es ++ [ei])]
          ∧ edge_of_primitive mesh s1 prim (length ps) mei ei.
Proof.
  intros Hps H.
  apply bind_Ret in H as (me & Hme & H). apply deref_Ret in Hme.
  apply bind_Ret in H as (v1 & Hv1 & H). apply bind_Ret in H as (v2 & Hv2 & H).
  destruct (UVIsland_lookup_or_create_vertex s _) as [isl1 p1] eqn:E1.
  destruct (UVIsland_lookup_or_create_vertex isl1 _) as [isl2 p2] eqn:E2.
  destruct (UVIsland_lookup_or_create_edge isl2 _) as [isl3 uv_edge] eqn:E3.
  apply bind_Ret in H as (up & Hup & H). apply deref_Ret in Hup.
  apply bind_Ret in H as (isl5 & H5 & H).
  apply bind_Ret in H as (e & He & H). apply deref_Ret in He.
  injection H as <-.
  destruct (FillFacts.frame_vertex _ _ _ _ E1) as [Hb1 Hp1].
  destruct (FillFacts.frame_vertex _ _ _ _ E2) as [Hb2 Hp2].
  destruct (FillFacts.frame_edge _ _ _ _ E3) as [Hb3 Hp3].
  destruct (FillFacts.frame_edge_vertices _ _ _ H5) as [Hb5 Hp5].
  destruct (FillFacts.grows_vertex _ _ _ _ _ E1) as [_ (x1 & Hx1 & Hu1 & Hm1)].
  destruct (FillFacts.grows_vertex _ _ _ _ _ E2) as [_ (x2 & Hx2 & Hu2 & Hm2)].
  destruct (FillFacts.grows_edge _ _ _ _ E3) as [_ (e3 & He3 & Hvs3)].
  pose proof (keeps_vertex _ _ _ _ E1) as K1.
  pose proof (keeps_vertex _ _ _ _ E2) as K2.
  pose proof (keeps_edge _ _ _ _ E3) as K3.
  pose proof (keeps_edge_vertices _ _ _ H5) as K5.
  set (isl4 := set_uv_primitives isl3 _) in *.
  assert (keeps_store isl3 isl4) as K4 by (by apply keeps_store_same).
  assert (UVIsland.borders isl4 = UVIsland.borders isl3) as Hb4 by done.
  set (s1 := set_uv_edges isl5 _).
  assert (keeps_store isl5 s1) as K6.
  { apply keeps_set_edge; [done|]. intros q Hq. apply elem_of_app. by left. }
  assert (keeps_store isl2 s1) as K2s by eauto using keeps_store_trans.
  assert (keeps_store isl1 s1) as K1s by eauto using keeps_store_trans.
  assert (UVIsland.uv_primitives isl3 = ps ++ [UVPrimitive.mk primitive es]) as Hps3
    by congruence.
  rewrite Hps3, lookup_app_r, Nat.sub_diag in Hup by lia. simpl in Hup.
  injection Hup as <-.
  split; [change (UVIsland.borders s1) with (UVIsland.borders isl5); congruence|].
  split; [eauto using keeps_store_trans|].
  exists uv_edge. split.
  { simpl. rewrite Hp5. unfold isl4. simpl. rewrite Hps3.
    rewrite insert_app_r_alt, Nat.sub_diag by lia. done. }
  (* the vertices of the edge *)
  destruct K4 as [_ K4e]. destruct (K4e _ _ He3) as (e4 & He4 & Hvs4 & _).
  destruct K5 as [_ K5e]. destruct (K5e _ _ He4) as (e5 & He5 & Hvs5 & _).
  assert (e5 = e) as -> by congruence.
  destruct (keeps_vertex_at _ _ _ _ K1s Hx1) as (y1 & Hy1 & Hyu1 & Hym1).
  destruct (keeps_vertex_at _ _ _ _ K2s Hx2) as (y2 & Hy2 & Hyu2 & Hym2).
  exists me, (UVEdge.mk (UVEdge.vertices e) (UVEdge.uv_primitives e ++ [length ps])),
    v1, v2, y1, y2.
  split; [done|]. split; [done|]. split; [done|].
  split. { unfold s1. simpl. apply list_lookup_insert_eq. by eapply lookup_lt_Some. }
  split.
  { simpl. rewrite Hvs5, Hvs4. destruct Hvs3 as [-> | ->]; simpl; [by left|by right]. }
  simpl in *. repeat (split; [congruence|]).
  apply elem_of_app. right. apply list_elem_of_here.
Qed.

Lemma add_primitive_spec isl isl' (primitive : nat) :
  add_primitive mesh isl primitive = Ret isl' →
  ∃ prim,
    MeshData.primitives mesh !! primitive = Some prim
    ∧ UVIsland.borders isl' = UVIsland.borders isl
    ∧ keeps_store isl isl'
    ∧ ∃ edges,
        UVIsland.uv_primitives isl'
        = UVIsland.uv_primitives isl ++ [UVPrimitive.mk primitive edges]
        ∧ Forall2 (edge_of_primitive mesh isl' prim (length (UVIsland.uv_primitives isl)))
            (MeshPrimitive.edges prim) edges.
Proof.
  intros H. unfold add_primitive in H.
  apply bind_Ret in H as (prim & Hprim & H). apply deref_Ret in Hprim.
  exists prim. split; [done|]. revert H.
  apply (foldM_prefix_ind
           (λ pre s,
              UVIsland.borders s = UVIsland.borders isl
              ∧ keeps_store isl s
              ∧ ∃ edges,
                  UVIsland.uv_primitives s
                  = UVIsland.uv_primitives isl ++ [UVPrimitive.mk primitive edges]
                  ∧ Forall2 (edge_of_primitive mesh s prim
                               (length (UVIsland.uv_primitives isl))) pre edges)).
  - split; [done|]. split; [by apply keeps_store_same|]. exists []. split; [done|].
    constructor.
  - intros pre mei s s1 (Hb & K & es & Hps & Hall) Hstep.
    destruct (add_primitive_step prim primitive _ _ _ _ _ Hps Hstep)
      as (Hb1 & K1 & ei & Hps1 & Hedge).
    split; [congruence|]. split; [by eapply keeps_store_trans|].
    exists (es ++ [ei]). split; [done|].
    apply Forall2_app; [|by repeat constructor].
    eapply Forall2_impl; [exact Hall|]. intros a b Hab.
    by eapply edge_of_primitive_keeps.
Qed.

(** The island of one id has the primitives of that id. *)
Lemma island_of_mesh_primitives (uv_island_id : Z) isl :
  UVIsland_of_mesh mesh uv_island_id = Ret isl →
  UVPrimitive.primitive <$> UVIsland.uv_primitives isl
  = primitives_of_island mesh uv_island_id.
Proof.
  unfold UVIsland_of_mesh, primitives_of_island.
  apply (foldM_prefix_ind
           (λ pre s,
              UVPrimitive.primitive <$> UVIsland.uv_primitives s
              = fst <$> filter (λ ip, MeshPrimitive.uv_island_id ip.2 = uv_island_id) pre)).
  - done.
  - intros pre [i prim] s s1 IH Hstep. simpl in Hstep.
    rewrite filter_app, fmap_app, <- IH. rewrite filter_cons, filter_nil. simpl.
    case_bool_decide as E.
    + rewrite decide_True by done.
      destruct (add_primitive_spec _ _ _ Hstep) as (_ & _ & _ & _ & es & -> & _).
      by rewrite fmap_app.
    + rewrite decide_False by done. simplify_eq. by rewrite app_nil_r.
Qed.

End Keeps.

(** X12. [add_primitive] appends one UV primitive for the mesh primitive, with
    one UV edge for each edge of the mesh primitive, in their order: the UV
    edge joins UV vertices that are at the mesh vertex and the UV
    coordinate that [get_uv_vert] gives for the two ends of the mesh edge,
    and it lists the new UV primitive among its primitives.  The borders
    are untouched, and what the island had is kept: every vertex stays at
    its mesh vertex and UV coordinate, every edge between its vertices and
    used by the primitives that used it, every primitive as it was. *)
Theorem add_primitive_appends {F} {O : FloatOps F} (mesh : MeshData.t F)
    (isl isl' : UVIsland.t F) (primitive : nat) :
  add_primitive mesh isl primitive = Ret isl' →
  ∃ prim,
    MeshData.primitives mesh !! primitive = Some prim
    ∧ UVIsland.borders isl' = UVIsland.borders isl
    ∧ keeps_store isl isl'
    ∧ ∃ edges,
        UVIsland.uv_primitives isl'
        = UVIsland.uv_primitives isl ++ [UVPrimitive.mk primitive edges]
        ∧ Forall2 (edge_of_primitive mesh isl' prim (length (UVIsland.uv_primitives isl)))
            (MeshPrimitive.edges prim) edges.
Proof. apply add_primitive_spec. Qed.

(** X13. [UVIslands::UVIslands] builds [uv_island_len] islands, and the
    island [k] holds the mesh primitives whose [uv_island_id] is [k], each
    once, in the order of the mesh: every primitive with an id in range is
    in one island, a primitive with another id is in none. *)
Theorem islands_partition_primitives {F} {O : FloatOps F} (mesh : MeshData.t F)
    (islands : list (UVIsland.t F)) :
  UVIslands_new mesh = Ret islands →
  length islands = Z.to_nat (MeshData.uv_island_len mesh)
  ∧ ∀ k isl, islands !! k = Some isl →
      UVPrimitive.primitive <$> UVIsland.uv_primitives isl
      = primitives_of_island mesh (Z.of_nat k).
Proof.
  unfold UVIslands_new. intros H.
  assert (Forall2 (λ id isl,
                     UVPrimitive.primitive <$> UVIsland.uv_primitives isl
                     = primitives_of_island mesh (Z.of_nat id))
            (seq 0 (Z.to_nat (MeshData.uv_island_len mesh))) islands) as Hall.
  { revert H. apply (foldM_prefix_ind (λ pre s, Forall2 _ pre s)); [constructor|].
    intros pre id s s1 IH Hstep. apply bind_Ret in Hstep as (isl & Hisl & Hstep).
    injection Hstep as <-. apply Forall2_app; [done|]. repeat constructor.
    by apply island_of_mesh_primitives. }
  split.
  - apply Forall2_length in Hall. by rewrite length_seq in Hall.
  - intros k isl Hk.
    destruct (Forall2_lookup_r _ _ _ _ _ Hall Hk) as (id & Hid & Hp).
    apply lookup_seq in Hid as [-> _]. done.
Qed.

End StoreFacts.

(** ** Flags and links of the borders *)

Module BorderMoreFacts.

Section Flags.
Context {F : Type} {O : FloatOps F}.

Implicit Types isl : UVIsland.t F.
Implicit Types vs : list (UVVertex.t F).

Lemma flagged_lookup marked vs v :
  flagged marked vs !! v
  = (λ x, set_vertex_flags x (bool_decide (v ∈ marked)) false) <$> vs !! v.
Proof. unfold flagged. by rewrite list_lookup_imap. Qed.

Lemma flagged_nil vs :
  flagged [] vs = (λ x, set_vertex_flags x false false) <$> vs.
Proof.
  apply list_eq. intros v. rewrite flagged_lookup, list_lookup_fmap.
  by destruct (vs !! v).
Qed.

(** Marking one vertex more. *)
Lemma flagged_mark marked vs v x :
  flagged marked vs !! v = Some x →
  <[v := set_vertex_flags x true (UVVertex.is_extended x)]> (flagged marked vs)
  = flagged (marked ++ [v]) vs.
Proof.
  intros Hx. apply list_eq. intros i. destruct (decide (i = v)) as [->|Hne].
  - rewrite list_lookup_insert_eq by (by eapply lookup_lt_Some).
    rewrite flagged_lookup in *. destruct (vs !! v) as [y|]; simpl in *; [|done].
    injection Hx as <-. simpl. f_equal. unfold set_vertex_flags. simpl.
    rewrite (bool_decide_eq_true_2 (v ∈ marked ++ [v])); [done|].
    apply elem_of_app. right. apply list_elem_of_here.
  - rewrite list_lookup_insert_ne by done. rewrite !flagged_lookup.
    destruct (vs !! i) as [y|]; simpl; [|done]. do 2 f_equal.
    apply bool_decide_ext. rewrite elem_of_app, list_elem_of_singleton. tauto.
Qed.

Lemma reset_flags_spec isl isl' :
  reset_extendability_flags isl = Ret isl' →
  isl' = set_uv_vertices isl (flagged (border_vertices isl) (UVIsland.uv_vertices isl)).
Proof.
  unfold reset_extendability_flags. intros H.
  apply bind_Ret in H as (vs & Hvs & H). injection H as <-. f_equal.
  rewrite <- flagged_nil in Hvs. revert Hvs. unfold border_vertices.
  apply (foldM_prefix_ind
           (λ pre vs',
              vs' = flagged
                      (border ← pre; border_edge ← UVBorder.edges border;
                       match UVIsland.uv_edges isl !! UVBorderEdge.edge border_edge with
                       | Some e => [(UVEdge.vertices e).1; (UVEdge.vertices e).2]
                       | None => []
                       end) (UVIsland.uv_vertices isl))); [done|].
  intros pre border vs0 vs1 -> Hinner. rewrite bind_app. simpl. rewrite app_nil_r.
  revert Hinner. generalize (pre ≫= λ border0, UVBorder.edges border0 ≫= λ border_edge,
        match UVIsland.uv_edges isl !! UVBorderEdge.edge border_edge with
        | Some e => [(UVEdge.vertices e).1; (UVEdge.vertices e).2]
        | None => []
        end) as marked. intros marked.
  apply (foldM_prefix_ind
           (λ pre_e vs',
              vs' = flagged
                      (marked ++
                       (border_edge ← pre_e;
                        match UVIsland.uv_edges isl !! UVBorderEdge.edge border_edge with
                        | Some e => [(UVEdge.vertices e).1; (UVEdge.vertices e).2]
                        | None => []
                        end)) (UVIsland.uv_vertices isl))).
  - simpl. by rewrite app_nil_r.
  - intros pre_e be vs2 vs3 -> Hstep.
    apply bind_Ret in Hstep as (e & He & Hstep). apply deref_Ret in He.
    apply bind_Ret in Hstep as (vs4 & H4 & Hstep).
    apply bind_Ret in H4 as (x1 & Hx1 & H4). apply deref_Ret in Hx1.
    injection H4 as <-. rewrite (flagged_mark _ _ _ _ Hx1) in Hstep.
    apply bind_Ret in Hstep as (x2 & Hx2 & Hstep). apply deref_Ret in Hx2.
    injection Hstep as <-. rewrite (flagged_mark _ _ _ _ Hx2).
    rewrite bind_app. simpl. rewrite He. simpl. by rewrite <- !app_assoc.
Qed.

End Flags.

(** X14. [reset_extendability_flags] changes the flags of the vertices and
    nothing else: afterwards no vertex is flagged [is_extended], and a
    vertex is flagged [is_border] exactly when it is an end of the edge of
    a border edge of the island. *)
Theorem reset_flags_marks_border_vertices {F} {O : FloatOps F} (isl isl' : UVIsland.t F) :
  reset_extendability_flags isl = Ret isl' →
  UVIsland.uv_edges isl' = UVIsland.uv_edges isl
  ∧ UVIsland.uv_primitives isl' = UVIsland.uv_primitives isl
  ∧ UVIsland.borders isl' = UVIsland.borders isl
  ∧ length (UVIsland.uv_vertices isl') = length (UVIsland.uv_vertices isl)
  ∧ ∀ v x, UVIsland.uv_vertices isl !! v = Some x →
      ∃ x', UVIsland.uv_vertices isl' !! v = Some x'
            ∧ UVVertex.vertex x' = UVVertex.vertex x
            ∧ UVVertex.uv x' = UVVertex.uv x
            ∧ UVVertex.uv_edges x' = UVVertex.uv_edges x
            ∧ UVVertex.is_extended x' = false
            ∧ (UVVertex.is_border x' = true ↔
               ∃ border border_edge e,
                 border ∈ UVIsland.borders isl
                 ∧ border_edge ∈ UVBorder.edges border
                 ∧ UVIsland.uv_edges isl !! UVBorderEdge.edge border_edge = Some e
                 ∧ (v = (UVEdge.vertices e).1 ∨ v = (UVEdge.vertices e).2)).
Proof.
  intros H. apply reset_flags_spec in H. subst isl'. simpl.
  repeat (split; [done|]). split; [unfold flagged; by rewrite length_imap|].
  intros v x Hx. eexists. rewrite flagged_lookup, Hx. simpl.
  repeat (split; [done|]). cbn [UVVertex.is_border set_vertex_flags].
  rewrite bool_decide_eq_true. unfold border_vertices.
  rewrite list_elem_of_bind. split.
  - intros (border & Hin & Hb). apply list_elem_of_bind in Hin as (be & Hin & Hbe).
    destruct (UVIsland.uv_edges isl !! UVBorderEdge.edge be) as [e|] eqn:He;
      [|by apply elem_of_nil in Hin].
    exists border, be, e. repeat (split; [done|]).
    apply elem_of_cons in Hin as [->|Hin]; [by left|].
    apply list_elem_of_singleton in Hin. by right.
  - intros (border & be & e & Hb & Hbe & He & Hv). exists border. split; [|done].
    apply list_elem_of_bind. exists be. split; [|done]. rewrite He.
    destruct Hv as [-> | ->]; [apply list_elem_of_here|].
    apply list_elem_of_further, list_elem_of_here.
Qed.

Section Links.

Lemma set_indexes_toggle be i p n bi i' p' n' bi' :
  set_indexes
    (set_reverse_order
       (set_indexes (set_reverse_order be (negb (UVBorderEdge.reverse_order be)))
          i' p' n' bi')
       (negb (UVBorderEdge.reverse_order
                (set_indexes (set_reverse_order be (negb (UVBorderEdge.reverse_order be)))
                   i' p' n' bi'))))
    i p n bi
  = set_indexes be i p n bi.
Proof. destruct be. unfold set_indexes, set_reverse_order. simpl. by rewrite negb_involutive. Qed.

Lemma flip_edges b first :
  head (UVBorder.edges b) = Some first →
  UVBorder_flip b
  = Ret (UVBorder_update_indexes
           (UVBorder.mk
              (reverse ((λ be, set_reverse_order be (negb (UVBorderEdge.reverse_order be)))
                          <$> UVBorder.edges b)))
           (UVBorderEdge.border_index first)).
Proof. unfold UVBorder_flip. by intros ->. Qed.

End Links.

(** X15. [UVBorder::update_indexes] links the edges of a border into a cycle:
    the edge in slot [i] records [i] as its index and the given border
    index; its previous and next index are slots of the border, the next
    of its previous and the previous of its next are the edge itself; the
    size of the border, and the UV edge, the primitive, the orientation and
    the tag of every border edge are unchanged.  A border of one edge is
    its own previous and next. *)
Theorem update_indexes_links_cycle (b : UVBorder.t) (border_index : Z) (i : nat)
    (be : UVBorderEdge.t) :
  let b' := UVBorder_update_indexes b border_index in
  UVBorder.edges b' !! i = Some be →
  length (UVBorder.edges b') = length (UVBorder.edges b)
  ∧ UVBorderEdge.index be = Z.of_nat i
  ∧ UVBorderEdge.border_index be = border_index
  ∧ (∃ be0, UVBorder.edges b !! i = Some be0
            ∧ UVBorderEdge.edge be = UVBorderEdge.edge be0
            ∧ UVBorderEdge.uv_primitive be = UVBorderEdge.uv_primitive be0
            ∧ UVBorderEdge.reverse_order be = UVBorderEdge.reverse_order be0
            ∧ UVBorderEdge.tag be = UVBorderEdge.tag be0)
  ∧ (∃ prev, at_index (UVBorder.edges b') (UVBorderEdge.prev_index be) = Ret prev
             ∧ UVBorderEdge.next_index prev = Z.of_nat i)
  ∧ (∃ next, at_index (UVBorder.edges b') (UVBorderEdge.next_index be) = Ret next
             ∧ UVBorderEdge.prev_index next = Z.of_nat i)
  ∧ (length (UVBorder.edges b) = 1 →
     UVBorderEdge.prev_index be = 0%Z ∧ UVBorderEdge.next_index be = 0%Z).
Proof.
  intros b' Hi. subst b'. rewrite BorderFacts.update_indexes_length.
  rewrite BorderFacts.update_indexes_lookup in Hi.
  apply fmap_Some in Hi as (be0 & Hi0 & ->). simpl.
  set (n := length (UVBorder.edges b)) in *.
  assert (i < n) as Hlt by (by eapply lookup_lt_Some).
  split; [done|]. split; [done|]. split; [done|].
  split; [by exists be0|].
  assert (∀ z, (0 ≤ z < Z.of_nat n)%Z →
               ∃ c, at_index (UVBorder.edges (UVBorder_update_indexes b border_index)) z
                    = Ret (set_indexes c z ((z - 1 + Z.of_nat n) mod Z.of_nat n)
                             ((z + 1) mod Z.of_nat n) border_index)) as Hat.
  { intros z Hz. assert (Z.to_nat z < n) as Hzn by lia.
    destruct (lookup_lt_is_Some_2 (UVBorder.edges b) (Z.to_nat z) Hzn) as [c Hc].
    exists c. apply at_index_Ret. split; [lia|].
    rewrite BorderFacts.update_indexes_lookup, Hc. simpl. fold n.
    by rewrite Z2Nat.id by lia. }
  assert (0 < Z.of_nat n)%Z as Hn by lia.
  split; [|split].
  - destruct (Hat ((Z.of_nat i - 1 + Z.of_nat n) mod Z.of_nat n)%Z) as (c & Hc);
      [by apply Z.mod_pos_bound|].
    eexists. split; [exact Hc|]. simpl.
    destruct (decide (i = 0)) as [->|Hnz].
    + replace (Z.of_nat 0 - 1 + Z.of_nat n)%Z with (Z.of_nat n - 1)%Z by lia.
      rewrite (Z.mod_small (Z.of_nat n - 1)) by lia.
      replace (Z.of_nat n - 1 + 1)%Z with (Z.of_nat n) by lia.
      by rewrite Z.mod_same by lia.
    + replace (Z.of_nat i - 1 + Z.of_nat n)%Z
        with (Z.of_nat i - 1 + 1 * Z.of_nat n)%Z by lia.
      rewrite Z.mod_add by lia. rewrite (Z.mod_small (Z.of_nat i - 1)) by lia.
      replace (Z.of_nat i - 1 + 1)%Z with (Z.of_nat i) by lia.
      by rewrite Z.mod_small by lia.
  - destruct (Hat ((Z.of_nat i + 1) mod Z.of_nat n)%Z) as (c & Hc);
      [by apply Z.mod_pos_bound|].
    eexists. split; [exact Hc|]. simpl.
    destruct (decide (i + 1 = n)) as [Hlast|Hlast].
    + replace (Z.of_nat i + 1)%Z with (Z.of_nat n) by lia.
      rewrite Z.mod_same by lia.
      replace (0 - 1 + Z.of_nat n)%Z with (Z.of_nat n - 1)%Z by lia.
      rewrite Z.mod_small by lia. lia.
    + rewrite (Z.mod_small (Z.of_nat i + 1)) by lia.
      replace (Z.of_nat i + 1 - 1 + Z.of_nat n)%Z
        with (Z.of_nat i + 1 * Z.of_nat n)%Z by lia.
      rewrite Z.mod_add by lia. by rewrite Z.mod_small by lia.
  - intros Hone. fold n in Hone. assert (i = 0) as -> by lia. rewrite Hone. done.
Qed.

(** X16. [UVBorder::flip] twice gives the border back: flipping a border
    that has an edge, and flipping the result, gives the edges of the
    border in their order and with their orientation, with the links that
    [update_indexes] computes for the border index of its first edge.
    Flipping a border without edges reads [edges.first()] of an empty
    vector. *)
Theorem flip_twice_restores (b : UVBorder.t) :
  match head (UVBorder.edges b) with
  | Some first =>
      ∃ b1, UVBorder_flip b = Ret b1
            ∧ length (UVBorder.edges b1) = length (UVBorder.edges b)
            ∧ UVBorder_flip b1
              = Ret (UVBorder_update_indexes b (UVBorderEdge.border_index first))
  | None => UVBorder_flip b = UB
  end.
Proof.
  destruct (head (UVBorder.edges b)) as [first|] eqn:Hhead;
    [|unfold UVBorder_flip; by rewrite Hhead].
  eexists. split; [by apply flip_edges|].
  rewrite BorderFacts.update_indexes_length. cbn [UVBorder.edges].
  rewrite length_reverse, length_fmap. split; [done|].
  set (toggle := λ be, set_reverse_order be (negb (UVBorderEdge.reverse_order be))).
  set (b1 := UVBorder_update_indexes _ _).
  assert (0 < length (UVBorder.edges b)) as Hpos.
  { destruct (UVBorder.edges b); [done|simpl; lia]. }
  assert (length (UVBorder.edges b1) = length (UVBorder.edges b)) as Hlen1.
  { unfold b1. rewrite BorderFacts.update_indexes_length. cbn [UVBorder.edges].
    by rewrite length_reverse, length_fmap. }
  assert (∃ first1, head (UVBorder.edges b1) = Some first1
                    ∧ UVBorderEdge.border_index first1 = UVBorderEdge.border_index first)
    as (first1 & Hhead1 & Hbi).
  { destruct (lookup_lt_is_Some_2 (UVBorder.edges b1) 0) as [first1 H0]; [lia|].
    exists first1. split; [by rewrite <- head_lookup in H0|].
    unfold b1 in H0. rewrite BorderFacts.update_indexes_lookup in H0.
    apply fmap_Some in H0 as (c & _ & ->). done. }
  rewrite (flip_edges b1 first1 Hhead1), Hbi. f_equal.
  unfold UVBorder_update_indexes. f_equal. cbn [UVBorder.edges].
  rewrite length_reverse, length_fmap, Hlen1.
  apply list_eq. intros i. rewrite !list_lookup_imap.
  destruct (decide (i < length (UVBorder.edges b))) as [Hlt|Hge].
  2: { rewrite !lookup_ge_None_2; [done|lia|].
       rewrite length_reverse, length_fmap. lia. }
  rewrite reverse_lookup by (rewrite length_fmap; lia).
  rewrite length_fmap, Hlen1, list_lookup_fmap.
  unfold b1 at 1. rewrite BorderFacts.update_indexes_lookup. cbn [UVBorder.edges].
  rewrite length_reverse, length_fmap.
  rewrite reverse_lookup by (rewrite length_fmap; lia).
  rewrite length_fmap, list_lookup_fmap.
  replace (length (UVBorder.edges b) - S (length (UVBorder.edges b) - S i)) with i by lia.
  destruct (UVBorder.edges b !! i) as [be|] eqn:Hbe; simpl; [|done].
  f_equal. apply set_indexes_toggle.
Qed.

End BorderMoreFacts.

(** ** The extension only adds *)

Module GrowthFacts.
Import StoreFacts.

Section Adds.
Context {F : Type} {O : FloatOps F}.
Variable mesh : MeshData.t F.

Implicit Types isl : UVIsland.t F.
Implicit Types corner : UVBorderCorner.t F.

Lemma only_adds_refl isl : only_adds isl isl.
Proof.
  split; [apply keeps_store_refl|]. split; [|done]. exists []. by rewrite app_nil_r.
Qed.

Lemma only_adds_trans isl1 isl2 isl3 :
  only_adds isl1 isl2 → only_adds isl2 isl3 → only_adds isl1 isl3.
Proof.
  intros (Hk1 & [n1 Hp1] & Hb1) (Hk2 & [n2 Hp2] & Hb2).
  split; [by eapply keeps_store_trans|]. split; [|congruence].
  exists (n1 ++ n2). by rewrite Hp2, Hp1, app_assoc.
Qed.

Lemma only_adds_frame isl isl' :
  keeps_store isl isl' →
  UVIsland.borders isl' = UVIsland.borders isl
  ∧ UVIsland.uv_primitives isl' = UVIsland.uv_primitives isl →
  only_adds isl isl'.
Proof.
  intros Hk [Hb Hp]. split; [done|]. split; [|by rewrite Hb].
  exists []. by rewrite app_nil_r.
Qed.

Lemma adds_vertex isl t isl1 p :
  UVIsland_lookup_or_create_vertex isl t = (isl1, p) → only_adds isl isl1.
Proof.
  intros H. apply only_adds_frame; [by eapply keeps_vertex|by eapply FillFacts.frame_vertex].
Qed.

Lemma adds_edge isl vertices isl1 p :
  UVIsland_lookup_or_create_edge isl vertices = (isl1, p) → only_adds isl isl1.
Proof.
  intros H. apply only_adds_frame; [by eapply keeps_edge|by eapply FillFacts.frame_edge].
Qed.

Lemma adds_prim_edges isl p this isl1 :
  UVPrimitive_append_to_uv_edges isl p this = Ret isl1 → only_adds isl isl1.
Proof.
  intros H. apply only_adds_frame;
    [by eapply keeps_prim_edges|by eapply FillFacts.frame_prim_edges].
Qed.

Lemma adds_prim_vertices isl p isl1 :
  UVPrimitive_append_to_uv_vertices isl p = Ret isl1 → only_adds isl isl1.
Proof.
  intros H. apply only_adds_frame;
    [by eapply keeps_prim_vertices|by eapply FillFacts.frame_prim_vertices].
Qed.

Lemma adds_append isl p :
  only_adds isl (set_uv_primitives isl (UVIsland.uv_primitives isl ++ [p])).
Proof.
  split; [by apply keeps_store_same|]. split; [by exists [p]|done].
Qed.

Lemma adds_borders isl bs :
  length bs = length (UVIsland.borders isl) → only_adds isl (set_borders isl bs).
Proof.
  intros Hlen. split; [by apply keeps_store_same|]. split; [|done].
  exists []. by rewrite app_nil_r.
Qed.

Lemma adds_flags isl vs :
  Forall2 (λ x x', UVVertex.uv x' = UVVertex.uv x ∧ UVVertex.vertex x' = UVVertex.vertex x)
    (UVIsland.uv_vertices isl) vs →
  only_adds isl (set_uv_vertices isl vs).
Proof.
  intros Hvs. split; [|split; [exists []; by rewrite app_nil_r|done]].
  split; simpl; [|eauto 6]. intros v x Hx.
  destruct (Forall2_lookup_l _ _ _ _ _ Hvs Hx) as (x' & Hx' & Hu & Hm). by exists x'.
Qed.

(** Chains the additions that the hypotheses provide. *)
Ltac adds_chain :=
  simpl;
  repeat first
    [ apply only_adds_refl
    | apply adds_append
    | eapply only_adds_trans;
      [ first [ eapply adds_vertex; eassumption
              | eapply adds_edge; eassumption
              | eapply adds_prim_edges; eassumption
              | eapply adds_prim_vertices; eassumption
              | eassumption ] | ] ].

Lemma adds_shared isl v1 v2 uv mp isl1 :
  add_uv_primitive_shared_uv_edge mesh isl v1 v2 uv mp = Ret isl1 → only_adds isl isl1.
Proof.
  unfold add_uv_primitive_shared_uv_edge. intros H. split_lookups H. subst. adds_chain.
Qed.

Lemma adds_fill isl v1 v2 v3 fp isl1 :
  add_uv_primitive_fill isl v1 v2 v3 fp = Ret isl1 → only_adds isl isl1.
Proof.
  unfold add_uv_primitive_fill. intros H. split_lookups H. subst. adds_chain.
Qed.

Lemma adds_fill_triangle isl x sev old_uv fp third isl1 np opv :
  add_fill_triangle mesh isl x sev old_uv fp third = Ret (isl1, np, opv) →
  only_adds isl isl1.
Proof.
  unfold add_fill_triangle. intros H. split_lookups H. simplify_eq.
  eapply only_adds_trans; [|by eapply adds_fill]. adds_chain.
Qed.

Lemma adds_fill_segment x sev old_uv new_uv segments :
  ∀ st pos st',
    fill_segment mesh st x sev old_uv new_uv pos segments = Ret (Some st') →
    only_adds (fs_island st) (fs_island st').
Proof.
  induction segments as [|segment rest IH]; intros st pos st' H; simpl in H; [done|].
  destruct (InnerEdge.found segment); [by eapply IH|].
  res_inv. res_case; [|by eapply IH].
  res_inv. res_case. res_case. res_inv. simplify_eq. simpl.
  by eapply adds_fill_triangle.
Qed.

Lemma adds_fill_iteration corner x d n st i st' :
  fill_iteration mesh corner x d n st i = Ret st' →
  only_adds (fs_island st) (fs_island st').
Proof.
  unfold fill_iteration, fill_attempt. intros H. res_inv.
  match goal with Hs : fill_segment _ _ _ _ _ _ _ _ = Ret ?r |- _ => destruct r end;
    simpl in H; subst.
  - by eapply adds_fill_segment.
  - apply only_adds_refl.
Qed.

Lemma adds_fill_final corner x st st' :
  fill_final mesh corner x st = Ret st' → only_adds (fs_island st) (fs_island st').
Proof.
  unfold fill_final. intros H. res_inv. res_case. res_case. res_inv.
  subst. simpl. by eapply adds_fill_triangle.
Qed.

Lemma adds_set_corner_edge isl p be isl1 :
  set_corner_edge isl p be = Ret isl1 → only_adds isl isl1.
Proof.
  unfold set_corner_edge. intros H. res_inv. subst.
  apply adds_borders. by rewrite length_insert.
Qed.

Lemma adds_splice isl corner bi new isl1 :
  splice_border isl corner bi new = Ret isl1 → only_adds isl isl1.
Proof.
  unfold splice_border. intros H. res_inv. subst.
  apply adds_borders. by rewrite length_insert.
Qed.

Lemma adds_split isl corner d isl1 :
  extend_at_vert_split mesh isl corner d = Ret isl1 → only_adds isl isl1.
Proof.
  unfold extend_at_vert_split. intros H. res_inv.
  eapply only_adds_trans; [by eapply adds_shared|].
  eapply only_adds_trans; [by eapply adds_shared|].
  eapply only_adds_trans; by eapply adds_set_corner_edge.
Qed.

Lemma adds_extend_fill isl corner d bi x fan n isl1 :
  extend_at_vert_fill mesh isl corner d bi x fan n = Ret isl1 → only_adds isl isl1.
Proof.
  unfold extend_at_vert_fill. intros H. res_inv.
  eapply only_adds_trans; [|by eapply adds_splice].
  eapply only_adds_trans; [|by eapply adds_fill_final].
  match goal with Hf : foldM _ _ _ = Ret _ |- _ => revert Hf end.
  generalize (seq 0 n). intros l.
  apply (foldM_ind (λ s, only_adds isl (fs_island s))); [|apply only_adds_refl].
  intros s i s' _ Hs Hi. eapply only_adds_trans; [done|]. by eapply adds_fill_iteration.
Qed.

Lemma adds_extend_at_vert fan_fuel isl corner d isl1 :
  extend_at_vert mesh fan_fuel isl corner d = Ret isl1 → only_adds isl isl1.
Proof.
  unfold extend_at_vert. intros H. res_inv.
  match type of H with context [negb ?b] => destruct (negb b) end;
    [res_inv; subst; apply only_adds_refl|].
  res_inv. case_bool_decide.
  - by eapply adds_split.
  - by eapply adds_extend_fill.
Qed.

Lemma adds_mark_extended isl v isl1 :
  mark_extended isl v = Ret isl1 → only_adds isl isl1.
Proof.
  unfold mark_extended. intros H. res_inv. subst. apply adds_flags.
  apply Forall2_same_length_lookup. split; [by rewrite length_insert|].
  intros i y y' Hy Hy'. destruct (decide (i = v)) as [->|Hne].
  - rewrite list_lookup_insert_eq in Hy' by (by eapply lookup_lt_Some). by simplify_eq.
  - rewrite list_lookup_insert_ne in Hy' by done. by simplify_eq.
Qed.

Lemma adds_iteration fan_fuel tiles island_index isl isl1 :
  extend_border_iteration mesh fan_fuel tiles island_index isl = Ret (Some isl1) →
  only_adds isl isl1.
Proof.
  unfold extend_border_iteration. intros H. res_inv.
  match type of H with match ?r with _ => _ end = _ => destruct r as [corner|] end;
    [|done].
  res_inv. simplify_eq.
  eapply only_adds_trans; [|by eapply adds_mark_extended].
  match goal with Ht : match Mask.find_tile ?t ?u with _ => _ end = _ |- _ =>
    destruct (Mask.find_tile t u) as [tile|]; [destruct (Mask.is_masked tile _ _)|]
  end; res_inv; subst; try apply only_adds_refl.
  by eapply adds_extend_at_vert.
Qed.

Lemma adds_loop fan_fuel tiles island_index iterations :
  ∀ isl isl1,
    extend_border_loop mesh iterations fan_fuel tiles island_index isl = Halted isl1 →
    only_adds isl isl1
    ∧ extend_border_iteration mesh fan_fuel tiles island_index isl1 = Ret None.
Proof.
  induction iterations as [|n IH]; intros isl isl1 H; simpl in H; [done|].
  destruct (extend_border_iteration mesh fan_fuel tiles island_index isl)
    as [[isl2|]| |] eqn:Hit; try done.
  - destruct (IH _ _ H) as [Hadds Hend]. split; [|done].
    eapply only_adds_trans; [by eapply adds_iteration|done].
  - simplify_eq. split; [apply only_adds_refl|done].
Qed.

Lemma adds_reset isl isl1 :
  reset_extendability_flags isl = Ret isl1 → only_adds isl isl1.
Proof.
  intros H. apply BorderMoreFacts.reset_flags_spec in H as ->. apply adds_flags.
  apply Forall2_same_length_lookup. split; [unfold flagged; by rewrite length_imap|].
  intros i a b Ha Hb. unfold flagged in Hb. rewrite list_lookup_imap, Ha in Hb.
  simpl in Hb. by simplify_eq.
Qed.

Lemma adds_init isl isl1 :
  extend_border_init isl = Ret isl1 → only_adds isl isl1.
Proof.
  unfold extend_border_init. intros H. res_inv. subst.
  eapply only_adds_trans; [by eapply adds_reset|].
  apply adds_borders. by rewrite length_imap.
Qed.

End Adds.

(** X17. [extend_at_vert] only adds to the island: every UV vertex stays at
    its mesh vertex and UV coordinate and keeps its flags, every UV edge
    keeps its two vertices and the primitives that used it, the UV
    primitives that were there are the first primitives afterwards,
    unchanged, and the island has as many borders as before.  The vertices
    that it creates are not flagged [is_border]. *)
Theorem extend_at_vert_only_adds {F} {O : FloatOps F} (mesh : MeshData.t F)
    (fan_fuel : nat) (isl isl' : UVIsland.t F) (corner : UVBorderCorner.t F)
    (min_uv_distance : F) :
  extend_at_vert mesh fan_fuel isl corner min_uv_distance = Ret isl' →
  only_adds isl isl'
  ∧ flags_ext (UVIsland.uv_vertices isl) (UVIsland.uv_vertices isl').
Proof.
  intros H. split; [by eapply adds_extend_at_vert|].
  by eapply ExtendFacts.ext_extend_at_vert.
Qed.

(** X18. A pass of [UVIsland::extend_border] that ends only adds to the
    island: no UV vertex is moved or taken to another mesh vertex, no UV
    edge changes its vertices or loses a primitive, the UV primitives that
    were there are the first primitives afterwards, unchanged, and no border
    is added or dropped.  When the pass ends, no corner of the island is
    left to extend. *)
Theorem extend_border_only_adds {F} {O : FloatOps F} (mesh : MeshData.t F)
    (iterations fan_fuel : nat) (tiles : list (Mask.Tile F)) (island_index : Z)
    (isl isl' : UVIsland.t F) :
  UVIsland_extend_border mesh iterations fan_fuel tiles island_index isl = Halted isl' →
  only_adds isl isl'
  ∧ sharpest_border_corner isl' = Ret None.
Proof.
  unfold UVIsland_extend_border. intros H.
  destruct (extend_border_init isl) as [isl1| |] eqn:Hinit; try done.
  destruct (adds_loop mesh _ _ _ _ _ _ H) as [Hadds Hend]. split.
  - eapply only_adds_trans; [by eapply adds_init|done].
  - unfold extend_border_iteration in Hend.
    destruct (sharpest_border_corner isl') as [[corner|]| |]; try done.
    simpl in Hend. res_inv. done.
Qed.

End GrowthFacts.

(** ** The rasteriser of the islands mask *)

Module RasterFacts.
Import Mask MaskOps Raster.

Section Painting.
Context {F : Type}.

Implicit Types t : Tile F.

Lemma same_shape_refl t : same_shape t t.
Proof. by repeat split. Qed.

Lemma same_shape_trans t1 t2 t3 : same_shape t1 t2 → same_shape t2 t3 → same_shape t1 t3.
Proof. intros (? & ? & ? & ?) (? & ? & ? & ?). repeat split; congruence. Qed.

Lemma same_shape_well_formed t t' : same_shape t t' → well_formed t → well_formed t'.
Proof. unfold well_formed. intros (_ & _ & -> & ->). done. Qed.

Lemma elem_of_zrange lo hi a : a ∈ zrange lo hi ↔ (lo ≤ a ≤ hi)%Z.
Proof.
  unfold zrange. rewrite list_elem_of_fmap. split.
  - intros (i & -> & Hi). apply elem_of_seq in Hi. lia.
  - intros Ha. exists (Z.to_nat (a - lo)). split; [lia|]. apply elem_of_seq. lia.
Qed.

(** What a cell holds after a loop whose passes each stamp some pixels. *)
Lemma paint_fold {A} (body : Tile F → A → res (Tile F)) (S : A → Z → Z → bool)
    (val : A → Z) xs :
  ∀ t,
    (∀ a t0 t1, a ∈ xs → same_shape t t0 → body t0 a = Ret t1 →
       same_shape t0 t1
       ∧ ∀ x y, (0 ≤ x < Z.of_nat (mask_resolution t0).1)%Z → (0 ≤ y)%Z →
           cell t1 x y = if S a x y then Some (val a) else cell t0 x y) →
    ∀ t', foldM body t xs = Ret t' →
      same_shape t t'
      ∧ ∀ x y, (0 ≤ x < Z.of_nat (mask_resolution t).1)%Z → (0 ≤ y)%Z →
          cell t' x y = foldl (λ c a, if S a x y then Some (val a) else c) (cell t x y) xs.
Proof.
  induction xs as [|a xs IH]; intros t Hstep t' H; simpl in H.
  - simplify_eq. split; [apply same_shape_refl|done].
  - res_inv. rename a0 into t1.
    destruct (Hstep a t t1) as [Hs1 Hc1];
      [apply list_elem_of_here|apply same_shape_refl|done|].
    destruct (IH t1) with (t' := t') as [Hs2 Hc2]; [|done|].
    { intros b t0 t2 Hb Hs0 Hb2. apply Hstep; [by apply list_elem_of_further| |done].
      by eapply same_shape_trans. }
    split; [by eapply same_shape_trans|]. intros x y Hx Hy. simpl.
    destruct Hs1 as (_ & _ & Hres & _).
    rewrite Hc2; [|by rewrite Hres|done]. by rewrite Hc1.
Qed.

Lemma fold_const {A} (g : A → bool) (v : Z) (c0 : option Z) xs :
  foldl (λ c a, if g a then Some v else c) c0 xs = if existsb g xs then Some v else c0.
Proof.
  revert c0. induction xs as [|a xs IH]; intros c0; simpl; [done|].
  rewrite IH. destruct (g a); simpl; [|done]. by destruct (existsb g xs).
Qed.

Lemma fold_none {A} (g : A → bool) (val : A → Z) (c0 : option Z) xs :
  (∀ i a, xs !! i = Some a → g a = false) →
  foldl (λ c a, if g a then Some (val a) else c) c0 xs = c0.
Proof.
  revert c0. induction xs as [|a xs IH]; intros c0 Hall; simpl; [done|].
  rewrite (Hall 0 a eq_refl). apply IH. intros i b Hi. by apply (Hall (S i)).
Qed.

Lemma fold_last {A} (g : A → bool) (val : A → Z) (c0 : option Z) xs i a :
  xs !! i = Some a → g a = true →
  (∀ j b, xs !! j = Some b → i < j → g b = false) →
  foldl (λ c a, if g a then Some (val a) else c) c0 xs = Some (val a).
Proof.
  revert i a. induction xs as [|b xs IH] using rev_ind; intros i a Hi Ha Hlater; [done|].
  rewrite foldl_app. simpl.
  destruct (decide (i = length xs)) as [->|Hne].
  - rewrite lookup_app_r, Nat.sub_diag in Hi by done. simpl in Hi. simplify_eq.
    by rewrite Ha.
  - assert (i < length xs) as Hlt.
    { apply lookup_lt_Some in Hi. rewrite length_app in Hi. simpl in Hi. lia. }
    rewrite (Hlater (length xs) b); [|by rewrite lookup_app_r, Nat.sub_diag by done|done].
    rewrite lookup_app_l in Hi by done. apply (IH i a Hi Ha).
    intros j c Hj Hij. apply (Hlater j c); [|done].
    rewrite lookup_app_l; [done|]. by eapply lookup_lt_Some.
Qed.

(** A loop whose passes each return from a state that has the invariant
    returns. *)
Lemma foldM_returns {A S} (I : S → Prop) (body : S → A → res S) xs :
  (∀ a s, a ∈ xs → I s → ∃ s', body s a = Ret s' ∧ I s') →
  ∀ s, I s → ∃ s', foldM body s xs = Ret s' ∧ I s'.
Proof.
  induction xs as [|a xs IH]; intros Hstep s Hs; simpl; [by exists s|].
  destruct (Hstep a s) as (s1 & -> & Hs1); [apply list_elem_of_here|done|]. simpl.
  apply IH; [|done]. intros b s0 Hb. apply Hstep. by apply list_elem_of_further.
Qed.

End Painting.

Section Stamps.
Context {F : Type} {O : FloatOps F} {R : RasterOps F}.
Variable mesh : MeshData.t F.

Implicit Types t : Tile F.

Local Abbreviation hit t prim x y :=
  (match pixel_inside (udim_offset t) (mask_resolution t) prim x y with
   | Ret inside => inside
   | _ => false
   end).

Lemma offsets_differ (w x y x' y' : Z) :
  (0 ≤ x < w)%Z → (0 ≤ y)%Z → (0 ≤ x' < w)%Z → (0 ≤ y')%Z →
  ¬ (x' = x ∧ y' = y) → Z.to_nat (w * y' + x') ≠ Z.to_nat (w * y + x).
Proof.
  intros Hx Hy Hx' Hy' Hne Heq. apply Hne.
  assert (w * y' + x' = w * y + x)%Z as Heq' by nia.
  assert (y' = y) as -> by nia. lia.
Qed.

Lemma add_pixel_spec prim island_index t y x t1 :
  (0 ≤ x < Z.of_nat (mask_resolution t).1)%Z → (0 ≤ y)%Z →
  add_pixel prim island_index t y x = Ret t1 →
  same_shape t t1
  ∧ ∀ x' y', (0 ≤ x' < Z.of_nat (mask_resolution t).1)%Z → (0 ≤ y')%Z →
      cell t1 x' y'
      = if bool_decide (x' = x ∧ y' = y) && hit t prim x y
        then Some (to_uint16 island_index) else cell t x' y'.
Proof.
  intros Hx Hy. unfold add_pixel. intros H. res_inv. rename a into inside.
  rewrite Ha. destruct inside; simpl in H.
  - case_bool_decide as Hoff; [|done]. simplify_eq.
    split; [repeat split; simpl; by rewrite ?length_insert|].
    intros x' y' Hx' Hy'. unfold cell. simpl. rewrite andb_true_r.
    case_bool_decide as Hsame.
    + destruct Hsame as [-> ->]. apply list_lookup_insert_eq. lia.
    + apply list_lookup_insert_ne. intros Heq.
      by apply (offsets_differ _ x y x' y' Hx Hy Hx' Hy' Hsame).
  - simplify_eq. split; [apply same_shape_refl|]. intros x' y' _ _.
    by rewrite andb_false_r.
Qed.

Lemma hit_shape t t0 prim x y : same_shape t t0 → hit t0 prim x y = hit t prim x y.
Proof. intros (-> & _ & -> & _). done. Qed.

Lemma add_row_spec prim island_index t y x0 x1 t1 :
  (0 ≤ x0)%Z → (x1 < Z.of_nat (mask_resolution t).1)%Z → (0 ≤ y)%Z →
  foldM (λ tile x, add_pixel prim island_index tile y x) t (zrange x0 x1) = Ret t1 →
  same_shape t t1
  ∧ ∀ x' y', (0 ≤ x' < Z.of_nat (mask_resolution t).1)%Z → (0 ≤ y')%Z →
      cell t1 x' y'
      = if bool_decide (y' = y ∧ x0 ≤ x' ≤ x1)%Z && hit t prim x' y'
        then Some (to_uint16 island_index) else cell t x' y'.
Proof.
  intros Hx0 Hx1 Hy H.
  apply (paint_fold _ (λ x x' y', bool_decide (x' = x ∧ y' = y) && hit t prim x y)
           (λ _, to_uint16 island_index)) in H as [Hs Hc].
  - split; [done|]. intros x' y' Hx' Hy'. rewrite (Hc x' y' Hx' Hy'), fold_const.
    match goal with |- (if ?a then _ else _) = (if ?b then _ else _) =>
      assert (a = b) as ->; [|done] end.
    apply eq_true_iff_eq. rewrite existsb_exists, andb_true_iff, bool_decide_eq_true.
    split.
    + intros (x & Hin & Hg). apply andb_true_iff in Hg as [Hg1 Hg2].
      apply bool_decide_eq_true in Hg1 as [-> ->].
      apply list_elem_of_In, elem_of_zrange in Hin. done.
    + intros [[-> Hr] Hh]. exists x'. split.
      * by apply list_elem_of_In, elem_of_zrange.
      * apply andb_true_iff. split; [by apply bool_decide_eq_true|done].
  - intros x t0 t2 Hin Hs0 Hb. apply elem_of_zrange in Hin.
    destruct Hs0 as (Hoff & Htr & Hres & Hlen).
    destruct (add_pixel_spec prim island_index t0 y x t2) as [Hs2 Hc2];
      [rewrite Hres; lia|done|done|].
    split; [done|]. intros x' y' Hx' Hy'. rewrite (Hc2 x' y' Hx' Hy').
    by rewrite Hoff, Hres.
Qed.

Lemma add_rows_spec prim island_index t x0 x1 y0 y1 t1 :
  (0 ≤ x0)%Z → (x1 < Z.of_nat (mask_resolution t).1)%Z → (0 ≤ y0)%Z →
  foldM (λ tile y, foldM (λ tile x, add_pixel prim island_index tile y x)
                         tile (zrange x0 x1))
        t (zrange y0 y1) = Ret t1 →
  same_shape t t1
  ∧ ∀ x' y', (0 ≤ x' < Z.of_nat (mask_resolution t).1)%Z → (0 ≤ y')%Z →
      cell t1 x' y'
      = if bool_decide (x0 ≤ x' ≤ x1 ∧ y0 ≤ y' ≤ y1)%Z && hit t prim x' y'
        then Some (to_uint16 island_index) else cell t x' y'.
Proof.
  intros Hx0 Hx1 Hy0 H.
  apply (paint_fold _ (λ y x' y', bool_decide (y' = y ∧ x0 ≤ x' ≤ x1)%Z && hit t prim x' y')
           (λ _, to_uint16 island_index)) in H as [Hs Hc].
  - split; [done|]. intros x' y' Hx' Hy'. rewrite (Hc x' y' Hx' Hy'), fold_const.
    match goal with |- (if ?a then _ else _) = (if ?b then _ else _) =>
      assert (a = b) as ->; [|done] end.
    apply eq_true_iff_eq. rewrite existsb_exists, andb_true_iff, bool_decide_eq_true.
    split.
    + intros (y & Hin & Hg). apply andb_true_iff in Hg as [Hg1 Hg2].
      apply bool_decide_eq_true in Hg1 as [-> Hr].
      apply list_elem_of_In, elem_of_zrange in Hin. done.
    + intros [[Hr Hr'] Hh]. exists y'. split.
      * by apply list_elem_of_In, elem_of_zrange.
      * apply andb_true_iff. split; [by apply bool_decide_eq_true|done].
  - intros y t0 t2 Hin Hs0 Hb. apply elem_of_zrange in Hin.
    pose proof Hs0 as (Hoff & Htr & Hres & Hlen).
    destruct (add_row_spec prim island_index t0 y x0 x1 t2) as [Hs2 Hc2];
      [done|rewrite Hres; lia|lia|done|].
    split; [done|]. intros x' y' Hx' Hy'. rewrite (Hc2 x' y' Hx' Hy').
    by rewrite Hoff, Hres.
Qed.

Lemma buffer_bounds_clamped off res b x0 x1 y0 y1 :
  buffer_bounds off res b = Ret (x0, x1, y0, y1) →
  (0 ≤ x0 ∧ x1 < Z.of_nat res.1 ∧ 0 ≤ y0 ∧ y1 < Z.of_nat res.2)%Z.
Proof. unfold buffer_bounds. intros H. res_inv. simplify_eq. lia. Qed.

Lemma add_uv_primitive_spec island_index t p t1 :
  add_uv_primitive mesh island_index t p = Ret t1 →
  same_shape t t1
  ∧ ∀ x y, (0 ≤ x < Z.of_nat (mask_resolution t).1)%Z → (0 ≤ y)%Z →
      cell t1 x y = if stamps mesh t p x y then Some (to_uint16 island_index) else cell t x y.
Proof.
  unfold add_uv_primitive, stamps. intros H. res_inv. rename a into prim.
  rewrite Ha. destruct a0 as [[[x0 x1] y0] y1]. rewrite Ha0.
  destruct (buffer_bounds_clamped _ _ _ _ _ _ _ Ha0) as (Hx0 & Hx1 & Hy0 & Hy1).
  by apply add_rows_spec.
Qed.

Lemma stamps_shape t t0 p x y : same_shape t t0 → stamps mesh t0 p x y = stamps mesh t p x y.
Proof. unfold stamps. intros (-> & _ & -> & _). done. Qed.

Lemma island_stamps_shape t t0 isl x y :
  same_shape t t0 → island_stamps mesh t0 isl x y = island_stamps mesh t isl x y.
Proof.
  intros Hs. unfold island_stamps. induction (UVIsland.uv_primitives isl) as [|p ps IH];
    simpl; [done|]. by rewrite IH, (stamps_shape t t0).
Qed.

Lemma add_uv_island_spec t isl island_index t1 :
  add_uv_island mesh t isl island_index = Ret t1 →
  same_shape t t1
  ∧ ∀ x y, (0 ≤ x < Z.of_nat (mask_resolution t).1)%Z → (0 ≤ y)%Z →
      cell t1 x y
      = if island_stamps mesh t isl x y then Some (to_uint16 island_index) else cell t x y.
Proof.
  unfold add_uv_island. intros H.
  apply (paint_fold _ (λ p, stamps mesh t p) (λ _, to_uint16 island_index)) in H as [Hs Hc].
  - split; [done|]. intros x y Hx Hy. by rewrite (Hc x y Hx Hy), fold_const.
  - intros p t0 t2 _ Hs0 Hb. destruct (add_uv_primitive_spec _ _ _ _ Hb) as [Hs2 Hc2].
    split; [done|]. intros x y Hx Hy. by rewrite (Hc2 x y Hx Hy), (stamps_shape t t0).
Qed.

Lemma add_pixel_returns prim island_index t y x :
  well_formed t → 3 ≤ length (MeshPrimitive.vertices prim) →
  (0 ≤ x < Z.of_nat (mask_resolution t).1)%Z →
  (0 ≤ y < Z.of_nat (mask_resolution t).2)%Z →
  ∃ t1, add_pixel prim island_index t y x = Ret t1.
Proof.
  unfold well_formed. intros Hwf Hlen Hx Hy. unfold add_pixel, pixel_inside.
  destruct (MeshPrimitive.vertices prim) as [|v0 [|v1 [|v2 vs]]]; simpl in Hlen; try lia.
  simpl. destruct (barycentric_inside_triangle_v2 _); simpl; [|by eexists].
  rewrite bool_decide_eq_true_2; [by eexists|]. rewrite Hwf. nia.
Qed.

Lemma add_uv_primitive_returns island_index t p :
  well_formed t → rasterisable mesh t p →
  ∃ t1, add_uv_primitive mesh island_index t p = Ret t1.
Proof.
  intros Hwf (prim & bounds & Hprim & Hlen & Hb). unfold add_uv_primitive.
  rewrite (proj2 (deref_Ret _ _ _) Hprim). cbn [mbind res_bind]. rewrite Hb.
  cbn [mbind res_bind]. destruct bounds as [[[x0 x1] y0] y1].
  destruct (buffer_bounds_clamped _ _ _ _ _ _ _ Hb) as (Hx0 & Hx1 & Hy0 & Hy1).
  destruct (foldM_returns (λ t0, same_shape t t0)
              (λ tile y, foldM (λ tile x, add_pixel prim island_index tile y x)
                               tile (zrange x0 x1)) (zrange y0 y1)) with (s := t)
    as (t1 & Ht1 & _); [|apply same_shape_refl|by exists t1].
  intros y t0 Hy Hs0. apply elem_of_zrange in Hy.
  destruct (foldM_returns (λ t2, same_shape t t2)
              (λ tile x, add_pixel prim island_index tile y x) (zrange x0 x1)) with (s := t0)
    as (t2 & Ht2 & Hs2); [|done|by exists t2].
  intros x t2 Hx Hs2. apply elem_of_zrange in Hx.
  pose proof Hs2 as (_ & _ & Hres & _).
  destruct (add_pixel_returns prim island_index t2 y x) as [t3 Ht3];
    [by eapply same_shape_well_formed|done|rewrite Hres; lia|rewrite Hres; lia|].
  exists t3. split; [done|]. eapply same_shape_trans; [done|].
  eapply add_pixel_spec; [| |done]; rewrite ?Hres; lia.
Qed.

Lemma rasterisable_shape t t0 p : same_shape t t0 → rasterisable mesh t p → rasterisable mesh t0 p.
Proof. unfold rasterisable. intros (-> & _ & -> & _). done. Qed.

End Stamps.

(** X19. [add_uv_island] never writes outside the mask: on a tile whose mask
    has one cell per mask pixel, for an island whose primitives are
    triangles of the mesh with bounds that convert to [int], every write
    lands in the mask and the call returns; the mask keeps its size. *)
Theorem add_uv_island_stays_in_mask {F} {O : FloatOps F} {R : RasterOps F}
    (mesh : MeshData.t F) (t : Tile F) (isl : UVIsland.t F) (island_index : Z) :
  well_formed t →
  (∀ p, p ∈ UVIsland.uv_primitives isl → rasterisable mesh t p) →
  ∃ t', add_uv_island mesh t isl island_index = Ret t'
        ∧ same_shape t t' ∧ well_formed t'.
Proof.
  intros Hwf Hall. unfold add_uv_island.
  destruct (foldM_returns (λ t0, same_shape t t0) (add_uv_primitive mesh island_index)
              (UVIsland.uv_primitives isl)) with (s := t) as (t' & Ht' & Hs);
    [|apply same_shape_refl|].
  - intros p t0 Hp Hs0.
    destruct (add_uv_primitive_returns mesh island_index t0 p) as [t1 Ht1];
      [by eapply same_shape_well_formed|by eapply rasterisable_shape, Hall|].
    exists t1. split; [done|]. eapply same_shape_trans; [done|].
    by eapply add_uv_primitive_spec.
  - exists t'. split; [done|]. split; [done|]. by eapply same_shape_well_formed.
Qed.

(** X20. [add_uv_island] writes the island index, as a [uint16_t], into the
    cells of the mask pixels that a primitive of the island stamps (pixels
    within the clamped bounds of the primitive whose UV coordinate is
    inside its triangle), and leaves every other cell as it was; the
    offset and the resolutions of the tile are unchanged. *)
Theorem add_uv_island_stamps_cells {F} {O : FloatOps F} {R : RasterOps F}
    (mesh : MeshData.t F) (t t' : Tile F) (isl : UVIsland.t F) (island_index : Z) :
  add_uv_island mesh t isl island_index = Ret t' →
  same_shape t t'
  ∧ ∀ x y, (0 ≤ x < Z.of_nat (mask_resolution t).1)%Z → (0 ≤ y)%Z →
      cell t' x y
      = if island_stamps mesh t isl x y then Some (island_index mod 65536)%Z
        else cell t x y.
Proof. apply add_uv_island_spec. Qed.

(** X21. In [UVIslandsMask::add] the last island wins: in every tile, a cell
    that no island stamps keeps its value, and a cell that islands stamp
    holds the index of the last of them in the order of the islands, modulo
    65536 (the index passes through [int16_t] into a [uint16_t] cell, so the
    island 65535 leaves the value of an unclaimed cell).  The tiles keep
    their number, offsets and resolutions. *)
Theorem mask_add_last_island_wins {F} {O : FloatOps F} {R : RasterOps F}
    (mesh : MeshData.t F) (tiles tiles' : list (Tile F)) (islands : list (UVIsland.t F)) :
  UVIslandsMask_add mesh tiles islands = Ret tiles' →
  Forall2 (λ t t',
             same_shape t t'
             ∧ ∀ x y, (0 ≤ x < Z.of_nat (mask_resolution t).1)%Z → (0 ≤ y)%Z →
                 ((∀ k isl, islands !! k = Some isl → island_stamps mesh t isl x y = false) →
                  cell t' x y = cell t x y)
                 ∧ (∀ k isl, islands !! k = Some isl →
                      island_stamps mesh t isl x y = true →
                      (∀ k' isl', islands !! k' = Some isl' → k < k' →
                                  island_stamps mesh t isl' x y = false) →
                      cell t' x y = Some (Z.of_nat k mod 65536)%Z))
          tiles tiles'.
Proof.
  unfold UVIslandsMask_add.
  apply (foldM_prefix_ind (λ pre done, Forall2 _ pre done)); [constructor|].
  intros pre t done1 done2 Hpre H. res_inv. subst. rename a into t'.
  apply Forall2_app; [done|]. constructor; [|constructor].
  apply (paint_fold _ (λ ii : nat * UVIsland.t F, island_stamps mesh t ii.2)
           (λ ii, (Z.of_nat ii.1 mod 65536)%Z)) in Ha as [Hs Hc].
  - split; [done|]. intros x y Hx Hy. rewrite (Hc x y Hx Hy). split.
    + intros Hnone. apply fold_none. intros i [k isl] Hi.
      rewrite list_lookup_imap in Hi. destruct (islands !! i) eqn:E; simplify_eq/=.
      by eapply Hnone.
    + intros k isl Hk Hstamp Hlater.
      apply (fold_last (λ ii : nat * UVIsland.t F, island_stamps mesh t ii.2 x y)
               (λ ii : nat * UVIsland.t F, (Z.of_nat ii.1 mod 65536)%Z) _ _ k (k, isl)).
      * by rewrite list_lookup_imap, Hk.
      * done.
      * intros j [k' isl'] Hj Hlt. rewrite list_lookup_imap in Hj.
        destruct (islands !! j) eqn:E; simplify_eq/=. by eapply Hlater.
  - intros [k isl] t0 t2 _ Hs0 Hb. simpl in Hb.
    destruct (add_uv_island_spec mesh _ _ _ _ Hb) as [Hs2 Hc2]. split; [done|].
    intros x y Hx Hy. rewrite (Hc2 x y Hx Hy), (island_stamps_shape mesh t t0) by done.
    simpl. unfold to_uint16, to_int16.
    replace ((Z.of_nat k + 32768) mod 65536 - 32768)%Z
      with (Z.of_nat k + 32768 - 65536 * ((Z.of_nat k + 32768) / 65536) - 32768)%Z
      by (rewrite Z.mod_eq by lia; lia).
    replace (Z.of_nat k + 32768 - 65536 * ((Z.of_nat k + 32768) / 65536) - 32768)%Z
      with (Z.of_nat k + (- ((Z.of_nat k + 32768) / 65536)) * 65536)%Z by lia.
    by rewrite Z.mod_add by lia.
Qed.

End RasterFacts.

(** ** The fan around a vertex *)

Module FanFacts.

Section Walk.
Context {F : Type} {O : FloatOps F}.
Variable mesh : MeshData.t F.

Lemma fan_next_edge_spec vertex current_edge edges r :
  fan_next_edge mesh vertex current_edge edges = Ret r →
  match r with
  | Some edge => ∃ me,
      edge ∈ edges ∧ edge ≠ current_edge ∧ MeshData.edges mesh !! edge = Some me
      ∧ (MeshEdge.vert1 me = vertex ∨ MeshEdge.vert2 me = vertex)
  | None => ∀ edge me,
      edge ∈ edges → edge ≠ current_edge → MeshData.edges mesh !! edge = Some me →
      MeshEdge.vert1 me ≠ vertex ∧ MeshEdge.vert2 me ≠ vertex
  end.
Proof.
  induction edges as [|edge rest IH]; simpl; intros H.
  - simplify_eq. intros edge me Hin. by apply elem_of_nil in Hin.
  - case_bool_decide as Hcur.
    + specialize (IH H). destruct r as [e|].
      * destruct IH as (me & Hin & Hrest). exists me. split; [by apply list_elem_of_further|done].
      * intros e me Hin Hne Hme. apply elem_of_cons in Hin as [->|Hin]; [done|]. by eapply IH.
    + res_inv. rename a into me0. case_bool_decide as Hfar.
      * specialize (IH H). destruct r as [e|].
        -- destruct IH as (me & Hin & Hrest). exists me.
           split; [by apply list_elem_of_further|done].
        -- intros e me Hin Hne Hme. apply elem_of_cons in Hin as [->|Hin]; [|by eapply IH].
           by simplify_eq.
      * simplify_eq. exists me0. split; [apply list_elem_of_here|]. split; [done|].
        split; [done|]. destruct (decide (MeshEdge.vert1 me0 = vertex)); [by left|].
        destruct (decide (MeshEdge.vert2 me0 = vertex)); [by right|]. by destruct Hfar.
Qed.

Lemma fan_next_spec vertex current_edge previous_primitive primitives r :
  fan_next mesh vertex current_edge previous_primitive primitives = Ret r →
  match r with
  | Some (other, edge) => ∃ prim me,
      other ∈ primitives ∧ other ≠ previous_primitive
      ∧ MeshData.primitives mesh !! other = Some prim
      ∧ edge ∈ MeshPrimitive.edges prim ∧ edge ≠ current_edge
      ∧ MeshData.edges mesh !! edge = Some me
      ∧ (MeshEdge.vert1 me = vertex ∨ MeshEdge.vert2 me = vertex)
  | None => ∀ other prim edge me,
      other ∈ primitives → other ≠ previous_primitive →
      MeshData.primitives mesh !! other = Some prim →
      edge ∈ MeshPrimitive.edges prim → edge ≠ current_edge →
      MeshData.edges mesh !! edge = Some me →
      MeshEdge.vert1 me ≠ vertex ∧ MeshEdge.vert2 me ≠ vertex
  end.
Proof.
  induction primitives as [|other rest IH]; simpl; intros H.
  - simplify_eq. intros other prim edge me Hin. by apply elem_of_nil in Hin.
  - case_bool_decide as Hprev.
    + specialize (IH H). destruct r as [[o e]|].
      * destruct IH as (prim & me & Hin & Hrest). exists prim, me.
        split; [by apply list_elem_of_further|done].
      * intros o prim e me Hin Hne. apply elem_of_cons in Hin as [->|Hin]; [done|].
        by eapply IH.
    + res_inv. rename a into prim0. rename a0 into found.
      apply fan_next_edge_spec in Ha0. destruct found as [e0|].
      * simplify_eq. destruct Ha0 as (me & Hin & Hne & Hme & Htouch).
        exists prim0, me. split; [apply list_elem_of_here|done].
      * specialize (IH H). destruct r as [[o e]|].
        -- destruct IH as (prim & me & Hin & Hrest). exists prim, me.
           split; [by apply list_elem_of_further|done].
        -- intros o prim e me Hin Hne Hprim He Hcur Hme.
           apply elem_of_cons in Hin as [->|Hin]; [|by eapply IH].
           simplify_eq. by eapply Ha0.
Qed.

Lemma InnerEdge_new_fresh primitive vertex (ie : InnerEdge.t F) :
  InnerEdge_new mesh primitive vertex = Ret ie →
  InnerEdge.primitive ie = primitive ∧ InnerEdge.found ie = false
  ∧ length (InnerEdge.uvs ie) = 3.
Proof.
  unfold InnerEdge_new. intros H. res_inv.
  case_bool_decide; [by simplify_eq|]. res_inv. case_bool_decide; by simplify_eq.
Qed.

Lemma fan_loop_spec fuel vertex stop_primitive :
  ∀ current_edge previous_primitive inner_edges fan,
    fan_loop mesh fuel vertex stop_primitive current_edge previous_primitive inner_edges
    = Ret fan →
    ∃ path,
      fan_walk mesh vertex (current_edge, previous_primitive) path
      ∧ Fan.inner_edges fan = inner_edges ++ drop (length inner_edges) (Fan.inner_edges fan)
      ∧ InnerEdge.primitive <$> drop (length inner_edges) (Fan.inner_edges fan) = snd <$> path
      ∧ Forall (λ ie, InnerEdge.found ie = false ∧ length (InnerEdge.uvs ie) = 3)
          (drop (length inner_edges) (Fan.inner_edges fan))
      ∧ length path ≤ fuel
      ∧ (Fan.full fan = true → ∃ edge, last path = Some (edge, stop_primitive))
      ∧ (Fan.full fan = false →
         ∀ state, ¬ fan_step mesh vertex
                      (default (current_edge, previous_primitive) (last path)) state).
Proof.
  induction fuel as [|fuel IH]; intros cur prev inner fan H; simpl in H; [done|].
  res_inv. rename a into ce. rename a0 into r.
  apply fan_next_spec in Ha0. destruct r as [[other edge]|].
  - destruct Ha0 as (prim & me & Hin & Hne & Hprim & He & Hcur & Hme & Htouch).
    res_inv. rename a into ie.
    match goal with Hie : InnerEdge_new _ _ _ = Ret _ |- _ =>
      destruct (InnerEdge_new_fresh _ _ _ Hie) as (Hp & Hf & Hu) end.
    assert (fan_step mesh vertex (cur, prev) (edge, other)) as Hstep.
    { exists ce, prim, me. simpl. by repeat split. }
    case_bool_decide as Hstop.
    + simplify_eq. exists [(edge, InnerEdge.primitive ie)]. simpl.
      rewrite drop_app_length. simpl.
      repeat split; try done; try lia.
      * by repeat constructor.
      * intros _. by exists edge.
    + destruct (IH _ _ _ _ H) as (path & Hwalk & Happ & Hprims & Hfresh & Hlen & Hfull & Hdead).
      rewrite length_app in Happ, Hprims, Hfresh. simpl in Happ, Hprims, Hfresh.
      assert (drop (length inner) (Fan.inner_edges fan)
              = ie :: drop (length inner + 1) (Fan.inner_edges fan)) as Hdrop.
      { rewrite Happ at 1. rewrite <- app_assoc, drop_app_length. done. }
      exists ((edge, other) :: path). rewrite Hdrop. simpl.
      split; [done|]. split; [by rewrite Happ at 1; rewrite <- app_assoc|].
      split; [f_equal; [exact Hp|exact Hprims]|].
      split; [by constructor|]. split; [lia|]. split.
      * intros Hf'. destruct (Hfull Hf') as [e He']. exists e.
        destruct path; [done|exact He'].
      * intros Hf' state. specialize (Hdead Hf' state).
        destruct path as [|s path]; [exact Hdead|].
        change (last ((edge, other) :: s :: path)) with (last (s :: path)).
        destruct (last (s :: path)) eqn:E; [exact Hdead|]. by apply last_None in E.
  - simplify_eq. exists []. simpl. rewrite drop_all, app_nil_r.
    repeat split; try done; try lia.
    intros _ [e o] (ce' & prim & me & Hce & Hin & Hne & Hprim & He & Hcur & Hme & Htouch).
    simpl in *. simplify_eq.
    destruct (Ha0 o prim e me Hin Hne Hprim He Hcur Hme) as [H1 H2].
    by destruct Htouch.
Qed.

Lemma segment_is_added_spec (isl : UVIsland.t F) (uv_vertex : UVVertex.t F) v0 v1 :
  ∀ b, segment_is_added isl v0 v1 (UVVertex.uv_edges uv_vertex) = Ret b →
       (b = true ↔ segment_in_island isl uv_vertex v0 v1).
Proof.
  unfold segment_in_island. generalize (UVVertex.uv_edges uv_vertex). intros edges.
  induction edges as [|ei rest IH]; intros b H; simpl in H.
  - simplify_eq. split; [done|]. intros (ei & ? & ? & ? & Hin & _).
    by apply elem_of_nil in Hin.
  - res_inv. rename a into edge. rename a0 into e0. rename a1 into e1.
    case_bool_decide as Hm.
    + simplify_eq. split; [|done]. intros _. exists ei, edge, e0, e1.
      split; [apply list_elem_of_here|done].
    + rewrite (IH b H). split.
      * intros (ei' & edge' & e0' & e1' & Hin & Hrest). exists ei', edge', e0', e1'.
        split; [by apply list_elem_of_further|done].
      * intros (ei' & edge' & e0' & e1' & Hin & Hedge & He0 & He1 & Hmatch).
        apply elem_of_cons in Hin as [->|Hin].
        -- simplify_eq. rewrite Ha0 in He0. rewrite Ha1 in He1. simplify_eq. done.
        -- by exists ei', edge', e0', e1'.
Qed.

End Walk.

(** X22. The constructor of [Fan] walks around the vertex, starting at the
    first edge of the vertex and the first primitive of that edge: each
    blade is a primitive on the edge by which the walk left the blade
    before, other than that blade, and the walk leaves it by another of its
    edges that touches the vertex.  The blades are fresh (not [found]).  A
    fan is full when the walk came back to the primitive it started from,
    which then is the last blade, so a full fan has a blade; it is not full
    when the walk reached a state from which no step leaves. *)
Theorem fan_walks_around_vertex {F} {O : FloatOps F} (mesh : MeshData.t F)
    (fuel vertex : nat) (fan : Fan.t F) :
  Fan_new mesh fuel vertex = Ret fan →
  ∃ mv first_edge ce stop_primitive path,
    MeshData.vertices mesh !! vertex = Some mv
    ∧ MeshVertex.edges mv !! 0 = Some first_edge
    ∧ MeshData.edges mesh !! first_edge = Some ce
    ∧ MeshEdge.primitives ce !! 0 = Some stop_primitive
    ∧ fan_walk mesh vertex (first_edge, stop_primitive) path
    ∧ InnerEdge.primitive <$> Fan.inner_edges fan = snd <$> path
    ∧ Forall (λ ie, InnerEdge.found ie = false) (Fan.inner_edges fan)
    ∧ length (Fan.inner_edges fan) ≤ fuel
    ∧ (Fan.full fan = true → ∃ edge, last path = Some (edge, stop_primitive))
    ∧ (Fan.full fan = false →
       ∀ state, ¬ fan_step mesh vertex
                    (default (first_edge, stop_primitive) (last path)) state).
Proof.
  unfold Fan_new. intros H. res_inv.
  rename a into mv. rename a0 into first_edge. rename a1 into ce. rename a2 into stop.
  destruct (fan_loop_spec mesh _ _ _ _ _ _ _ H)
    as (path & Hwalk & _ & Hprims & Hfresh & Hlen & Hfull & Hdead).
  simpl in Hprims, Hfresh. rewrite drop_0 in Hprims, Hfresh.
  exists mv, first_edge, ce, stop, path. repeat split; try done.
  - eapply Forall_impl; [exact Hfresh|]. by intros ie [? _].
  - apply (f_equal length) in Hprims. rewrite !length_fmap in Hprims. lia.
Qed.

Section Coordinates.
Context {F : Type} {O : FloatOps F}.
Variable mesh : MeshData.t F.

Implicit Types a b c : InnerEdge.t F.

(** [a.uvs[2] = c.uvs[1]]. *)
Local Abbreviation chained a c :=
  (set_uvs a (<[2 := mjoin (InnerEdge.uvs c !! 1)]> (InnerEdge.uvs a))).

(** The blade [b] is the blade [a] with another [uvs[2]]. *)
Local Abbreviation alike a b :=
  (InnerEdge.primitive b = InnerEdge.primitive a
   ∧ InnerEdge.vert_order b = InnerEdge.vert_order a
   ∧ InnerEdge.found b = InnerEdge.found a
   ∧ length (InnerEdge.uvs b) = length (InnerEdge.uvs a)
   ∧ InnerEdge.uvs b !! 0 = InnerEdge.uvs a !! 0
   ∧ InnerEdge.uvs b !! 1 = InnerEdge.uvs a !! 1).

Lemma alike_chained a c : alike a (chained a c).
Proof.
  simpl. rewrite length_insert, !list_lookup_insert_ne by done. done.
Qed.

Lemma chained_third a c :
  2 < length (InnerEdge.uvs a) →
  InnerEdge.uvs (chained a c) !! 2 = Some (mjoin (InnerEdge.uvs c !! 1)).
Proof. intros Hlen. simpl. by apply list_lookup_insert_eq. Qed.

Local Abbreviation chain_step :=
  (λ (acc : list (InnerEdge.t F)) (i : nat),
     match acc !! i, acc !! (i + 1) with
     | Some a, Some c => <[i := chained a c]> acc
     | _, _ => acc
     end).

Lemma chain_fold (inner1 : list (InnerEdge.t F)) k :
  k + 1 ≤ length inner1 →
  length (foldl chain_step inner1 (seq 0 k)) = length inner1
  ∧ ∀ j, foldl chain_step inner1 (seq 0 k) !! j
         = if decide (j < k)
           then a ← inner1 !! j; c ← inner1 !! (j + 1); Some (chained a c)
           else inner1 !! j.
Proof.
  induction k as [|k IH]; intros Hk.
  - simpl. split; [done|]. intros j. destruct (decide (j < 0)); [lia|done].
  - destruct IH as [Hlen Hlook]; [lia|].
    rewrite seq_S, foldl_app. simpl.
    set (acc := foldl chain_step inner1 (seq 0 k)) in *.
    destruct (lookup_lt_is_Some_2 inner1 k) as [a Ha]; [lia|].
    destruct (lookup_lt_is_Some_2 inner1 (k + 1)) as [c Hc]; [lia|].
    rewrite (Hlook k), (Hlook (k + 1)), !decide_False, Ha, Hc by lia.
    split; [by rewrite length_insert|]. intros j.
    destruct (decide (j = k)) as [->|Hne].
    + rewrite list_lookup_insert_eq by lia. rewrite decide_True by lia.
      by rewrite Ha, Hc.
    + rewrite list_lookup_insert_ne by done. rewrite (Hlook j).
      destruct (decide (j < k)); [by rewrite decide_True by lia|].
      by rewrite decide_False by lia.
Qed.

(** The blades after the two loops that copy [uvs[1]] of the next blade
    into [uvs[2]]. *)
Lemma chain_all (inner0 : list (InnerEdge.t F)) first last j a0 :
  head inner0 = Some first →
  inner0 !! (length inner0 - 1) = Some last →
  inner0 !! j = Some a0 →
  2 < length (InnerEdge.uvs a0) →
  let inner1 := <[length inner0 - 1 := chained last first]> inner0 in
  let inner2 := foldl chain_step inner1 (seq 0 (length inner1 - 1)) in
  length inner2 = length inner0
  ∧ ∃ b c, inner2 !! j = Some b
           ∧ alike a0 b
           ∧ inner0 !! ((j + 1) mod length inner0) = Some c
           ∧ InnerEdge.uvs b !! 2 = Some (mjoin (InnerEdge.uvs c !! 1)).
Proof.
  intros Hfirst Hlast Hj Hlen inner1 inner2.
  set (n := length inner0) in *.
  assert (j < n) as Hjn by (by eapply lookup_lt_Some).
  assert (length inner1 = n) as Hn1 by (unfold inner1; by rewrite length_insert).
  destruct (chain_fold inner1 (length inner1 - 1)) as [Hlen2 Hlook]; [lia|].
  fold inner2 in Hlen2, Hlook. split; [lia|].
  rewrite head_lookup in Hfirst.
  assert (∀ i, i ≠ n - 1 → inner1 !! i = inner0 !! i) as Hother.
  { intros i Hi. unfold inner1. by rewrite list_lookup_insert_ne by done. }
  assert (inner1 !! (n - 1) = Some (chained last first)) as Hend.
  { unfold inner1. apply list_lookup_insert_eq. fold n. lia. }
  rewrite (Hlook j), Hn1.
  destruct (decide (j < n - 1)) as [Hlt|Hge].
  - rewrite (Hother j), Hj by lia. simpl.
    rewrite (Nat.mod_small (j + 1)) by lia.
    destruct (lookup_lt_is_Some_2 inner0 (j + 1)) as [c0 Hc0]; [fold n; lia|].
    destruct (decide (j + 1 = n - 1)) as [Hl|Hl].
    + rewrite Hl in Hc0 |- *. rewrite Hend. simpl.
      assert (c0 = last) as -> by congruence.
      exists (chained a0 (chained last first)), last.
      split; [done|]. split; [apply alike_chained|]. split; [done|].
      rewrite chained_third by done.
      simpl. by rewrite list_lookup_insert_ne by done.
    + rewrite (Hother (j + 1)), Hc0 by done. simpl. exists (chained a0 c0), c0.
      split; [done|]. split; [apply alike_chained|]. split; [done|].
      by apply chained_third.
  - assert (j = n - 1) as -> by lia. rewrite Hend.
    replace (n - 1 + 1) with n by lia. rewrite Nat.Div0.mod_same.
    assert (a0 = last) as -> by congruence. exists (chained last first), first.
    split; [done|]. split; [apply alike_chained|]. split; [done|].
    by apply chained_third.
Qed.

Lemma init_uv_find_spec (isl : UVIsland.t F) (uv_vertex : UVVertex.t F) other_v edges uv1 :
  init_uv_find mesh isl uv_vertex other_v edges = Ret (Some uv1) →
  ∃ ei edge other ov,
    ei ∈ edges
    ∧ UVIsland.uv_edges isl !! ei = Some edge
    ∧ UVEdge_get_other_uv_vertex isl edge (UVVertex.vertex uv_vertex) = Ret other
    ∧ UVIsland.uv_vertices isl !! other = Some ov
    ∧ mesh_v mesh (UVVertex.vertex ov) = Ret other_v
    ∧ uv1 = UVVertex.uv ov.
Proof.
  induction edges as [|ei rest IH]; simpl; intros H; [done|].
  res_inv. case_bool_decide as Hm.
  - simplify_eq. do 4 eexists. split; [apply list_elem_of_here|]. by repeat split.
  - destruct (IH H) as (ei' & edge & other & ov & Hin & Hrest).
    exists ei', edge, other, ov. split; [by apply list_elem_of_further|done].
Qed.

End Coordinates.

(** X23. [Fan::mark_already_added_segments] recomputes the [found] flag of
    every blade and changes nothing else: a blade is found exactly when an
    edge of the UV vertex joins, in either order, the mesh vertices
    [vertices[vert_order[0]]] and [vertices[vert_order[1]]] of the blade.
    [count_num_to_add] then counts the blades that are not found: it is at
    most the number of blades, and 0 exactly when every blade is found. *)
Theorem mark_segments_finds_island_edges {F} {O : FloatOps F} (mesh : MeshData.t F)
    (isl : UVIsland.t F) (fan fan' : Fan.t F) (uv_vertex : UVVertex.t F) :
  Fan_mark_already_added_segments mesh isl fan uv_vertex = Ret fan' →
  Fan.full fan' = Fan.full fan
  ∧ Forall2 (λ ie ie',
               InnerEdge.primitive ie' = InnerEdge.primitive ie
               ∧ InnerEdge.uvs ie' = InnerEdge.uvs ie
               ∧ InnerEdge.vert_order ie' = InnerEdge.vert_order ie
               ∧ ∃ v0 v1,
                   inner_edge_vertex mesh ie 0 = Ret v0
                   ∧ inner_edge_vertex mesh ie 1 = Ret v1
                   ∧ (InnerEdge.found ie' = true ↔ segment_in_island isl uv_vertex v0 v1))
            (Fan.inner_edges fan) (Fan.inner_edges fan')
  ∧ Fan_count_num_to_add fan' ≤ length (Fan.inner_edges fan)
  ∧ (Fan_count_num_to_add fan' = 0
     ↔ Forall (λ ie', InnerEdge.found ie' = true) (Fan.inner_edges fan')).
Proof.
  unfold Fan_mark_already_added_segments. intros H. res_inv. subst. simpl.
  rename a into inner'. split; [done|].
  assert (Forall2 (λ ie ie',
             InnerEdge.primitive ie' = InnerEdge.primitive ie
             ∧ InnerEdge.uvs ie' = InnerEdge.uvs ie
             ∧ InnerEdge.vert_order ie' = InnerEdge.vert_order ie
             ∧ ∃ v0 v1,
                 inner_edge_vertex mesh ie 0 = Ret v0
                 ∧ inner_edge_vertex mesh ie 1 = Ret v1
                 ∧ (InnerEdge.found ie' = true ↔ segment_in_island isl uv_vertex v0 v1))
            (Fan.inner_edges fan) inner') as Hall.
  { revert Ha. apply (foldM_prefix_ind (λ pre acc, Forall2 _ pre acc)); [constructor|].
    intros pre ie acc acc' Hpre Hstep. res_inv. subst.
    apply Forall2_app; [done|]. constructor; [|constructor].
    split; [done|]. split; [done|]. split; [done|].
    match goal with
    | H0 : inner_edge_vertex _ _ 0 = Ret ?v0, H1 : inner_edge_vertex _ _ 1 = Ret ?v1,
      Hs : segment_is_added _ _ _ _ = Ret _ |- _ =>
        exists v0, v1; split; [exact H0|]; split; [exact H1|];
        exact (segment_is_added_spec _ _ _ _ _ Hs)
    end. }
  split; [done|]. unfold Fan_count_num_to_add. simpl. split.
  - rewrite (Forall2_length _ _ _ Hall). apply length_filter.
  - clear. induction inner' as [|ie l IH]; simpl; [by split|].
    rewrite filter_cons. destruct (decide (InnerEdge.found ie = false)) as [Hf|Hf]; simpl.
    + split; [done|]. intros Hall. apply Forall_cons in Hall as [Hie _]. congruence.
    + rewrite IH. split.
      * intros Hl. constructor; [by destruct (InnerEdge.found ie)|done].
      * intros Hall. by apply Forall_cons in Hall as [_ Hl].
Qed.

(** X24. [Fan::init_uv_coordinates] chains the blades in UV space: it keeps
    the blades, their primitives, vertex orders and flags, and afterwards
    [uvs[2]] of every blade is [uvs[1]] of the next blade, the last blade
    being followed by the first.  [uvs[0]] and [uvs[1]] of a blade either
    stay as they were or become the UV coordinate of the vertex and that of
    the UV vertex at the other end of one of its edges.  On a fan without
    blades the function reads [inner_edges.last()] of an empty vector. *)
Theorem init_uv_coordinates_chains_blades {F} {O : FloatOps F} (mesh : MeshData.t F)
    (isl : UVIsland.t F) (fan fan' : Fan.t F) (uv_vertex : UVVertex.t F) :
  Forall (λ ie, length (InnerEdge.uvs ie) = 3) (Fan.inner_edges fan) →
  Fan_init_uv_coordinates mesh isl fan uv_vertex = Ret fan' →
  Fan.full fan' = Fan.full fan
  ∧ Fan.inner_edges fan ≠ []
  ∧ length (Fan.inner_edges fan') = length (Fan.inner_edges fan)
  ∧ ∀ i ie, Fan.inner_edges fan !! i = Some ie →
      ∃ ie' next',
        Fan.inner_edges fan' !! i = Some ie'
        ∧ Fan.inner_edges fan' !! ((i + 1) mod length (Fan.inner_edges fan)) = Some next'
        ∧ InnerEdge.primitive ie' = InnerEdge.primitive ie
        ∧ InnerEdge.vert_order ie' = InnerEdge.vert_order ie
        ∧ InnerEdge.found ie' = InnerEdge.found ie
        ∧ length (InnerEdge.uvs ie') = 3
        ∧ InnerEdge.uvs ie' !! 2 = InnerEdge.uvs next' !! 1
        ∧ ((InnerEdge.uvs ie' !! 0 = InnerEdge.uvs ie !! 0
            ∧ InnerEdge.uvs ie' !! 1 = InnerEdge.uvs ie !! 1)
           ∨ (InnerEdge.uvs ie' !! 0 = Some (Some (UVVertex.uv uv_vertex))
              ∧ ∃ ei edge other ov,
                  ei ∈ UVVertex.uv_edges uv_vertex
                  ∧ UVIsland.uv_edges isl !! ei = Some edge
                  ∧ UVEdge_get_other_uv_vertex isl edge (UVVertex.vertex uv_vertex)
                    = Ret other
                  ∧ UVIsland.uv_vertices isl !! other = Some ov
                  ∧ InnerEdge.uvs ie' !! 1 = Some (Some (UVVertex.uv ov)))).
Proof.
  intros Hthree. unfold Fan_init_uv_coordinates. intros H. res_inv. subst. simpl.
  rename a into inner0. rename a0 into first. rename a1 into last.
  assert (Forall2 (λ ie ie0,
             InnerEdge.primitive ie0 = InnerEdge.primitive ie
             ∧ InnerEdge.vert_order ie0 = InnerEdge.vert_order ie
             ∧ InnerEdge.found ie0 = InnerEdge.found ie
             ∧ length (InnerEdge.uvs ie0) = length (InnerEdge.uvs ie)
             ∧ (length (InnerEdge.uvs ie) = 3 →
                (InnerEdge.uvs ie0 !! 0 = InnerEdge.uvs ie !! 0
                 ∧ InnerEdge.uvs ie0 !! 1 = InnerEdge.uvs ie !! 1)
                ∨ (InnerEdge.uvs ie0 !! 0 = Some (Some (UVVertex.uv uv_vertex))
                   ∧ ∃ ei edge other ov,
                       ei ∈ UVVertex.uv_edges uv_vertex
                       ∧ UVIsland.uv_edges isl !! ei = Some edge
                       ∧ UVEdge_get_other_uv_vertex isl edge (UVVertex.vertex uv_vertex)
                         = Ret other
                       ∧ UVIsland.uv_vertices isl !! other = Some ov
                       ∧ InnerEdge.uvs ie0 !! 1 = Some (Some (UVVertex.uv ov)))))
            (Fan.inner_edges fan) inner0) as Hall.
  { revert Ha. apply (foldM_prefix_ind (λ pre acc, Forall2 _ pre acc)); [constructor|].
    intros pre ie acc acc' Hpre Hstep. res_inv. subst.
    apply Forall2_app; [done|]. constructor; [|constructor].
    match goal with Hf : init_uv_find _ _ _ _ _ = Ret ?r |- _ =>
      destruct r as [uv1|]; [apply init_uv_find_spec in Hf|] end.
    - simpl. rewrite !length_insert. repeat (split; [done|]). intros Hlen. right.
      match goal with Hf : ∃ _, _ |- _ =>
        destruct Hf as (ei & edge & other & ov & Hin & Hedge & Hother & Hov & _ & ->) end.
      split.
      + rewrite list_lookup_insert_ne by done. apply list_lookup_insert_eq. lia.
      + exists ei, edge, other, ov. repeat (split; [done|]).
        apply list_lookup_insert_eq. rewrite length_insert. lia.
    - repeat (split; [done|]). intros _. by left. }
  pose proof (Forall2_length _ _ _ Hall) as Hlen.
  assert (Fan.inner_edges fan ≠ []) as Hne.
  { intros Hnil. rewrite Hnil in Hall. apply Forall2_nil_inv_l in Hall. by subst. }
  split; [done|]. split; [done|].
  assert (∀ j a0, inner0 !! j = Some a0 → length (InnerEdge.uvs a0) = 3) as Hthree0.
  { intros j a0 Hj. destruct (Forall2_lookup_r _ _ _ _ _ Hall Hj) as (ie & Hie & _ & _ & _ & -> & _).
    rewrite Forall_forall in Hthree. apply Hthree. by eapply list_elem_of_lookup_2. }
  split.
  { destruct (lookup_lt_is_Some_2 inner0 0) as [b0 Hb0].
    { destruct inner0; [done|simpl; lia]. }
    destruct (chain_all inner0 first last 0 b0) as [Hl _]; try done.
    - rewrite (Hthree0 0 b0 Hb0). lia.
    - simpl in Hl. rewrite Hl. done. }
  intros i ie Hie.
  destruct (Forall2_lookup_l _ _ _ _ _ Hall Hie)
    as (ie0 & Hie0 & Hp & Ho & Hf & Hu & Hcoords).
  destruct (chain_all inner0 first last i ie0) as [_ (b & c & Hb & Hab & Hc & Hthird)];
    try done.
  { rewrite (Hthree0 i ie0 Hie0). lia. }
  assert ((i + 1) mod length inner0 < length inner0) as Hnext by (by eapply lookup_lt_Some).
  destruct (chain_all inner0 first last ((i + 1) mod length inner0) c)
    as [_ (b' & _ & Hb' & Hcb' & _)]; try done.
  { rewrite (Hthree0 _ c Hc). lia. }
  simpl in Hb, Hb'. exists b, b'. rewrite <- Hlen in Hb'.
  destruct Hab as (Hp' & Ho' & Hf' & Hu' & H0 & H1).
  destruct Hcb' as (_ & _ & _ & _ & _ & H1').
  pose proof (Hthree0 _ _ Hie0) as Hthree1. pose proof (Hthree0 _ _ Hc) as Hthree2.
  split; [done|]. split; [rewrite Hlen; rewrite Hlen in Hb'; exact Hb'|].
  split; [congruence|]. split; [congruence|]. split; [congruence|].
  split; [congruence|]. split.
  - rewrite Hthird, H1'.
    destruct (lookup_lt_is_Some_2 (InnerEdge.uvs c) 1) as [u Hu1]; [lia|].
    by rewrite Hu1.
  - rewrite H0, H1. apply Hcoords.
    rewrite Forall_forall in Hthree. apply Hthree. by eapply list_elem_of_lookup_2.
Qed.

End FanFacts.

(** ** The borders partition the border edges *)

Module PartitionFacts.

Section Partition.
Context {F : Type} {O : FloatOps F}.

Implicit Types isl : UVIsland.t F.
Implicit Types edges bs : list UVBorderEdge.t.

Local Abbreviation keys edges := (edge_key <$> edges).

Lemma untagged_insert_perm edges j c c' :
  edges !! j = Some c → UVBorderEdge.tag c = false → UVBorderEdge.tag c' = true →
  untagged edges ≡ₚ c :: untagged (<[j := c']> edges).
Proof.
  unfold untagged. revert j. induction edges as [|x edges IH]; intros j Hj Ht Ht'; [done|].
  destruct j as [|j]; simpl in *.
  - simplify_eq. rewrite (filter_cons_True _ c) by done.
    by rewrite filter_cons_False by congruence.
  - rewrite !(filter_cons _ x). destruct (decide (UVBorderEdge.tag x = false)); simpl.
    + rewrite (IH j Hj Ht Ht'). apply Permutation_swap.
    + by apply IH.
Qed.

Lemma walk_partition isl first_uv fuel :
  ∀ current_uv edges bs bs' edges',
    extract_walk fuel isl first_uv current_uv edges bs = Ret (bs', edges') →
    keys bs' ++ keys (untagged edges') ≡ₚ keys bs ++ keys (untagged edges).
Proof.
  induction fuel as [|fuel IH]; intros current_uv edges bs bs' edges' H; simpl in H.
  - case_bool_decide; [|done]. by simplify_eq.
  - case_bool_decide; [by simplify_eq|].
    res_inv. res_case; [|done]. repeat res_case. simplify_eq.
    match goal with Hs : extract_scan _ _ _ = Ret _ |- _ =>
      apply BorderFacts.extract_scan_Some in Hs as (j & c & r & Hj & Ht & -> & -> & _ & _) end.
    rewrite (IH _ _ _ _ _ H).
    rewrite (untagged_insert_perm edges j c (oriented c r) Hj Ht eq_refl).
    rewrite fmap_app, <- app_assoc. simpl. done.
Qed.

Lemma extract_partition isl edges b edges' :
  UVBorder_extract_from_edges isl edges = Ret (Some b, edges') →
  keys (UVBorder.edges b) ++ keys (untagged edges') ≡ₚ keys (untagged edges).
Proof.
  unfold UVBorder_extract_from_edges. intros H.
  destruct (list_find _ edges) as [[i start]|] eqn:Hf; [|by simplify_eq].
  apply list_find_Some in Hf as (Hi & Ht & _).
  res_inv. simplify_eq.
  match goal with Hw : extract_walk _ _ _ _ _ _ = Ret ?r |- _ =>
    destruct r as [bs es]; apply walk_partition in Hw; simpl; rewrite Hw end.
  by rewrite (untagged_insert_perm edges i start (set_tag start true) Hi Ht eq_refl).
Qed.

Lemma keys_update_indexes b border_index :
  keys (UVBorder.edges (UVBorder_update_indexes b border_index)) = keys (UVBorder.edges b).
Proof.
  apply list_eq. intros i. rewrite !list_lookup_fmap, BorderFacts.update_indexes_lookup.
  by destruct (UVBorder.edges b !! i).
Qed.

Lemma keys_flip b b' :
  UVBorder_flip b = Ret b' → keys (UVBorder.edges b') ≡ₚ keys (UVBorder.edges b).
Proof.
  unfold UVBorder_flip. intros H. res_inv. subst b'.
  rewrite keys_update_indexes. simpl. rewrite fmap_reverse, reverse_Permutation.
  rewrite <- list_fmap_compose. done.
Qed.

Lemma loop_partition isl fuel :
  ∀ edges borders result,
    extract_borders_loop fuel isl edges borders = Ret result →
    ∃ new, result = borders ++ new
           ∧ keys (edges_of_borders new) ≡ₚ keys (untagged edges).
Proof.
  induction fuel as [|fuel IH]; intros edges borders result H; simpl in H; [done|].
  res_inv.
  match goal with Hx : UVBorder_extract_from_edges _ _ = Ret ?r |- _ =>
    destruct r as [[e|] edges']; rename Hx into Hex end; simpl in H.
  - res_inv. apply IH in H as (new & -> & Hnew).
    eexists (_ :: new). rewrite <- app_assoc. split; [done|].
    unfold edges_of_borders in *. simpl. rewrite fmap_app, Hnew.
    rewrite <- (extract_partition _ _ _ _ Hex). apply Permutation_app_tail.
    match goal with Hx : UVBorder_is_ccw _ _ = Ret ?c |- _ => destruct c end; res_inv.
    + by subst.
    + by apply keys_flip.
  - simplify_eq. exists []. rewrite app_nil_r. split; [done|].
    pose proof (proj2 (BorderFacts.extract_None isl edges) (ex_intro _ _ Hex)) as Hall.
    clear Hex. unfold untagged. induction edges as [|c edges IHe]; [done|].
    rewrite filter_cons_False.
    + apply IHe. intros be Hin. apply Hall. by apply list_elem_of_further.
    + rewrite (Hall c (list_elem_of_here _ _)). done.
Qed.

Lemma candidates_spec isl candidates :
  border_edges_of_island isl = Ret candidates →
  Forall (λ be, UVBorderEdge.tag be = false) candidates
  ∧ ∀ ei p, (ei, p) ∈ keys candidates ↔
      ∃ prim e, UVIsland.uv_primitives isl !! p = Some prim
                ∧ ei ∈ UVPrimitive.edges prim
                ∧ UVIsland.uv_edges isl !! ei = Some e
                ∧ UVEdge_is_border_edge e = true.
Proof.
  unfold border_edges_of_island. intros H.
  assert (∀ (prims : list (nat * UVPrimitive.t)) acc0 acc,
            foldM (λ (acc : list UVBorderEdge.t) (ip : nat * UVPrimitive.t),
                     foldM (λ (acc : list UVBorderEdge.t) (ei : nat),
                              e ← deref (UVIsland.uv_edges isl) ei;
                              Ret (if UVEdge_is_border_edge e
                                   then acc ++ [UVBorderEdge_new ei ip.1] else acc))
                           acc (UVPrimitive.edges ip.2))
                  acc0 prims = Ret acc →
            (Forall (λ be, UVBorderEdge.tag be = false) acc0 →
             Forall (λ be, UVBorderEdge.tag be = false) acc)
            ∧ ∀ ei p, (ei, p) ∈ keys acc ↔
                (ei, p) ∈ keys acc0
                ∨ ∃ prim e, (p, prim) ∈ prims ∧ ei ∈ UVPrimitive.edges prim
                            ∧ UVIsland.uv_edges isl !! ei = Some e
                            ∧ UVEdge_is_border_edge e = true) as Hgen.
  { clear H candidates. intros prims acc0 acc.
    apply (foldM_prefix_ind
             (λ pre acc,
                (Forall (λ be, UVBorderEdge.tag be = false) acc0 →
                 Forall (λ be, UVBorderEdge.tag be = false) acc)
                ∧ ∀ ei p, (ei, p) ∈ keys acc ↔
                    (ei, p) ∈ keys acc0
                    ∨ ∃ prim e, (p, prim) ∈ pre ∧ ei ∈ UVPrimitive.edges prim
                                ∧ UVIsland.uv_edges isl !! ei = Some e
                                ∧ UVEdge_is_border_edge e = true)).
    - split; [done|]. intros ei p. split; [by left|].
      intros [?|(prim & e & Hin & _)]; [done|]. by apply elem_of_nil in Hin.
    - intros pre [p0 prim0] s s1 [Htag Hkeys] Hfold. simpl in Hfold.
      assert ((Forall (λ be, UVBorderEdge.tag be = false) acc0 →
               Forall (λ be, UVBorderEdge.tag be = false) s1)
              ∧ ∀ ei p, (ei, p) ∈ keys s1 ↔
                  (ei, p) ∈ keys s
                  ∨ (p = p0 ∧ ∃ e, ei ∈ UVPrimitive.edges prim0
                                   ∧ UVIsland.uv_edges isl !! ei = Some e
                                   ∧ UVEdge_is_border_edge e = true)) as Hinner;
        [revert Hfold;
         apply (foldM_prefix_ind
               (λ epre acc,
                  (Forall (λ be, UVBorderEdge.tag be = false) acc0 →
                   Forall (λ be, UVBorderEdge.tag be = false) acc)
                  ∧ ∀ ei p, (ei, p) ∈ keys acc ↔
                      (ei, p) ∈ keys s
                      ∨ (p = p0 ∧ ∃ e, ei ∈ epre ∧ UVIsland.uv_edges isl !! ei = Some e
                                       ∧ UVEdge_is_border_edge e = true)))
        |revert Hinner].
      + split; [done|]. intros ei p. split; [by left|].
        intros [?|(_ & e & Hin & _)]; [done|]. by apply elem_of_nil in Hin.
      + intros epre ei0 t t1 [Htag' Hkeys'] Hstep. res_inv. rename a into e0.
        destruct (UVEdge_is_border_edge e0) eqn:Hb; subst t1.
        * split.
          -- intros H0. apply Forall_app. split; [by apply Htag'|]. by repeat constructor.
          -- intros ei p. rewrite fmap_app, elem_of_app, Hkeys'. simpl.
             rewrite list_elem_of_singleton. unfold edge_key. simpl. split.
             ++ intros [[?|(-> & e & Hin & He & Hbe)]|Heq].
                ** by left.
                ** right. split; [done|]. exists e. split; [|done].
                   apply elem_of_app. by left.
                ** simplify_eq. right. split; [done|]. exists e0. split; [|done].
                   apply elem_of_app. right. by apply list_elem_of_singleton.
             ++ intros [?|(-> & e & Hin & He & Hbe)]; [by left; left|].
                apply elem_of_app in Hin as [Hin|Hin].
                ** left. right. split; [done|]. by exists e.
                ** apply list_elem_of_singleton in Hin as ->. by right.
        * split; [done|]. intros ei p. rewrite Hkeys'. split.
          -- intros [?|(-> & e & Hin & He & Hbe)]; [by left|].
             right. split; [done|]. exists e. split; [|done]. apply elem_of_app. by left.
          -- intros [?|(-> & e & Hin & He & Hbe)]; [by left|].
             apply elem_of_app in Hin as [Hin|Hin].
             ++ right. split; [done|]. by exists e.
             ++ apply list_elem_of_singleton in Hin as ->. simplify_eq. congruence.
      + intros [Htag1 Hkeys1]. split; [done|]. intros ei p. rewrite Hkeys1, Hkeys. split.
        * intros [[?|(prim & e & Hin & Hrest)]|(-> & e & Hin & He & Hbe)].
          -- by left.
          -- right. exists prim, e. split; [|done]. apply elem_of_app. by left.
          -- right. exists prim0, e. split; [|done]. apply elem_of_app. right.
             by apply list_elem_of_singleton.
        * intros [?|(prim & e & Hin & Hei & He & Hbe)]; [by left; left|].
          apply elem_of_app in Hin as [Hin|Hin].
          -- left. right. by exists prim, e.
          -- apply list_elem_of_singleton in Hin. simplify_eq. right.
             split; [done|]. by exists e. }
  destruct (Hgen _ _ _ H) as [Htag Hkeys]. split; [by apply Htag|].
  intros ei p. rewrite Hkeys. split.
  - intros [Hin|(prim & e & Hin & Hrest)]; [by apply elem_of_nil in Hin|].
    apply elem_of_imap_pair in Hin. by exists prim, e.
  - intros (prim & e & Hp & Hrest). right. exists prim, e.
    split; [by apply elem_of_imap_pair|done].
Qed.

Lemma untagged_all edges :
  Forall (λ be, UVBorderEdge.tag be = false) edges → untagged edges = edges.
Proof.
  unfold untagged. induction 1 as [|c edges Hc _ IH]; [done|].
  by rewrite filter_cons_True, IH by done.
Qed.

End Partition.

(** X25. The borders that [UVIsland::extract_borders] appends partition the
    border edges of the island: their border edges are, up to order and
    orientation, the candidates that the function collects, each once; and
    a UV edge is a candidate for a UV primitive exactly when it is an edge
    of the primitive that a single primitive uses.  The vertices, the edges
    and the primitives of the island are not changed. *)
Theorem extracted_borders_partition {F} {O : FloatOps F} (isl isl' : UVIsland.t F) :
  UVIsland_extract_borders isl = Ret isl' →
  ∃ candidates new,
    border_edges_of_island isl = Ret candidates
    ∧ UVIsland.borders isl' = UVIsland.borders isl ++ new
    ∧ edge_key <$> edges_of_borders new ≡ₚ edge_key <$> candidates
    ∧ (∀ ei p, (ei, p) ∈ edge_key <$> candidates ↔
         ∃ prim e, UVIsland.uv_primitives isl !! p = Some prim
                   ∧ ei ∈ UVPrimitive.edges prim
                   ∧ UVIsland.uv_edges isl !! ei = Some e
                   ∧ UVEdge_is_border_edge e = true)
    ∧ UVIsland.uv_vertices isl' = UVIsland.uv_vertices isl
    ∧ UVIsland.uv_edges isl' = UVIsland.uv_edges isl
    ∧ UVIsland.uv_primitives isl' = UVIsland.uv_primitives isl.
Proof.
  unfold UVIsland_extract_borders. intros H. res_inv. subst. simpl.
  rename a into candidates.
  match goal with Hx : extract_borders_loop _ _ _ _ = Ret _ |- _ =>
    apply loop_partition in Hx as (new & -> & Hnew) end.
  destruct (candidates_spec _ _ Ha) as [Htag Hkeys].
  exists candidates, new. split; [done|]. split; [done|].
  split; [by rewrite Hnew, untagged_all|]. by split.
Qed.

End PartitionFacts.

(** ** No pointer dangles *)

Module LinkFacts.

Section Links.
Context {F : Type} {O : FloatOps F}.
Variable mesh : MeshData.t F.

Implicit Types isl : UVIsland.t F.

(** The stores of [isl'] are at least as large as those of [isl], with the
    same primitives and borders, and linked where those of [isl] are. *)
Local Abbreviation step n isl isl' :=
  ((stores_linked n isl → stores_linked n isl')
   ∧ length (UVIsland.uv_vertices isl) ≤ length (UVIsland.uv_vertices isl')
   ∧ length (UVIsland.uv_edges isl) ≤ length (UVIsland.uv_edges isl')
   ∧ UVIsland.uv_primitives isl' = UVIsland.uv_primitives isl
   ∧ UVIsland.borders isl' = UVIsland.borders isl).

Lemma step_refl n isl : step n isl isl.
Proof. split; [done|]. by repeat split. Qed.

Lemma step_trans n isl1 isl2 isl3 : step n isl1 isl2 → step n isl2 isl3 → step n isl1 isl3.
Proof.
  intros (H1 & Hv1 & He1 & Hp1 & Hb1) (H2 & Hv2 & He2 & Hp2 & Hb2).
  split; [auto|]. split; [lia|]. split; [lia|]. split; congruence.
Qed.

Lemma below_mono (l : list nat) a b : a ≤ b → Forall (λ i, i < a) l → Forall (λ i, i < b) l.
Proof. intros Hab Hl. eapply Forall_impl; [exact Hl|]. intros i Hi. simpl in *. lia. Qed.

Lemma linked_vertex n isl t isl1 p :
  UVIsland_lookup_or_create_vertex isl t = (isl1, p) →
  step n isl isl1 ∧ p < length (UVIsland.uv_vertices isl1).
Proof.
  unfold UVIsland_lookup_or_create_vertex.
  destruct (list_find _ _) as [[i x]|] eqn:Hf; intros H; simplify_eq.
  - split; [apply step_refl|]. apply list_find_Some in Hf as [Hi _].
    by eapply lookup_lt_Some.
  - simpl. rewrite length_app. simpl. split; [|lia].
    split; [|by repeat split; try lia]. intros (He & Hv & Hp).
    split; [|split; [|done]]; simpl.
    + eapply Forall_impl; [exact He|]. intros e (? & ? & ?). rewrite length_app. simpl.
      repeat split; [lia|lia|done].
    + apply Forall_app. split; [done|]. by repeat constructor.
Qed.

Lemma linked_edge n isl a b isl1 ei :
  UVIsland_lookup_or_create_edge isl (a, b) = (isl1, ei) →
  a < length (UVIsland.uv_vertices isl) → b < length (UVIsland.uv_vertices isl) →
  step n isl isl1 ∧ ei < length (UVIsland.uv_edges isl1)
  ∧ UVIsland.uv_vertices isl1 = UVIsland.uv_vertices isl.
Proof.
  unfold UVIsland_lookup_or_create_edge.
  destruct (list_find _ _) as [[i x]|] eqn:Hf; intros H Ha Hb; simplify_eq.
  - split; [apply step_refl|]. split; [|done]. apply list_find_Some in Hf as [Hi _].
    by eapply lookup_lt_Some.
  - simpl. rewrite length_app. simpl. split; [|split; [lia|done]].
    split; [|by repeat split; try lia]. intros (He & Hv & Hp).
    split; [|split]; simpl.
    + apply Forall_app. split; [done|]. by repeat constructor.
    + eapply Forall_impl; [exact Hv|]. intros x. rewrite length_app. simpl.
      apply below_mono. lia.
    + eapply Forall_impl; [exact Hp|]. intros x. rewrite length_app. simpl.
      apply below_mono. lia.
Qed.

Lemma Forall_append_non_duplicates (P : nat → Prop) l x :
  Forall P l → P x → Forall P (append_non_duplicates l x).
Proof.
  intros Hl Hx. unfold append_non_duplicates. case_bool_decide; [done|].
  apply Forall_app. split; [done|]. by constructor.
Qed.

Lemma linked_register n isl v ei isl1 :
  register_edge_with_vertex isl v ei = Ret isl1 → ei < length (UVIsland.uv_edges isl) →
  step n isl isl1 ∧ UVIsland.uv_edges isl1 = UVIsland.uv_edges isl.
Proof.
  unfold register_edge_with_vertex. intros H Hei. res_inv. subst. simpl.
  rewrite length_insert. split; [|done]. split; [|by repeat split].
  intros (He & Hv & Hp). split; [|split; [|done]]; simpl.
  - eapply Forall_impl; [exact He|]. intros e. by rewrite length_insert.
  - apply Forall_insert; [done|]. simpl. apply Forall_append_non_duplicates; [|done].
    rewrite Forall_forall in Hv. apply Hv. by eapply list_elem_of_lookup_2.
Qed.

Lemma linked_edge_vertices n isl ei isl1 :
  UVEdge_append_to_uv_vertices isl ei = Ret isl1 →
  step n isl isl1 ∧ UVIsland.uv_edges isl1 = UVIsland.uv_edges isl.
Proof.
  unfold UVEdge_append_to_uv_vertices. intros H. res_inv.
  assert (ei < length (UVIsland.uv_edges isl)) as Hei by (by eapply lookup_lt_Some).
  destruct (linked_register n _ _ _ _ Ha0 Hei) as [Hs1 He1].
  destruct (linked_register n _ _ _ _ H) as [Hs2 He2]; [by rewrite He1|].
  split; [by eapply step_trans|congruence].
Qed.


Lemma linked_set_edge n isl ei e ps :
  UVIsland.uv_edges isl !! ei = Some e →
  (Forall (λ p, p < n) (UVEdge.uv_primitives e) → Forall (λ p, p < n) ps) →
  step n isl (set_uv_edges isl (<[ei := UVEdge.mk (UVEdge.vertices e) ps]>
                                  (UVIsland.uv_edges isl))).
Proof.
  intros He Hps. split; [|simpl; rewrite length_insert; by repeat split].
  unfold stores_linked. simpl. rewrite !length_insert.
  intros (Hes & Hv & Hp). split; [|done].
  apply Forall_insert; [done|]. simpl.
  rewrite Forall_forall in Hes.
  destruct (Hes e) as (H1 & H2 & H3); [by eapply list_elem_of_lookup_2|]. auto.
Qed.


Lemma linked_weaken n m isl : n ≤ m → stores_linked n isl → stores_linked m isl.
Proof.
  intros Hnm (He & Hv & Hp). split; [|done].
  eapply Forall_impl; [exact He|]. intros e (? & ? & Hu). repeat split; [done..|].
  by eapply below_mono.
Qed.

Lemma linked_append n isl prim :
  stores_linked n isl →
  Forall (λ ei, ei < length (UVIsland.uv_edges isl)) (UVPrimitive.edges prim) →
  stores_linked n (set_uv_primitives isl (UVIsland.uv_primitives isl ++ [prim])).
Proof.
  intros (He & Hv & Hp) Hprim. split; [done|]. split; [done|]. simpl.
  apply Forall_app. split; [done|]. by constructor.
Qed.

Lemma linked_primitive_edges n isl p prim :
  stores_linked n isl → UVIsland.uv_primitives isl !! p = Some prim →
  Forall (λ ei, ei < length (UVIsland.uv_edges isl)) (UVPrimitive.edges prim).
Proof.
  intros (_ & _ & Hp) Hprim. rewrite Forall_forall in Hp. apply Hp.
  by eapply list_elem_of_lookup_2.
Qed.

Lemma linked_add_primitive_step (prim : MeshPrimitive.t F) n ptr s mei s1 :
  ptr < n →
  (me ← deref (MeshData.edges mesh) mei;
   v1 ← get_uv_vert prim (MeshEdge.vert1 me);
   v2 ← get_uv_vert prim (MeshEdge.vert2 me);
   let '(isl1, p1) := UVIsland_lookup_or_create_vertex s
                        (UVVertex_new (MeshUVVert.vertex v1) (MeshUVVert.uv v1)) in
   let '(isl2, p2) := UVIsland_lookup_or_create_vertex isl1
                        (UVVertex_new (MeshUVVert.vertex v2) (MeshUVVert.uv v2)) in
   let '(isl3, uv_edge) := UVIsland_lookup_or_create_edge isl2 (p1, p2) in
   up ← deref (UVIsland.uv_primitives isl3) ptr;
   let isl4 := set_uv_primitives isl3
                 (<[ptr :=
                      UVPrimitive.mk (UVPrimitive.primitive up)
                        (UVPrimitive.edges up ++ [uv_edge])]>
                    (UVIsland.uv_primitives isl3)) in
   isl5 ← UVEdge_append_to_uv_vertices isl4 uv_edge;
   e ← deref (UVIsland.uv_edges isl5) uv_edge;
   Ret (set_uv_edges isl5
          (<[uv_edge := UVEdge.mk (UVEdge.vertices e)
                          (UVEdge.uv_primitives e ++ [ptr])]>
             (UVIsland.uv_edges isl5)))) = Ret s1 →
  stores_linked n s →
  stores_linked n s1
  ∧ UVIsland.borders s1 = UVIsland.borders s
  ∧ length (UVIsland.uv_primitives s1) = length (UVIsland.uv_primitives s).
Proof.
  intros Hptr H Hs.
  apply bind_Ret in H as (me & Hme & H). apply deref_Ret in Hme.
  apply bind_Ret in H as (v1 & Hv1 & H). apply bind_Ret in H as (v2 & Hv2 & H).
  destruct (UVIsland_lookup_or_create_vertex s _) as [isl1 p1] eqn:E1.
  destruct (UVIsland_lookup_or_create_vertex isl1 _) as [isl2 p2] eqn:E2.
  destruct (UVIsland_lookup_or_create_edge isl2 _) as [isl3 uv_edge] eqn:E3.
  apply bind_Ret in H as (up & Hup & H). apply deref_Ret in Hup.
  apply bind_Ret in H as (isl5 & H5 & H).
  apply bind_Ret in H as (e & He & H). apply deref_Ret in He.
  injection H as <-.
  destruct (linked_vertex n _ _ _ _ E1) as [(L1 & V1 & _ & P1 & B1) Hp1].
  destruct (linked_vertex n _ _ _ _ E2) as [(L2 & V2 & _ & P2 & B2) Hp2].
  destruct (linked_edge n _ _ _ _ _ E3) as [(L3 & _ & _ & P3 & B3) [Hedge _]];
    [lia|done|].
  set (isl4 := set_uv_primitives isl3 _) in *.
  assert (stores_linked n isl4) as L4.
  { pose proof (L3 (L2 (L1 Hs))) as L. pose proof (linked_primitive_edges _ _ _ _ L Hup).
    destruct L as (Le & Lv & Lp). split; [done|]. split; [done|]. simpl.
    apply Forall_insert; [done|]. simpl. apply Forall_app. split; [done|].
    by constructor. }
  destruct (linked_edge_vertices n _ _ _ H5) as [(L5 & _ & _ & P5 & B5) _].
  destruct (linked_set_edge n isl5 uv_edge e (UVEdge.uv_primitives e ++ [ptr]) He)
    as (L6 & _ & _ & P6 & B6).
  { intros Hu. apply Forall_app. split; [done|]. by constructor. }
  split; [auto|]. split.
  - rewrite B6, B5. unfold isl4. simpl. congruence.
  - rewrite P6, P5. unfold isl4. simpl. rewrite length_insert. congruence.
Qed.

Lemma linked_add_primitive isl primitive isl' :
  add_primitive mesh isl primitive = Ret isl' →
  stores_linked (length (UVIsland.uv_primitives isl)) isl →
  stores_linked (length (UVIsland.uv_primitives isl')) isl'
  ∧ UVIsland.borders isl' = UVIsland.borders isl.
Proof.
  intros H Hs. unfold add_primitive in H.
  apply bind_Ret in H as (prim & Hprim & H). apply deref_Ret in Hprim.
  set (n := S (length (UVIsland.uv_primitives isl))).
  assert (length (UVIsland.uv_primitives isl) < n) as Hptr by (unfold n; lia).
  assert (stores_linked n isl' ∧ UVIsland.borders isl' = UVIsland.borders isl
          ∧ length (UVIsland.uv_primitives isl') = n) as (Hl & Hb & Hn).
  { revert H. apply (foldM_ind (λ s, stores_linked n s
                                   ∧ UVIsland.borders s = UVIsland.borders isl
                                   ∧ length (UVIsland.uv_primitives s) = n)).
    - intros s mei s1 _ (Hl & Hb & Hn) Hstep.
      destruct (linked_add_primitive_step prim n _ _ _ _ Hptr Hstep Hl)
        as (Hl1 & Hb1 & Hn1).
      split; [done|]. split; congruence.
    - split; [|split; [done|]].
      + apply linked_append; [|by constructor]. eapply linked_weaken; [|exact Hs].
        unfold n. lia.
      + simpl. rewrite length_app. simpl. unfold n. lia. }
  split; [by rewrite Hn|done].
Qed.

Lemma linked_island_of_mesh uv_island_id isl :
  UVIsland_of_mesh mesh uv_island_id = Ret isl → no_dangling isl.
Proof.
  unfold UVIsland_of_mesh. intros H.
  assert (stores_linked (length (UVIsland.uv_primitives isl)) isl
          ∧ UVIsland.borders isl = []) as [Hl Hb].
  { revert H.
    apply (foldM_ind (λ s, stores_linked (length (UVIsland.uv_primitives s)) s
                           ∧ UVIsland.borders s = [])).
    - intros s [i prim] s1 _ [Hl Hb] Hstep. simpl in Hstep. case_bool_decide.
      + destruct (linked_add_primitive _ _ _ Hstep Hl) as [Hl1 Hb1].
        split; [done|congruence].
      + by simplify_eq.
    - split; [|done]. by repeat split. }
  split; [done|]. unfold borders_linked. rewrite Hb. constructor.
Qed.

(** The island [isl1] has linked stores that are at least as large as those
    of [isl], and the borders of [isl]. *)
Local Abbreviation grew isl isl1 :=
  (stores_linked (length (UVIsland.uv_primitives isl1)) isl1
   ∧ UVIsland.borders isl1 = UVIsland.borders isl
   ∧ length (UVIsland.uv_vertices isl) ≤ length (UVIsland.uv_vertices isl1)
   ∧ length (UVIsland.uv_edges isl) ≤ length (UVIsland.uv_edges isl1)
   ∧ length (UVIsland.uv_primitives isl) ≤ length (UVIsland.uv_primitives isl1)).







(** The border edge points into the stores of the island. *)
Local Abbreviation valid_in isl be :=
  (UVBorderEdge.edge be < length (UVIsland.uv_edges isl)
   ∧ UVBorderEdge.uv_primitive be < length (UVIsland.uv_primitives isl)).






(** The island of the state grew from [isl0], and the border edges that the
    state has collected point into it. *)
Local Abbreviation state_ok isl0 st :=
  (grew isl0 (fs_island st)
   ∧ Forall (λ be, valid_in (fs_island st) be) (fs_new_border_edges st)).





Lemma stores_linked_borders n isl bs : stores_linked n isl → stores_linked n (set_borders isl bs).
Proof. done. Qed.















End Links.

(** X26. The islands that [UVIslands::UVIslands] builds have no dangling
    pointer: the two vertices of every UV edge, the UV primitives of every
    UV edge, and the UV edges of every UV vertex and of every UV primitive
    are elements of the stores of the island. *)
Theorem built_islands_have_no_dangling_pointer {F} {O : FloatOps F} (mesh : MeshData.t F)
    (islands : list (UVIsland.t F)) :
  UVIslands_new mesh = Ret islands → Forall no_dangling islands.
Proof.
  unfold UVIslands_new.
  apply (foldM_ind (λ islands, Forall no_dangling islands)); [|constructor].
  intros done id done' _ Hdone H. res_inv. subst.
  apply Forall_app. split; [done|]. constructor; [|constructor].
  by eapply linked_island_of_mesh.
Qed.

(** X27. [UVIsland::extract_borders] keeps the island free of dangling
    pointers: the stores are untouched, and the UV edge and the UV primitive
    of every border edge of the borders it appends are elements of the
    stores. *)
Theorem extract_borders_keeps_pointers {F} {O : FloatOps F} (isl isl' : UVIsland.t F) :
  no_dangling isl → UVIsland_extract_borders isl = Ret isl' → no_dangling isl'.
Proof.
  intros [Hs Hb] H. unfold UVIsland_extract_borders in H. res_inv. subst.
  rename a into candidates.
  match goal with Hx : extract_borders_loop _ _ _ _ = Ret _ |- _ =>
    apply PartitionFacts.loop_partition in Hx as (new & -> & Hnew) end.
  destruct (PartitionFacts.candidates_spec _ _ Ha) as [Htag Hkeys].
  rewrite (PartitionFacts.untagged_all _ Htag) in Hnew.
  split; [done|]. unfold borders_linked in *. simpl. apply Forall_app. split; [done|].
  rewrite Forall_forall. intros b Hin. rewrite Forall_forall. intros be Hbe.
  assert (edge_key be ∈ edge_key <$> candidates) as Hkey.
  { rewrite <- Hnew. apply list_elem_of_fmap. exists be. split; [done|].
    unfold edges_of_borders. apply list_elem_of_bind. by exists b. }
  apply Hkeys in Hkey as (prim & e & Hp & _ & He & _).
  split; by eapply lookup_lt_Some.
Qed.


End LinkFacts.

(** ** More examples *)

Module MoreExampleFacts.
Import Mask MaskOps Examples MoreExamples.

Lemma dilate_pass_reports_change_witness :
  ((dilate_x small_tile).2 = true ↔ mask (dilate_x small_tile).1 ≠ mask small_tile)
  ∧ ((dilate_y small_tile).2 = true ↔ mask (dilate_y small_tile).1 ≠ mask small_tile).
Proof.
  apply (MaskMoreFacts.dilate_pass_reports_change small_tile). reflexivity.
Defined.

Lemma dilate_composes_witness :
  dilate (dilate [small_tile] 1) 2 = dilate [small_tile] (1 + 2).
Proof. apply (MaskMoreFacts.dilate_composes [small_tile] 1 2); lia. Defined.

Lemma dilate_invents_no_island_witness : 7%Z ∈ mask small_tile.
Proof.
  apply (MaskMoreFacts.dilate_invents_no_island small_tile 2 7).
  - reflexivity.
  - apply (bool_decide_unpack _). vm_compute. exact I.
Defined.

Lemma dilate_pass_reads_previous_mask_witness :
  mask (dilate_x small_tile).1 !!! (1 * 4 + 2) = 7%Z
  ∧ mask (dilate_y small_tile).1 !!! (1 * 4 + 2) = unclaimed.
Proof.
  pose proof (MaskMoreFacts.dilate_pass_reads_previous_mask small_tile 4 3 1 2
                eq_refl eq_refl ltac:(lia) ltac:(lia)) as [Hx Hy].
  split; [rewrite Hx|rewrite Hy]; vm_compute; reflexivity.
Defined.

Lemma inner_edge_starts_at_vertex_witness :
  ∃ ie, InnerEdge_new cone 3 1 = Ret ie
        ∧ InnerEdge.vert_order ie ∈ [(0, 1, 2); (1, 2, 0); (2, 0, 1)]
        ∧ inner_edge_vertex cone ie 0 = Ret 1.
Proof.
  destruct (InnerEdge_new cone 3 1) as [ie| |] eqn:E;
    [|vm_compute in E; discriminate..].
  destruct (InnerEdgeFacts.inner_edge_starts_at_vertex cone 3 1 _ ie eq_refl E)
    as (_ & _ & Horder & Hvertex).
  exists ie. split; [done|]. split; [done|]. apply Hvertex. reflexivity.
Defined.

Lemma find_fill_border_finds_witness :
  ∃ mv ei me prim,
    MeshData.vertices cone !! 0 = Some mv
    ∧ ei ∈ MeshVertex.edges mv ∧ MeshData.edges cone !! ei = Some me
    ∧ 0 ∈ MeshEdge.primitives me
    ∧ MeshData.primitives cone !! 0 = Some prim
    ∧ has_vertex prim 0 = true ∧ has_vertex prim 1 = true ∧ has_vertex prim 2 = true.
Proof.
  destruct (FindFillFacts.find_fill_border_finds cone 0 1 2 (Some 0))
    as (mv & Hmv & ei & me & prim & H).
  - vm_compute. reflexivity.
  - by exists mv, ei, me, prim.
Defined.

Lemma find_fill_border_corner_result_witness :
  ∃ me prim other,
    2 ∈ MeshEdge.primitives me
    ∧ MeshData.primitives tripod !! 2 = Some prim
    ∧ MeshPrimitive_get_other_uv_vertex prim (MeshEdge.vert1 me) (MeshEdge.vert2 me)
      = Some other
    ∧ MeshUVVert.vertex other = 1.
Proof.
  destruct (FindFillFacts.find_fill_border_corner_result tripod tripod_island
              tripod_corner (Some 2))
    as (first & second & a & c & Hfirst & Hsecond & Ha & Hc & H).
  - vm_compute. reflexivity.
  - vm_compute in Hfirst, Hsecond. simplify_eq.
    vm_compute in Ha, Hc. simplify_eq.
    destruct H as [[Hne _]|(_ & a0 & c1 & Ha0 & Hc1 & H)]; [done|].
    vm_compute in Ha0, Hc1. simplify_eq.
    destruct H as [[Heq _]|[_ H]]; [done|].
    destruct (H 2 eq_refl)
      as (sv & mv & ei & me & fe & target & prim & other & _ & _ & _ & _ & _ & _
          & Htarget & Hp & Hprim & Hother & Hv).
    vm_compute in Htarget. simplify_eq.
    by exists me, prim, other.
Defined.

Lemma add_primitive_appends_witness :
  ∃ edges,
    UVIsland.uv_primitives tri_island = [UVPrimitive.mk 0 edges]
    ∧ length edges = 3.
Proof.
  destruct (StoreFacts.add_primitive_appends tri no_island tri_island 0)
    as (prim & Hprim & _ & _ & edges & Hedges & Hall).
  - vm_compute. reflexivity.
  - exists edges. split; [exact Hedges|].
    apply Forall2_length in Hall. rewrite <- Hall.
    vm_compute in Hprim. by simplify_eq.
Defined.

Lemma islands_partition_primitives_witness :
  ∃ islands first second,
    UVIslands_new partial = Ret islands
    ∧ islands = [first; second]
    ∧ UVPrimitive.primitive <$> UVIsland.uv_primitives first = [0; 1]
    ∧ UVPrimitive.primitive <$> UVIsland.uv_primitives second = [2; 3].
Proof.
  destruct (UVIslands_new partial) as [islands| |] eqn:E;
    [|vm_compute in E; discriminate..].
  destruct (StoreFacts.islands_partition_primitives partial islands E) as [Hlen Hall].
  destruct islands as [|first [|second [|? ?]]]; try discriminate Hlen.
  exists [first; second], first, second.
  split; [done|]. split; [done|].
  split; [exact (Hall 0 first eq_refl)|exact (Hall 1 second eq_refl)].
Defined.

Lemma reset_flags_marks_border_vertices_witness :
  ∃ isl', reset_extendability_flags cone_island = Ret isl'
          ∧ UVIsland.borders isl' = UVIsland.borders cone_island
          ∧ length (UVIsland.uv_vertices isl') = length (UVIsland.uv_vertices cone_island).
Proof.
  destruct (reset_extendability_flags cone_island) as [isl'| |] eqn:E;
    [|vm_compute in E; discriminate..].
  destruct (BorderMoreFacts.reset_flags_marks_border_vertices cone_island isl' E)
    as (_ & _ & Hb & Hlen & _).
  by exists isl'.
Defined.

Lemma update_indexes_links_cycle_witness :
  ∃ be prev next,
    UVBorder.edges tri_border !! 2 = Some be
    ∧ at_index (UVBorder.edges tri_border) (UVBorderEdge.prev_index be) = Ret prev
    ∧ UVBorderEdge.next_index prev = 2%Z
    ∧ at_index (UVBorder.edges tri_border) (UVBorderEdge.next_index be) = Ret next
    ∧ UVBorderEdge.prev_index next = 2%Z.
Proof.
  destruct (lookup_lt_is_Some_2 (UVBorder.edges tri_border) 2) as [be Hbe];
    [vm_compute; lia|].
  destruct (BorderMoreFacts.update_indexes_links_cycle tri_border 0 2 be)
    as (_ & _ & _ & _ & (prev & Hprev & Hpn) & (next & Hnext & Hnp) & _).
  - exact Hbe.
  - exists be, prev, next. repeat split; assumption.
Defined.

Lemma extend_at_vert_only_adds_witness :
  only_adds cone_island cone_extended
  ∧ flags_ext (UVIsland.uv_vertices cone_island) (UVIsland.uv_vertices cone_extended).
Proof.
  apply (GrowthFacts.extend_at_vert_only_adds cone 100 cone_island cone_extended
           cone_corner (QFloat.q 1 100)).
  vm_compute. reflexivity.
Defined.

Lemma extend_border_only_adds_witness :
  only_adds (with_borders (island_of cone)) cone_pass
  ∧ sharpest_border_corner cone_pass = Ret None.
Proof.
  apply (GrowthFacts.extend_border_only_adds cone 20 100 [centre_tile] 0
           (with_borders (island_of cone)) cone_pass).
  vm_compute. reflexivity.
Defined.

Lemma add_uv_island_stays_in_mask_witness :
  ∃ t', Raster.add_uv_island tri small_tile tri_island 0 = Ret t'
        ∧ Raster.same_shape small_tile t' ∧ well_formed t'.
Proof.
  apply (RasterFacts.add_uv_island_stays_in_mask tri small_tile tri_island 0).
  - reflexivity.
  - intros p Hp. apply list_elem_of_singleton in Hp as ->.
    eexists _, _. split; [reflexivity|]. split; [simpl; lia|]. vm_compute. reflexivity.
Defined.

Lemma add_uv_island_stamps_cells_witness :
  Raster.cell small_tile_added 1 1 = Some 0%Z
  ∧ Raster.cell small_tile_added 3 1 = Some unclaimed.
Proof.
  destruct (RasterFacts.add_uv_island_stamps_cells tri small_tile small_tile_added
              tri_island 0) as [_ Hcells].
  - vm_compute. reflexivity.
  - split.
    + rewrite (Hcells 1%Z 1%Z) by (simpl; lia). vm_compute. reflexivity.
    + rewrite (Hcells 3%Z 1%Z) by (simpl; lia). vm_compute. reflexivity.
Defined.

Lemma mask_add_last_island_wins_witness :
  ∃ t', small_tiles_added !! 0 = Some t' ∧ Raster.cell t' 1 0 = Some 1%Z.
Proof.
  pose proof (RasterFacts.mask_add_last_island_wins partial [small_tile] small_tiles_added
                partial_islands) as Hall.
  destruct (Forall2_lookup_l _ _ _ 0 small_tile (Hall ltac:(vm_compute; reflexivity)) eq_refl)
    as (t' & Ht' & _ & Hcells).
  exists t'. split; [done|].
  destruct (Hcells 1%Z 0%Z) as [_ Hlast]; [simpl; lia|lia|].
  destruct (partial_islands !! 1) as [isl|] eqn:Hisl; [|discriminate Hisl].
  apply (Hlast 1 isl Hisl).
  - vm_compute in Hisl. simplify_eq. vm_compute. reflexivity.
  - intros k' isl' Hk' Hlt. apply lookup_lt_Some in Hk'.
    change (length partial_islands) with 2 in Hk'. lia.
Defined.

Lemma fan_walks_around_vertex_witness :
  ∃ path edge,
    fan_walk partial 0 (0, 0) path
    ∧ InnerEdge.primitive <$> Fan.inner_edges partial_fan = snd <$> path
    ∧ last path = Some (edge, 0).
Proof.
  destruct (FanFacts.fan_walks_around_vertex partial 100 0 partial_fan)
    as (mv & first_edge & ce & stop & path & Hmv & Hfirst & Hce & Hstop & Hwalk & Hprims
        & _ & _ & Hfull & _); [vm_compute; reflexivity|].
  vm_compute in Hmv. simplify_eq. vm_compute in Hfirst. simplify_eq.
  vm_compute in Hce. simplify_eq. vm_compute in Hstop. simplify_eq.
  destruct (Hfull eq_refl) as [edge Hlast]. by exists path, edge.
Defined.

Lemma mark_segments_finds_island_edges_witness :
  Fan.full partial_fan_marked = Fan.full partial_fan_placed
  ∧ Fan_count_num_to_add partial_fan_marked ≤ length (Fan.inner_edges partial_fan_placed).
Proof.
  destruct (FanFacts.mark_segments_finds_island_edges partial partial_island
              partial_fan_placed partial_fan_marked partial_vertex)
    as (Hfull & _ & Hcount & _); [vm_compute; reflexivity|]. by split.
Defined.

Lemma init_uv_coordinates_chains_blades_witness :
  length (Fan.inner_edges partial_fan_placed) = length (Fan.inner_edges partial_fan)
  ∧ ∃ ie' next',
      Fan.inner_edges partial_fan_placed !! 1 = Some ie'
      ∧ Fan.inner_edges partial_fan_placed !! 2 = Some next'
      ∧ InnerEdge.uvs ie' !! 2 = InnerEdge.uvs next' !! 1.
Proof.
  destruct (FanFacts.init_uv_coordinates_chains_blades partial partial_island
              partial_fan partial_fan_placed partial_vertex)
    as (_ & _ & Hlen & Hall).
  - repeat constructor.
  - vm_compute. reflexivity.
  - split; [exact Hlen|].
    destruct (lookup_lt_is_Some_2 (Fan.inner_edges partial_fan) 1) as [ie Hie];
      [vm_compute; lia|].
    destruct (Hall 1 ie Hie) as (ie' & next' & Hie' & Hnext & _ & _ & _ & _ & Hchain & _).
    by exists ie', next'.
Defined.

Lemma extracted_borders_partition_witness :
  ∃ candidates new,
    border_edges_of_island annulus_island = Ret candidates
    ∧ UVIsland.borders annulus_bordered = UVIsland.borders annulus_island ++ new
    ∧ edge_key <$> edges_of_borders new ≡ₚ edge_key <$> candidates.
Proof.
  destruct (PartitionFacts.extracted_borders_partition annulus_island annulus_bordered)
    as (candidates & new & Hc & Hb & Hperm & _); [vm_compute; reflexivity|].
  exists candidates, new. split; [exact Hc|]. split; [exact Hb|exact Hperm].
Defined.

Lemma built_islands_have_no_dangling_pointer_witness : Forall no_dangling partial_islands.
Proof.
  apply (LinkFacts.built_islands_have_no_dangling_pointer partial partial_islands).
  vm_compute. reflexivity.
Defined.

Lemma extract_borders_keeps_pointers_witness : no_dangling tri_bordered.
Proof.
  apply (LinkFacts.extract_borders_keeps_pointers tri_island tri_bordered).
  - unfold no_dangling, stores_linked, borders_linked.
    apply (bool_decide_unpack _). vm_compute. exact I.
  - vm_compute. reflexivity.
Defined.


End MoreExampleFacts.
